(** * Duplicate-image detector: detection engine and data-safety engine

    A shallow embedding of the JavaScript sources

    - [aiDetectionEnterprise.js] (multi-provider detector used by [main.js]),
    - [aiDetectionSimplified.js] (local-only detector),
    - [safety/dataSafetyManager.js], [deletion/deletionManager.js] and the
      [delete-files] handler of [main.js],

    followed by the properties established about them.

    Conventions.  JavaScript numbers are IEEE doubles; scores, weights and
    thresholds are embedded as exact rationals ([Q]), so a statement about a
    score is a statement about the real-number value the code computes, before
    rounding.  [await] is sequencing; an exception is an explicit result.
    Library calls (jimp, fs-extra, trash, crypto, the vision APIs) are taken
    as parameters gathered in records, one record per collaborator. *)

From Stdlib Require Import ZArith QArith Qminmax Qround List Bool Lia Lqa Permutation Ascii Sorted.
From stdpp Require Import gmap strings list fin_maps pretty.

Set Default Proof Using "Type".

(* ===================================================================== *)
(** * Part I: the embedding                                               *)
(* ===================================================================== *)

(** ** JavaScript numbers where a division by zero can be reached *)

Inductive jsnum : Type :=
  | Num (q : Q)
  | NaN.

(** [x >= t] on a number that may be NaN: every comparison with NaN is false. *)
Definition js_ge (x : jsnum) (t : Q) : bool :=
  match x with
  | Num q => Qle_bool t q
  | NaN => false
  end.

(** [a / b] for integers [a], [b]; [0 / 0] is NaN.  (A non-zero numerator over
    zero would be an infinity; the code below never forms one.) *)
Definition js_div_nat (a b : nat) : jsnum :=
  match b with
  | O => NaN
  | S _ => Num (inject_Z (Z.of_nat a) / inject_Z (Z.of_nat b))%Q
  end.

(** [x] is the number [v] (and not NaN). *)
Definition js_is (x : jsnum) (v : Q) : Prop :=
  match x with
  | Num q => (q == v)%Q
  | NaN => False
  end.

(** [x < y] and [x <= y] on numbers that may be NaN: false when either is. *)
Definition js_lt (x y : jsnum) : Prop :=
  match x, y with
  | Num a, Num b => (a < b)%Q
  | _, _ => False
  end.

Definition js_le (x y : jsnum) : Prop :=
  match x, y with
  | Num a, Num b => (a <= b)%Q
  | _, _ => False
  end.

(** [x + y], [x * y] and [Math.min(x, y)]: NaN when an operand is. *)
Definition js_add (x y : jsnum) : jsnum :=
  match x, y with
  | Num a, Num b => Num (a + b)%Q
  | _, _ => NaN
  end.

Definition js_mul (x y : jsnum) : jsnum :=
  match x, y with
  | Num a, Num b => Num (a * b)%Q
  | _, _ => NaN
  end.

Definition js_min (x y : jsnum) : jsnum :=
  match x, y with
  | Num a, Num b => Num (Qmin a b)
  | _, _ => NaN
  end.

(** The rational a number is; used only where the number is not NaN. *)
Definition js_value (x : jsnum) : Q :=
  match x with
  | Num q => q
  | NaN => 0%Q
  end.

(** Sum of a list of rationals, for stating what an accumulator holds. *)
Definition Qsum (l : list Q) : Q := foldr Qplus 0%Q l.

(** ** Exceptions *)

(** The outcome of a call that may throw: a value, or the message of the
    [Error]. *)
Inductive result (A : Type) : Type :=
  | Ok (a : A)
  | Throw (message : string).
Arguments Ok {A} a.
Arguments Throw {A} message.

Definition is_ok {A : Type} (r : result A) : bool :=
  match r with Ok _ => true | Throw _ => false end.

(** ** [Array.prototype.sort] with a comparator

    The sort is stable.  [cmp a b > 0] puts [b] before [a]; otherwise the
    input order of [a] and [b] is kept.  An element is inserted in front of
    the already sorted elements that followed it, and moves right only past
    those that must come before it. *)
Fixpoint sort_insert {A : Type} (cmp : A -> A -> Q) (x : A) (sorted : list A)
  : list A :=
  match sorted with
  | [] => [x]
  | y :: rest =>
      if Qle_bool (cmp x y) 0 then x :: y :: rest
      else y :: sort_insert cmp x rest
  end.

Definition js_sort {A : Type} (cmp : A -> A -> Q) (l : list A) : list A :=
  foldr (sort_insert cmp) [] l.

(** ** A [Map] from strings to arrays

    A JavaScript [Map] iterates in insertion order of its keys, so it is an
    association list.  [map_push key x m] is
    [if (!m.has(key)) m.set(key, []); m.get(key).push(x)]. *)
Fixpoint map_push {A : Type} (key : string) (x : A) (m : list (string * list A))
  : list (string * list A) :=
  match m with
  | [] => [(key, [x])]
  | (k, l) :: m' =>
      if String.eqb k key then (k, l ++ [x]) :: m'
      else (k, l) :: map_push key x m'
  end.

(** [m.get(key)], the empty array standing for a missing key. *)
Fixpoint map_get {A : Type} (key : string) (m : list (string * list A)) : list A :=
  match m with
  | [] => []
  | (k, l) :: m' => if String.eqb k key then l else map_get key m'
  end.

(** Filling a [Map] with the elements of an array, each under its key. *)
Definition fill {A : Type} (key : A -> string) (m : list (string * list A))
    (l : list A) : list (string * list A) :=
  foldl (fun m x => map_push (key x) x m) m l.

Definition groupBy {A : Type} (key : A -> string) (l : list A)
  : list (string * list A) :=
  fill key [] l.

(** A string without the separator character of a combined key. *)
Fixpoint dashFree (s : string) : Prop :=
  match s with
  | EmptyString => True
  | String c r => c <> "-"%char /\ dashFree r
  end.

(** A string in which the character [c] does not occur. *)
Fixpoint lacks (c : Ascii.ascii) (s : string) : Prop :=
  match s with
  | EmptyString => True
  | String d r => d <> c /\ lacks c r
  end.

(** ** Configuration ([AI_CONFIG]) *)

Module AI_CONFIG.
Definition similarityThreshold : Q := (92 # 100)%Q.
(** The literal [0.9] of the match test in [detectWithEnterpriseAI]. *)
Definition minimumConfidence : Q := (9 # 10)%Q.
End AI_CONFIG.

(* --------------------------------------------------------------------- *)
(** ** Local similarity methods ([aiDetectionEnterprise.js], lines 580-774) *)
(* --------------------------------------------------------------------- *)

Module Similarity.

(** One RGBA cell of [bitmap.data]; the channels are bytes, the alpha byte
    is never read by the code. *)
Record Pixel : Type := mkPixel { red : nat; green : nat; blue : nat }.

(** A decoded image in the order [image.scan] visits it. *)
Definition Bitmap : Type := list Pixel.

Definition pixel_ok (p : Pixel) : Prop :=
  (red p < 256 /\ green p < 256 /\ blue p < 256)%nat.

(** The part of jimp the detector calls.  [jimp_read] is [None] when
    [jimp.read] rejects (unreadable or undecodable file). *)
Record Jimp : Type := {
  jimp_read : string -> option Bitmap;
  jimp_resize : nat -> nat -> Bitmap -> Bitmap;
  jimp_greyscale : Bitmap -> Bitmap
}.

(** [calculateHashSimilarity]: the loop [for (i = 0; i < hash1.length; i++)]
    runs after the length guard, so both strings are walked in step. *)
Fixpoint countMatches (hash1 hash2 : string) : nat :=
  match hash1, hash2 with
  | String a r1, String b r2 =>
      ((if Ascii.eqb a b then 1 else 0) + countMatches r1 r2)%nat
  | _, _ => O
  end.

Definition calculateHashSimilarity (hash1 hash2 : string) : jsnum :=
  if negb (Nat.eqb (String.length hash1) (String.length hash2)) then Num 0%Q
  else js_div_nat (countMatches hash1 hash2) (String.length hash1).

(** [generatePerceptualHash], after [image.resize(8, 8).greyscale()]: the
    two scans read the first byte of every cell. *)
Definition averageOf (bmp : Bitmap) : Q :=
  let sum := foldl (fun s p => (s + Z.of_nat (red p))%Z) 0%Z bmp in
  (inject_Z sum / inject_Z (Z.of_nat (length bmp)))%Q.

Definition hashBits (average : Q) (bmp : Bitmap) : string :=
  foldl (fun hash p =>
           hash +:+ (if Qle_bool (inject_Z (Z.of_nat (red p))) average
                     then "0" else "1"))
        "" bmp.

Definition averageHash (bmp : Bitmap) : string :=
  hashBits (averageOf bmp) bmp.

Definition generatePerceptualHash (J : Jimp) (imagePath : string)
  : option string :=
  match jimp_read J imagePath with
  | Some image => Some (averageHash (jimp_greyscale J (jimp_resize J 8 8 image)))
  | None => None
  end.

(** [calculatePerceptualHash]: any exception becomes similarity 0. *)
Definition calculatePerceptualHash (J : Jimp) (imagePath1 imagePath2 : string)
  : jsnum :=
  match generatePerceptualHash J imagePath1,
        generatePerceptualHash J imagePath2 with
  | Some hash1, Some hash2 => calculateHashSimilarity hash1 hash2
  | _, _ => Num 0%Q
  end.

(** [calculateStructuralSimilarity].  [Math.sqrt] is a parameter. *)
Definition sq (z : Z) : Z := (z * z)%Z.

Definition pixelDiff (sqrt : Q -> Q) (p1 p2 : Pixel) : Q :=
  sqrt (inject_Z (sq (Z.of_nat (red p1) - Z.of_nat (red p2))
                  + sq (Z.of_nat (green p1) - Z.of_nat (green p2))
                  + sq (Z.of_nat (blue p1) - Z.of_nat (blue p2)))).

(** The scan walks [image1]; [image2.getPixelColor(x, y)] reads the cell at
    the same position, both images being 64 x 64 after the resize. *)
Definition totalDiff (sqrt : Q -> Q) (image1 image2 : Bitmap) : Q :=
  foldl (fun total pq => (total + pixelDiff sqrt (fst pq) (snd pq))%Q) 0%Q
        (zip image1 image2).

Definition calculateStructuralSimilarity (sqrt : Q -> Q) (J : Jimp)
    (imagePath1 imagePath2 : string) : jsnum :=
  match jimp_read J imagePath1, jimp_read J imagePath2 with
  | Some i1, Some i2 =>
      let size := 64%nat in
      let image1 := jimp_resize J size size i1 in
      let image2 := jimp_resize J size size i2 in
      let pixelCount := length image1 in
      match pixelCount with
      | O => NaN
      | S _ =>
          let avgDiff :=
            (totalDiff sqrt image1 image2
             / inject_Z (Z.of_nat pixelCount))%Q in
          let maxDiff := sqrt (inject_Z (3 * sq 255)) in
          Num (1 - avgDiff / maxDiff)%Q
      end
  | _, _ => Num 0%Q
  end.

(** [generateHistogram]: three arrays of 256 counters, one per channel. *)
Record Histogram : Type := mkHistogram {
  hist_r : list nat; hist_g : list nat; hist_b : list nat
}.

Definition emptyHistogram : Histogram :=
  mkHistogram (replicate 256 O) (replicate 256 O) (replicate 256 O).

(** [bins[k]++].  The index is a byte of the bitmap buffer, so it is always
    inside the 256 counters; outside them the list is left unchanged. *)
Definition bump (k : nat) (bins : list nat) : list nat :=
  match bins !! k with
  | Some v => <[k := S v]> bins
  | None => bins
  end.

Definition histogramOf (bmp : Bitmap) : Histogram :=
  foldl (fun h p =>
           mkHistogram (bump (red p) (hist_r h))
                       (bump (green p) (hist_g h))
                       (bump (blue p) (hist_b h)))
        emptyHistogram bmp.

Definition generateHistogram (J : Jimp) (imagePath : string)
  : option Histogram :=
  match jimp_read J imagePath with
  | Some image => Some (histogramOf image)
  | None => None
  end.

(** [compareHistograms]: per channel, [correlation] accumulates
    [Math.min(hist1[channel][i], hist2[channel][i])] for [i] in 0..255; the
    three totals are added and divided by [3 * 256]. *)
Definition correlation (bins1 bins2 : list nat) : nat :=
  foldl (fun c i => (c + Nat.min (nth i bins1 O) (nth i bins2 O))%nat)
        O (seq 0 256).

Definition compareHistograms (hist1 hist2 : Histogram) : Q :=
  let similarity :=
    (correlation (hist_r hist1) (hist_r hist2)
     + correlation (hist_g hist1) (hist_g hist2)
     + correlation (hist_b hist1) (hist_b hist2))%nat in
  (inject_Z (Z.of_nat similarity) / inject_Z (3 * 256))%Q.

Definition calculateHistogramSimilarity (J : Jimp)
    (imagePath1 imagePath2 : string) : jsnum :=
  match generateHistogram J imagePath1, generateHistogram J imagePath2 with
  | Some hist1, Some hist2 => Num (compareHistograms hist1 hist2)
  | _, _ => Num 0%Q
  end.

(** The formula of the specification, for comparison with
    [compareHistograms]: per channel [sum(min(h1[i], h2[i])) / totalSamples],
    averaged over the three channels. *)
Definition histogramIntersectionSpec (hist1 hist2 : Histogram)
    (totalSamples : nat) : Q :=
  let channel bins1 bins2 :=
    (inject_Z (Z.of_nat (correlation bins1 bins2))
     / inject_Z (Z.of_nat totalSamples))%Q in
  ((channel (hist_r hist1) (hist_r hist2)
    + channel (hist_g hist1) (hist_g hist2)
    + channel (hist_b hist1) (hist_b hist2)) / 3)%Q.

End Similarity.

(** Test double for jimp, used by the closed examples: one decodable file of
    two pixels, sampling resize, channel-average greyscale. *)
Module SimilarityExample.
Import Similarity.

Definition twoPixels : Bitmap := [mkPixel 10 20 30; mkPixel 200 100 50].

Definition sampleResize (w h : nat) (bmp : Bitmap) : Bitmap :=
  map (fun k => nth (k * length bmp / (w * h)) bmp (mkPixel 0 0 0))
      (seq 0 (w * h)).

Definition greyOf (p : Pixel) : Pixel :=
  let v := ((red p + green p + blue p) / 3)%nat in mkPixel v v v.

Definition exampleJimp : Jimp :=
  {| jimp_read := fun p => if String.eqb p "a.png" then Some twoPixels else None;
     jimp_resize := sampleResize;
     jimp_greyscale := map greyOf |}.

(** Integer square root, standing in for [Math.sqrt]. *)
Definition floorSqrt (q : Q) : Q := inject_Z (Z.sqrt (Qfloor q)).

End SimilarityExample.

(* --------------------------------------------------------------------- *)
(** ** Provider consensus ([aiDetectionEnterprise.js], lines 218-290, 386-414) *)
(* --------------------------------------------------------------------- *)

Module Consensus.

(** The similarity sources of one detector, keyed by the two image paths.

    - A vision provider is [None] when its API key is still the placeholder
      (the [if] guarding the call is false).  A configured provider answers
      [Some s], the similarity its [compareWith...] computes, or [None] when
      the call throws (the [catch] only logs a warning).
    - A local method answers [None] when it fails; the code turns that into
      similarity 0 (the [catch] of the method itself, and again the
      [catch] inside [compareWithAdvancedLocal]). *)
Record Providers : Type := {
  googleVision : option (string -> string -> option Q);
  azureVision : option (string -> string -> option Q);
  awsRekognition : option (string -> string -> option Q);
  perceptualHash : string -> string -> option Q;
  structuralSimilarity : string -> string -> option Q;
  histogramSimilarity : string -> string -> option Q;
  featureMatching : string -> string -> option Q
}.

(** One element of [results]. *)
Record Vote : Type := mkVote {
  provider : string; similarity : Q; confidence : Q
}.

Record ConsensusResult : Type := mkConsensus {
  cons_similarity : Q;
  cons_confidence : Q;
  primaryProvider : string;
  providers : list string;
  individualResults : list Vote
}.

(** A local method with its failure turned into 0. *)
Definition orZero (r : option Q) : Q :=
  match r with Some q => q | None => 0%Q end.

Definition calculatePerceptualHash (P : Providers) (p1 p2 : string) : Q :=
  orZero (perceptualHash P p1 p2).

(** [compareWithAdvancedLocal]: [results.reduce] over the four methods with
    [weights = [0.3, 0.3, 0.2, 0.2]]; the confidence is the constant 0.8. *)
Definition localWeights : list Q := [3 # 10; 3 # 10; 2 # 10; 2 # 10]%Q.

Definition localResults (P : Providers) (p1 p2 : string) : list Q :=
  [ orZero (perceptualHash P p1 p2);
    orZero (structuralSimilarity P p1 p2);
    orZero (histogramSimilarity P p1 p2);
    orZero (featureMatching P p1 p2) ].

Definition compareWithAdvancedLocal (P : Providers) (p1 p2 : string) : Q * Q :=
  let weightedSimilarity :=
    foldl (fun sum rw => (sum + fst rw * snd rw)%Q) 0%Q
          (zip (localResults P p1 p2) localWeights) in
  (weightedSimilarity, (8 # 10)%Q).

(** [weights[result.provider] || 0.1] *)
Definition weightOf (provider : string) : Q :=
  if String.eqb provider "google" then (4 # 10)%Q
  else if String.eqb provider "azure" then (35 # 100)%Q
  else if String.eqb provider "aws" then (35 # 100)%Q
  else if String.eqb provider "local-advanced" then (2 # 10)%Q
  else (1 # 10)%Q.

(** One guarded provider call: the vote pushed on [results], if any. *)
Definition providerVote (api : option (string -> string -> option Q))
    (name : string) (conf : Q) (p1 p2 : string) : list Vote :=
  match api with
  | Some compare =>
      match compare p1 p2 with
      | Some s => [mkVote name s conf]
      | None => []
      end
  | None => []
  end.

(** [results] when the weighted consensus starts: the provider votes that
    were obtained, in the order google, azure, aws, then the local vote,
    which is pushed unconditionally. *)
Definition collectVotes (P : Providers) (p1 p2 : string) : list Vote :=
  providerVote (googleVision P) "google" (95 # 100)%Q p1 p2
  ++ providerVote (azureVision P) "azure" (93 # 100)%Q p1 p2
  ++ providerVote (awsRekognition P) "aws" (91 # 100)%Q p1 p2
  ++ [ mkVote "local-advanced"
              (fst (compareWithAdvancedLocal P p1 p2))
              (snd (compareWithAdvancedLocal P p1 p2)) ].

(** [primaryProvider]: the first provider that answered, else ['local']. *)
Definition primaryOf (votes : list Vote) : string :=
  match votes with
  | v :: _ :: _ => provider v
  | _ => "local"
  end.

(** The three accumulators of [results.forEach]. *)
Definition accumulate (votes : list Vote) : Q * Q * Q :=
  foldl (fun acc result =>
           let '(weightedSimilarity, weightedConfidence, totalWeight) := acc in
           let weight := weightOf (provider result) in
           ((weightedSimilarity + similarity result * weight)%Q,
            (weightedConfidence + confidence result * weight)%Q,
            (totalWeight + weight)%Q))
        (0%Q, 0%Q, 0%Q) votes.

Definition getMultiProviderConsensus (P : Providers) (p1 p2 : string)
  : ConsensusResult :=
  let results := collectVotes P p1 p2 in
  match results with
  | [] => mkConsensus 0 0 "none" [] []
  | _ :: _ =>
      let '(weightedSimilarity, weightedConfidence, totalWeight) :=
        accumulate results in
      mkConsensus (weightedSimilarity / totalWeight)
                  (weightedConfidence / totalWeight)
                  (primaryOf results)
                  (map provider results)
                  results
  end.

(** The weighted average of one field of the votes, normalised by the
    total weight of the votes present. *)
Definition weightedAverage (field : Vote -> Q) (votes : list Vote) : Q :=
  (Qsum (map (fun v => field v * weightOf (provider v)) votes)
   / Qsum (map (fun v => weightOf (provider v)) votes))%Q.

(** No vision provider contributes a vote for this pair. *)
Definition noProviderSucceeds (P : Providers) (p1 p2 : string) : Prop :=
  providerVote (googleVision P) "google" (95 # 100)%Q p1 p2 = []
  /\ providerVote (azureVision P) "azure" (93 # 100)%Q p1 p2 = []
  /\ providerVote (awsRekognition P) "aws" (91 # 100)%Q p1 p2 = [].

(** Every local method fails on this pair. *)
Definition noLocalMethodSucceeds (P : Providers) (p1 p2 : string) : Prop :=
  perceptualHash P p1 p2 = None /\ structuralSimilarity P p1 p2 = None
  /\ histogramSimilarity P p1 p2 = None /\ featureMatching P p1 p2 = None.

(** No vision provider configured, every local method failing. *)
Definition nothingSucceeds : Providers :=
  {| googleVision := None; azureVision := None; awsRekognition := None;
     perceptualHash := fun _ _ => None;
     structuralSimilarity := fun _ _ => None;
     histogramSimilarity := fun _ _ => None;
     featureMatching := fun _ _ => None |}.

End Consensus.

(* --------------------------------------------------------------------- *)
(** ** The multi-provider detector ([aiDetectionEnterprise.js])            *)
(* --------------------------------------------------------------------- *)

Module Enterprise.
Import Consensus.

(** An image record as [processImage] of the scanner builds it, with the
    three fields the detector adds by assignment.  [img_recommended] is
    [false] for a record that has no [recommended] property (the code only
    tests its truthiness). *)
Record Image : Type := mkImage {
  img_path : string;
  img_name : string;
  img_size : Z;                       (* bytes *)
  img_modified : Z;                   (* [new Date(modified).getTime()], ms *)
  img_format : option string;
  img_hash : string;
  img_resolution : Z;                 (* width * height *)
  img_qualityScore : option jsnum;
  img_recommended : bool;
  img_recommendationReason : option string
}.

(** Image records are objects: the groups hold references to them and
    [rankImagesWithML] and [verifySafetyBeforeReturn] assign to their
    fields.  The store is the heap of image objects; a reference is an
    index into it.  The [i]-th element of the array given to
    [detectDuplicates] is object [i]. *)
Abbreviation Ref := nat (only parsing).
Abbreviation Store := (list Image) (only parsing).

Definition noImage : Image :=
  mkImage "" "" 0 0 None "" 0 None false None.

Definition deref (st : Store) (r : Ref) : Image := nth r st noImage.

Definition setQualityScore (q : jsnum) (i : Image) : Image :=
  mkImage (img_path i) (img_name i) (img_size i) (img_modified i)
          (img_format i) (img_hash i) (img_resolution i)
          (Some q) (img_recommended i) (img_recommendationReason i).

Definition setRecommended (b : bool) (i : Image) : Image :=
  mkImage (img_path i) (img_name i) (img_size i) (img_modified i)
          (img_format i) (img_hash i) (img_resolution i)
          (img_qualityScore i) b (img_recommendationReason i).

Definition setReason (reason : string) (i : Image) : Image :=
  mkImage (img_path i) (img_name i) (img_size i) (img_modified i)
          (img_format i) (img_hash i) (img_resolution i)
          (img_qualityScore i) (img_recommended i) (Some reason).

(** [image.recommended], read through a reference. *)
Definition flag (st : Store) (r : Ref) : bool := img_recommended (deref st r).

(** Assignment to a field of the object behind [r]. *)
Definition update (f : Image -> Image) (r : Ref) (st : Store) : Store :=
  alter f r st.

Record Group : Type := mkGroup {
  grp_type : string;
  grp_images : list Ref;
  grp_similarity : Q;
  grp_confidence : string;
  grp_detectionMethod : string;
  grp_safetyVerified : bool
}.

Definition withImages (images : list Ref) (g : Group) : Group :=
  mkGroup (grp_type g) images (grp_similarity g) (grp_confidence g)
          (grp_detectionMethod g) (grp_safetyVerified g).

Definition withSafetyVerified (g : Group) : Group :=
  mkGroup (grp_type g) (grp_images g) (grp_similarity g) (grp_confidence g)
          (grp_detectionMethod g) true.

(** What surrounds one run of [detectDuplicates]. *)
Record Env : Type := {
  env_providers : Providers;
  (** whether the progress callback throws when it reports the comparison
      of these two images *)
  env_callbackThrows : Ref -> Ref -> bool;
  (** whether [createAnalysisBackup] writes its manifest without error *)
  env_analysisBackupOk : bool;
  (** [Date.now()] while the quality scores are computed *)
  env_now : Z
}.

(** *** [groupByHash]: a [Map] from [image.hash] to the images carrying it.
    A JavaScript [Map] iterates in insertion order of its keys. *)
Abbreviation HashMap := (list (string * list nat)) (only parsing).

Definition groupByHash (st : Store) (images : list Ref) : HashMap :=
  foldl (fun hashMap image => map_push (img_hash (deref st image)) image hashMap)
        [] images.

(** *** [detectWithEnterpriseAI] *)

Definition isMatch (consensus : ConsensusResult) : bool :=
  Qle_bool AI_CONFIG.similarityThreshold (cons_similarity consensus)
  && Qle_bool AI_CONFIG.minimumConfidence (cons_confidence consensus).

Definition consensusOf (P : Providers) (st : list Image) (a b : nat)
  : ConsensusResult :=
  getMultiProviderConsensus P (img_path (nth a st noImage))
                            (img_path (nth b st noImage)).

(** Loop state of one seed: the set [processed] of array positions and the
    array [similarImages]. *)
Abbreviation Scan := (gset nat * list nat)%type (only parsing).

Definition absorbInto (j : nat) (compareImage : Ref) (s : Scan) : Scan :=
  ({[ j ]} ∪ fst s, snd s ++ [compareImage]).

(** The body of the inner loop for a candidate at position [j] that is not
    yet processed: the [try] block, then the [catch] block when the [try]
    block threw.  [getMultiProviderConsensus] never throws (every provider
    call and every local method is guarded); the progress callback, called
    after the match test, can. *)
Definition comparePair (E : Env) (st : Store)
    (currentImage compareImage : Ref) (j : nat) (s : Scan) : Scan :=
  let p1 := img_path (deref st currentImage) in
  let p2 := img_path (deref st compareImage) in
  let consensus := getMultiProviderConsensus (env_providers E) p1 p2 in
  let s1 := if isMatch consensus then absorbInto j compareImage s else s in
  if env_callbackThrows E currentImage compareImage then
    let localSimilarity := calculatePerceptualHash (env_providers E) p1 p2 in
    if Qle_bool AI_CONFIG.similarityThreshold localSimilarity
    then absorbInto j compareImage s1
    else s1
  else s1.

(** The inner loop, [j] from [i + 1]: [later] are the array elements after
    the seed, with their positions. *)
Fixpoint scanLater (E : Env) (st : Store) (currentImage : Ref)
    (later : list (nat * Ref)) (s : Scan) : Scan :=
  match later with
  | [] => s
  | (j, compareImage) :: rest =>
      if decide (j ∈ fst s) then scanLater E st currentImage rest s
      else scanLater E st currentImage rest
             (comparePair E st currentImage compareImage j s)
  end.

Definition aiGroup (similarImages : list Ref) : Group :=
  mkGroup "ai-detected" similarImages AI_CONFIG.similarityThreshold "high"
          "multi-provider-ai" false.

(** The outer loop over the array positions. *)
Fixpoint seedLoop (E : Env) (st : Store) (items : list (nat * Ref))
    (processed : gset nat) (similarGroups : list Group) : list Group :=
  match items with
  | [] => similarGroups
  | (i, currentImage) :: rest =>
      if decide (i ∈ processed) then
        seedLoop E st rest processed similarGroups
      else
        let s := scanLater E st currentImage rest
                           ({[ i ]} ∪ processed, [currentImage]) in
        seedLoop E st rest (fst s)
                 (if (1 <? length (snd s))%nat
                  then similarGroups ++ [aiGroup (snd s)]
                  else similarGroups)
  end.

Definition detectWithEnterpriseAI (E : Env) (st : Store) (images : list Ref)
  : list Group :=
  seedLoop E st (zip (seq 0 (length images)) images) ∅ [].

(** A candidate absorbed by the [try] block: the consensus passed both
    tests. *)
Definition absorbedByConsensus (E : Env) (st : Store) (seed c : Ref) : Prop :=
  (AI_CONFIG.similarityThreshold
     <= cons_similarity (consensusOf (env_providers E) st seed c))%Q
  /\ (AI_CONFIG.minimumConfidence
      <= cons_confidence (consensusOf (env_providers E) st seed c))%Q.

(** A candidate absorbed by the [catch] block: the [try] block threw and
    the perceptual-hash similarity alone reached the threshold. *)
Definition absorbedByFallback (E : Env) (st : Store) (seed c : Ref) : Prop :=
  env_callbackThrows E seed c = true
  /\ (AI_CONFIG.similarityThreshold
      <= calculatePerceptualHash (env_providers E)
           (img_path (deref st seed)) (img_path (deref st c)))%Q.

(** Absorbed one way or the other. *)
Definition justified (E : Env) (st : Store) (seed c : Ref) : Prop :=
  absorbedByConsensus E st seed c \/ absorbedByFallback E st seed c.

(** A group is a seed followed by justified absorptions. *)
Definition seededGroup (E : Env) (st : Store) (g : Group) : Prop :=
  exists seed absorbed,
    grp_images g = seed :: absorbed /\ Forall (justified E st seed) absorbed.

(** *** [calculateQualityScore] *)

Definition toLowerAscii (c : Ascii.ascii) : Ascii.ascii :=
  let n := Ascii.nat_of_ascii c in
  if ((65 <=? n) && (n <=? 90))%nat then Ascii.ascii_of_nat (n + 32) else c.

Fixpoint toLowerCase (s : string) : string :=
  match s with
  | EmptyString => EmptyString
  | String c r => String (toLowerAscii c) (toLowerCase r)
  end.

(** The names [formatScores[name]] finds although the table does not list
    them: the members the object literal inherits from [Object.prototype].
    Of their names only [constructor] and [__proto__] are left unchanged by
    [toLowerCase], so only these two can be asked for. *)
Definition namesInheritedMember (format : option string) : bool :=
  match format with
  | None => false
  | Some f =>
      String.eqb (toLowerCase f) "constructor"
      || String.eqb (toLowerCase f) "__proto__"
  end.

(** [formatScores[image.format?.toLowerCase()] || 0.5], as the factor of
    the multiplication that follows.  An inherited member is a function or
    an object: it is truthy, so [|| 0.5] keeps it, and as a number it is
    NaN. *)
Definition formatScore (format : option string) : jsnum :=
  match format with
  | None => Num (5 # 10)
  | Some f =>
      let f := toLowerCase f in
      if String.eqb f "png" then Num 1
      else if String.eqb f "tiff" then Num (9 # 10)
      else if String.eqb f "jpg" then Num (7 # 10)
      else if String.eqb f "jpeg" then Num (7 # 10)
      else if String.eqb f "gif" then Num (5 # 10)
      else if String.eqb f "bmp" then Num (6 # 10)
      else if String.eqb f "webp" then Num (8 # 10)
      else if String.eqb f "constructor" then NaN
      else if String.eqb f "__proto__" then NaN
      else Num (5 # 10)
  end.

(** [image.path.split(/[\/\\]/).length]: one more than the number of
    separators. *)
Definition isSeparator (c : Ascii.ascii) : bool :=
  Ascii.eqb c "/"%char || Ascii.eqb c "\"%char.

Fixpoint countSeparators (s : string) : nat :=
  match s with
  | EmptyString => O
  | String c r => ((if isSeparator c then 1 else 0) + countSeparators r)%nat
  end.

Definition pathDepth (p : string) : nat := S (countSeparators p).

Definition msPerDay : Z := (1000 * 60 * 60 * 24)%Z.

Definition daysSinceModified (now : Z) (image : Image) : Q :=
  (inject_Z (now - img_modified image) / inject_Z msPerDay)%Q.

(** The score before the final [Math.min(score, 1)]: the first three terms
    are numbers, the format term may be NaN, and NaN stays NaN. *)
Definition rawQualityScore (now : Z) (image : Image) : jsnum :=
  js_add
    (js_add
       (Num (inject_Z (img_resolution image) / 10000000 * (4 # 10)
             + Qmin (inject_Z (img_size image) / inject_Z (5 * 1024 * 1024)) 1
               * (2 # 10)
             + Qmax 0 (1 - daysSinceModified now image / 365) * (2 # 10))%Q)
       (js_mul (formatScore (img_format image)) (Num (1 # 10))))
    (Num (Qmin (inject_Z (Z.of_nat (pathDepth (img_path image))) / 10) 1
          * (1 # 10))%Q).

Definition calculateQualityScore (now : Z) (image : Image) : jsnum :=
  js_min (rawQualityScore now image) (Num 1).

(** *** [rankImagesWithML] *)

(** [(a, b) => b.qualityScore - a.qualityScore]; the difference is NaN when
    a score is missing or NaN, which the sort treats as 0.  Every image of a
    group has its score assigned just before the sort. *)
Definition byQualityDesc (st : Store) (a b : Ref) : Q :=
  match img_qualityScore (deref st b), img_qualityScore (deref st a) with
  | Some (Num qb), Some (Num qa) => (qb - qa)%Q
  | _, _ => 0%Q
  end.

Definition scoreImages (now : Z) (images : list Ref) (st : Store) : Store :=
  foldl (fun st image =>
           update (setQualityScore (calculateQualityScore now (deref st image)))
                  image st)
        st images.

(** One iteration of [duplicateGroups.forEach].  [group.images[0]] of an
    empty group is [undefined] and the assignment to it throws. *)
Definition rankGroup (now : Z) (st : Store) (g : Group)
  : result (Store * Group) :=
  let st1 := scoreImages now (grp_images g) st in
  let sorted := js_sort (byQualityDesc st1) (grp_images g) in
  match sorted with
  | [] => Throw "Cannot set properties of undefined"
  | first :: _ =>
      Ok (update (setReason "Highest quality score")
            first (update (setRecommended true) first st1),
          withImages sorted g)
  end.

Fixpoint rankImagesWithML (now : Z) (st : Store) (groups : list Group)
  : result (Store * list Group) :=
  match groups with
  | [] => Ok (st, [])
  | g :: rest =>
      match rankGroup now st g with
      | Throw m => Throw m
      | Ok (st1, g1) =>
          match rankImagesWithML now st1 rest with
          | Throw m => Throw m
          | Ok (st2, rest') => Ok (st2, g1 :: rest')
          end
      end
  end.

(** *** [verifySafetyBeforeReturn] *)

Definition recommendedCount (st : Store) (images : list Ref) : nat :=
  length (filter (fun r => img_recommended (deref st r) = true) images).

(** [group.images.slice(1).forEach(img => img.recommended = false)] *)
Definition unrecommend (images : list Ref) (st : Store) : Store :=
  foldl (fun st r => update (setRecommended false) r st) st images.

Definition verifyGroup (st : Store) (g : Group) : result (Store * Group) :=
  let images := grp_images g in
  let count := recommendedCount st images in
  let st1 :=
    match images with
    | first :: _ =>
        if (count =? 0)%nat then
          update (setReason "Safety fallback - first image") first
                 (update (setRecommended true) first st)
        else st
    | [] => st
    end in
  if (length images <=? count)%nat then
    match images with
    | [] => Throw "Cannot set properties of undefined"
    | first :: others =>
        Ok (unrecommend others (update (setRecommended true) first st1),
            withSafetyVerified g)
    end
  else Ok (st1, withSafetyVerified g).

Fixpoint verifySafetyBeforeReturn (st : Store) (groups : list Group)
  : result (Store * list Group) :=
  match groups with
  | [] => Ok (st, [])
  | g :: rest =>
      match verifyGroup st g with
      | Throw m => Throw m
      | Ok (st1, g1) =>
          match verifySafetyBeforeReturn st1 rest with
          | Throw m => Throw m
          | Ok (st2, rest') => Ok (st2, g1 :: rest')
          end
      end
  end.

(** *** [detectDuplicates] *)

Definition exactGroup (imageGroup : list Ref) : Group :=
  mkGroup "exact" imageGroup 1%Q "absolute" "file-hash" false.

(** One iteration of the loop over [hashGroups]: an entry with more than
    one image becomes an exact group, the image of any other entry goes to
    [uniqueImages]. *)
Definition splitStep (acc : list Group * list nat) (entry : string * list nat)
  : list Group * list nat :=
  let imageGroup := snd entry in
  if (1 <? length imageGroup)%nat
  then (fst acc ++ [exactGroup imageGroup], snd acc)
  else (fst acc, snd acc ++ take 1 imageGroup).

Definition splitHashGroups (hashGroups : HashMap) : list Group * list Ref :=
  foldl splitStep ([], []) hashGroups.

(** Groups before ranking: phases 1 to 3. *)
Definition collectGroups (E : Env) (st : Store) : list Group :=
  let images := seq 0 (length st) in
  let '(duplicateGroups, uniqueImages) := splitHashGroups (groupByHash st images) in
  if (1 <? length uniqueImages)%nat
  then duplicateGroups ++ detectWithEnterpriseAI E st uniqueImages
  else duplicateGroups.

(** [detectDuplicates(images, progressCallback)]: the final heap of image
    objects and the groups returned. *)
Definition detectDuplicates (E : Env) (st : Store)
  : result (Store * list Group) :=
  if env_analysisBackupOk E then
    match rankImagesWithML (env_now E) st (collectGroups E st) with
    | Throw m => Throw m
    | Ok (st1, groups) => verifySafetyBeforeReturn st1 groups
    end
  else Throw "analysis backup failed".

(** A group of at least two images; a group with an image. *)
Definition big (g : Group) : Prop := (2 <= length (grp_images g))%nat.

Definition nonempty (g : Group) : Prop := grp_images g <> [].

(** [g'] is [g] with its images reordered. *)
Definition ranked (g g' : Group) : Prop :=
  exists first rest,
    g' = withImages (first :: rest) g /\ first :: rest ≡ₚ grp_images g.

(** All image references held by a list of groups. *)
Definition members (groups : list Group) : list Ref :=
  concat (grp_images <$> groups).

(** Deletion candidates of a group: everything after the first image
    ([bulkDelete] of the deletion manager takes [group.images.slice(1)]). *)
Definition deletionCandidates (g : Group) : list Ref := drop 1 (grp_images g).

End Enterprise.

(** Concrete runs of the multi-provider detector. *)
Module EnterpriseExample.
Import Consensus Enterprise.

(** Local methods that all report similarity 1; no vision API key set. *)
Definition localOnly : Providers :=
  {| googleVision := None; azureVision := None; awsRekognition := None;
     perceptualHash := fun _ _ => Some 1%Q;
     structuralSimilarity := fun _ _ => Some 1%Q;
     histogramSimilarity := fun _ _ => Some 1%Q;
     featureMatching := fun _ _ => Some 1%Q |}.

(** Google and Azure configured and reporting similarity 1 as well. *)
Definition twoProviders : Providers :=
  {| googleVision := Some (fun _ _ => Some 1%Q);
     azureVision := Some (fun _ _ => Some 1%Q);
     awsRekognition := None;
     perceptualHash := fun _ _ => Some 1%Q;
     structuralSimilarity := fun _ _ => Some 1%Q;
     histogramSimilarity := fun _ _ => Some 1%Q;
     featureMatching := fun _ _ => Some 1%Q |}.

Definition now0 : Z := 1700000000000%Z.
Definition daysAgo (d : Z) : Z := (now0 - d * msPerDay)%Z.

(** A 2-megapixel, 1 MB JPEG as the scanner records it. *)
Definition photo (path hash : string) (modified : Z) : Image :=
  mkImage path path 1048576 modified (Some "jpeg") hash 2000000
          None false None.

Definition flagged (i : Image) : Image := setRecommended true i.

Definition quiet (P : Providers) : Env :=
  {| env_providers := P; env_callbackThrows := fun _ _ => false;
     env_analysisBackupOk := true; env_now := now0 |}.

Definition throwing (P : Providers) : Env :=
  {| env_providers := P; env_callbackThrows := fun _ _ => true;
     env_analysisBackupOk := true; env_now := now0 |}.

(** Two visually identical files with different bytes. *)
Definition twoLookalikes : Store :=
  [ photo "/pics/a.jpg" "h1" (daysAgo 10);
    photo "/pics/b.jpg" "h2" (daysAgo 20) ].

(** Three byte-identical files; the second record already carries
    [recommended = true]. *)
Definition threeCopiesOneFlagged : Store :=
  [ photo "/pics/a.jpg" "h" (daysAgo 10);
    flagged (photo "/pics/b.jpg" "h" (daysAgo 10));
    photo "/pics/c.jpg" "h" (daysAgo 10) ].

(** Two byte-identical files, one lookalike pair, one unrelated file. *)
Definition mixedFolder : Store :=
  [ photo "/pics/a.jpg" "h1" (daysAgo 10);
    photo "/pics/b.jpg" "h2" (daysAgo 20);
    photo "/pics/c.jpg" "h1" (daysAgo 5);
    photo "/pics/d.jpg" "h3" (daysAgo 1) ].

(** Two byte-identical files last modified 500 and 400 days ago, the
    older one first in the scan. *)
Definition twoOldCopies : Store :=
  [ photo "/pics/old.jpg" "h" (daysAgo 500);
    photo "/pics/new.jpg" "h" (daysAgo 400) ].

(** Two byte-identical files last modified 30 and 3 days ago. *)
Definition twoRecentCopies : Store :=
  [ photo "/pics/old.jpg" "h" (daysAgo 30);
    photo "/pics/new.jpg" "h" (daysAgo 3) ].

(** Records of different byte size carrying the same [hash]. *)
Definition sameHashDifferentSize : Store :=
  [ mkImage "/pics/a.jpg" "a.jpg" 1000 (daysAgo 10) (Some "jpeg") "h" 2000000
            None false None;
    mkImage "/pics/b.jpg" "b.jpg" 2000 (daysAgo 10) (Some "jpeg") "h" 2000000
            None false None ].

End EnterpriseExample.

(* --------------------------------------------------------------------- *)
(** ** The local-only detector ([aiDetectionSimplified.js])                *)
(* --------------------------------------------------------------------- *)

Module Simplified.

(** A file as [fs.stat] and [fs.readFile] see it: [stats.size] is the
    number of bytes of the content. *)
Record File : Type := mkFile { file_content : string; file_mtime : Z }.

(** What surrounds one run.  The progress callback is optional (every call
    is guarded by [if (progressCallback)]); the run modelled is one without
    it. *)
Record Env : Type := {
  (** [None]: [fs.stat] or [fs.readFile] rejects *)
  env_file : string -> option File;
  (** [crypto.createHash('md5').update(buffer).digest('hex')] *)
  env_md5 : string -> string;
  (** [getPerceptualHash(path)]; [None] when it throws *)
  env_perceptualHash : string -> option string
}.

(** An image record: the scanner's fields that are read, and the three
    fields [groupByHash] sets in the copy it stores. *)
Record Image : Type := mkImage {
  img_path : string;
  img_name : string;
  img_hash : string;
  img_fileSize : option Z;
  img_lastModified : option Z
}.

(** [`${stats.size}-${contentHash}`] *)
Definition combinedHash (E : Env) (f : File) : string :=
  pretty (String.length (file_content f))
  +:+ ("-" +:+ env_md5 E (file_content f)).

(** [{...image, hash: combinedHash, fileSize: stats.size, lastModified: stats.mtime}] *)
Definition stamp (E : Env) (f : File) (image : Image) : Image :=
  mkImage (img_path image) (img_name image) (combinedHash E f)
          (Some (Z.of_nat (String.length (file_content f))))
          (Some (file_mtime f)).

(** [groupByHash]: an image whose file cannot be read is skipped with a
    warning. *)
Definition groupByHash (E : Env) (images : list Image)
  : list (string * list Image) :=
  foldl (fun hashMap image =>
           match env_file E (img_path image) with
           | Some f => map_push (combinedHash E f) (stamp E f image) hashMap
           | None => hashMap
           end)
        [] images.

Record Group : Type := mkGroup {
  grp_type : string;
  grp_images : list Image;
  grp_similarity : Q;
  grp_confidence : string;
  grp_detectionMethod : string;
  grp_recommendedToKeep : option Image;
  grp_candidatesForDeletion : option (list Image)
}.

(** [selectBestImage]: [images.reduce] without initial value. *)
Definition orZeroZ (z : option Z) : Z := match z with Some v => v | None => 0%Z end.

Definition better (best current : Image) : Image :=
  let bestStats := orZeroZ (img_fileSize best) in
  let currentStats := orZeroZ (img_fileSize current) in
  if (bestStats <? currentStats)%Z then current
  else if (currentStats <? bestStats)%Z then best
  else if (orZeroZ (img_lastModified best) <? orZeroZ (img_lastModified current))%Z
       then current else best.

Definition selectBestImage (images : list Image) : option Image :=
  match images with
  | [] => None
  | first :: rest => Some (foldl better first rest)
  end.

(** *** [detectPerceptualSimilarity] *)

Definition similarGroup (currentGroup : list Image) : Group :=
  mkGroup "similar" currentGroup (95 # 100)%Q "high" "perceptual-hash"
          (selectBestImage currentGroup) None.

Fixpoint scanLater (E : Env) (currentHash : string)
    (later : list (nat * Image)) (s : gset nat * list Image)
  : gset nat * list Image :=
  match later with
  | [] => s
  | (j, image) :: rest =>
      if decide (j ∈ fst s) then scanLater E currentHash rest s
      else
        match env_perceptualHash E (img_path image) with
        | Some compareHash =>
            if js_ge (Similarity.calculateHashSimilarity currentHash compareHash)
                     AI_CONFIG.similarityThreshold
            then scanLater E currentHash rest
                   ({[ j ]} ∪ fst s, snd s ++ [image])
            else scanLater E currentHash rest s
        | None => scanLater E currentHash rest s
        end
  end.

Fixpoint seedLoop (E : Env) (items : list (nat * Image))
    (processed : gset nat) (similarGroups : list Group) : list Group :=
  match items with
  | [] => similarGroups
  | (i, image) :: rest =>
      if decide (i ∈ processed) then seedLoop E rest processed similarGroups
      else
        match env_perceptualHash E (img_path image) with
        | None => seedLoop E rest ({[ i ]} ∪ processed) similarGroups
        | Some currentHash =>
            let s := scanLater E currentHash rest ({[ i ]} ∪ processed, [image]) in
            seedLoop E rest (fst s)
                     (if (1 <? length (snd s))%nat
                      then similarGroups ++ [similarGroup (snd s)]
                      else similarGroups)
        end
  end.

Definition detectPerceptualSimilarity (E : Env) (images : list Image)
  : list Group :=
  seedLoop E (zip (seq 0 (length images)) images) ∅ [].

(** *** [rankImagesByQuality] *)

(** The comparator: larger [fileSize] first, then later [lastModified]. *)
Definition bySizeThenDate (a b : Image) : Q :=
  let sizeDiff := (orZeroZ (img_fileSize b) - orZeroZ (img_fileSize a))%Z in
  if negb (sizeDiff =? 0)%Z then inject_Z sizeDiff
  else inject_Z (orZeroZ (img_lastModified b) - orZeroZ (img_lastModified a)).

Definition rankGroup (g : Group) : Group :=
  let sorted := js_sort bySizeThenDate (grp_images g) in
  mkGroup (grp_type g) sorted (grp_similarity g) (grp_confidence g)
          (grp_detectionMethod g) (head sorted) (Some (drop 1 sorted)).

Definition rankImagesByQuality (groups : list Group) : list Group :=
  map rankGroup groups.

(** *** [detectDuplicates] *)

Definition exactGroup (imageGroup : list Image) : Group :=
  mkGroup "exact" imageGroup 1%Q "absolute" "file-hash" (head imageGroup) None.

Definition splitStep (acc : list Group * list Image) (entry : string * list Image)
  : list Group * list Image :=
  let imageGroup := snd entry in
  if (1 <? length imageGroup)%nat
  then (fst acc ++ [exactGroup imageGroup], snd acc)
  else (fst acc, snd acc ++ take 1 imageGroup).

Definition splitHashGroups (hashGroups : list (string * list Image))
  : list Group * list Image :=
  foldl splitStep ([], []) hashGroups.

(** Phases 1 to 3: the exact groups of the map entries with two or more
    images, then the groups of type ['similar']. *)
Definition collectGroups (E : Env) (images : list Image) : list Group :=
  let '(duplicateGroups, uniqueImages) := splitHashGroups (groupByHash E images) in
  if (1 <? length uniqueImages)%nat
  then duplicateGroups ++ detectPerceptualSimilarity E uniqueImages
  else duplicateGroups.

(** Without a progress callback nothing inside the [try] block of
    [detectDuplicates] throws: the file and image errors are caught where
    they occur. *)
Definition detectDuplicates (E : Env) (images : list Image) : list Group :=
  rankImagesByQuality (collectGroups E images).

(** The copies [groupByHash] stores, in scan order; unreadable files are
    left out. *)
Definition stamped (E : Env) (images : list Image) : list Image :=
  omap (fun image => (fun f => stamp E f image) <$> env_file E (img_path image))
       images.

End Simplified.

(** A folder for the local-only detector. *)
Module SimplifiedExample.
Import Simplified.

(** A stand-in digest: the content itself. *)
Definition exampleEnv : Env :=
  {| env_file := fun p =>
       if String.eqb p "/pics/a.jpg" then Some (mkFile "JFIF-sunset" 1000)
       else if String.eqb p "/copy/b.jpg" then Some (mkFile "JFIF-sunset" 5000)
       else if String.eqb p "/pics/c.jpg" then Some (mkFile "JFIF-harbour" 2000)
       else None;
     env_md5 := fun content => content;
     env_perceptualHash := fun _ => None |}.

Definition scanned (path : string) : Image := mkImage path path "" None None.

Definition exampleScan : list Image :=
  [scanned "/pics/a.jpg"; scanned "/copy/b.jpg"; scanned "/pics/c.jpg"].

End SimplifiedExample.

(* --------------------------------------------------------------------- *)
(** ** Files, backups and deletion                                         *)
(* --------------------------------------------------------------------- *)

Module FileSystem.

(** One element of [manifest.files]. *)
Record ManifestEntry : Type := mkEntry {
  originalPath : string;
  backupPath : string;
  verified : bool;
  entryHash : string
}.

(** The content of a [manifest.json] written by [createPreDeletionBackup]. *)
Record Manifest : Type := mkManifest {
  man_backupId : string;
  man_operation : string;
  man_totalFiles : nat;
  man_files : list ManifestEntry;
  man_verificationPassed : bool
}.

Record LogEntry : Type := mkLog {
  log_operation : string;
  log_backupId : string;
  log_status : string;
  log_itemCount : nat
}.

(** The state the safety manager and the deletion manager act on.

    - [files]: the regular files, path to content;
    - [manifests]: the parsed [manifest.json] of each directory under
      [backup/pre-deletion], by backup identifier;
    - [operationLog]: the array of the [DataSafetyManager] instance;
    - [trashed]: the paths handed to [trash], in order;
    - [deletionLog]: the lines appended to [logs/deletion-log.txt]. *)
Record World : Type := mkWorld {
  files : gmap string string;
  manifests : gmap string Manifest;
  operationLog : list LogEntry;
  trashed : list string;
  deletionLog : list string
}.

Definition withFiles (f : gmap string string) (w : World) : World :=
  mkWorld f (manifests w) (operationLog w) (trashed w) (deletionLog w).

(** How the libraries behave in one run.  Every function is fixed for the
    run: a path that cannot be copied, trashed or logged stays so. *)
Record IO : Type := {
  (** [crypto.createHash('sha256').update(data).digest('hex')] *)
  io_hash : string -> string;
  (** [fs.copy(src, dst)] of a source with the given content: the content
      found at [dst] afterwards, or [None] when the copy rejects *)
  io_copy : string -> string -> string -> option string;
  (** [path.basename] *)
  io_basename : string -> string;
  (** directory of the safety manager, [path.join(__dirname, '../backup')] *)
  io_backupDir : string;
  (** [await import('trash')] resolves *)
  io_trashLoads : bool;
  (** [trash([path])]: [Some message] when it rejects *)
  io_trash : string -> option string;
  (** [logDeletion(path)]: [Some message] when [ensureDir] or [appendFile]
      rejects *)
  io_log : string -> option string;
  (** the line [logDeletion] appends *)
  io_logLine : string -> string
}.

(** [path.join(a, b)] for the relative segments used here. *)
Definition join (a b : string) : string := a +:+ ("/" +:+ b).

End FileSystem.

Module Safety.
Import FileSystem.

(** [calculateFileHash]: rejects when the file cannot be read. *)
Definition calculateFileHash (io : IO) (w : World) (filePath : string)
  : result string :=
  match files w !! filePath with
  | Some data => Ok (io_hash io data)
  | None => Throw ("ENOENT: no such file or directory, open " +:+ filePath)
  end.

(** *** [createPreDeletionBackup] *)

(** The loop over [filesToDelete].  The [catch] logs and rethrows, so the
    first failing file ends the loop; the copies made so far stay on
    disk. *)
Fixpoint backupLoop (io : IO) (backupPath : string) (filesToDelete : list string)
    (copiedFiles : list ManifestEntry) (w : World)
  : result (list ManifestEntry) * World :=
  match filesToDelete with
  | [] => (Ok copiedFiles, w)
  | filePath :: rest =>
      match files w !! filePath with
      | None => backupLoop io backupPath rest copiedFiles w
      | Some content =>
          let fileName := io_basename io filePath in
          let safeName := pretty (length copiedFiles) +:+ ("_" +:+ fileName) in
          let copyPath := join backupPath safeName in
          match io_copy io filePath copyPath content with
          | None => (Throw ("copy failed: " +:+ filePath), w)
          | Some written =>
              let w1 := withFiles (<[copyPath := written]> (files w)) w in
              match calculateFileHash io w1 filePath,
                    calculateFileHash io w1 copyPath with
              | Ok originalHash, Ok copyHash =>
                  if String.eqb originalHash copyHash then
                    backupLoop io backupPath rest
                      (copiedFiles ++ [mkEntry filePath copyPath true originalHash])
                      w1
                  else
                    (Throw ("Backup verification failed for " +:+ filePath), w1)
              | Throw m, _ => (Throw m, w1)
              | _, Throw m => (Throw m, w1)
              end
          end
      end
  end.

Definition backupIdOf (timestamp : Z) : string := "deletion_" +:+ pretty timestamp.

Definition backupPathOf (io : IO) (backupId : string) : string :=
  join (join (io_backupDir io) "pre-deletion") backupId.

(** [createPreDeletionBackup(filesToDelete)] at [Date.now() = timestamp]:
    the backup identifier, or the error; and the state left behind. *)
Definition createPreDeletionBackup (io : IO) (timestamp : Z) (w : World)
    (filesToDelete : list string) : result string * World :=
  let backupId := backupIdOf timestamp in
  match backupLoop io (backupPathOf io backupId) filesToDelete [] w with
  | (Throw m, w1) => (Throw m, w1)
  | (Ok copiedFiles, w1) =>
      let manifest :=
        mkManifest backupId "pre-deletion" (length copiedFiles) copiedFiles true in
      (Ok backupId,
       mkWorld (files w1) (<[backupId := manifest]> (manifests w1))
               (operationLog w1
                ++ [mkLog "pre-deletion-backup" backupId "completed"
                          (length copiedFiles)])
               (trashed w1) (deletionLog w1))
  end.

(** *** [verifyFilesExist] *)

Record Verification : Type := mkVerification {
  ver_total : nat; ver_existing : nat; ver_missing : list string;
  ver_verified : bool
}.

Definition verifyFilesExist (w : World) (filePaths : list string) : Verification :=
  foldl (fun v filePath =>
           match files w !! filePath with
           | Some _ => mkVerification (ver_total v) (S (ver_existing v))
                                      (ver_missing v) (ver_verified v)
           | None => mkVerification (ver_total v) (ver_existing v)
                                    (ver_missing v ++ [filePath]) false
           end)
        (mkVerification (length filePaths) 0 [] true) filePaths.

(** *** [restoreFromBackup] *)

Record RestoreResult : Type := mkRestore {
  res_backupId : string;
  res_restored : list string;
  res_failed : list (string * string);
  res_success : bool
}.

(** One iteration of the loop over [manifest.files]: the state after it,
    and what is pushed, [inl path] on [restored] or [inr (path, reason)] on
    [failed]. *)
Definition restoreEntry (io : IO) (w : World) (file : ManifestEntry)
  : World * (string + string * string) :=
  match files w !! originalPath file with
  | Some _ => (w, inl (originalPath file))
  | None =>
      match files w !! backupPath file with
      | None =>
          (w, inr (originalPath file,
                   "ENOENT: no such file or directory, " +:+ backupPath file))
      | Some content =>
          match io_copy io (backupPath file) (originalPath file) content with
          | None => (w, inr (originalPath file, "copy failed"))
          | Some written =>
              let w1 := withFiles (<[originalPath file := written]> (files w)) w in
              if String.eqb (io_hash io written) (entryHash file)
              then (w1, inl (originalPath file))
              else (w1, inr (originalPath file, "Hash mismatch after restore"))
          end
      end
  end.

Fixpoint restoreLoop (io : IO) (entries : list ManifestEntry) (w : World)
    (restored : list string) (failed : list (string * string))
  : World * list string * list (string * string) :=
  match entries with
  | [] => (w, restored, failed)
  | file :: rest =>
      match restoreEntry io w file with
      | (w1, inl p) => restoreLoop io rest w1 (restored ++ [p]) failed
      | (w1, inr f) => restoreLoop io rest w1 restored (failed ++ [f])
      end
  end.

(** [restoreFromBackup(backupId)].  A missing backup directory and a missing
    or unreadable [manifest.json] both make the call reject before any file
    is touched. *)
Definition restoreFromBackup (io : IO) (w : World) (backupId : string)
  : result RestoreResult * World :=
  match manifests w !! backupId with
  | None => (Throw ("Backup not found: " +:+ backupId), w)
  | Some manifest =>
      let '(w1, restored, failed) := restoreLoop io (man_files manifest) w [] [] in
      let success := match failed with [] => true | _ => false end in
      (Ok (mkRestore backupId restored failed success),
       mkWorld (files w1) (manifests w1)
               (operationLog w1
                ++ [mkLog "restore-from-backup" backupId
                          (if success then "completed" else "partial")
                          (length restored)])
               (trashed w1) (deletionLog w1))
  end.

(** An entry the restore loop leaves alone: its original is there, or its
    backup copy is missing, or the copy is rejected. *)
Definition settled (io : IO) (fs : gmap string string) (e : ManifestEntry) : Prop :=
  is_Some (fs !! originalPath e)
  \/ fs !! backupPath e = None
  \/ exists content, fs !! backupPath e = Some content
       /\ io_copy io (backupPath e) (originalPath e) content = None.

(** Manifests whose original paths are not backup copies of the same
    manifest: the files backed up were not themselves inside the fresh
    backup directory. *)
Definition separated (entries : list ManifestEntry) : Prop :=
  forall e e', e ∈ entries -> e' ∈ entries -> originalPath e <> backupPath e'.

End Safety.

Module Deletion.
Import FileSystem.

Record DeleteResults : Type := mkResults {
  deleted : list string;
  failed : list (string * string);
  total : nat
}.

(** The paths a result accounts for, deleted ones first. *)
Definition accounted (results : DeleteResults) : list string :=
  deleted results ++ (failed results).*1.

(** The [try] block for one path and its [catch]. *)
Definition deleteOne (io : IO) (filePath : string) (results : DeleteResults)
    (w : World) : DeleteResults * World :=
  match files w !! filePath with
  | Some _ =>
      match io_trash io filePath with
      | Some message =>
          (mkResults (deleted results) (failed results ++ [(filePath, message)])
                     (total results), w)
      | None =>
          let w1 := mkWorld (delete filePath (files w)) (manifests w)
                            (operationLog w) (trashed w ++ [filePath])
                            (deletionLog w) in
          let results1 := mkResults (deleted results ++ [filePath])
                                    (failed results) (total results) in
          match io_log io filePath with
          | Some message =>
              (mkResults (deleted results1)
                         (failed results1 ++ [(filePath, message)])
                         (total results1), w1)
          | None =>
              (results1,
               mkWorld (files w1) (manifests w1) (operationLog w1) (trashed w1)
                       (deletionLog w1 ++ [io_logLine io filePath]))
          end
      end
  | None =>
      (mkResults (deleted results) (failed results ++ [(filePath, "File not found")])
                 (total results), w)
  end.

(** The loop of [deleteFiles].  [progressCallback], when given, is called
    after each path, outside the [try]; it is the function telling whether
    the call with [current = processed] throws. *)
Fixpoint deleteLoop (io : IO) (progressCallback : option (nat -> bool))
    (filesToDelete : list string) (processed : nat) (results : DeleteResults)
    (w : World) : result DeleteResults * World :=
  match filesToDelete with
  | [] => (Ok results, w)
  | filePath :: rest =>
      let '(results1, w1) := deleteOne io filePath results w in
      let processed1 := S processed in
      match progressCallback with
      | Some throws =>
          if throws processed1 then (Throw "progress callback failed", w1)
          else deleteLoop io progressCallback rest processed1 results1 w1
      | None => deleteLoop io progressCallback rest processed1 results1 w1
      end
  end.

Definition deleteFiles (io : IO) (w : World) (filesToDelete : list string)
    (progressCallback : option (nat -> bool)) : result DeleteResults * World :=
  if io_trashLoads io then
    deleteLoop io progressCallback filesToDelete 0
               (mkResults [] [] (length filesToDelete)) w
  else (Throw "Cannot find package 'trash'", w).

(** The [delete-files] handler of [main.js]: backup, existence check,
    deletion.  [callbackThrows] is the behaviour of
    [event.sender.send('deletion-progress', ...)] inside [deleteFiles]; the
    first progress message, sent before the backup starts, is taken to be
    delivered. *)
Definition deleteFilesHandler (io : IO) (timestamp : Z) (w : World)
    (filesToDelete : list string) (callbackThrows : nat -> bool)
  : result (DeleteResults * string) * World :=
  match Safety.createPreDeletionBackup io timestamp w filesToDelete with
  | (Throw m, w1) => (Throw m, w1)
  | (Ok backupId, w1) =>
      let verification := Safety.verifyFilesExist w1 filesToDelete in
      if negb (Safety.ver_verified verification) then
        (Throw ("Cannot proceed: "
                +:+ pretty (length (Safety.ver_missing verification))
                +:+ " files are missing"), w1)
      else
        match deleteFiles io w1 filesToDelete (Some callbackThrows) with
        | (Throw m, w2) => (Throw m, w2)
        | (Ok result, w2) => (Ok (result, backupId), w2)
        end
  end.

End Deletion.

(** Test doubles for the file operations. *)
Module FileExample.
Import FileSystem.

(** Everything works; the digest of a content is the content. *)
Definition healthy : IO :=
  {| io_hash := fun data => data;
     io_copy := fun _ _ content => Some content;
     io_basename := fun p => p;
     io_backupDir := "backup";
     io_trashLoads := true;
     io_trash := fun _ => None;
     io_log := fun _ => None;
     io_logLine := fun p => "DELETED: " +:+ p |}.

(** As [healthy], but the audit log cannot be written. *)
Definition logUnwritable : IO :=
  {| io_hash := fun data => data;
     io_copy := fun _ _ content => Some content;
     io_basename := fun p => p;
     io_backupDir := "backup";
     io_trashLoads := true;
     io_trash := fun _ => None;
     io_log := fun _ => Some "EACCES: permission denied, open 'deletion-log.txt'";
     io_logLine := fun p => "DELETED: " +:+ p |}.

(** As [healthy], but the copy of [b.jpg] comes out truncated. *)
Definition corruptingCopy : IO :=
  {| io_hash := fun data => data;
     io_copy := fun src _ content =>
       if String.eqb src "b.jpg" then Some "JFIF" else Some content;
     io_basename := fun p => p;
     io_backupDir := "backup";
     io_trashLoads := true;
     io_trash := fun _ => None;
     io_log := fun _ => None;
     io_logLine := fun p => "DELETED: " +:+ p |}.

Definition world (fs : list (string * string)) : World :=
  mkWorld (list_to_map fs) ∅ [] [] [].

Definition threeFiles : World :=
  world [("a.jpg", "JFIF-sunset"); ("b.jpg", "JFIF-harbour"); ("c.jpg", "JFIF-dune")].

(** A backup of [a.jpg] and [b.jpg] taken earlier; both originals are gone
    and the copies are in the backup directory. *)
Definition afterDeletion : World :=
  mkWorld (list_to_map
             [("backup/pre-deletion/deletion_7/0_a.jpg", "JFIF-sunset");
              ("backup/pre-deletion/deletion_7/1_b.jpg", "JFIF-harbour");
              ("c.jpg", "JFIF-dune")])
          {[ "deletion_7" :=
               mkManifest "deletion_7" "pre-deletion" 2
                 [mkEntry "a.jpg" "backup/pre-deletion/deletion_7/0_a.jpg" true
                          "JFIF-sunset";
                  mkEntry "b.jpg" "backup/pre-deletion/deletion_7/1_b.jpg" true
                          "JFIF-harbour"]
                 true ]}
          [] ["a.jpg"; "b.jpg"] [].

(** A backup whose second entry backs up the copy made for the first: its
    original path is the backup path of the first entry.  [a.jpg] and its
    copy are gone; only the copy of the copy is left. *)
Definition nestedBackup : World :=
  mkWorld (list_to_map
             [("backup/pre-deletion/deletion_7/1_0_a.jpg", "JFIF-sunset")])
          {[ "deletion_7" :=
               mkManifest "deletion_7" "pre-deletion" 2
                 [mkEntry "a.jpg" "backup/pre-deletion/deletion_7/0_a.jpg" true
                          "JFIF-sunset";
                  mkEntry "backup/pre-deletion/deletion_7/0_a.jpg"
                          "backup/pre-deletion/deletion_7/1_0_a.jpg" true
                          "JFIF-sunset"]
                 true ]}
          [] ["a.jpg"; "backup/pre-deletion/deletion_7/0_a.jpg"] [].

End FileExample.

(** Test double for jimp with two single-colour images. *)
Module FlatExample.
Import Similarity SimilarityExample.

Definition white : Bitmap := [mkPixel 255 255 255].
Definition black : Bitmap := [mkPixel 0 0 0].

Definition flatJimp : Jimp :=
  {| jimp_read := fun p =>
       if String.eqb p "white.png" then Some white
       else if String.eqb p "black.png" then Some black
       else None;
     jimp_resize := sampleResize;
     jimp_greyscale := map greyOf |}.

End FlatExample.

Module EnterpriseFields.
Import Enterprise.

(** What the scanner recorded about the file behind an image record: every
    field but the three the detector assigns. *)
Definition scannedFields (i : Image)
  : string * string * Z * Z * option string * string * Z :=
  (img_path i, img_name i, img_size i, img_modified i, img_format i,
   img_hash i, img_resolution i).

End EnterpriseFields.

(* --------------------------------------------------------------------- *)
(** ** Feature comparison ([aiDetectionEnterprise.js], lines 482-578, 641-709, 776-816) *)
(* --------------------------------------------------------------------- *)

Module Features.
Import Similarity.

(** [calculateArraySimilarity]: the Jaccard index of two arrays of names.
    [new Set(array)] is a finite set; [intersection] keeps the members of
    [set1] that [set2] has, [union] is the set of the members of both. *)
Definition calculateArraySimilarity (array1 array2 : list string) : Q :=
  if (length array1 =? 0)%nat && (length array2 =? 0)%nat then 1%Q
  else if (length array1 =? 0)%nat || (length array2 =? 0)%nat then 0%Q
  else
    let set1 : gset string := list_to_set array1 in
    let set2 : gset string := list_to_set array2 in
    let intersection : gset string := filter (fun x => x ∈ set2) set1 in
    let union : gset string := set1 ∪ set2 in
    (inject_Z (Z.of_nat (size intersection)) / inject_Z (Z.of_nat (size union)))%Q.

(** One guarded comparison of a feature similarity: what it adds to
    [similarity] and to [comparisons].  A field that is absent is [None]
    (falsy); an array, even empty, is truthy. *)
Definition compareNames (names1 names2 : option (list string)) : Q * nat :=
  match names1, names2 with
  | Some array1, Some array2 => (calculateArraySimilarity array1 array2, 1%nat)
  | _, _ => (0%Q, O)
  end.

(** [comparisons > 0 ? similarity / comparisons : 0] *)
Definition averageOver (similarity : Q) (comparisons : nat) : Q :=
  if (0 <? comparisons)%nat
  then (similarity / inject_Z (Z.of_nat comparisons))%Q
  else 0%Q.

(** What [getAWSFeatures] returns, reduced to what is read: the [Name] of
    each label and the [DetectedText] of each text detection. *)
Record AwsFeatures : Type := mkAws {
  aws_labels : option (list string);
  aws_text : option (list string)
}.

Definition calculateAWSFeatureSimilarity (features1 features2 : AwsFeatures) : Q :=
  let '(s1, c1) := compareNames (aws_labels features1) (aws_labels features2) in
  let '(s2, c2) := compareNames (aws_text features1) (aws_text features2) in
  averageOver (s1 + s2) (c1 + c2).

(** The [color] object of an Azure analysis. *)
Record AzureColor : Type := mkColor {
  dominantColorForeground : option string;
  dominantColors : option (list string)
}.

(** Truthiness of a value that is a string or [undefined]. *)
Definition truthy (s : option string) : bool :=
  match s with
  | Some (String _ _) => true
  | _ => false
  end.

(** [color.dominantColorForeground || color.dominantColors?.[0]] *)
Definition dominantOf (color : AzureColor) : option string :=
  if truthy (dominantColorForeground color) then dominantColorForeground color
  else match dominantColors color with
       | Some (first :: _) => Some first
       | _ => None
       end.

Definition calculateDominantColorSimilarity (color1 color2 : AzureColor) : Q :=
  let dom1 := dominantOf color1 in
  let dom2 := dominantOf color2 in
  if negb (truthy dom1) || negb (truthy dom2) then 0%Q
  else if bool_decide (dom1 = dom2) then 1%Q else 0%Q.

(** What [getAzureImageAnalysis] returns, reduced to what is read: the
    [object] of each detected object, the [name] of each tag, the colour
    summary. *)
Record AzureAnalysis : Type := mkAzure {
  az_objects : option (list string);
  az_tags : option (list string);
  az_color : option AzureColor
}.

Definition compareColor (color1 color2 : option AzureColor) : Q * nat :=
  match color1, color2 with
  | Some c1, Some c2 => (calculateDominantColorSimilarity c1 c2, 1%nat)
  | _, _ => (0%Q, O)
  end.

Definition calculateAzureFeatureSimilarity (analysis1 analysis2 : AzureAnalysis) : Q :=
  let '(s1, c1) := compareNames (az_objects analysis1) (az_objects analysis2) in
  let '(s2, c2) := compareNames (az_tags analysis1) (az_tags analysis2) in
  let '(s3, c3) := compareColor (az_color analysis1) (az_color analysis2) in
  averageOver (s1 + s2 + s3) (c1 + c2 + c3).

(** *** Key points *)

Record KeyPoint : Type := mkKeyPoint { kp_x : nat; kp_y : nat; kp_strength : Z }.

(** [this.bitmap.data[idx]] for the cell of column [x], row [y] of a bitmap
    256 cells wide; [None] is the [undefined] read past the buffer. *)
Definition byteAt (bmp : list Pixel) (x y : nat) : option Z :=
  (fun p => Z.of_nat (red p)) <$> bmp !! (y * 256 + x)%nat.

(** [Math.abs(current - right) + Math.abs(current - bottom)]; with an
    [undefined] operand the sum is NaN, which is [None] here. *)
Definition edgeStrength (bmp : list Pixel) (x y : nat) : option Z :=
  match byteAt bmp x y, byteAt bmp (x + 1) y, byteAt bmp x (y + 1) with
  | Some current, Some rightCell, Some bottomCell =>
      Some (Z.abs (current - rightCell) + Z.abs (current - bottomCell))%Z
  | _, _, _ => None
  end.

(** The cells [image.scan(1, 1, width - 2, height - 2, ...)] visits, row by
    row, for [width = height = 256]. *)
Definition scanPositions : list (nat * nat) :=
  y ← seq 1 254; x ← seq 1 254; [(x, y)].

(** The body of the scan: a cell pushes a key point when its edge strength
    exceeds 50 (a comparison with NaN is false). *)
Definition keyPointAt (bmp : list Pixel) (xy : nat * nat) : list KeyPoint :=
  match edgeStrength bmp (fst xy) (snd xy) with
  | Some strength =>
      if (50 <? strength)%Z then [mkKeyPoint (fst xy) (snd xy) strength] else []
  | None => []
  end.

(** An inner cell of the 256 x 256 image whose edge strength exceeds 50,
    as a key point record. *)
Definition isEdge (grey : list Pixel) (kp : KeyPoint) : Prop :=
  (1 <= kp_x kp <= 254)%nat /\ (1 <= kp_y kp <= 254)%nat
  /\ edgeStrength grey (kp_x kp) (kp_y kp) = Some (kp_strength kp)
  /\ (50 < kp_strength kp)%Z.

Definition byStrengthDesc (a b : KeyPoint) : Q :=
  inject_Z (kp_strength b - kp_strength a).

(** [extractKeyPoints]: [None] when [jimp.read] rejects. *)
Definition extractKeyPoints (J : Jimp) (imagePath : string)
  : option (list KeyPoint) :=
  match jimp_read J imagePath with
  | Some image =>
      let grey := jimp_greyscale J (jimp_resize J 256 256 image) in
      let keypoints := scanPositions ≫= keyPointAt grey in
      Some (take 100 (js_sort byStrengthDesc keypoints))
  | None => None
  end.

(** [keypoints2.some(kp2 => distance(kp1, kp2) < threshold)] with
    [threshold = 10]; [Math.sqrt] is a parameter. *)
Definition near (sqrt : Q -> Q) (kp1 kp2 : KeyPoint) : bool :=
  let distance :=
    sqrt (inject_Z (sq (Z.of_nat (kp_x kp1) - Z.of_nat (kp_x kp2))
                    + sq (Z.of_nat (kp_y kp1) - Z.of_nat (kp_y kp2)))) in
  negb (Qle_bool 10 distance).

Definition hasMatch (sqrt : Q -> Q) (keypoints2 : list KeyPoint) (kp1 : KeyPoint)
  : bool :=
  existsb (near sqrt kp1) keypoints2.

Definition compareKeyPoints (sqrt : Q -> Q) (keypoints1 keypoints2 : list KeyPoint)
  : Q :=
  if (length keypoints1 =? 0)%nat || (length keypoints2 =? 0)%nat then 0%Q
  else
    let matches := length (List.filter (hasMatch sqrt keypoints2) keypoints1) in
    (inject_Z (Z.of_nat matches)
     / inject_Z (Z.of_nat (Nat.max (length keypoints1) (length keypoints2))))%Q.

(** [calculateFeatureMatching]: any exception becomes similarity 0. *)
Definition calculateFeatureMatching (sqrt : Q -> Q) (J : Jimp)
    (imagePath1 imagePath2 : string) : Q :=
  match extractKeyPoints J imagePath1, extractKeyPoints J imagePath2 with
  | Some features1, Some features2 => compareKeyPoints sqrt features1 features2
  | _, _ => 0%Q
  end.

End Features.

(** ** What the local-only detector reports *)
Module SimplifiedReport.
Import Simplified.

(** The order the ranking comparator sorts by: [a] is larger than [b], or
    as large and not older. *)
Definition atLeastAsGood (a b : Image) : Prop :=
  (orZeroZ (img_fileSize b) < orZeroZ (img_fileSize a))%Z
  \/ (orZeroZ (img_fileSize a) = orZeroZ (img_fileSize b)
      /\ (orZeroZ (img_lastModified b) <= orZeroZ (img_lastModified a))%Z).

(** The images of all groups, group after group. *)
Definition reportedImages (groups : list Group) : list Image :=
  concat (grp_images <$> groups).

(** The test that lets [image] join the group of a seed whose perceptual
    hash is [currentHash]. *)
Definition matchesSeed (E : Env) (currentHash : string) (image : Image) : Prop :=
  exists compareHash,
    env_perceptualHash E (img_path image) = Some compareHash
    /\ js_ge (Similarity.calculateHashSimilarity currentHash compareHash)
             AI_CONFIG.similarityThreshold = true.

(** A group as [detectPerceptualSimilarity] pushes it: the seed first, then
    the images that matched the seed. *)
Definition matchedGroup (E : Env) (g : Group) : Prop :=
  grp_type g = "similar"
  /\ exists seed currentHash rest,
       grp_images g = seed :: rest /\ rest <> []
       /\ env_perceptualHash E (img_path seed) = Some currentHash
       /\ Forall (matchesSeed E currentHash) rest.

End SimplifiedReport.

(** A folder of three different files of which the first two look alike. *)
Module LookalikeExample.
Import Simplified SimplifiedExample.

Definition lookalikeEnv : Env :=
  {| env_file := fun p =>
       if String.eqb p "/pics/a.jpg" then Some (mkFile "JFIF-dawn" 1000)
       else if String.eqb p "/pics/b.jpg" then Some (mkFile "JFIF-dawn-edited" 5000)
       else if String.eqb p "/pics/c.jpg" then Some (mkFile "JFIF-harbour" 2000)
       else None;
     env_md5 := fun content => content;
     env_perceptualHash := fun p =>
       if String.eqb p "/pics/c.jpg" then Some "0011" else Some "1100" |}.

Definition lookalikeScan : list Image :=
  [scanned "/pics/a.jpg"; scanned "/pics/b.jpg"; scanned "/pics/c.jpg"].

End LookalikeExample.

(** ** The safety checks after detection, and [bulkDelete] *)
Module SafetyChecks.
Import FileSystem Enterprise.

(** One element of [checks]; [chk_groupId] is absent in the [files-exist]
    check. *)
Record Check : Type := mkCheck {
  chk_check : string;
  chk_groupId : option string;
  chk_passed : bool;
  chk_details : string
}.

(** One element of [this.safetyChecks], without its timestamp. *)
Record SafetyRecord : Type := mkSafetyRecord {
  sr_operation : string;
  sr_allPassed : bool;
  sr_checks : list Check
}.

(** [group.images[0]?.hash || 'unknown'] *)
Definition groupId (st : Store) (g : Group) : string :=
  match grp_images g with
  | first :: _ =>
      if String.eqb (img_hash (deref st first)) "" then "unknown"
      else img_hash (deref st first)
  | [] => "unknown"
  end.

(** The two checks pushed for one group. *)
Definition groupChecks (st : Store) (g : Group) : list Check :=
  let recommendedCount :=
    length (filter (fun r => img_recommended (deref st r) = true) (grp_images g)) in
  let totalFiles := length (grp_images g) in
  let filesToDelete :=
    length (filter (fun r => img_recommended (deref st r) = false) (grp_images g)) in
  [ mkCheck "recommended-file-exists" (Some (groupId st g))
            (1 <=? recommendedCount)%nat
            ("Group has " +:+ pretty recommendedCount +:+ " recommended files");
    mkCheck "not-deleting-all" (Some (groupId st g))
            (filesToDelete <? totalFiles)%nat
            ("Deleting " +:+ pretty filesToDelete +:+ " of "
             +:+ pretty totalFiles +:+ " files") ].

(** [duplicateGroups.flatMap(group => group.images.map(img => img.path))] *)
Definition allFiles (st : Store) (duplicateGroups : list Group) : list string :=
  duplicateGroups ≫= (fun g => (fun r => img_path (deref st r)) <$> grp_images g).

(** [names.join(', ')] *)
Fixpoint joinNames (names : list string) : string :=
  match names with
  | [] => ""
  | [name] => name
  | name :: rest => name +:+ ", " +:+ joinNames rest
  end.

(** [performSafetyChecks]: the outcome and [this.safetyChecks] afterwards.
    The record is pushed before the verdict is acted on. *)
Definition performSafetyChecks (w : World) (st : Store)
    (duplicateGroups : list Group) (safetyChecks : list SafetyRecord)
  : result (list Check) * list SafetyRecord :=
  let fileVerification := Safety.verifyFilesExist w (allFiles st duplicateGroups) in
  let checks :=
    (duplicateGroups ≫= groupChecks st)
    ++ [mkCheck "files-exist" None (Safety.ver_verified fileVerification)
                (pretty (Safety.ver_existing fileVerification) +:+ "/"
                 +:+ pretty (Safety.ver_total fileVerification)
                 +:+ " files exist")] in
  let allPassed := forallb chk_passed checks in
  let safetyChecks' :=
    safetyChecks ++ [mkSafetyRecord "duplicate-deletion" allPassed checks] in
  if negb allPassed then
    let failedChecks := filter (fun c => chk_passed c = false) checks in
    (Throw ("Safety checks failed: " +:+ joinNames (chk_check <$> failedChecks)),
     safetyChecks')
  else (Ok checks, safetyChecks').

(** The [detect-duplicates] handler of [main.js]: detection, then the
    safety checks on what it returned.  The first progress message, sent
    before the detection starts, is taken to be delivered. *)
Definition detectDuplicatesHandler (E : Env) (w : World) (st : Store)
    (safetyChecks : list SafetyRecord)
  : result (Store * list Group) * list SafetyRecord :=
  match detectDuplicates E st with
  | Throw m => (Throw m, safetyChecks)
  | Ok (st', duplicates) =>
      match performSafetyChecks w st' duplicates safetyChecks with
      | (Throw m, safetyChecks') => (Throw m, safetyChecks')
      | (Ok _, safetyChecks') => (Ok (st', duplicates), safetyChecks')
      end
  end.

(** [bulkDelete] of the deletion manager: both branches take
    [group.images.slice(1)]. *)
Definition bulkDelete (st : Store) (duplicateGroups : list Group)
    (keepRecommended : bool) : list string :=
  foldl (fun filesToDelete g =>
           if keepRecommended then
             let imagesToDelete := drop 1 (grp_images g) in
             filesToDelete ++ ((fun r => img_path (deref st r)) <$> imagesToDelete)
           else
             let imagesToDelete := drop 1 (grp_images g) in
             filesToDelete ++ ((fun r => img_path (deref st r)) <$> imagesToDelete))
        [] duplicateGroups.

End SafetyChecks.

Module SafetyChecksExample.
Import FileSystem FileExample.

(** The files of [mixedFolder] on disk, and the same folder after
    [/pics/b.jpg] was removed. *)
Definition picsOnDisk : World :=
  world [("/pics/a.jpg", "JFIF-sunset"); ("/pics/b.jpg", "JFIF-harbour");
         ("/pics/c.jpg", "JFIF-sunset"); ("/pics/d.jpg", "JFIF-harbour-small")].

Definition picsWithoutB : World :=
  world [("/pics/a.jpg", "JFIF-sunset");
         ("/pics/c.jpg", "JFIF-sunset"); ("/pics/d.jpg", "JFIF-harbour-small")].

End SafetyChecksExample.

(* ===================================================================== *)
(** * Part II: properties                                                 *)
(* ===================================================================== *)

(* --------------------------------------------------------------------- *)
(** ** Local similarity methods                                           *)
(* --------------------------------------------------------------------- *)

Section SimilarityFacts.
Import Similarity.

Lemma js_div_nat_same (n : nat) : (0 < n)%nat -> js_is (js_div_nat n n) 1.
Proof.
  intros Hn. destruct n as [|n]; [lia|]. simpl.
  apply Qmult_inv_r. unfold Qeq; simpl. lia.
Qed.

Lemma countMatches_same (h : string) : countMatches h h = String.length h.
Proof.
  induction h as [|a h IH]; simpl; [reflexivity|].
  rewrite Ascii.eqb_refl, IH. reflexivity.
Qed.

(** Average-hash similarity of a non-empty hash with itself is 1. *)
Lemma calculateHashSimilarity_same (h : string) :
  (0 < String.length h)%nat -> js_is (calculateHashSimilarity h h) 1.
Proof.
  intros Hlen. unfold calculateHashSimilarity.
  rewrite Nat.eqb_refl. simpl. rewrite countMatches_same.
  now apply js_div_nat_same.
Qed.

Lemma length_append (s1 s2 : string) :
  String.length (s1 +:+ s2) = (String.length s1 + String.length s2)%nat.
Proof. induction s1 as [|a s1 IH]; simpl; [reflexivity|]. now rewrite IH. Qed.

Lemma length_hashBits_from (average : Q) (bmp : Bitmap) (acc : string) :
  String.length
    (foldl (fun hash p =>
              hash +:+ (if Qle_bool (inject_Z (Z.of_nat (red p))) average
                        then "0" else "1")) acc bmp)
  = (String.length acc + length bmp)%nat.
Proof.
  revert acc. induction bmp as [|p bmp IH]; intros acc; simpl; [lia|].
  rewrite IH, length_append.
  destruct (Qle_bool _ _); simpl; lia.
Qed.

(** The hash has one character per scanned cell. *)
Lemma length_averageHash (bmp : Bitmap) :
  String.length (averageHash bmp) = length bmp.
Proof. unfold averageHash, hashBits. now rewrite length_hashBits_from. Qed.

(** Perceptual-hash similarity of a decodable image with itself is 1. *)
Lemma calculatePerceptualHash_same (J : Jimp) (p : string) (image : Bitmap) :
  jimp_read J p = Some image ->
  (0 < length (jimp_greyscale J (jimp_resize J 8 8 image)))%nat ->
  js_is (calculatePerceptualHash J p p) 1.
Proof.
  intros Hread Hlen. unfold calculatePerceptualHash, generatePerceptualHash.
  rewrite Hread. apply calculateHashSimilarity_same.
  now rewrite length_averageHash.
Qed.

Lemma pixelDiff_same (sqrt : Q -> Q) (p : Pixel) :
  pixelDiff sqrt p p = sqrt 0%Q.
Proof. unfold pixelDiff, sq. now rewrite !Z.sub_diag. Qed.

Lemma totalDiff_same_from (sqrt : Q -> Q) (image : Bitmap) (acc : Q) :
  (sqrt 0 == 0)%Q ->
  (foldl (fun total pq => total + pixelDiff sqrt (fst pq) (snd pq)) acc
         (zip image image) == acc)%Q.
Proof.
  intros H0. revert acc. induction image as [|p image IH]; intros acc; simpl.
  - reflexivity.
  - rewrite IH, pixelDiff_same, H0. ring.
Qed.

(** Structural similarity of a decodable image with itself is 1. *)
Lemma calculateStructuralSimilarity_same
    (sqrt : Q -> Q) (J : Jimp) (p : string) (image : Bitmap) :
  (sqrt 0 == 0)%Q ->
  jimp_read J p = Some image ->
  (0 < length (jimp_resize J 64 64 image))%nat ->
  js_is (calculateStructuralSimilarity sqrt J p p) 1.
Proof.
  intros H0 Hread Hlen. unfold calculateStructuralSimilarity.
  rewrite Hread. cbv zeta.
  destruct (length (jimp_resize J 64 64 image)) as [|n] eqn:E; [lia|].
  unfold js_is, totalDiff. rewrite (totalDiff_same_from sqrt _ 0%Q H0).
  unfold Qdiv. ring.
Qed.

(** *** Histograms *)

Lemma length_bump (k : nat) (bins : list nat) :
  length (bump k bins) = length bins.
Proof. unfold bump. destruct (bins !! k); [apply length_insert|reflexivity]. Qed.

Lemma sum_list_bump (k : nat) (bins : list nat) :
  (k < length bins)%nat -> sum_list (bump k bins) = S (sum_list bins).
Proof.
  revert k. induction bins as [|x bins IH]; intros k Hk; simpl in Hk; [lia|].
  destruct k as [|k]; [reflexivity|].
  unfold bump in *. simpl.
  specialize (IH k ltac:(lia)).
  destruct (bins !! k) as [v|] eqn:E; simpl in *; lia.
Qed.

Lemma sum_nth_seq (bins : list nat) (a : nat) :
  foldl (fun c i => (c + nth i bins O)%nat) a (seq 0 (length bins))
  = (a + sum_list bins)%nat.
Proof.
  revert a. induction bins as [|x bins IH]; intros a; simpl; [lia|].
  rewrite <- seq_shift.
  change (map S (seq 0 (length bins))) with (S <$> seq 0 (length bins)).
  rewrite foldl_fmap. simpl. rewrite IH. lia.
Qed.

Lemma min_nth_same (bins : list nat) (l : list nat) (a : nat) :
  foldl (fun c i => (c + Nat.min (nth i bins O) (nth i bins O))%nat) a l
  = foldl (fun c i => (c + nth i bins O)%nat) a l.
Proof.
  revert a. induction l as [|i l IH]; intros a; simpl; [reflexivity|].
  rewrite Nat.min_id. apply IH.
Qed.

Lemma correlation_same (bins : list nat) :
  length bins = 256%nat -> correlation bins bins = sum_list bins.
Proof.
  intros Hlen. unfold correlation. rewrite min_nth_same, <- Hlen.
  apply sum_nth_seq.
Qed.

Lemma histogramOf_from (bmp : Bitmap) (h : Histogram) :
  Forall pixel_ok bmp ->
  length (hist_r h) = 256%nat -> length (hist_g h) = 256%nat ->
  length (hist_b h) = 256%nat ->
  let h' := foldl (fun h p =>
                     mkHistogram (bump (red p) (hist_r h))
                                 (bump (green p) (hist_g h))
                                 (bump (blue p) (hist_b h))) h bmp in
  length (hist_r h') = 256%nat /\ length (hist_g h') = 256%nat
  /\ length (hist_b h') = 256%nat
  /\ sum_list (hist_r h') = (sum_list (hist_r h) + length bmp)%nat
  /\ sum_list (hist_g h') = (sum_list (hist_g h) + length bmp)%nat
  /\ sum_list (hist_b h') = (sum_list (hist_b h) + length bmp)%nat.
Proof.
  intros Hok. revert h.
  induction Hok as [|p bmp [Hr [Hg Hb]] Hok IH]; intros h Lr Lg Lb; simpl.
  - repeat split; auto with lia.
  - edestruct (IH (mkHistogram (bump (red p) (hist_r h))
                               (bump (green p) (hist_g h))
                               (bump (blue p) (hist_b h))))
      as (L1 & L2 & L3 & S1 & S2 & S3);
      simpl; rewrite ?length_bump; auto.
    simpl in *. rewrite S1, S2, S3, !sum_list_bump by lia.
    repeat split; auto; lia.
Qed.

(** Every channel of a histogram counts each pixel once. *)
Lemma histogramOf_total (bmp : Bitmap) :
  Forall pixel_ok bmp ->
  correlation (hist_r (histogramOf bmp)) (hist_r (histogramOf bmp)) = length bmp
  /\ correlation (hist_g (histogramOf bmp)) (hist_g (histogramOf bmp)) = length bmp
  /\ correlation (hist_b (histogramOf bmp)) (hist_b (histogramOf bmp)) = length bmp.
Proof.
  intros Hok.
  destruct (histogramOf_from bmp emptyHistogram Hok)
    as (L1 & L2 & L3 & S1 & S2 & S3); try reflexivity.
  fold (histogramOf bmp) in *.
  rewrite !correlation_same by assumption.
  rewrite S1, S2, S3. repeat split; reflexivity.
Qed.

(** What [compareHistograms] returns for an image against itself: the
    number of pixels over the number of bins. *)
Lemma compareHistograms_same (bmp : Bitmap) :
  Forall pixel_ok bmp ->
  (compareHistograms (histogramOf bmp) (histogramOf bmp)
   == inject_Z (Z.of_nat (length bmp)) / 256)%Q.
Proof.
  intros Hok. unfold compareHistograms.
  destruct (histogramOf_total bmp Hok) as (-> & -> & ->).
  replace (Z.of_nat (length bmp + length bmp + length bmp))
    with (3 * Z.of_nat (length bmp))%Z by lia.
  rewrite inject_Z_mult. change (inject_Z (3 * 256)) with (3 * 256)%Q.
  field.
Qed.

End SimilarityFacts.

Section SimilarityExamples.
Import Similarity SimilarityExample.

(** C5.  Histogram intersection is specified as, per channel,
    [sum(min(h1[i], h2[i])) / totalSamples], averaged over R, G and B.
    [compareHistograms] divides the three channel sums by [3 * 256], the
    number of bins, instead of by the number of samples: for the two-pixel
    image compared with itself it returns 1/128, where the specified
    formula gives 1. *)
Theorem compareHistograms_divides_by_bin_count :
  (compareHistograms (histogramOf twoPixels) (histogramOf twoPixels)
   == 1 # 128)%Q
  /\ (histogramIntersectionSpec (histogramOf twoPixels) (histogramOf twoPixels)
                                (length twoPixels) == 1)%Q.
Proof. split; vm_compute; reflexivity. Qed.

(** C6.  An image compared with itself: the average-hash similarity and the
    structural similarity are 1, the histogram similarity of this two-pixel
    image is 1/128 (pixel count over 256), not 1. *)
Theorem self_similarity_of_two_pixel_image :
  js_is (calculatePerceptualHash exampleJimp "a.png" "a.png") 1
  /\ js_is (calculateStructuralSimilarity floorSqrt exampleJimp "a.png" "a.png") 1
  /\ js_is (calculateHistogramSimilarity exampleJimp "a.png" "a.png") (1 # 128)
  /\ ~ js_is (calculateHistogramSimilarity exampleJimp "a.png" "a.png") 1.
Proof.
  split; [|split; [|split]].
  - apply (calculatePerceptualHash_same exampleJimp "a.png" twoPixels);
      [reflexivity | vm_compute; lia].
  - apply (calculateStructuralSimilarity_same floorSqrt exampleJimp "a.png" twoPixels);
      [reflexivity | reflexivity | vm_compute; lia].
  - vm_compute. reflexivity.
  - vm_compute. discriminate.
Qed.

End SimilarityExamples.

(* --------------------------------------------------------------------- *)
(** ** Provider consensus                                                 *)
(* --------------------------------------------------------------------- *)

Section ConsensusFacts.
Import Consensus.

Lemma weightOf_pos (name : string) : (0 < weightOf name)%Q.
Proof.
  unfold weightOf.
  repeat match goal with |- context [String.eqb ?a ?b] =>
    destruct (String.eqb a b) end; reflexivity.
Qed.

Lemma accumulate_from (votes : list Vote) (s c w : Q) :
  let '(s', c', w') :=
    foldl (fun acc result =>
             let '(weightedSimilarity, weightedConfidence, totalWeight) := acc in
             let weight := weightOf (provider result) in
             ((weightedSimilarity + similarity result * weight)%Q,
              (weightedConfidence + confidence result * weight)%Q,
              (totalWeight + weight)%Q))
          (s, c, w) votes in
  (s' == s + Qsum (map (fun v => similarity v * weightOf (provider v)) votes))%Q
  /\ (c' == c + Qsum (map (fun v => confidence v * weightOf (provider v)) votes))%Q
  /\ (w' == w + Qsum (map (fun v => weightOf (provider v)) votes))%Q.
Proof.
  revert s c w. induction votes as [|v votes IH]; intros s c w; simpl.
  - repeat split; ring.
  - specialize (IH (s + similarity v * weightOf (provider v))%Q
                   (c + confidence v * weightOf (provider v))%Q
                   (w + weightOf (provider v))%Q).
    destruct (foldl _ _ votes) as [[s' c'] w'].
    destruct IH as (Hs & Hc & Hw). rewrite Hs, Hc, Hw.
    repeat split; ring.
Qed.

Lemma accumulate_sums (votes : list Vote) :
  let '(s, c, w) := accumulate votes in
  (s == Qsum (map (fun v => similarity v * weightOf (provider v)) votes))%Q
  /\ (c == Qsum (map (fun v => confidence v * weightOf (provider v)) votes))%Q
  /\ (w == Qsum (map (fun v => weightOf (provider v)) votes))%Q.
Proof.
  unfold accumulate. pose proof (accumulate_from votes 0 0 0) as H.
  destruct (foldl _ _ votes) as [[s c] w].
  destruct H as (Hs & Hc & Hw). rewrite Hs, Hc, Hw. repeat split; ring.
Qed.

Lemma totalWeight_pos (votes : list Vote) :
  votes <> [] -> (0 < Qsum (map (fun v => weightOf (provider v)) votes))%Q.
Proof.
  destruct votes as [|v votes]; [congruence|]. intros _. simpl.
  apply Qlt_le_trans with (weightOf (provider v) + 0)%Q.
  - rewrite Qplus_0_r. apply weightOf_pos.
  - apply Qplus_le_r. induction votes as [|u votes IH]; simpl.
    + apply Qle_refl.
    + apply Qle_trans with (0 + 0)%Q; [discriminate|].
      apply Qplus_le_compat; [apply Qlt_le_weak, weightOf_pos | exact IH].
Qed.

(** The local vote is always there. *)
Lemma collectVotes_nonempty (P : Providers) (p1 p2 : string) :
  collectVotes P p1 p2 <> [].
Proof.
  unfold collectVotes. intros H.
  repeat (apply app_eq_nil in H; destruct H as [_ H]). discriminate.
Qed.

End ConsensusFacts.

Section ConsensusClaims.
Import Consensus.

(** C4 (as amended).  The consensus similarity and confidence are the
    weighted averages of the votes in [individualResults], normalised by the
    total weight of exactly those votes.  The local vote is always among
    them, with the fixed confidence 0.8: when no provider answers and every
    local method fails, the consensus similarity is 0 and the consensus
    confidence is 0.8, and the pair is not a match. *)
Theorem getMultiProviderConsensus_weighted_average
    (P : Providers) (p1 p2 : string) :
  let r := getMultiProviderConsensus P p1 p2 in
  individualResults r = collectVotes P p1 p2
  /\ (cons_similarity r == weightedAverage similarity (individualResults r))%Q
  /\ (cons_confidence r == weightedAverage confidence (individualResults r))%Q
  /\ (noProviderSucceeds P p1 p2 -> noLocalMethodSucceeds P p1 p2 ->
      (cons_similarity r == 0)%Q /\ (cons_confidence r == 8 # 10)%Q
      /\ Qle_bool AI_CONFIG.similarityThreshold (cons_similarity r) = false).
Proof.
  cbv zeta. unfold getMultiProviderConsensus.
  pose proof (collectVotes_nonempty P p1 p2) as Hne.
  pose proof (accumulate_sums (collectVotes P p1 p2)) as Hacc.
  destruct (collectVotes P p1 p2) as [|v votes] eqn:Hvotes; [congruence|].
  destruct (accumulate (v :: votes)) as [[s c] w].
  destruct Hacc as (Hs & Hc & Hw). cbn [individualResults cons_similarity cons_confidence].
  split; [reflexivity|]. unfold weightedAverage.
  split; [now rewrite Hs, Hw|]. split; [now rewrite Hc, Hw|].
  intros (Hg & Haz & Haws) (H1 & H2 & H3 & H4).
  unfold collectVotes, compareWithAdvancedLocal, localResults in Hvotes.
  rewrite Hg, Haz, Haws, H1, H2, H3, H4 in Hvotes. simpl in Hvotes.
  injection Hvotes as <- <-.
  assert (Es : (s / w == 0)%Q) by (rewrite Hs, Hw; vm_compute; reflexivity).
  assert (Ec : (c / w == 8 # 10)%Q) by (rewrite Hc, Hw; vm_compute; reflexivity).
  split; [exact Es|]. split; [exact Ec|].
  rewrite Es. reflexivity.
Qed.

Lemma getMultiProviderConsensus_weighted_average_witness :
  noProviderSucceeds nothingSucceeds "a.jpg" "b.jpg"
  /\ noLocalMethodSucceeds nothingSucceeds "a.jpg" "b.jpg"
  /\ (cons_confidence (getMultiProviderConsensus nothingSucceeds "a.jpg" "b.jpg")
      == 8 # 10)%Q.
Proof.
  assert (Hp : noProviderSucceeds nothingSucceeds "a.jpg" "b.jpg")
    by (repeat split; reflexivity).
  assert (Hl : noLocalMethodSucceeds nothingSucceeds "a.jpg" "b.jpg")
    by (repeat split; reflexivity).
  split; [exact Hp|]. split; [exact Hl|].
  exact (proj1 (proj2 (proj2 (proj2 (proj2
    (getMultiProviderConsensus_weighted_average nothingSucceeds "a.jpg" "b.jpg")))
    Hp Hl))).
Defined.

(** C4 as stated fails: with no provider configured and every local method
    failing, the returned confidence is 0.8, not 0. *)
Lemma consensus_confidence_not_zero_when_nothing_succeeds :
  noProviderSucceeds nothingSucceeds "a.jpg" "b.jpg"
  /\ noLocalMethodSucceeds nothingSucceeds "a.jpg" "b.jpg"
  /\ ~ ((cons_similarity (getMultiProviderConsensus nothingSucceeds "a.jpg" "b.jpg") == 0)%Q
        /\ (cons_confidence (getMultiProviderConsensus nothingSucceeds "a.jpg" "b.jpg") == 0)%Q).
Proof.
  split; [repeat split; reflexivity|]. split; [repeat split; reflexivity|].
  intros [_ H]. vm_compute in H. discriminate.
Qed.

End ConsensusClaims.

(* --------------------------------------------------------------------- *)
(** ** Similarity clustering                                              *)
(* --------------------------------------------------------------------- *)

Section ClusteringFacts.
Import Consensus Enterprise.

Variable E : Env.
Variable st : Store.

Lemma isMatch_true (c : ConsensusResult) :
  isMatch c = true ->
  (AI_CONFIG.similarityThreshold <= cons_similarity c)%Q
  /\ (AI_CONFIG.minimumConfidence <= cons_confidence c)%Q.
Proof.
  unfold isMatch. intros H. apply andb_true_iff in H as [H1 H2].
  split; now apply Qle_bool_iff.
Qed.

(** One pass through the loop body pushes the candidate zero, one or two
    times, each push being justified by the test that guards it. *)
Lemma comparePair_pushes (seed c : Ref) (j : nat) (s : Scan) :
  exists extra,
    snd (comparePair E st seed c j s) = snd s ++ extra
    /\ Forall (justified E st seed) extra.
Proof.
  unfold comparePair.
  fold (deref st seed) (deref st c).
  destruct (isMatch _) eqn:Hm;
    destruct (env_callbackThrows E seed c) eqn:Hcb;
    try destruct (Qle_bool _ (calculatePerceptualHash _ _ _)) eqn:Hl.
  all: try apply isMatch_true in Hm.
  all: try apply Qle_bool_iff in Hl.
  - exists [c; c]. simpl. rewrite <- app_assoc. split; [reflexivity|].
    apply Forall_cons. split; [left; exact Hm|].
    apply Forall_cons. split; [right; split; assumption|]. apply Forall_nil_2.
  - exists [c]. split; [reflexivity|].
    apply Forall_cons. split; [left; exact Hm|apply Forall_nil_2].
  - exists [c]. split; [reflexivity|].
    apply Forall_cons. split; [left; exact Hm|apply Forall_nil_2].
  - exists [c]. split; [reflexivity|].
    apply Forall_cons. split; [right; split; assumption|apply Forall_nil_2].
  - exists []. split; [now rewrite app_nil_r|apply Forall_nil_2].
  - exists []. split; [now rewrite app_nil_r|apply Forall_nil_2].
Qed.

Lemma scanLater_pushes (seed : Ref) (later : list (nat * Ref)) (s : Scan) :
  exists extra,
    snd (scanLater E st seed later s) = snd s ++ extra
    /\ Forall (justified E st seed) extra.
Proof.
  revert s. induction later as [|[j c] later IH]; intros s; simpl.
  - exists []. split; [now rewrite app_nil_r|apply Forall_nil_2].
  - destruct (decide (j ∈ fst s)); [apply IH|].
    destruct (comparePair_pushes seed c j s) as (x1 & E1 & F1).
    destruct (IH (comparePair E st seed c j s)) as (x2 & E2 & F2).
    exists (x1 ++ x2). rewrite E2, E1, <- app_assoc. split; [reflexivity|].
    now apply Forall_app.
Qed.

Lemma seedLoop_seeded (items : list (nat * Ref)) (processed : gset nat)
    (groups : list Group) :
  Forall (seededGroup E st) groups ->
  Forall (seededGroup E st) (seedLoop E st items processed groups).
Proof.
  revert processed groups.
  induction items as [|[i cur] items IH]; intros processed groups Hg; simpl.
  - exact Hg.
  - destruct (decide (i ∈ processed)); [now apply IH|].
    apply IH.
    destruct (scanLater_pushes cur items ({[i]} ∪ processed, [cur]))
      as (extra & Es & Fs).
    destruct (1 <? length _)%nat; [|exact Hg].
    apply Forall_app. split; [exact Hg|].
    apply Forall_cons. split; [|apply Forall_nil_2].
    exists cur, extra. simpl. rewrite Es. split; [reflexivity|exact Fs].
Qed.

End ClusteringFacts.

Section ClusteringClaims.
Import Consensus Enterprise EnterpriseExample.

(** C3 (as amended).  In every group built by [detectWithEnterpriseAI] the
    first image is the seed, and each image after it was absorbed either by
    the [try] block, with consensus similarity >= 0.92 and consensus
    confidence >= 0.90, or by the [catch] block, which runs when the [try]
    block threw and absorbs on perceptual-hash similarity >= 0.92 alone,
    without any confidence test. *)
Theorem detectWithEnterpriseAI_absorbs_justified
    (E : Env) (st : Store) (images : list Ref) (g : Group) :
  In g (detectWithEnterpriseAI E st images) ->
  exists seed absorbed,
    grp_images g = seed :: absorbed
    /\ forall c, In c absorbed ->
         absorbedByConsensus E st seed c \/ absorbedByFallback E st seed c.
Proof.
  intros Hin. unfold detectWithEnterpriseAI in Hin.
  pose proof (seedLoop_seeded E st (zip (seq 0 (length images)) images) ∅ []
                (Forall_nil_2 _)) as Hall.
  rewrite Forall_forall in Hall.
  apply list_elem_of_In in Hin.
  destruct (Hall g Hin) as (seed & absorbed & Eg & Fa).
  exists seed, absorbed. split; [exact Eg|].
  intros c Hc. rewrite Forall_forall in Fa. apply Fa.
  now apply list_elem_of_In.
Qed.

Lemma detectWithEnterpriseAI_absorbs_justified_witness :
  exists g, In g (detectWithEnterpriseAI (quiet twoProviders) twoLookalikes [0; 1]%nat)
    /\ exists seed absorbed,
         grp_images g = seed :: absorbed
         /\ forall c, In c absorbed ->
              absorbedByConsensus (quiet twoProviders) twoLookalikes seed c
              \/ absorbedByFallback (quiet twoProviders) twoLookalikes seed c.
Proof.
  exists (aiGroup [0; 1]%nat).
  assert (Hin : In (aiGroup [0; 1]%nat)
                   (detectWithEnterpriseAI (quiet twoProviders) twoLookalikes [0; 1]%nat))
    by (vm_compute; left; reflexivity).
  split; [exact Hin|].
  exact (detectWithEnterpriseAI_absorbs_justified
           (quiet twoProviders) twoLookalikes [0; 1]%nat _ Hin).
Defined.

(** C3 as stated fails on the fallback path.  With no vision provider
    configured the consensus of the pair has confidence 0.8, below 0.90, so
    the [try] block does not absorb it; the progress callback then throws
    and the [catch] block absorbs the pair on its perceptual-hash
    similarity. *)
Lemma fallback_absorbs_below_minimum_confidence :
  map grp_images (detectWithEnterpriseAI (throwing localOnly) twoLookalikes [0; 1]%nat)
    = [[0; 1]%nat]
  /\ ~ absorbedByConsensus (throwing localOnly) twoLookalikes 0%nat 1%nat
  /\ (cons_confidence (consensusOf localOnly twoLookalikes 0%nat 1%nat)
      < AI_CONFIG.minimumConfidence)%Q.
Proof.
  split; [vm_compute; reflexivity|]. split.
  - intros [_ H]. vm_compute in H. apply H. reflexivity.
  - vm_compute. reflexivity.
Qed.

End ClusteringClaims.

(* --------------------------------------------------------------------- *)
(** ** Sorting, the heap of image objects, ranking                        *)
(* --------------------------------------------------------------------- *)

Section SortFacts.
Context {A : Type} (cmp : A -> A -> Q).

Lemma sort_insert_perm (x : A) (l : list A) : sort_insert cmp x l ≡ₚ x :: l.
Proof.
  induction l as [|y l IH]; simpl; [reflexivity|].
  destruct (Qle_bool (cmp x y) 0); [reflexivity|].
  rewrite IH. apply Permutation_swap.
Qed.

(** The sort only reorders. *)
Lemma js_sort_perm (l : list A) : js_sort cmp l ≡ₚ l.
Proof.
  induction l as [|x l IH]; simpl; [reflexivity|].
  rewrite sort_insert_perm. now rewrite IH.
Qed.

Lemma js_sort_length (l : list A) : length (js_sort cmp l) = length l.
Proof. now rewrite js_sort_perm. Qed.
End SortFacts.

Section StoreFacts.
Import Enterprise.

Lemma deref_update_ne (f : Image -> Image) (r x : Ref) (st : Store) :
  r <> x -> deref (update f r st) x = deref st x.
Proof.
  intros Hne. unfold deref, update. rewrite !nth_lookup.
  now rewrite list_lookup_alter_ne.
Qed.

Lemma deref_update_eq (f : Image -> Image) (r : Ref) (st : Store) :
  (r < length st)%nat -> deref (update f r st) r = f (deref st r).
Proof.
  intros Hlt. unfold deref, update. rewrite !nth_lookup.
  rewrite list_lookup_alter_eq.
  destruct (lookup_lt_is_Some_2 st r Hlt) as [i Hi]. now rewrite Hi.
Qed.

Lemma deref_update_out (f : Image -> Image) (r x : Ref) (st : Store) :
  (length st <= r)%nat -> deref (update f r st) x = deref st x.
Proof.
  intros Hge. unfold deref, update. rewrite !nth_lookup.
  rewrite list_lookup_alter. destruct (decide (r = x)) as [->|]; [|reflexivity].
  now rewrite (lookup_ge_None_2 st x Hge).
Qed.

Lemma length_update (f : Image -> Image) (r : Ref) (st : Store) :
  length (update f r st) = length st.
Proof. apply length_alter. Qed.

(** An assignment that leaves [recommended] alone leaves every flag alone. *)
Lemma flag_update_other (f : Image -> Image) (r x : Ref) (st : Store) :
  (forall i, img_recommended (f i) = img_recommended i) ->
  flag (update f r st) x = flag st x.
Proof.
  intros Hf. unfold flag.
  destruct (decide (r = x)) as [->|Hne]; [|now rewrite deref_update_ne].
  destruct (le_lt_dec (length st) x) as [Hge|Hlt].
  - now rewrite deref_update_out.
  - rewrite deref_update_eq by assumption. apply Hf.
Qed.

Lemma flag_setRecommended (b : bool) (r x : Ref) (st : Store) :
  flag (update (setRecommended b) r st) x
  = if decide (x = r /\ (r < length st)%nat) then b else flag st x.
Proof.
  unfold flag. destruct (decide _) as [[-> Hlt]|Hn].
  - now rewrite deref_update_eq.
  - destruct (decide (r = x)) as [->|Hne]; [|now rewrite deref_update_ne].
    rewrite deref_update_out; [reflexivity|]. lia.
Qed.

(** *** [scoreImages] touches [qualityScore] only *)

Lemma length_scoreImages (now : Z) (images : list Ref) (st : Store) :
  length (scoreImages now images st) = length st.
Proof.
  unfold scoreImages. revert st.
  induction images as [|r images IH]; intros st; simpl; [reflexivity|].
  now rewrite IH, length_update.
Qed.

Lemma flag_scoreImages (now : Z) (images : list Ref) (st : Store) (x : Ref) :
  flag (scoreImages now images st) x = flag st x.
Proof.
  unfold scoreImages. revert st.
  induction images as [|r images IH]; intros st; simpl; [reflexivity|].
  rewrite IH. now apply flag_update_other.
Qed.

(** *** [rankGroup] *)

Lemma rankGroup_ok (now : Z) (st : Store) (g : Group) :
  grp_images g <> [] ->
  exists first rest,
    js_sort (byQualityDesc (scoreImages now (grp_images g) st)) (grp_images g)
      = first :: rest
    /\ rankGroup now st g
       = Ok (update (setReason "Highest quality score") first
               (update (setRecommended true) first
                  (scoreImages now (grp_images g) st)),
             withImages (first :: rest) g).
Proof.
  intros Hne. unfold rankGroup. cbv zeta.
  destruct (js_sort _ (grp_images g)) as [|first rest] eqn:Es.
  - exfalso. apply Hne. apply length_zero_iff_nil.
    rewrite <- (js_sort_length (byQualityDesc (scoreImages now (grp_images g) st))).
    now rewrite Es.
  - exists first, rest. split; reflexivity.
Qed.

(** What one ranking step does to the flags: the head of the sorted group
    becomes recommended, nothing else changes. *)
Lemma rankGroup_spec (now : Z) (st : Store) (g : Group) :
  grp_images g <> [] ->
  exists st' first rest,
    rankGroup now st g = Ok (st', withImages (first :: rest) g)
    /\ first :: rest ≡ₚ grp_images g
    /\ length st' = length st
    /\ forall x, flag st' x
                 = if decide (x = first /\ (first < length st)%nat)
                   then true else flag st x.
Proof.
  intros Hne. destruct (rankGroup_ok now st g Hne) as (first & rest & Es & Er).
  eexists _, first, rest. split; [exact Er|]. split; [|split].
  - rewrite <- Es. apply js_sort_perm.
  - now rewrite !length_update, length_scoreImages.
  - intros x. rewrite flag_update_other by reflexivity.
    rewrite flag_setRecommended, length_scoreImages, flag_scoreImages.
    reflexivity.
Qed.

End StoreFacts.

Section QualityFacts.
Import Enterprise.

(** The score does not read [qualityScore], [recommended] or the reason. *)
Lemma calculateQualityScore_setQualityScore (now : Z) (q : jsnum) (i : Image) :
  calculateQualityScore now (setQualityScore q i) = calculateQualityScore now i.
Proof. reflexivity. Qed.

Lemma score_deref_update (now : Z) (q : jsnum) (r x : Ref) (st : Store) :
  calculateQualityScore now (deref (update (setQualityScore q) r st) x)
  = calculateQualityScore now (deref st x).
Proof.
  destruct (decide (r = x)) as [->|Hne]; [|now rewrite deref_update_ne].
  destruct (le_lt_dec (length st) x) as [Hge|Hlt].
  - now rewrite deref_update_out.
  - now rewrite deref_update_eq.
Qed.

Lemma score_deref_scoreImages (now : Z) (images : list Ref) (st : Store) (x : Ref) :
  calculateQualityScore now (deref (scoreImages now images st) x)
  = calculateQualityScore now (deref st x).
Proof.
  unfold scoreImages. revert st.
  induction images as [|r images IH]; intros st; simpl; [reflexivity|].
  rewrite IH. apply score_deref_update.
Qed.

(** After [image.qualityScore = calculateQualityScore(image)] for every
    image of the group, each member holds its own score. *)
Lemma qualityScore_scoreImages (now : Z) (images : list Ref) (st : Store) (x : Ref) :
  (x < length st)%nat ->
  x ∈ images
  \/ img_qualityScore (deref st x) = Some (calculateQualityScore now (deref st x)) ->
  img_qualityScore (deref (scoreImages now images st) x)
  = Some (calculateQualityScore now (deref st x)).
Proof.
  unfold scoreImages. revert st.
  induction images as [|r images IH]; intros st Hlt Hx; simpl.
  - destruct Hx as [Hx|Hx]; [inversion Hx|exact Hx].
  - rewrite IH.
    + now rewrite score_deref_update.
    + now rewrite length_update.
    + destruct (decide (r = x)) as [->|Hne].
      * right. rewrite deref_update_eq by assumption. reflexivity.
      * destruct Hx as [Hx|Hx].
        -- left. apply elem_of_cons in Hx as [->|Hx]; [congruence|exact Hx].
        -- right. rewrite deref_update_ne by assumption.
           rewrite Hx. reflexivity.
Qed.

(** The score of an image whose format term is a number, and of one whose
    format names an inherited member. *)
Lemma calculateQualityScore_number (now : Z) (image : Image) (f : Q) :
  formatScore (img_format image) = Num f ->
  calculateQualityScore now image
  = Num (Qmin
           (inject_Z (img_resolution image) / 10000000 * (4 # 10)
            + Qmin (inject_Z (img_size image) / inject_Z (5 * 1024 * 1024)) 1
              * (2 # 10)
            + Qmax 0 (1 - daysSinceModified now image / 365) * (2 # 10)
            + f * (1 # 10)
            + Qmin (inject_Z (Z.of_nat (pathDepth (img_path image))) / 10) 1
              * (1 # 10)) 1)%Q.
Proof.
  intros Hf. unfold calculateQualityScore, rawQualityScore. now rewrite Hf.
Qed.

Lemma calculateQualityScore_nan (now : Z) (image : Image) :
  formatScore (img_format image) = NaN -> calculateQualityScore now image = NaN.
Proof.
  intros Hf. unfold calculateQualityScore, rawQualityScore. now rewrite Hf.
Qed.

Lemma formatScore_cases (format : option string) :
  (namesInheritedMember format = true /\ formatScore format = NaN)
  \/ (namesInheritedMember format = false
      /\ exists f, formatScore format = Num f /\ (5 # 10 <= f <= 1)%Q).
Proof.
  unfold namesInheritedMember, formatScore. destruct format as [f|]; cbv zeta.
  - repeat match goal with
           | |- context [String.eqb ?a ?b] =>
               let E := fresh "E" in
               destruct (String.eqb a b) eqn:E;
               try (apply String.eqb_eq in E; rewrite E in *; discriminate)
           end;
      first [ left; split; reflexivity
            | right; split; [reflexivity|];
              eexists; split; [reflexivity|split; discriminate] ].
  - right. split; [reflexivity|]. eexists. split; [reflexivity|split; discriminate].
Qed.

Lemma calculateQualityScore_is_number (now : Z) (image : Image) :
  namesInheritedMember (img_format image) = false ->
  exists score, calculateQualityScore now image = Num score.
Proof.
  intros Hout.
  destruct (formatScore_cases (img_format image))
    as [[Hin _]|(_ & fs & Hf & _)]; [congruence|].
  eexists. exact (calculateQualityScore_number now image fs Hf).
Qed.

(** Recency: among two images that differ only in their modification time,
    the one modified later scores strictly higher, provided it was modified
    less than 365 days ago and the other score is below the cap. *)
Lemma newer_scores_higher (now : Z) (newer older : Image) :
  img_resolution newer = img_resolution older ->
  img_size newer = img_size older ->
  img_format newer = img_format older ->
  pathDepth (img_path newer) = pathDepth (img_path older) ->
  (img_modified older < img_modified newer)%Z ->
  (now - img_modified newer < 365 * msPerDay)%Z ->
  js_lt (calculateQualityScore now older) (Num 1) ->
  js_lt (calculateQualityScore now older) (calculateQualityScore now newer).
Proof.
  intros Hres Hsize Hfmt Hdepth Hmod Hyear.
  destruct (formatScore (img_format older)) as [fs|] eqn:Ef;
    [|rewrite (calculateQualityScore_nan now older Ef); intros []].
  rewrite (calculateQualityScore_number now older fs Ef).
  rewrite (calculateQualityScore_number now newer fs) by (now rewrite Hfmt).
  unfold js_lt, daysSinceModified.
  rewrite Hres, Hsize, Hdepth.
  generalize (inject_Z (img_resolution older) / 10000000 * (4 # 10))%Q.
  generalize (Qmin (inject_Z (img_size older) / inject_Z (5 * 1024 * 1024)) 1 * (2 # 10))%Q.
  generalize (fs * (1 # 10))%Q.
  generalize (Qmin (inject_Z (Z.of_nat (pathDepth (img_path older))) / 10) 1 * (1 # 10))%Q.
  intros d f s r.
  assert (Hb : (inject_Z (now - img_modified newer) < inject_Z (now - img_modified older))%Q)
    by (rewrite <- Zlt_Qlt; lia).
  assert (Ha : (inject_Z (now - img_modified newer) < inject_Z (365 * msPerDay))%Q)
    by (rewrite <- Zlt_Qlt; exact Hyear).
  revert Ha Hb.
  generalize (inject_Z (now - img_modified newer)).
  generalize (inject_Z (now - img_modified older)).
  intros tb ta Ha Hb.
  change (inject_Z (365 * msPerDay)) with (31536000000 # 1)%Q in Ha.
  change (inject_Z msPerDay) with (86400000 # 1)%Q.
  unfold Qdiv.
  change (/ (86400000 # 1))%Q with (1 # 86400000)%Q.
  change (/ 365)%Q with (1 # 365)%Q.
  set (ra := (1 - ta * (1 # 86400000) * (1 # 365))%Q).
  set (rb := (1 - tb * (1 # 86400000) * (1 # 365))%Q).
  assert (Hra : (0 < ra)%Q) by (unfold ra; lra).
  assert (Hrab : (rb < ra)%Q) by (unfold ra, rb; lra).
  clearbody ra rb.
  destruct (Q.max_spec 0 ra) as [[_ ->]|[Hle _]]; [|exfalso; lra].
  destruct (Q.max_spec 0 rb) as [[_ ->]|[_ ->]]; intros Hcap.
  - destruct (Q.min_spec (r + s + rb * (2 # 10) + f + d) 1)
      as [[Hlt Eb]|[Hge Eb]]; rewrite Eb in *; [|lra].
    destruct (Q.min_spec (r + s + ra * (2 # 10) + f + d) 1)
      as [[_ ->]|[_ ->]]; lra.
  - destruct (Q.min_spec (r + s + 0 * (2 # 10) + f + d) 1)
      as [[Hlt Eb]|[Hge Eb]]; rewrite Eb in *; [|lra].
    destruct (Q.min_spec (r + s + ra * (2 # 10) + f + d) 1)
      as [[_ ->]|[_ ->]]; lra.
Qed.

End QualityFacts.

Section PairRanking.
Import Enterprise.

(** A group of two images whose scores differ is ordered by score,
    whichever way round it was found, and its better image is marked. *)
Lemma rankGroup_pair (now : Z) (st : Store) (g : Group) (better worse : Ref) :
  better <> worse ->
  (better < length st)%nat -> (worse < length st)%nat ->
  grp_images g = [better; worse] \/ grp_images g = [worse; better] ->
  js_lt (calculateQualityScore now (deref st worse))
        (calculateQualityScore now (deref st better)) ->
  exists st',
    rankGroup now st g = Ok (st', withImages [better; worse] g)
    /\ flag st' better = true
    /\ flag st' worse = flag st worse.
Proof.
  intros Hne Hb Hw Himg Hlt.
  assert (Hsort : js_sort (byQualityDesc (scoreImages now (grp_images g) st))
                          (grp_images g) = [better; worse]).
  { assert (Qb : img_qualityScore (deref (scoreImages now (grp_images g) st) better)
                 = Some (calculateQualityScore now (deref st better))).
    { apply qualityScore_scoreImages; [exact Hb|]. left.
      destruct Himg as [-> | ->]; set_solver. }
    assert (Qw : img_qualityScore (deref (scoreImages now (grp_images g) st) worse)
                 = Some (calculateQualityScore now (deref st worse))).
    { apply qualityScore_scoreImages; [exact Hw|]. left.
      destruct Himg as [-> | ->]; set_solver. }
    revert Qb Qw. generalize (scoreImages now (grp_images g) st). intros st1 Qb Qw.
    destruct (calculateQualityScore now (deref st worse)) as [qw|];
      [|destruct Hlt].
    destruct (calculateQualityScore now (deref st better)) as [qb|];
      [|destruct Hlt].
    simpl in Hlt.
    destruct Himg as [-> | ->]; simpl; unfold byQualityDesc; rewrite Qb, Qw.
    - destruct (Qle_bool _ 0) eqn:Hq; [reflexivity|].
      exfalso. apply not_true_iff_false in Hq. apply Hq.
      apply Qle_bool_iff. lra.
    - destruct (Qle_bool _ 0) eqn:Hq; [|reflexivity].
      exfalso. apply Qle_bool_iff in Hq. lra. }
  unfold rankGroup. cbv zeta. rewrite Hsort.
  eexists. split; [reflexivity|]. split.
  - rewrite flag_update_other by reflexivity.
    rewrite flag_setRecommended, length_scoreImages.
    destruct (decide _) as [_|Hn]; [reflexivity|]. exfalso. apply Hn. split; [reflexivity|exact Hb].
  - rewrite flag_update_other by reflexivity.
    rewrite flag_setRecommended, length_scoreImages, flag_scoreImages.
    destruct (decide _) as [[He _]|_]; [congruence|reflexivity].
Qed.

End PairRanking.

Section RecencyClaims.
Import EnterpriseExample.

(** The local-only detector orders two images of equal file size by
    modification time, later first. *)
Lemma simplified_rankGroup_pair (g : Simplified.Group) (newer older : Simplified.Image)
    (size tn to : Z) :
  Simplified.img_fileSize newer = Some size ->
  Simplified.img_fileSize older = Some size ->
  Simplified.img_lastModified newer = Some tn ->
  Simplified.img_lastModified older = Some to ->
  (to < tn)%Z ->
  Simplified.grp_images g = [newer; older]
  \/ Simplified.grp_images g = [older; newer] ->
  Simplified.grp_images (Simplified.rankGroup g) = [newer; older]
  /\ Simplified.grp_recommendedToKeep (Simplified.rankGroup g) = Some newer
  /\ Simplified.grp_candidatesForDeletion (Simplified.rankGroup g) = Some [older].
Proof.
  intros Hsn Hso Htn Hto Hlt Himg.
  assert (Hsort : js_sort Simplified.bySizeThenDate (Simplified.grp_images g)
                  = [newer; older]).
  { destruct Himg as [-> | ->]; simpl; unfold Simplified.bySizeThenDate;
      rewrite Hsn, Hso, Htn, Hto; simpl; rewrite Z.sub_diag; simpl.
    - destruct (Qle_bool _ 0) eqn:Hq; [reflexivity|].
      exfalso. apply not_true_iff_false in Hq. apply Hq.
      apply Qle_bool_iff. change 0%Q with (inject_Z 0). rewrite <- Zle_Qle. lia.
    - destruct (Qle_bool _ 0) eqn:Hq; [|reflexivity].
      exfalso. apply Qle_bool_iff in Hq. change 0%Q with (inject_Z 0) in Hq.
      rewrite <- Zle_Qle in Hq. lia. }
  unfold Simplified.rankGroup. cbv zeta. rewrite Hsort. simpl.
  repeat split; reflexivity.
Qed.

(** C9 (as amended).  Multi-provider detector: for two images of one group
    that agree in resolution, byte size, format and path depth, the one
    modified later gets the strictly higher quality score, is ranked first
    and is marked recommended, provided it was modified less than 365 days
    before the scores are computed and the score of the other one is below
    the cap 1.  Local-only detector: two images of equal file size are
    ranked by modification time, the later one first, and the later one is
    the image recommended to keep. *)
Theorem newer_image_ranks_first :
  (forall (now : Z) (st : list Enterprise.Image) (g : Enterprise.Group)
          (newer older : nat),
      newer <> older ->
      (newer < length st)%nat -> (older < length st)%nat ->
      Enterprise.grp_images g = [newer; older]
      \/ Enterprise.grp_images g = [older; newer] ->
      Enterprise.img_resolution (Enterprise.deref st newer)
        = Enterprise.img_resolution (Enterprise.deref st older) ->
      Enterprise.img_size (Enterprise.deref st newer)
        = Enterprise.img_size (Enterprise.deref st older) ->
      Enterprise.img_format (Enterprise.deref st newer)
        = Enterprise.img_format (Enterprise.deref st older) ->
      Enterprise.pathDepth (Enterprise.img_path (Enterprise.deref st newer))
        = Enterprise.pathDepth (Enterprise.img_path (Enterprise.deref st older)) ->
      (Enterprise.img_modified (Enterprise.deref st older)
       < Enterprise.img_modified (Enterprise.deref st newer))%Z ->
      (now - Enterprise.img_modified (Enterprise.deref st newer)
       < 365 * Enterprise.msPerDay)%Z ->
      js_lt (Enterprise.calculateQualityScore now (Enterprise.deref st older))
            (Num 1) ->
      js_lt (Enterprise.calculateQualityScore now (Enterprise.deref st older))
            (Enterprise.calculateQualityScore now (Enterprise.deref st newer))
      /\ exists st',
           Enterprise.rankImagesWithML now st [g]
           = Ok (st', [Enterprise.withImages [newer; older] g])
           /\ Enterprise.img_recommended (Enterprise.deref st' newer) = true
           /\ Enterprise.img_recommended (Enterprise.deref st' older)
              = Enterprise.img_recommended (Enterprise.deref st older))
  /\ (forall (g : Simplified.Group) (newer older : Simplified.Image)
             (size tn to : Z),
         Simplified.img_fileSize newer = Some size ->
         Simplified.img_fileSize older = Some size ->
         Simplified.img_lastModified newer = Some tn ->
         Simplified.img_lastModified older = Some to ->
         (to < tn)%Z ->
         Simplified.grp_images g = [newer; older]
         \/ Simplified.grp_images g = [older; newer] ->
         Simplified.rankImagesByQuality [g] = [Simplified.rankGroup g]
         /\ Simplified.grp_images (Simplified.rankGroup g) = [newer; older]
         /\ Simplified.grp_recommendedToKeep (Simplified.rankGroup g) = Some newer
         /\ Simplified.grp_candidatesForDeletion (Simplified.rankGroup g)
            = Some [older]).
Proof.
  split.
  - intros now st g newer older Hne Hn Ho Himg Hres Hsize Hfmt Hdepth Hmod Hyear Hcap.
    pose proof (newer_scores_higher now _ _ Hres Hsize Hfmt Hdepth Hmod Hyear Hcap) as Hlt.
    split; [exact Hlt|].
    destruct (rankGroup_pair now st g newer older Hne Hn Ho Himg Hlt)
      as (st' & Er & Fn & Fo).
    exists st'. simpl. rewrite Er. split; [reflexivity|]. split; assumption.
  - intros g newer older size tn to Hsn Hso Htn Hto Hlt Himg.
    split; [reflexivity|].
    exact (simplified_rankGroup_pair g newer older size tn to Hsn Hso Htn Hto Hlt Himg).
Qed.

Lemma newer_image_ranks_first_witness :
  (exists st',
      Enterprise.rankImagesWithML now0 twoRecentCopies [Enterprise.exactGroup [0; 1]%nat]
      = Ok (st', [Enterprise.withImages [1; 0]%nat (Enterprise.exactGroup [0; 1]%nat)])
      /\ Enterprise.img_recommended (Enterprise.deref st' 1%nat) = true)
  /\ Simplified.grp_recommendedToKeep
       (Simplified.rankGroup
          (Simplified.exactGroup
             [Simplified.mkImage "/a.jpg" "a.jpg" "9-h" (Some 9%Z) (Some 100%Z);
              Simplified.mkImage "/b.jpg" "b.jpg" "9-h" (Some 9%Z) (Some 200%Z)]))
     = Some (Simplified.mkImage "/b.jpg" "b.jpg" "9-h" (Some 9%Z) (Some 200%Z)).
Proof.
  destruct newer_image_ranks_first as [HE HS]. split.
  - destruct (HE now0 twoRecentCopies (Enterprise.exactGroup [0; 1]%nat) 1%nat 0%nat)
      as (_ & st' & Er & Fn & _).
    + lia.
    + simpl; lia.
    + simpl; lia.
    + right; reflexivity.
    + reflexivity.
    + reflexivity.
    + reflexivity.
    + reflexivity.
    + vm_compute; reflexivity.
    + vm_compute; reflexivity.
    + vm_compute; reflexivity.
    + exists st'. split; assumption.
  - exact (proj1 (proj2 (proj2
      (HS (Simplified.exactGroup
             [Simplified.mkImage "/a.jpg" "a.jpg" "9-h" (Some 9%Z) (Some 100%Z);
              Simplified.mkImage "/b.jpg" "b.jpg" "9-h" (Some 9%Z) (Some 200%Z)])
          (Simplified.mkImage "/b.jpg" "b.jpg" "9-h" (Some 9%Z) (Some 200%Z))
          (Simplified.mkImage "/a.jpg" "a.jpg" "9-h" (Some 9%Z) (Some 100%Z))
          9%Z 200%Z 100%Z eq_refl eq_refl eq_refl eq_refl eq_refl
          (or_intror eq_refl))))).
Defined.

(** C9 as stated fails.  Two byte-identical files, equal in resolution,
    size, format and folder, last modified 500 and 400 days ago: both
    recency terms are 0, the scores tie, the stable sort keeps the scan
    order, and the older file is ranked first and recommended. *)
Lemma older_image_ranked_first_after_a_year :
  Enterprise.img_resolution (Enterprise.deref twoOldCopies 0%nat)
    = Enterprise.img_resolution (Enterprise.deref twoOldCopies 1%nat)
  /\ Enterprise.img_format (Enterprise.deref twoOldCopies 0%nat)
     = Enterprise.img_format (Enterprise.deref twoOldCopies 1%nat)
  /\ (Enterprise.img_modified (Enterprise.deref twoOldCopies 0%nat)
      < Enterprise.img_modified (Enterprise.deref twoOldCopies 1%nat))%Z
  /\ exists st' g,
       Enterprise.detectDuplicates (quiet localOnly) twoOldCopies = Ok (st', [g])
       /\ Enterprise.grp_images g = [0; 1]%nat
       /\ Enterprise.img_recommended (Enterprise.deref st' 0%nat) = true
       /\ Enterprise.img_recommended (Enterprise.deref st' 1%nat) = false.
Proof.
  split; [reflexivity|]. split; [reflexivity|]. split; [vm_compute; reflexivity|].
  eexists _, _. split; [vm_compute; reflexivity|].
  repeat split; reflexivity.
Qed.

End RecencyClaims.

(* --------------------------------------------------------------------- *)
(** ** Grouping by key                                                    *)
(* --------------------------------------------------------------------- *)

Section MapFacts.
Context {A : Type}.
Implicit Types (m : list (string * list A)) (k : string) (x : A).

Lemma map_get_push_eq k x m : map_get k (map_push k x m) = map_get k m ++ [x].
Proof.
  induction m as [|[k' l] m IH]; simpl.
  - now rewrite String.eqb_refl.
  - destruct (String.eqb k' k) eqn:Ek; simpl; rewrite Ek; [reflexivity|exact IH].
Qed.

Lemma map_get_push_ne k k' x m :
  k <> k' -> map_get k (map_push k' x m) = map_get k m.
Proof.
  intros Hne. induction m as [|[k0 l] m IH]; simpl.
  - apply String.eqb_neq in Hne. rewrite String.eqb_sym in Hne. now rewrite Hne.
  - destruct (String.eqb k0 k') eqn:Ek'; simpl.
    + destruct (String.eqb k0 k) eqn:Ek; [|reflexivity].
      apply String.eqb_eq in Ek, Ek'. congruence.
    + destruct (String.eqb k0 k); [reflexivity|exact IH].
Qed.

Lemma keys_push k x m :
  (map_push k x m).*1
  = if decide (k ∈ m.*1) then m.*1 else m.*1 ++ [k].
Proof.
  induction m as [|[k' l] m IH].
  - reflexivity.
  - cbn [map_push]. destruct (String.eqb k' k) eqn:Ek.
    + apply String.eqb_eq in Ek. subst k'. cbn [fmap list_fmap fst].
      destruct (decide (k ∈ k :: m.*1)) as [_|Hn]; [reflexivity|].
      exfalso. apply Hn. left.
    + apply String.eqb_neq in Ek. cbn [fmap list_fmap fst].
      change (list_fmap _ _ fst (map_push k x m)) with ((map_push k x m).*1).
      change (list_fmap _ _ fst m) with (m.*1).
      rewrite IH.
      destruct (decide (k ∈ m.*1)) as [Hin|Hn];
        destruct (decide (k ∈ k' :: m.*1)) as [Hin'|Hn']; try reflexivity.
      * exfalso. apply Hn'. now right.
      * exfalso. apply elem_of_cons in Hin' as [->|Hin']; [congruence|contradiction].
Qed.

Lemma keys_push_NoDup k x m :
  NoDup (m.*1) -> NoDup ((map_push k x m).*1).
Proof.
  intros Hnd. rewrite keys_push. destruct (decide (k ∈ m.*1)) as [_|Hn]; [exact Hnd|].
  apply NoDup_app. split; [exact Hnd|]. split; [|apply NoDup_singleton].
  intros y Hy Hy'. apply list_elem_of_singleton in Hy'. subst y. contradiction.
Qed.

Lemma keys_push_mono k k' x m :
  k ∈ m.*1 -> k ∈ (map_push k' x m).*1.
Proof.
  intros Hin. rewrite keys_push. destruct (decide (k' ∈ m.*1)); [exact Hin|].
  apply elem_of_app. now left.
Qed.

Lemma keys_push_new k x m : k ∈ (map_push k x m).*1.
Proof.
  rewrite keys_push. destruct (decide (k ∈ m.*1)) as [Hin|_]; [exact Hin|].
  apply elem_of_app. right. left.
Qed.

Lemma concat_push k x m :
  concat (map_push k x m).*2 ≡ₚ x :: concat m.*2.
Proof.
  induction m as [|[k' l] m IH]; simpl; [reflexivity|].
  destruct (String.eqb k' k); simpl.
  - rewrite <- app_assoc. simpl. symmetry. apply Permutation_middle.
  - rewrite IH. symmetry. apply Permutation_middle.
Qed.

(** With distinct keys, an entry of the association list is what [m.get]
    returns for its key. *)
Lemma entry_map_get k (l : list A) m :
  NoDup (m.*1) -> (k, l) ∈ m -> map_get k m = l.
Proof.
  induction m as [|[k' l'] m IH]; intros Hnd Hin; [inversion Hin|].
  simpl in *. apply NoDup_cons in Hnd as [Hk Hnd].
  apply elem_of_cons in Hin as [Heq|Hin].
  - injection Heq as -> ->. now rewrite String.eqb_refl.
  - destruct (String.eqb k' k) eqn:Ek; [|now apply IH].
    apply String.eqb_eq in Ek. subst k'. exfalso. apply Hk.
    apply list_elem_of_fmap. exists (k, l). split; [reflexivity|exact Hin].
Qed.

Lemma key_has_entry k m : k ∈ m.*1 -> exists l, (k, l) ∈ m.
Proof.
  intros Hin. apply list_elem_of_fmap in Hin as ([k' l] & -> & Hin).
  now exists l.
Qed.

Variable key : A -> string.

Lemma fill_get k (l : list A) m :
  map_get k (fill key m l) = map_get k m ++ filter (fun x => key x = k) l.
Proof.
  revert m. induction l as [|x l IH]; intros m; simpl.
  - now rewrite app_nil_r.
  - unfold fill in *. simpl. rewrite IH.
    rewrite filter_cons. destruct (decide (key x = k)) as [<-|Hne].
    + rewrite map_get_push_eq, <- app_assoc. reflexivity.
    + rewrite map_get_push_ne by congruence. reflexivity.
Qed.

Lemma fill_keys_NoDup (l : list A) m :
  NoDup (m.*1) -> NoDup ((fill key m l).*1).
Proof.
  revert m. induction l as [|x l IH]; intros m Hnd; simpl; [exact Hnd|].
  apply IH. now apply keys_push_NoDup.
Qed.

Lemma fill_keys_mono k (l : list A) m :
  k ∈ m.*1 -> k ∈ (fill key m l).*1.
Proof.
  revert m. induction l as [|x l IH]; intros m Hin; simpl; [exact Hin|].
  apply IH. now apply keys_push_mono.
Qed.

Lemma fill_keys_in x (l : list A) m : x ∈ l -> key x ∈ (fill key m l).*1.
Proof.
  revert m. induction l as [|y l IH]; intros m Hin; [inversion Hin|].
  simpl. apply elem_of_cons in Hin as [->|Hin].
  - apply fill_keys_mono, keys_push_new.
  - now apply IH.
Qed.

Lemma fill_concat (l : list A) m :
  concat (fill key m l).*2 ≡ₚ concat m.*2 ++ l.
Proof.
  revert m. induction l as [|x l IH]; intros m; simpl.
  - now rewrite app_nil_r.
  - unfold fill in *. simpl. rewrite IH, concat_push.
    simpl. apply Permutation_middle.
Qed.

(** [groupBy]: the entry of a key holds the elements with that key, in
    array order; every element has an entry; the entries partition the
    array. *)
Lemma groupBy_entry k (g : list A) (l : list A) :
  (k, g) ∈ groupBy key l -> g = filter (fun x => key x = k) l.
Proof.
  intros Hin. unfold groupBy in Hin.
  rewrite <- (entry_map_get k g (fill key [] l)); [| |exact Hin].
  - now rewrite fill_get.
  - apply fill_keys_NoDup. constructor.
Qed.

Lemma groupBy_has_entry x (l : list A) :
  x ∈ l -> (key x, filter (fun y => key y = key x) l) ∈ groupBy key l.
Proof.
  intros Hin.
  destruct (key_has_entry (key x) (groupBy key l)) as [g Hg].
  { unfold groupBy. apply (fill_keys_in x l []). exact Hin. }
  now rewrite <- (groupBy_entry _ _ _ Hg).
Qed.

Lemma groupBy_partition (l : list A) : concat (groupBy key l).*2 ≡ₚ l.
Proof. unfold groupBy. now rewrite fill_concat. Qed.

End MapFacts.

(* --------------------------------------------------------------------- *)
(** ** No image joins two groups                                          *)
(* --------------------------------------------------------------------- *)

Section ListFacts.
Context {A : Type}.

Lemma sublist_filter_all (P : A -> Prop) `{forall x, Decision (P x)}
    (l1 l2 : list A) :
  l1 `sublist_of` l2 -> Forall P l1 -> l1 `sublist_of` filter P l2.
Proof.
  induction 1 as [|x l1 l2 Hs IH|x l1 l2 Hs IH]; intros Hall.
  - constructor.
  - apply Forall_cons in Hall as [Hx Hall].
    rewrite filter_cons_True by assumption. constructor. now apply IH.
  - rewrite filter_cons. destruct (decide (P x)); [constructor|]; now apply IH.
Qed.

Lemma filter_weaken (P Q : A -> Prop) `{forall x, Decision (P x)}
    `{forall x, Decision (Q x)} (l : list A) :
  (forall x, P x -> Q x) -> filter P l `sublist_of` filter Q l.
Proof.
  intros HPQ. induction l as [|x l IH]; [constructor|].
  rewrite !filter_cons. destruct (decide (P x)) as [HP|HP].
  - rewrite decide_True by auto. now constructor.
  - destruct (decide (Q x)); [constructor|]; exact IH.
Qed.

Lemma filter_all (P : A -> Prop) `{forall x, Decision (P x)} (l : list A) :
  Forall P l -> filter P l = l.
Proof.
  induction 1 as [|x l Hx Hall IH]; [reflexivity|].
  rewrite filter_cons_True by assumption. now rewrite IH.
Qed.

(** Two lists of a duplicate-free concatenation that share an element are
    the same list. *)
Lemma concat_NoDup_same (ls : list (list A)) (l l' : list A) (x : A) :
  NoDup (concat ls) -> l ∈ ls -> l' ∈ ls -> x ∈ l -> x ∈ l' -> l = l'.
Proof.
  induction ls as [|l0 ls IH]; intros Hnd Hl Hl' Hx Hx'; [inversion Hl|].
  simpl in Hnd. apply NoDup_app in Hnd as (Hnd0 & Hdisj & Hnd).
  assert (Hin : forall k, k ∈ ls -> x ∈ k -> x ∈ concat ls).
  { intros k Hk Hxk. apply list_elem_of_In, in_concat. exists k.
    split; now apply list_elem_of_In. }
  apply elem_of_cons in Hl as [->|Hl]; apply elem_of_cons in Hl' as [->|Hl'].
  - reflexivity.
  - exfalso. exact (Hdisj x Hx (Hin _ Hl' Hx')).
  - exfalso. exact (Hdisj x Hx' (Hin _ Hl Hx)).
  - now apply IH.
Qed.

Lemma concat_NoDup_each (ls : list (list A)) (l : list A) :
  NoDup (concat ls) -> l ∈ ls -> NoDup l.
Proof.
  induction ls as [|l0 ls IH]; intros Hnd Hl; [inversion Hl|].
  simpl in Hnd. apply NoDup_app in Hnd as (Hnd0 & _ & Hnd).
  apply elem_of_cons in Hl as [->|Hl]; [exact Hnd0|now apply IH].
Qed.

Lemma two_members_length (l : list A) (x y : A) :
  x <> y -> x ∈ l -> y ∈ l -> (2 <= length l)%nat.
Proof.
  intros Hne Hx Hy. destruct l as [|a [|b l]]; simpl; try lia.
  - inversion Hx.
  - apply list_elem_of_singleton in Hx, Hy. congruence.
Qed.
End ListFacts.

Section AbsorbedSplit.
Import Enterprise.

Lemma absorbed_split (U absorbed : list (nat * nat)) :
  absorbed `sublist_of` U ->
  absorbed.*2
    ++ (filter (fun x => fst x ∉ (list_to_set absorbed.*1 : gset nat)) U).*2
  ⊆+ U.*2.
Proof.
  induction 1 as [|x ab U Hs IH|x ab U Hs IH].
  - reflexivity.
  - rewrite filter_cons_False by (simpl; set_solver).
    simpl. apply submseteq_skip. etransitivity; [|exact IH].
    apply submseteq_skips_l, sublist_submseteq, fmap_sublist, filter_weaken.
    intros y. simpl. set_solver.
  - rewrite filter_cons. destruct (decide _).
    + simpl. rewrite <- Permutation_middle. now apply submseteq_skip.
    + simpl. now apply submseteq_cons.
Qed.

Lemma members_app (gs1 gs2 : list Group) :
  members (gs1 ++ gs2) = members gs1 ++ members gs2.
Proof. unfold members. now rewrite fmap_app, concat_app. Qed.

End AbsorbedSplit.

Section NoSharing.
Import Consensus Enterprise.

Variable E : Env.
Variable st : Store.
Hypothesis quiet : forall a b, env_callbackThrows E a b = false.

(** When the progress callback does not throw, the images absorbed by one
    seed are a sub-sequence of the candidates after it, none of them
    processed before, and their positions are what [processed] gains. *)
Lemma scanLater_quiet (seed : Ref) (later : list (nat * nat))
    (s : gset nat * list nat) :
  exists absorbed : list (nat * nat),
    absorbed `sublist_of` later
    /\ Forall (fun x => fst x ∉ fst s) absorbed
    /\ snd (scanLater E st seed later s) = snd s ++ absorbed.*2
    /\ fst (scanLater E st seed later s) = list_to_set absorbed.*1 ∪ fst s.
Proof using quiet.
  revert s. induction later as [|[j c] later IH]; intros s; simpl.
  - exists []. repeat split; [constructor|constructor|now rewrite app_nil_r|set_solver].
  - destruct (decide (j ∈ fst s)) as [Hj|Hj].
    + destruct (IH s) as (ab & Hsub & Hall & Hsnd & Hfst).
      exists ab. repeat split; try assumption. now constructor.
    + unfold comparePair. rewrite quiet. cbv zeta.
      destruct (isMatch _).
      * destruct (IH (absorbInto j c s)) as (ab & Hsub & Hall & Hsnd & Hfst).
        exists ((j, c) :: ab). simpl in *. repeat split.
        -- now constructor.
        -- apply Forall_cons. split; [exact Hj|].
           eapply Forall_impl; [exact Hall|]. simpl. set_solver.
        -- rewrite Hsnd, <- app_assoc. reflexivity.
        -- rewrite Hfst. set_solver.
      * destruct (IH s) as (ab & Hsub & Hall & Hsnd & Hfst).
        exists ab. repeat split; try assumption. now constructor.
Qed.

(** The images held by the groups, plus the images still unprocessed, never
    exceed the array the clustering started from. *)
Lemma seedLoop_members (L : list nat) (items : list (nat * nat))
    (processed : gset nat) (groups : list Group) :
  members groups ++ (filter (fun x => fst x ∉ processed) items).*2 ⊆+ L ->
  members (seedLoop E st items processed groups) ⊆+ L.
Proof using quiet.
  revert processed groups.
  induction items as [|[i cur] items IH]; intros processed groups Hinv; simpl.
  - now rewrite filter_nil, app_nil_r in Hinv.
  - destruct (decide (i ∈ processed)) as [Hi|Hi].
    + apply IH. rewrite filter_cons_False in Hinv by (simpl; tauto). exact Hinv.
    + rewrite filter_cons_True in Hinv by exact Hi. simpl in Hinv.
      destruct (scanLater_quiet cur items ({[i]} ∪ processed, [cur]))
        as (ab & Hsub & Hall & Hsnd & Hfst).
      simpl in Hall, Hsnd, Hfst. rewrite Hsnd, Hfst.
      assert (K : ab.*2
                  ++ (filter (fun x => fst x ∉ list_to_set ab.*1 ∪ ({[i]} ∪ processed))
                             items).*2
                  ⊆+ (filter (fun x => fst x ∉ processed) items).*2).
      { set (U := filter (fun x : nat * nat => fst x ∉ {[i]} ∪ processed) items).
        assert (HU : filter (fun x : nat * nat =>
                               fst x ∉ list_to_set ab.*1 ∪ ({[i]} ∪ processed)) items
                     = filter (fun x : nat * nat =>
                                 fst x ∉ (list_to_set ab.*1 : gset nat)) U).
        { unfold U. rewrite list_filter_filter. apply list_filter_iff.
          intros x. set_solver. }
        rewrite HU. etransitivity.
        - apply absorbed_split. now apply sublist_filter_all.
        - apply sublist_submseteq, fmap_sublist, filter_weaken.
          intros x. set_solver. }
      apply IH. etransitivity; [|exact Hinv].
      destruct (1 <? length _)%nat.
      * rewrite members_app. unfold members at 2. simpl.
        rewrite app_nil_r, <- app_assoc. apply submseteq_skips_l.
        simpl. apply submseteq_skip. exact K.
      * apply submseteq_skips_l, submseteq_cons.
        etransitivity; [|exact K]. apply submseteq_inserts_l. reflexivity.
Qed.

Lemma detectWithEnterpriseAI_members (images : list nat) :
  members (detectWithEnterpriseAI E st images) ⊆+ images.
Proof using quiet.
  unfold detectWithEnterpriseAI. apply seedLoop_members.
  unfold members. simpl. rewrite filter_all.
  - rewrite snd_zip; [reflexivity|]. now rewrite length_seq.
  - apply Forall_forall. intros x _. set_solver.
Qed.

End NoSharing.

(* --------------------------------------------------------------------- *)
(** ** Groups before ranking                                              *)
(* --------------------------------------------------------------------- *)

Section CollectFacts.
Import Consensus Enterprise.

Lemma seedLoop_sizes (E : Env) (st : Store) (items : list (nat * nat))
    (processed : gset nat) (groups : list Group) :
  Forall big groups -> Forall big (seedLoop E st items processed groups).
Proof.
  revert processed groups.
  induction items as [|[i cur] items IH]; intros processed groups Hg; simpl.
  - exact Hg.
  - destruct (decide (i ∈ processed)); [now apply IH|].
    apply IH. destruct (1 <? length _)%nat eqn:Hlen; [|exact Hg].
    apply Forall_app. split; [exact Hg|].
    apply Forall_cons. split; [|apply Forall_nil_2].
    unfold big. simpl. apply Nat.ltb_lt in Hlen. lia.
Qed.

Lemma detectWithEnterpriseAI_sizes (E : Env) (st : Store) (images : list nat) :
  Forall big (detectWithEnterpriseAI E st images).
Proof. apply seedLoop_sizes. apply Forall_nil_2. Qed.

Lemma members_snoc (gs : list Group) (g : Group) :
  members (gs ++ [g]) = members gs ++ grp_images g.
Proof. rewrite members_app. unfold members at 2. simpl. now rewrite app_nil_r. Qed.

Lemma split_members (m : list (string * list nat)) (acc : list Group * list nat) :
  members (fst (foldl splitStep acc m)) ++ snd (foldl splitStep acc m)
  ≡ₚ members (fst acc) ++ snd acc ++ concat m.*2.
Proof.
  revert acc. induction m as [|[k l] m IH]; intros [gs us]; simpl.
  - now rewrite app_nil_r.
  - rewrite IH. unfold splitStep. simpl.
    destruct (1 <? length l)%nat eqn:Hlen; simpl.
    + rewrite members_snoc. simpl. rewrite <- !app_assoc.
      apply Permutation_app_head. rewrite !app_assoc.
      apply Permutation_app_tail, Permutation_app_comm.
    + apply Nat.ltb_ge in Hlen. rewrite take_ge by lia.
      now rewrite <- !app_assoc.
Qed.

Lemma split_sizes (m : list (string * list nat)) (acc : list Group * list nat) :
  Forall big (fst acc) -> Forall big (fst (foldl splitStep acc m)).
Proof.
  revert acc. induction m as [|[k l] m IH]; intros [gs us] Hg; simpl; [exact Hg|].
  apply IH. unfold splitStep. simpl.
  destruct (1 <? length l)%nat eqn:Hlen; simpl; [|exact Hg].
  apply Forall_app. split; [exact Hg|].
  apply Forall_cons. split; [|apply Forall_nil_2].
  unfold big. simpl. apply Nat.ltb_lt in Hlen. lia.
Qed.

Lemma split_keeps (m : list (string * list nat)) (acc : list Group * list nat)
    (g : Group) :
  g ∈ fst acc -> g ∈ fst (foldl splitStep acc m).
Proof.
  revert acc. induction m as [|[k l] m IH]; intros [gs us] Hg; simpl; [exact Hg|].
  apply IH. unfold splitStep. simpl.
  destruct (1 <? length l)%nat; simpl; [|exact Hg].
  apply elem_of_app. now left.
Qed.

Lemma split_exact (m : list (string * list nat)) (acc : list Group * list nat)
    (k : string) (l : list nat) :
  (k, l) ∈ m -> (2 <= length l)%nat ->
  exactGroup l ∈ fst (foldl splitStep acc m).
Proof.
  revert acc. induction m as [|[k' l'] m IH]; intros [gs us] Hin Hlen;
    [inversion Hin|]. simpl.
  apply elem_of_cons in Hin as [Heq|Hin]; [|now apply IH].
  injection Heq as <- <-. apply split_keeps. unfold splitStep. simpl.
  destruct (1 <? length l)%nat eqn:Hl; [|apply Nat.ltb_ge in Hl; lia].
  simpl. apply elem_of_app. right. left.
Qed.

Lemma splitHashGroups_unfold (m : list (string * list nat)) :
  splitHashGroups m = foldl splitStep ([], []) m.
Proof. reflexivity. Qed.

Lemma groupByHash_groupBy (st : Store) (images : list nat) :
  groupByHash st images = groupBy (fun r => img_hash (deref st r)) images.
Proof. reflexivity. Qed.

(** Every group collected has at least two images. *)
Lemma collectGroups_sizes (E : Env) (st : Store) : Forall big (collectGroups E st).
Proof.
  unfold collectGroups. rewrite splitHashGroups_unfold.
  pose proof (split_sizes (groupByHash st (seq 0 (length st))) ([], [])
                (Forall_nil_2 _)) as Hs.
  destruct (foldl splitStep _ _) as [dg ui]. simpl in Hs.
  destruct (1 <? length ui)%nat; [|exact Hs].
  apply Forall_app. split; [exact Hs|apply detectWithEnterpriseAI_sizes].
Qed.

(** Without a throwing callback no image object is held twice. *)
Lemma collectGroups_members (E : Env) (st : Store) :
  (forall a b, env_callbackThrows E a b = false) ->
  members (collectGroups E st) ⊆+ seq 0 (length st).
Proof.
  intros quiet. unfold collectGroups. rewrite splitHashGroups_unfold.
  pose proof (split_members (groupByHash st (seq 0 (length st))) ([], [])) as Hs.
  rewrite groupByHash_groupBy, groupBy_partition in Hs. simpl in Hs.
  destruct (foldl splitStep _ _) as [dg ui]. simpl in Hs.
  rewrite <- Hs. destruct (1 <? length ui)%nat.
  - rewrite members_app. apply submseteq_skips_l.
    now apply detectWithEnterpriseAI_members.
  - apply submseteq_inserts_r. reflexivity.
Qed.

(** Two images carrying the same [hash] are collected into one exact
    group. *)
Lemma collectGroups_exact (E : Env) (st : Store) (i j : nat) :
  i <> j -> (i < length st)%nat -> (j < length st)%nat ->
  img_hash (deref st i) = img_hash (deref st j) ->
  exists l, exactGroup l ∈ collectGroups E st /\ i ∈ l /\ j ∈ l.
Proof.
  intros Hne Hi Hj Hh.
  set (l := filter (fun r => img_hash (deref st r) = img_hash (deref st i))
                   (seq 0 (length st))).
  assert (Hil : i ∈ l).
  { apply list_elem_of_filter. split; [reflexivity|]. apply elem_of_seq. lia. }
  assert (Hjl : j ∈ l).
  { apply list_elem_of_filter. split; [now symmetry|]. apply elem_of_seq. lia. }
  exists l. split; [|split; assumption].
  assert (Hentry : (img_hash (deref st i), l) ∈ groupByHash st (seq 0 (length st))).
  { rewrite groupByHash_groupBy.
    apply (groupBy_has_entry (fun r => img_hash (deref st r)) i).
    apply elem_of_seq. lia. }
  unfold collectGroups. rewrite splitHashGroups_unfold.
  pose proof (split_exact _ ([], []) _ _ Hentry
                (two_members_length l i j Hne Hil Hjl)) as Hex.
  destruct (foldl splitStep _ _) as [dg ui]. simpl in Hex.
  destruct (1 <? length ui)%nat; [|exact Hex].
  apply elem_of_app. now left.
Qed.

End CollectFacts.

(* --------------------------------------------------------------------- *)
(** ** Ranking and the final safety pass                                  *)
(* --------------------------------------------------------------------- *)

Section RankVerifyFacts.
Import Consensus Enterprise.

Lemma big_nonempty (g : Group) : big g -> nonempty g.
Proof. unfold big, nonempty. destruct (grp_images g); simpl; [lia|congruence]. Qed.

Lemma rankImagesWithML_spec (now : Z) (groups : list Group) (st : Store) :
  Forall nonempty groups ->
  exists st' groups',
    rankImagesWithML now st groups = Ok (st', groups')
    /\ length st' = length st
    /\ Forall2 ranked groups groups'
    /\ forall x, flag st' x = true
                 <-> flag st x = true
                     \/ ((x < length st)%nat
                         /\ exists g', g' ∈ groups'
                              /\ head (grp_images g') = Some x).
Proof.
  intros Hne. revert st.
  induction Hne as [|g groups Hg Hne IH]; intros st.
  - exists st, []. simpl. repeat split; [constructor| |].
    + intros H. now left.
    + intros [H|(_ & g' & Hin & _)]; [exact H|inversion Hin].
  - destruct (rankGroup_spec now st g Hg) as (st1 & first & rest & Er & Hp & Hl1 & Hf1).
    destruct (IH st1) as (st2 & groups' & Er2 & Hl2 & HF & Hf2).
    exists st2, (withImages (first :: rest) g :: groups'). simpl.
    rewrite Er, Er2. split; [reflexivity|]. split; [congruence|].
    split.
    { constructor; [|exact HF]. exists first, rest. split; [reflexivity|exact Hp]. }
    intros x. rewrite Hf2, Hf1, Hl1. split.
    + intros [H|(Hx & g' & Hin & Hh)].
      * destruct (decide (x = first /\ (first < length st)%nat)) as [[-> Hlt]|_].
        -- right. split; [exact Hlt|]. eexists. split; [left|reflexivity].
        -- now left.
      * right. split; [exact Hx|]. exists g'. split; [now right|exact Hh].
    + intros [H|(Hx & g' & Hin & Hh)].
      * left. destruct (decide _); [reflexivity|exact H].
      * apply elem_of_cons in Hin as [->|Hin].
        -- left. simpl in Hh. injection Hh as <-.
           rewrite decide_True; [reflexivity|]. now split.
        -- right. split; [exact Hx|]. now exists g'.
Qed.

Lemma ranked_members (groups groups' : list Group) :
  Forall2 ranked groups groups' -> members groups' ≡ₚ members groups.
Proof.
  induction 1 as [|g g' gs gs' (first & rest & -> & Hp) HF IH]; [reflexivity|].
  unfold members in *.
  change ((first :: rest) ++ concat (grp_images <$> gs')
          ≡ₚ grp_images g ++ concat (grp_images <$> gs)).
  now apply Permutation_app.
Qed.

Lemma ranked_sizes (groups groups' : list Group) :
  Forall2 ranked groups groups' -> Forall big groups -> Forall big groups'.
Proof.
  induction 1 as [|g g' gs gs' (first & rest & -> & Hp) HF IH]; intros Hb;
    [constructor|].
  apply Forall_cons in Hb as [Hg Hb]. apply Forall_cons. split; [|now apply IH].
  unfold big in *. simpl. change (S (length rest)) with (length (first :: rest)).
  now rewrite Hp.
Qed.

(** The fields of a group other than [images] survive the ranking. *)
Lemma ranked_fields (g g' : Group) :
  ranked g g' ->
  grp_type g' = grp_type g /\ grp_similarity g' = grp_similarity g
  /\ grp_confidence g' = grp_confidence g
  /\ grp_images g' ≡ₚ grp_images g.
Proof. intros (first & rest & -> & Hp). repeat split. exact Hp. Qed.

Lemma recommendedCount_one (st : Store) (first : nat) (rest : list nat) :
  flag st first = true ->
  Forall (fun x => flag st x = false) rest ->
  recommendedCount st (first :: rest) = 1%nat.
Proof.
  intros Hf Hr. unfold recommendedCount.
  rewrite filter_cons_True by exact Hf. simpl. f_equal.
  induction Hr as [|x rest Hx Hr IH]; [reflexivity|].
  rewrite filter_cons_False; [exact IH|]. unfold flag in Hx. congruence.
Qed.

(** A group with exactly one recommended image among at least two passes
    the safety pass untouched. *)
Lemma verifyGroup_keeps (st : Store) (g : Group) :
  big g -> recommendedCount st (grp_images g) = 1%nat ->
  verifyGroup st g = Ok (st, withSafetyVerified g).
Proof.
  unfold big, verifyGroup. intros Hb Hc. cbv zeta. rewrite Hc.
  destruct (grp_images g) as [|first rest] eqn:Eg; simpl in *; [lia|].
  destruct (length rest) as [|n] eqn:El; [lia|]. reflexivity.
Qed.

Lemma verifySafetyBeforeReturn_keeps (st : Store) (groups : list Group) :
  Forall (fun g => big g /\ recommendedCount st (grp_images g) = 1%nat) groups ->
  verifySafetyBeforeReturn st groups = Ok (st, withSafetyVerified <$> groups).
Proof.
  induction 1 as [|g groups [Hb Hc] Hall IH]; [reflexivity|].
  simpl. rewrite verifyGroup_keeps by assumption. now rewrite IH.
Qed.

(** The safety pass never drops or reorders a group. *)
Lemma verifySafetyBeforeReturn_ok (groups : list Group) (st : Store) :
  Forall nonempty groups ->
  exists st', verifySafetyBeforeReturn st groups
              = Ok (st', withSafetyVerified <$> groups).
Proof.
  intros Hne. revert st. induction Hne as [|g groups Hg Hne IH]; intros st.
  - now exists st.
  - assert (Hv : exists st1, verifyGroup st g = Ok (st1, withSafetyVerified g)).
    { unfold verifyGroup, nonempty in *. cbv zeta.
      destruct (grp_images g) as [|first rest]; [congruence|].
      destruct (_ <=? _)%nat; eexists; reflexivity. }
    destruct Hv as [st1 Hv]. destruct (IH st1) as [st2 H2].
    exists st2. simpl. now rewrite Hv, H2.
Qed.

End RankVerifyFacts.

(* --------------------------------------------------------------------- *)
(** ** Groups returned by [detectDuplicates]                              *)
(* --------------------------------------------------------------------- *)

Section DetectFacts.
Import Consensus Enterprise.

Lemma submseteq_NoDup {A : Type} (l k : list A) : l ⊆+ k -> NoDup k -> NoDup l.
Proof.
  intros Hs Hk. apply submseteq_Permutation in Hs as [k' Hk'].
  rewrite Hk' in Hk. now apply NoDup_app in Hk as [? _].
Qed.

Lemma Forall2_elem_r {A B : Type} (P : A -> B -> Prop) (l : list A) (k : list B)
    (y : B) :
  Forall2 P l k -> y ∈ k -> exists x, x ∈ l /\ P x y.
Proof.
  induction 1 as [|x y' l k Hp HF IH]; intros Hy; [inversion Hy|].
  apply elem_of_cons in Hy as [->|Hy].
  - exists x. split; [left|exact Hp].
  - destruct (IH Hy) as (x' & Hx' & Hp'). exists x'. split; [now right|exact Hp'].
Qed.

Lemma Forall2_elem_l {A B : Type} (P : A -> B -> Prop) (l : list A) (k : list B)
    (x : A) :
  Forall2 P l k -> x ∈ l -> exists y, y ∈ k /\ P x y.
Proof.
  induction 1 as [|x' y l k Hp HF IH]; intros Hx; [inversion Hx|].
  apply elem_of_cons in Hx as [->|Hx].
  - exists y. split; [left|exact Hp].
  - destruct (IH Hx) as (y' & Hy' & Hp'). exists y'. split; [now right|exact Hp'].
Qed.

Lemma flag_initial (st : Store) (x : nat) :
  Forall (fun i => img_recommended i = false) st -> flag st x = false.
Proof.
  intros Hall. unfold flag, deref. rewrite nth_lookup.
  destruct (st !! x) as [i|] eqn:Ei; simpl; [|reflexivity].
  rewrite Forall_forall in Hall. apply Hall.
  apply list_elem_of_lookup. now exists x.
Qed.

Lemma member_of_group (groups : list Group) (g : Group) (x : nat) :
  g ∈ groups -> x ∈ grp_images g -> x ∈ members groups.
Proof.
  intros Hg Hx. unfold members. apply list_elem_of_In, in_concat.
  exists (grp_images g). split; [|now apply list_elem_of_In].
  apply list_elem_of_In. now apply list_elem_of_fmap_2.
Qed.

(** The state after ranking, when the run started from unflagged images
    and no image is held twice: in every group the first image is the only
    recommended one. *)
Lemma one_recommended_after_ranking (now : Z) (st st1 : Store)
    (groups groups1 : list Group) :
  Forall (fun i => img_recommended i = false) st ->
  members groups ⊆+ seq 0 (length st) ->
  Forall big groups ->
  rankImagesWithML now st groups = Ok (st1, groups1) ->
  forall g, g ∈ groups1 ->
    big g /\ NoDup (grp_images g)
    /\ exists first rest,
         grp_images g = first :: rest
         /\ flag st1 first = true
         /\ Forall (fun x => flag st1 x = false) rest.
Proof.
  intros Hflags Hmem Hbig Hrank g Hg.
  destruct (rankImagesWithML_spec now groups st) as (st' & gs' & Er & Hl & HF & Hflag).
  { eapply Forall_impl; [exact Hbig|]. exact big_nonempty. }
  rewrite Hrank in Er. injection Er as <- <-.
  pose proof (ranked_members _ _ HF) as Hperm.
  assert (Hmem1 : members groups1 ⊆+ seq 0 (length st)) by now rewrite Hperm.
  assert (Hnd : NoDup (members groups1)).
  { eapply submseteq_NoDup; [exact Hmem1|]. apply NoDup_seq. }
  assert (Hvalid : forall x, x ∈ members groups1 -> (x < length st)%nat).
  { intros x Hx. eapply elem_of_submseteq in Hx; [|exact Hmem1].
    apply elem_of_seq in Hx. lia. }
  pose proof (ranked_sizes _ _ HF Hbig) as Hbig1.
  rewrite Forall_forall in Hbig1.
  assert (Hndg : NoDup (grp_images g)).
  { apply (concat_NoDup_each (grp_images <$> groups1)); [exact Hnd|].
    now apply list_elem_of_fmap_2. }
  split; [now apply Hbig1|]. split; [exact Hndg|].
  destruct (Forall2_elem_r _ _ _ _ HF Hg) as (g0 & _ & first & rest & -> & _).
  simpl in *. exists first, rest. split; [reflexivity|]. split.
  - apply Hflag. right. split.
    + apply Hvalid. eapply member_of_group; [exact Hg|]. simpl. left.
    + eexists. split; [exact Hg|reflexivity].
  - apply Forall_forall. intros x Hx.
    destruct (flag st1 x) eqn:Efx; [|reflexivity]. exfalso.
    apply Hflag in Efx as [Hinit|(_ & g' & Hg' & Hh)].
    + rewrite flag_initial in Hinit by assumption. discriminate.
    + assert (Heq : first :: rest = grp_images g').
      { apply (concat_NoDup_same (grp_images <$> groups1) _ _ x Hnd).
        - change (first :: rest)
            with (grp_images (withImages (first :: rest) g0)).
          now apply list_elem_of_fmap_2.
        - now apply list_elem_of_fmap_2.
        - now right.
        - destruct (grp_images g') as [|y l]; [discriminate|].
          injection Hh as ->. left. }
      rewrite <- Heq in Hh. simpl in Hh. injection Hh as ->.
      apply NoDup_cons in Hndg as [Hnotin _]. contradiction.
Qed.

End DetectFacts.

Section DetectClaims.
Import Consensus Enterprise EnterpriseExample.

(** C1 (as amended).  When no image handed to [detectDuplicates] already
    carries [recommended = true], the progress callback does not throw and
    the analysis backup is written, [detectDuplicates] returns, and every
    group it returns holds at least 2 distinct images of which exactly one,
    the first, is recommended; none of the deletion candidates (the images
    after the first) is recommended. *)
Theorem detectDuplicates_one_recommended (E : Env) (st : Store) :
  Forall (fun i => img_recommended i = false) st ->
  (forall a b, env_callbackThrows E a b = false) ->
  env_analysisBackupOk E = true ->
  exists st' groups,
    detectDuplicates E st = Ok (st', groups)
    /\ forall g, In g groups ->
         (2 <= length (grp_images g))%nat
         /\ NoDup (grp_images g)
         /\ recommendedCount st' (grp_images g) = 1%nat
         /\ (exists first, head (grp_images g) = Some first
               /\ img_recommended (deref st' first) = true)
         /\ forall r, In r (deletionCandidates g) ->
              img_recommended (deref st' r) = false.
Proof.
  intros Hflags Hquiet Hbackup. unfold detectDuplicates. rewrite Hbackup.
  pose proof (collectGroups_sizes E st) as Hbig.
  pose proof (collectGroups_members E st Hquiet) as Hmem.
  destruct (rankImagesWithML_spec (env_now E) (collectGroups E st) st)
    as (st1 & gs1 & Er & _).
  { eapply Forall_impl; [exact Hbig|]. exact big_nonempty. }
  rewrite Er.
  pose proof (one_recommended_after_ranking (env_now E) st st1 _ gs1
                Hflags Hmem Hbig Er) as Hone.
  exists st1, (withSafetyVerified <$> gs1). split.
  - apply verifySafetyBeforeReturn_keeps. apply Forall_forall. intros g Hg.
    destruct (Hone g Hg) as (Hb & _ & first & rest & Eg & Hf & Hr).
    split; [exact Hb|]. rewrite Eg. now apply recommendedCount_one.
  - intros g Hg. apply list_elem_of_In, list_elem_of_fmap in Hg as (g1 & -> & Hg1).
    destruct (Hone g1 Hg1) as (Hb & Hnd & first & rest & Eg & Hf & Hr).
    unfold deletionCandidates. simpl. rewrite Eg.
    split; [unfold big in Hb; rewrite Eg in Hb; exact Hb|].
    split; [now rewrite <- Eg|].
    split; [now apply recommendedCount_one|].
    split; [exists first; split; [reflexivity|exact Hf]|].
    intros r Hr'. rewrite Forall_forall in Hr. apply Hr.
    apply list_elem_of_In. exact Hr'.
Qed.

Lemma detectDuplicates_one_recommended_witness :
  exists st' groups,
    detectDuplicates (quiet twoProviders) mixedFolder = Ok (st', groups)
    /\ map grp_images groups = [[2; 0]; [3; 1]]%nat
    /\ forall g, In g groups ->
         (2 <= length (grp_images g))%nat
         /\ NoDup (grp_images g)
         /\ recommendedCount st' (grp_images g) = 1%nat
         /\ (exists first, head (grp_images g) = Some first
               /\ img_recommended (deref st' first) = true)
         /\ forall r, In r (deletionCandidates g) ->
              img_recommended (deref st' r) = false.
Proof.
  destruct (detectDuplicates_one_recommended (quiet twoProviders) mixedFolder)
    as (st' & groups & Ed & Hall).
  - repeat constructor.
  - reflexivity.
  - reflexivity.
  - exists st', groups. split; [exact Ed|]. split; [|exact Hall].
    assert (Ec : map grp_images
                   (match detectDuplicates (quiet twoProviders) mixedFolder with
                    | Ok (_, gs) => gs
                    | Throw _ => []
                    end) = [[2; 0]; [3; 1]]%nat) by (vm_compute; reflexivity).
    rewrite Ed in Ec. exact Ec.
Defined.

(** C1 as stated fails.  Three byte-identical files, the second record
    arriving with [recommended = true]: the ranking marks the first image
    as well, the safety pass counts 2 recommended among 3 and changes
    nothing, so the returned group has two recommended images and one of
    them is a deletion candidate. *)
Lemma two_recommended_in_one_group :
  exists st' g,
    detectDuplicates (quiet localOnly) threeCopiesOneFlagged = Ok (st', [g])
    /\ grp_images g = [0; 1; 2]%nat
    /\ recommendedCount st' (grp_images g) = 2%nat
    /\ In 1%nat (deletionCandidates g)
    /\ img_recommended (deref st' 1%nat) = true.
Proof.
  eexists _, _. split; [vm_compute; reflexivity|].
  split; [reflexivity|]. split; [reflexivity|].
  split; [left; reflexivity|reflexivity].
Qed.

(** A second way the invariant breaks, from unflagged records: the
    progress callback throws after the [try] block has absorbed an image,
    the [catch] block absorbs it again, and the group holds the same
    object twice. *)
Lemma same_image_twice_when_callback_throws :
  exists st' g1 g2,
    detectDuplicates (throwing twoProviders) mixedFolder = Ok (st', [g1; g2])
    /\ grp_images g2 = [3; 3; 1]%nat
    /\ recommendedCount st' (grp_images g2) = 2%nat
    /\ In 3%nat (deletionCandidates g2)
    /\ img_recommended (deref st' 3%nat) = true.
Proof.
  eexists _, _, _. split; [vm_compute; reflexivity|].
  split; [reflexivity|]. split; [reflexivity|].
  split; [left; reflexivity|reflexivity].
Qed.

End DetectClaims.

(* --------------------------------------------------------------------- *)
(** ** Exact-duplicate grouping                                           *)
(* --------------------------------------------------------------------- *)

Section KeyFacts.

Lemma pretty_N_char_no_dash (x : N) : pretty_N_char x <> "-"%char.
Proof. unfold pretty_N_char. repeat case_match; discriminate. Qed.

Lemma pretty_N_go_dashFree (x : N) (s : string) :
  dashFree s -> dashFree (pretty_N_go x s).
Proof.
  revert s. induction (N.lt_wf_0 x) as [x _ IH]; intros s Hs.
  assert (x = 0 \/ 0 < x)%N as [->|Hpos] by lia.
  - now rewrite pretty_N_go_0.
  - rewrite pretty_N_go_step by exact Hpos. apply IH.
    + now apply N.div_lt.
    + split; [apply pretty_N_char_no_dash|exact Hs].
Qed.

(** A decimal numeral has no dash. *)
Lemma pretty_nat_dashFree (n : nat) : dashFree (pretty n).
Proof.
  unfold pretty, pretty_nat, pretty, pretty_N.
  destruct (decide (N.of_nat n = 0%N)).
  - simpl. split; [discriminate|exact I].
  - apply pretty_N_go_dashFree. exact I.
Qed.

(** The first dash splits [`${size}-${digest}`] unambiguously. *)
Lemma dash_split (u v x y : string) :
  dashFree u -> dashFree v ->
  u +:+ String "-" x = v +:+ String "-" y -> u = v /\ x = y.
Proof.
  revert v. induction u as [|c u IH]; intros [|d v] Hu Hv Heq;
    unfold String.append in Heq; fold String.append in Heq.
  - injection Heq as ->. split; reflexivity.
  - injection Heq as <- _. destruct Hv as [Hd _]. congruence.
  - injection Heq as -> _. destruct Hu as [Hc _]. congruence.
  - injection Heq as -> Heq. destruct Hu as [_ Hu], Hv as [_ Hv].
    destruct (IH v Hu Hv Heq) as [-> ->]. split; reflexivity.
Qed.

Import Simplified.

(** Equal combined keys mean equal byte sizes and equal digests. *)
Lemma combinedHash_inj (E : Env) (f1 f2 : File) :
  combinedHash E f1 = combinedHash E f2 ->
  String.length (file_content f1) = String.length (file_content f2)
  /\ env_md5 E (file_content f1) = env_md5 E (file_content f2).
Proof.
  unfold combinedHash. intros Heq.
  change ("-" +:+ env_md5 E (file_content f1))
    with (String "-" (env_md5 E (file_content f1))) in Heq.
  change ("-" +:+ env_md5 E (file_content f2))
    with (String "-" (env_md5 E (file_content f2))) in Heq.
  apply dash_split in Heq as [Hn Hd]; try apply pretty_nat_dashFree.
  split; [|exact Hd]. now apply (inj pretty).
Qed.

End KeyFacts.

Section SimplifiedFacts.
Import Simplified.

Variable E : Env.

Lemma groupByHash_from (images : list Image) (m : list (string * list Image)) :
  foldl (fun hashMap image =>
           match env_file E (img_path image) with
           | Some f => map_push (combinedHash E f) (stamp E f image) hashMap
           | None => hashMap
           end) m images
  = fill img_hash m (stamped E images).
Proof.
  revert m. induction images as [|image images IH]; intros m; simpl; [reflexivity|].
  rewrite IH. unfold stamped. simpl.
  destruct (env_file E (img_path image)); reflexivity.
Qed.

Lemma groupByHash_groupBy_stamped (images : list Image) :
  groupByHash E images = groupBy img_hash (stamped E images).
Proof. apply groupByHash_from. Qed.

Lemma stamped_in (images : list Image) (image : Image) (f : File) :
  image ∈ images -> env_file E (img_path image) = Some f ->
  stamp E f image ∈ stamped E images.
Proof.
  intros Hin Hf. unfold stamped. apply list_elem_of_omap.
  exists image. split; [exact Hin|]. now rewrite Hf.
Qed.

Lemma stamped_inv (images : list Image) (x : Image) :
  x ∈ stamped E images ->
  exists image f, image ∈ images /\ env_file E (img_path image) = Some f
                  /\ x = stamp E f image.
Proof.
  unfold stamped. intros Hx. apply list_elem_of_omap in Hx as (image & Hin & Hx).
  destruct (env_file E (img_path image)) as [f|] eqn:Ef; [|discriminate].
  simpl in Hx. injection Hx as <-. now exists image, f.
Qed.

Lemma splitS_keeps (m : list (string * list Image)) (acc : list Group * list Image)
    (g : Group) :
  g ∈ fst acc -> g ∈ fst (foldl splitStep acc m).
Proof.
  revert acc. induction m as [|[k l] m IH]; intros [gs us] Hg; simpl; [exact Hg|].
  apply IH. unfold splitStep. simpl.
  destruct (1 <? length l)%nat; simpl; [|exact Hg].
  apply elem_of_app. now left.
Qed.

Lemma splitS_exact (m : list (string * list Image)) (acc : list Group * list Image)
    (k : string) (l : list Image) :
  (k, l) ∈ m -> (2 <= length l)%nat ->
  exactGroup l ∈ fst (foldl splitStep acc m).
Proof.
  revert acc. induction m as [|[k' l'] m IH]; intros [gs us] Hin Hlen;
    [inversion Hin|]. simpl.
  apply elem_of_cons in Hin as [Heq|Hin]; [|now apply IH].
  injection Heq as <- <-. apply splitS_keeps. unfold splitStep. simpl.
  destruct (1 <? length l)%nat eqn:Hl; [|apply Nat.ltb_ge in Hl; lia].
  simpl. apply elem_of_app. right. left.
Qed.

(** Every group the split produces is the exact group of a map entry. *)
Lemma splitS_inv (m : list (string * list Image)) (acc : list Group * list Image)
    (g : Group) :
  g ∈ fst (foldl splitStep acc m) ->
  g ∈ fst acc \/ exists k l, (k, l) ∈ m /\ g = exactGroup l.
Proof.
  revert acc. induction m as [|[k l] m IH]; intros [gs us] Hg; simpl in *;
    [now left|].
  apply IH in Hg as [Hg|(k' & l' & Hin & ->)].
  - unfold splitStep in Hg. simpl in Hg.
    destruct (1 <? length l)%nat; simpl in Hg; [|now left].
    apply elem_of_app in Hg as [Hg|Hg]; [now left|].
    apply list_elem_of_singleton in Hg. right. exists k, l. split; [left|exact Hg].
  - right. exists k', l'. split; [now right|reflexivity].
Qed.

Lemma seedLoop_types (items : list (nat * Image)) (processed : gset nat)
    (groups : list Group) :
  Forall (fun g => grp_type g = "similar") groups ->
  Forall (fun g => grp_type g = "similar") (seedLoop E items processed groups).
Proof.
  revert processed groups.
  induction items as [|[i image] items IH]; intros processed groups Hg; simpl.
  - exact Hg.
  - destruct (decide (i ∈ processed)); [now apply IH|].
    destruct (env_perceptualHash E (img_path image)); [|now apply IH].
    apply IH. destruct (1 <? length _)%nat; [|exact Hg].
    apply Forall_app. split; [exact Hg|].
    apply Forall_cons. split; [reflexivity|apply Forall_nil_2].
Qed.

Lemma detectDuplicates_collected (images : list Image) :
  detectDuplicates E images = rankGroup <$> collectGroups E images.
Proof.
  reflexivity.
Qed.

Lemma collected_exact (images : list Image) (k : string) (l : list Image) :
  (k, l) ∈ groupByHash E images -> (2 <= length l)%nat ->
  exactGroup l ∈ collectGroups E images.
Proof.
  intros Hin Hlen. unfold collectGroups.
  change (splitHashGroups (groupByHash E images))
    with (foldl splitStep ([], []) (groupByHash E images)).
  pose proof (splitS_exact _ ([], []) k l Hin Hlen) as Hex.
  destruct (foldl splitStep _ _) as [dg ui]. simpl in Hex.
  destruct (1 <? length ui)%nat; [|exact Hex].
  apply elem_of_app. now left.
Qed.

Lemma collected_exact_inv (images : list Image) (g : Group) :
  g ∈ collectGroups E images -> grp_type g = "exact" ->
  exists k l, (k, l) ∈ groupByHash E images /\ g = exactGroup l.
Proof.
  intros Hg Ht. unfold collectGroups in Hg.
  change (splitHashGroups (groupByHash E images))
    with (foldl splitStep ([], []) (groupByHash E images)) in Hg.
  pose proof (splitS_inv (groupByHash E images) ([], []) g) as Hinv.
  destruct (foldl splitStep _ _) as [dg ui]. simpl in Hinv.
  assert (Hdg : g ∈ dg).
  { destruct (1 <? length ui)%nat; [|exact Hg].
    apply elem_of_app in Hg as [Hg|Hg]; [exact Hg|].
    pose proof (seedLoop_types (zip (seq 0 (length ui)) ui) ∅ [] (Forall_nil_2 _))
      as Hty.
    rewrite Forall_forall in Hty. specialize (Hty g Hg). congruence. }
  destruct (Hinv Hdg) as [Hnil|Hex]; [inversion Hnil|exact Hex].
Qed.

End SimplifiedFacts.

Section ExactGroupingClaims.
Import EnterpriseExample SimplifiedExample.

Lemma simplified_same_content_same_group (E : Simplified.Env)
    (images : list Simplified.Image) (a b : Simplified.Image)
    (fa fb : Simplified.File) :
  a ∈ images -> b ∈ images ->
  Simplified.img_path a <> Simplified.img_path b ->
  Simplified.env_file E (Simplified.img_path a) = Some fa ->
  Simplified.env_file E (Simplified.img_path b) = Some fb ->
  Simplified.file_content fa = Simplified.file_content fb ->
  exists g, g ∈ Simplified.detectDuplicates E images
    /\ Simplified.grp_type g = "exact"
    /\ Simplified.grp_similarity g = 1%Q
    /\ Simplified.grp_confidence g = "absolute"
    /\ Simplified.stamp E fa a ∈ Simplified.grp_images g
    /\ Simplified.stamp E fb b ∈ Simplified.grp_images g.
Proof.
  intros Ha Hb Hpath Hfa Hfb Hcontent.
  set (x := Simplified.stamp E fa a). set (y := Simplified.stamp E fb b).
  assert (Hxy : x <> y) by (unfold x, y, Simplified.stamp; congruence).
  assert (Hkey : Simplified.img_hash y = Simplified.img_hash x).
  { unfold x, y, Simplified.stamp, Simplified.combinedHash. simpl.
    now rewrite Hcontent. }
  pose proof (stamped_in E images a fa Ha Hfa) as Hx.
  pose proof (stamped_in E images b fb Hb Hfb) as Hy.
  fold x in Hx. fold y in Hy.
  set (l := filter (fun z => Simplified.img_hash z = Simplified.img_hash x)
                   (Simplified.stamped E images)).
  assert (Hxl : x ∈ l) by (apply list_elem_of_filter; now split).
  assert (Hyl : y ∈ l) by (apply list_elem_of_filter; now split).
  assert (Hentry : (Simplified.img_hash x, l) ∈ Simplified.groupByHash E images).
  { rewrite groupByHash_groupBy_stamped.
    now apply (groupBy_has_entry Simplified.img_hash x). }
  pose proof (collected_exact E images _ l Hentry
                (two_members_length l x y Hxy Hxl Hyl)) as Hc.
  exists (Simplified.rankGroup (Simplified.exactGroup l)).
  rewrite detectDuplicates_collected.
  split; [now apply list_elem_of_fmap_2|].
  repeat split; simpl; now rewrite js_sort_perm.
Qed.

Lemma simplified_size_mismatch_never_groups (E : Simplified.Env)
    (images : list Simplified.Image) (a b : Simplified.Image)
    (fa fb : Simplified.File) (g : Simplified.Group) :
  String.length (Simplified.file_content fa)
    <> String.length (Simplified.file_content fb) ->
  g ∈ Simplified.detectDuplicates E images ->
  Simplified.grp_type g = "exact" ->
  ~ (Simplified.stamp E fa a ∈ Simplified.grp_images g
     /\ Simplified.stamp E fb b ∈ Simplified.grp_images g).
Proof.
  intros Hsize Hg Ht [Hx Hy].
  rewrite detectDuplicates_collected in Hg.
  apply list_elem_of_fmap in Hg as (g0 & -> & Hg0).
  simpl in Ht.
  destruct (collected_exact_inv E images g0 Hg0 Ht) as (k & l & Hentry & ->).
  simpl in Hx, Hy. rewrite js_sort_perm in Hx, Hy.
  rewrite groupByHash_groupBy_stamped in Hentry.
  apply groupBy_entry in Hentry. subst l.
  apply list_elem_of_filter in Hx as [Hkx _].
  apply list_elem_of_filter in Hy as [Hky _].
  simpl in Hkx, Hky. rewrite <- Hky in Hkx.
  apply combinedHash_inj in Hkx as [Hlen _]. contradiction.
Qed.

Lemma enterprise_same_hash_same_group (E : Enterprise.Env)
    (st : list Enterprise.Image) (i j : nat) :
  i <> j -> (i < length st)%nat -> (j < length st)%nat ->
  Enterprise.img_hash (Enterprise.deref st i)
    = Enterprise.img_hash (Enterprise.deref st j) ->
  Enterprise.env_analysisBackupOk E = true ->
  exists st' groups g,
    Enterprise.detectDuplicates E st = Ok (st', groups)
    /\ In g groups
    /\ Enterprise.grp_type g = "exact"
    /\ Enterprise.grp_similarity g = 1%Q
    /\ Enterprise.grp_confidence g = "absolute"
    /\ In i (Enterprise.grp_images g) /\ In j (Enterprise.grp_images g).
Proof.
  intros Hne Hi Hj Hh Hbackup. unfold Enterprise.detectDuplicates. rewrite Hbackup.
  destruct (collectGroups_exact E st i j Hne Hi Hj Hh) as (l & Hl & Hil & Hjl).
  pose proof (collectGroups_sizes E st) as Hbig.
  destruct (rankImagesWithML_spec (Enterprise.env_now E)
              (Enterprise.collectGroups E st) st)
    as (st1 & gs1 & Er & _ & HF & _).
  { eapply Forall_impl; [exact Hbig|]. exact big_nonempty. }
  rewrite Er.
  destruct (verifySafetyBeforeReturn_ok gs1 st1) as [st2 Hv].
  { eapply Forall_impl; [exact (ranked_sizes _ _ HF Hbig)|]. exact big_nonempty. }
  destruct (Forall2_elem_l _ _ _ _ HF Hl) as (g1 & Hg1 & Hr).
  apply ranked_fields in Hr as (Ht & Hs & Hc & Hp).
  exists st2, (Enterprise.withSafetyVerified <$> gs1),
         (Enterprise.withSafetyVerified g1).
  split; [exact Hv|].
  split; [apply list_elem_of_In; now apply list_elem_of_fmap_2|].
  simpl. rewrite Ht, Hs, Hc. repeat split; try reflexivity.
  - apply list_elem_of_In. now rewrite Hp.
  - apply list_elem_of_In. now rewrite Hp.
Qed.

(** C7 (as amended).  The local-only detector keys each readable file by
    [`${size}-${md5}`]: two byte-identical files under different paths end
    up in the same group of type ['exact'] with similarity 1.0 and
    confidence ['absolute'], and two files of different byte size are never
    in the same exact group.  The multi-provider detector keys each record
    by its [hash] field alone: two records with equal [hash] end up in the
    same exact group with similarity 1.0 and confidence ['absolute'],
    whatever their name, path and size. *)
Theorem exact_grouping_by_key :
  (forall (E : Simplified.Env) (images : list Simplified.Image)
          (a b : Simplified.Image) (fa fb : Simplified.File),
      In a images -> In b images ->
      Simplified.img_path a <> Simplified.img_path b ->
      Simplified.env_file E (Simplified.img_path a) = Some fa ->
      Simplified.env_file E (Simplified.img_path b) = Some fb ->
      Simplified.file_content fa = Simplified.file_content fb ->
      exists g, In g (Simplified.detectDuplicates E images)
        /\ Simplified.grp_type g = "exact"
        /\ Simplified.grp_similarity g = 1%Q
        /\ Simplified.grp_confidence g = "absolute"
        /\ In (Simplified.stamp E fa a) (Simplified.grp_images g)
        /\ In (Simplified.stamp E fb b) (Simplified.grp_images g))
  /\ (forall (E : Simplified.Env) (images : list Simplified.Image)
             (a b : Simplified.Image) (fa fb : Simplified.File)
             (g : Simplified.Group),
         String.length (Simplified.file_content fa)
           <> String.length (Simplified.file_content fb) ->
         In g (Simplified.detectDuplicates E images) ->
         Simplified.grp_type g = "exact" ->
         ~ (In (Simplified.stamp E fa a) (Simplified.grp_images g)
            /\ In (Simplified.stamp E fb b) (Simplified.grp_images g)))
  /\ (forall (E : Enterprise.Env) (st : list Enterprise.Image) (i j : nat),
         i <> j -> (i < length st)%nat -> (j < length st)%nat ->
         Enterprise.img_hash (Enterprise.deref st i)
           = Enterprise.img_hash (Enterprise.deref st j) ->
         Enterprise.env_analysisBackupOk E = true ->
         exists st' groups g,
           Enterprise.detectDuplicates E st = Ok (st', groups)
           /\ In g groups
           /\ Enterprise.grp_type g = "exact"
           /\ Enterprise.grp_similarity g = 1%Q
           /\ Enterprise.grp_confidence g = "absolute"
           /\ In i (Enterprise.grp_images g) /\ In j (Enterprise.grp_images g)).
Proof.
  split; [|split].
  - intros E images a b fa fb Ha Hb Hpath Hfa Hfb Hcontent.
    apply list_elem_of_In in Ha, Hb.
    destruct (simplified_same_content_same_group E images a b fa fb
                Ha Hb Hpath Hfa Hfb Hcontent)
      as (g & Hg & Ht & Hs & Hc & Hx & Hy).
    exists g. rewrite <- !list_elem_of_In. repeat split; assumption.
  - intros E images a b fa fb g Hsize Hg Ht. rewrite <- !list_elem_of_In.
    apply list_elem_of_In in Hg.
    exact (simplified_size_mismatch_never_groups E images a b fa fb g Hsize Hg Ht).
  - exact enterprise_same_hash_same_group.
Qed.

Lemma exact_grouping_by_key_witness :
  (exists g, In g (Simplified.detectDuplicates exampleEnv exampleScan)
     /\ Simplified.grp_type g = "exact"
     /\ In (Simplified.stamp exampleEnv (Simplified.mkFile "JFIF-sunset" 1000)
                             (scanned "/pics/a.jpg"))
           (Simplified.grp_images g)
     /\ In (Simplified.stamp exampleEnv (Simplified.mkFile "JFIF-sunset" 5000)
                             (scanned "/copy/b.jpg"))
           (Simplified.grp_images g))
  /\ (forall g, In g (Simplified.detectDuplicates exampleEnv exampleScan) ->
        Simplified.grp_type g = "exact" ->
        ~ (In (Simplified.stamp exampleEnv (Simplified.mkFile "JFIF-sunset" 1000)
                                (scanned "/pics/a.jpg"))
              (Simplified.grp_images g)
           /\ In (Simplified.stamp exampleEnv (Simplified.mkFile "JFIF-harbour" 2000)
                                   (scanned "/pics/c.jpg"))
                 (Simplified.grp_images g)))
  /\ (exists st' groups g,
        Enterprise.detectDuplicates (quiet localOnly) mixedFolder = Ok (st', groups)
        /\ In g groups /\ Enterprise.grp_type g = "exact"
        /\ In 0%nat (Enterprise.grp_images g) /\ In 2%nat (Enterprise.grp_images g)).
Proof.
  destruct exact_grouping_by_key as (HS1 & HS2 & HE). split; [|split].
  - destruct (HS1 exampleEnv exampleScan (scanned "/pics/a.jpg") (scanned "/copy/b.jpg")
                  (Simplified.mkFile "JFIF-sunset" 1000)
                  (Simplified.mkFile "JFIF-sunset" 5000))
      as (g & Hg & Ht & _ & _ & Hx & Hy).
    + left; reflexivity.
    + right; left; reflexivity.
    + discriminate.
    + reflexivity.
    + reflexivity.
    + reflexivity.
    + exists g. repeat split; assumption.
  - intros g Hg Ht.
    apply (HS2 exampleEnv exampleScan (scanned "/pics/a.jpg") (scanned "/pics/c.jpg")
               (Simplified.mkFile "JFIF-sunset" 1000)
               (Simplified.mkFile "JFIF-harbour" 2000) g);
      [simpl; lia | exact Hg | exact Ht].
  - destruct (HE (quiet localOnly) mixedFolder 0%nat 2%nat)
      as (st' & groups & g & Ed & Hg & Ht & _ & _ & Hi & Hj).
    + lia.
    + simpl; lia.
    + simpl; lia.
    + reflexivity.
    + reflexivity.
    + exists st', groups, g. repeat split; assumption.
Defined.

(** C7 as stated fails for the multi-provider detector: its grouping key is
    the record's [hash] and nothing else, so two records of different byte
    size that carry the same [hash] are placed in one exact group. *)
Lemma enterprise_groups_different_sizes :
  exists st' g,
    Enterprise.detectDuplicates (quiet localOnly) sameHashDifferentSize
      = Ok (st', [g])
    /\ Enterprise.grp_type g = "exact"
    /\ In 0%nat (Enterprise.grp_images g) /\ In 1%nat (Enterprise.grp_images g)
    /\ Enterprise.img_size (Enterprise.deref st' 0%nat) = 1000%Z
    /\ Enterprise.img_size (Enterprise.deref st' 1%nat) = 2000%Z.
Proof.
  eexists _, _. split; [vm_compute; reflexivity|].
  split; [reflexivity|]. split; [right; left; reflexivity|].
  split; [left; reflexivity|]. split; reflexivity.
Qed.

End ExactGroupingClaims.

(* --------------------------------------------------------------------- *)
(** ** Deletion                                                           *)
(* --------------------------------------------------------------------- *)

Section DeletionFacts.
Import FileSystem Deletion.

Variable io : IO.

Lemma deleteOne_accounts (filePath : string) (results : DeleteResults) (w : World) :
  io_log io filePath = None ->
  total (fst (deleteOne io filePath results w)) = total results
  /\ accounted (fst (deleteOne io filePath results w))
     ≡ₚ filePath :: accounted results.
Proof.
  intros Hlog. unfold deleteOne, accounted.
  destruct (files w !! filePath); [destruct (io_trash io filePath)|];
    rewrite ?Hlog; simpl; (split; [reflexivity|]).
  - rewrite fmap_app. simpl. rewrite app_assoc. symmetry. apply Permutation_cons_append.
  - rewrite <- app_assoc. simpl. symmetry. apply Permutation_middle.
  - rewrite fmap_app. simpl. rewrite app_assoc. symmetry. apply Permutation_cons_append.
Qed.

Lemma deleteLoop_accounts (filesToDelete : list string) (processed : nat)
    (results : DeleteResults) (w : World) :
  (forall p, io_log io p = None) ->
  exists results' w',
    deleteLoop io None filesToDelete processed results w = (Ok results', w')
    /\ total results' = total results
    /\ accounted results' ≡ₚ accounted results ++ filesToDelete.
Proof.
  intros Hlog. revert processed results w.
  induction filesToDelete as [|p rest IH]; intros processed results w; simpl.
  - exists results, w. rewrite app_nil_r. repeat split; reflexivity.
  - destruct (deleteOne_accounts p results w (Hlog p)) as [Ht Ha].
    destruct (deleteOne io p results w) as [results1 w1]. simpl in Ht, Ha.
    destruct (IH (S processed) results1 w1) as (r' & w' & El & Ht' & Ha').
    exists r', w'. split; [exact El|]. split; [congruence|].
    rewrite Ha', Ha. simpl. apply Permutation_middle.
Qed.

(** When the audit log can be written, [deleteFiles] without a callback
    returns, counts every input path, and sends every path to exactly one
    of [deleted] and [failed]; a failing path does not stop the batch. *)
Lemma deleteFiles_accounts (w : World) (filesToDelete : list string) :
  io_trashLoads io = true ->
  (forall p, io_log io p = None) ->
  exists results w',
    deleteFiles io w filesToDelete None = (Ok results, w')
    /\ total results = length filesToDelete
    /\ accounted results ≡ₚ filesToDelete.
Proof.
  intros Hload Hlog. unfold deleteFiles. rewrite Hload.
  destruct (deleteLoop_accounts filesToDelete 0
              (mkResults [] [] (length filesToDelete)) w Hlog)
    as (r & w' & El & Ht & Ha).
  exists r, w'. split; [exact El|]. split; [exact Ht|exact Ha].
Qed.

End DeletionFacts.

Section DeletionClaims.
Import FileSystem Deletion FileExample.

(** C10.  [deleteFiles] is to place every input path in exactly one of
    [deleted] and [failed].  [results.deleted.push(filePath)] precedes
    [await logDeletion(filePath)] inside the same [try]: when the file has
    gone to the trash and the audit log cannot be written, the [catch] adds
    the path to [failed] as well.  For the one existing file [a.jpg] the
    call returns [total = 1] with [a.jpg] in both lists. *)
Theorem deleteFiles_lists_path_twice_when_log_fails :
  fst (deleteFiles logUnwritable threeFiles ["a.jpg"] None)
  = Ok (mkResults ["a.jpg"]
          [("a.jpg", "EACCES: permission denied, open 'deletion-log.txt'")] 1)
  /\ files (snd (deleteFiles logUnwritable threeFiles ["a.jpg"] None)) !! "a.jpg"
     = None.
Proof. split; vm_compute; reflexivity. Qed.

End DeletionClaims.

(* --------------------------------------------------------------------- *)
(** ** Backup before deletion                                             *)
(* --------------------------------------------------------------------- *)

Section BackupFacts.
Import FileSystem Safety.

Variable io : IO.
Variable backupPath : string.

Lemma backupLoop_app (pre rest : list string) (copied : list ManifestEntry)
    (w : World) :
  backupLoop io backupPath (pre ++ rest) copied w
  = match backupLoop io backupPath pre copied w with
    | (Ok copied1, w1) => backupLoop io backupPath rest copied1 w1
    | (Throw m, w1) => (Throw m, w1)
    end.
Proof.
  revert copied w. induction pre as [|p pre IH]; intros copied w; simpl.
  - reflexivity.
  - destruct (files w !! p) as [content|]; [|apply IH].
    destruct (io_copy io p _ content) as [written|]; [|reflexivity].
    unfold calculateFileHash.
    destruct (files _ !! p); [|reflexivity].
    destruct (files _ !! join backupPath _); [|reflexivity].
    destruct (String.eqb _ _); [apply IH|reflexivity].
Qed.

(** The backup only adds files: nothing is trashed, logged or removed, and
    no manifest is written by the loop. *)
Lemma backupLoop_preserves (filesToDelete : list string)
    (copied : list ManifestEntry) (w : World) :
  let w' := snd (backupLoop io backupPath filesToDelete copied w) in
  trashed w' = trashed w /\ deletionLog w' = deletionLog w
  /\ manifests w' = manifests w /\ operationLog w' = operationLog w
  /\ forall p, is_Some (files w !! p) -> is_Some (files w' !! p).
Proof.
  revert copied w.
  induction filesToDelete as [|p rest IH]; intros copied w; simpl.
  - repeat split; auto.
  - destruct (files w !! p) as [content|] eqn:Ep; [|apply IH].
    destruct (io_copy io p _ content) as [written|]; [|repeat split; auto].
    set (copyPath := join backupPath _).
    set (w1 := withFiles (<[copyPath := written]> (files w)) w).
    assert (Hgrow : forall q, is_Some (files w !! q) -> is_Some (files w1 !! q)).
    { intros q Hq. unfold w1. simpl.
      destruct (decide (copyPath = q)) as [->|Hne].
      - rewrite lookup_insert_eq. eauto.
      - now rewrite lookup_insert_ne. }
    unfold calculateFileHash.
    destruct (files w1 !! p) as [source|]; [|repeat split; auto].
    destruct (files w1 !! copyPath); [|repeat split; auto].
    destruct (String.eqb _ _); [|repeat split; auto].
    destruct (IH (copied ++ [mkEntry p copyPath true (io_hash io source)]) w1)
      as (H1 & H2 & H3 & H4 & H5).
    repeat split; auto.
Qed.

(** Every entry the loop records names a path of the batch and a copy
    directly under the backup directory. *)
Lemma backupLoop_entries (batch filesToDelete : list string)
    (copied out : list ManifestEntry) (w w' : World) :
  (forall p, p ∈ filesToDelete -> p ∈ batch) ->
  Forall (fun e => originalPath e ∈ batch
                   /\ exists s, FileSystem.backupPath e = join backupPath s) copied ->
  backupLoop io backupPath filesToDelete copied w = (Ok out, w') ->
  Forall (fun e => originalPath e ∈ batch
                   /\ exists s, FileSystem.backupPath e = join backupPath s) out.
Proof.
  revert copied w.
  induction filesToDelete as [|p rest IH]; intros copied w Hsub Hall; simpl.
  - intros [= <- _]. exact Hall.
  - assert (Hrest : forall q, q ∈ rest -> q ∈ batch).
    { intros q Hq. apply Hsub. now right. }
    destruct (files w !! p) as [content|]; [|now apply IH].
    destruct (io_copy io p _ content) as [written|]; [|discriminate].
    unfold calculateFileHash.
    destruct (files _ !! p); [|discriminate].
    destruct (files _ !! join backupPath _); [|discriminate].
    destruct (String.eqb _ _); [|discriminate].
    apply IH; [exact Hrest|].
    apply Forall_app. split; [exact Hall|].
    apply Forall_cons. split; [|apply Forall_nil_2].
    simpl. split; [apply Hsub; now left|eauto].
Qed.

End BackupFacts.

Section BackupManifests.
Import FileSystem Safety.

(** The manifest [createPreDeletionBackup] writes is [separated] as soon as
    no path of the batch lies directly under the fresh backup directory. *)
Lemma createPreDeletionBackup_separated (io : IO) (timestamp : Z) (w w' : World)
    (filesToDelete : list string) (backupId : string) :
  (forall p s, p ∈ filesToDelete ->
               p <> join (backupPathOf io (backupIdOf timestamp)) s) ->
  createPreDeletionBackup io timestamp w filesToDelete = (Ok backupId, w') ->
  exists m, manifests w' !! backupId = Some m
            /\ man_verificationPassed m = true
            /\ separated (man_files m).
Proof.
  intros Hout. unfold createPreDeletionBackup.
  destruct (backupLoop io _ filesToDelete [] w) as [[copied|msg] w1] eqn:El;
    [|discriminate].
  intros [= <- <-]. eexists. split; [simpl; apply lookup_insert_eq|].
  split; [reflexivity|]. simpl.
  pose proof (backupLoop_entries io _ filesToDelete filesToDelete [] copied w w1
                (fun _ H => H) (Forall_nil_2 _) El) as Hall.
  rewrite Forall_forall in Hall.
  intros e e' He He' Heq.
  destruct (Hall e He) as [Hin _]. destruct (Hall e' He') as [_ [s Hs]].
  apply (Hout (originalPath e) s Hin). now rewrite Heq.
Qed.

End BackupManifests.

Section BackupClaims.
Import FileSystem Safety Deletion FileExample.

(** C2.  Take a batch [pre ++ filePath :: post] handed to
    [createPreDeletionBackup].  If the files before [filePath] are backed up
    without error, [filePath] exists and is copied, and the digest of the
    copy then differs from the digest of the source, the operation throws,
    so does the [delete-files] handler, and in the state left behind
    nothing has been moved to the trash or logged as deleted, every file
    that existed still exists, and no manifest (hence no verified entry)
    has been written. *)
Theorem backup_mismatch_halts_before_deletion
    (io : IO) (timestamp : Z) (w : World) (pre post : list string)
    (filePath : string) (copied : list ManifestEntry) (w1 : World)
    (content written source : string) (callbackThrows : nat -> bool) :
  let backupPath := backupPathOf io (backupIdOf timestamp) in
  let copyPath :=
    join backupPath (pretty (length copied) +:+ ("_" +:+ io_basename io filePath)) in
  backupLoop io backupPath pre [] w = (Ok copied, w1) ->
  files w1 !! filePath = Some content ->
  io_copy io filePath copyPath content = Some written ->
  <[copyPath := written]> (files w1) !! filePath = Some source ->
  io_hash io source <> io_hash io written ->
  exists w2,
    createPreDeletionBackup io timestamp w (pre ++ filePath :: post)
      = (Throw ("Backup verification failed for " +:+ filePath), w2)
    /\ deleteFilesHandler io timestamp w (pre ++ filePath :: post) callbackThrows
       = (Throw ("Backup verification failed for " +:+ filePath), w2)
    /\ trashed w2 = trashed w /\ deletionLog w2 = deletionLog w
    /\ manifests w2 = manifests w
    /\ forall p, is_Some (files w !! p) -> is_Some (files w2 !! p).
Proof.
  intros backupPath copyPath Hpre Hexists Hcopy Hsource Hdiff.
  set (w2 := withFiles (<[copyPath := written]> (files w1)) w1).
  assert (Hloop : backupLoop io backupPath (pre ++ filePath :: post) [] w
                  = (Throw ("Backup verification failed for " +:+ filePath), w2)).
  { rewrite backupLoop_app, Hpre. simpl. rewrite Hexists.
    fold copyPath. rewrite Hcopy. fold w2. unfold calculateFileHash.
    unfold w2 at 1 2. simpl. rewrite Hsource, lookup_insert_eq.
    destruct (String.eqb _ _) eqn:Eh; [|reflexivity].
    apply String.eqb_eq in Eh. contradiction. }
  assert (Hcreate : createPreDeletionBackup io timestamp w (pre ++ filePath :: post)
                    = (Throw ("Backup verification failed for " +:+ filePath), w2)).
  { unfold createPreDeletionBackup. fold backupPath. now rewrite Hloop. }
  exists w2. split; [exact Hcreate|].
  split; [unfold deleteFilesHandler; now rewrite Hcreate|].
  pose proof (backupLoop_preserves io backupPath (pre ++ filePath :: post) [] w) as Hp.
  rewrite Hloop in Hp.
  destruct Hp as (H1 & H2 & H3 & _ & H5). repeat split; assumption.
Qed.

Lemma backup_mismatch_halts_before_deletion_witness :
  exists w2,
    deleteFilesHandler corruptingCopy 7 threeFiles ["a.jpg"; "b.jpg"; "c.jpg"]
                       (fun _ => false)
      = (Throw "Backup verification failed for b.jpg", w2)
    /\ trashed w2 = [] /\ manifests w2 = ∅.
Proof.
  destruct (backup_mismatch_halts_before_deletion corruptingCopy 7 threeFiles
              ["a.jpg"] ["c.jpg"] "b.jpg"
              [mkEntry "a.jpg" "backup/pre-deletion/deletion_7/0_a.jpg" true
                       "JFIF-sunset"]
              (withFiles (<["backup/pre-deletion/deletion_7/0_a.jpg" := "JFIF-sunset"]>
                            (files threeFiles)) threeFiles)
              "JFIF-harbour" "JFIF" "JFIF-harbour" (fun _ => false))
    as (w2 & _ & Hh & Ht & _ & Hm & _).
  - reflexivity.
  - reflexivity.
  - reflexivity.
  - reflexivity.
  - discriminate.
  - exists w2. split; [exact Hh|]. split; [exact Ht|exact Hm].
Defined.

End BackupClaims.

(* --------------------------------------------------------------------- *)
(** ** Restore                                                            *)
(* --------------------------------------------------------------------- *)

Section RestoreFacts.
Import FileSystem Safety.

Variable io : IO.

Lemma restoreEntry_settled (w : World) (e : ManifestEntry) :
  settled io (files w) e ->
  fst (restoreEntry io w e) = w
  /\ (is_Some (files w !! originalPath e) ->
      snd (restoreEntry io w e) = inl (originalPath e))
  /\ (files w !! originalPath e = None ->
      exists reason, snd (restoreEntry io w e) = inr (originalPath e, reason)).
Proof.
  intros Hs. unfold restoreEntry.
  destruct (files w !! originalPath e) as [c|] eqn:Eo.
  - split; [reflexivity|]. split; [intros _; reflexivity|].
    intros H. discriminate H.
  - destruct Hs as [[c Hc]|[Hb|(content & Hb & Hcopy)]]; [congruence| |].
    + rewrite Hb. split; [reflexivity|]. split.
      * intros [c Hc]. discriminate.
      * intros _. eexists. reflexivity.
    + rewrite Hb, Hcopy. split; [reflexivity|]. split.
      * intros [c Hc]. discriminate.
      * intros _. eexists. reflexivity.
Qed.

(** One step writes at most the original path of its entry, and only when
    that path was free; everything but [files] is carried along. *)
Lemma restoreEntry_step (w : World) (e : ManifestEntry) :
  let w' := fst (restoreEntry io w e) in
  files w ⊆ files w'
  /\ (forall p, p <> originalPath e -> files w' !! p = files w !! p)
  /\ manifests w' = manifests w /\ operationLog w' = operationLog w
  /\ trashed w' = trashed w /\ deletionLog w' = deletionLog w
  /\ settled io (files w') e.
Proof.
  unfold restoreEntry.
  destruct (files w !! originalPath e) as [c|] eqn:Eo.
  - simpl. repeat split; auto. left. rewrite Eo. eauto.
  - destruct (files w !! backupPath e) as [content|] eqn:Eb.
    + destruct (io_copy io _ _ content) as [written|] eqn:Ec.
      * assert (Hsub : files w ⊆ <[originalPath e := written]> (files w))
          by now apply insert_subseteq.
        assert (Hset : settled io (<[originalPath e := written]> (files w)) e).
        { left. rewrite lookup_insert_eq. eauto. }
        assert (Hother : forall p, p <> originalPath e ->
                   <[originalPath e := written]> (files w) !! p = files w !! p).
        { intros p Hp. now rewrite lookup_insert_ne. }
        destruct (String.eqb _ _); simpl; repeat split; auto.
      * simpl. repeat split; auto. right. right. now exists content.
    + simpl. repeat split; auto. right. now left.
Qed.

Lemma restoreLoop_step (entries : list ManifestEntry) (w : World)
    (restored : list string) (failed : list (string * string)) :
  let w' := fst (fst (restoreLoop io entries w restored failed)) in
  files w ⊆ files w'
  /\ (forall p, p ∉ originalPath <$> entries -> files w' !! p = files w !! p)
  /\ manifests w' = manifests w /\ operationLog w' = operationLog w
  /\ trashed w' = trashed w /\ deletionLog w' = deletionLog w.
Proof.
  revert w restored failed.
  induction entries as [|e entries IH]; intros w restored failed; simpl.
  - repeat split; auto.
  - pose proof (restoreEntry_step w e) as (Hs & Ho & Hm & Hl & Ht & Hd & _).
    destruct (restoreEntry io w e) as [w1 [p|f]]; simpl in *.
    + destruct (IH w1 (restored ++ [p]) failed) as (Hs2 & Ho2 & Hm2 & Hl2 & Ht2 & Hd2).
      repeat split; try congruence.
      * etransitivity; eassumption.
      * intros q Hq. rewrite Ho2, Ho; [reflexivity| |]; set_solver.
    + destruct (IH w1 restored (failed ++ [f])) as (Hs2 & Ho2 & Hm2 & Hl2 & Ht2 & Hd2).
      repeat split; try congruence.
      * etransitivity; eassumption.
      * intros q Hq. rewrite Ho2, Ho; [reflexivity| |]; set_solver.
Qed.

(** [settled] survives the rest of the loop when the backup copy of the
    entry is not an original path written later. *)
Lemma settled_mono (fs fs' : gmap string string) (e : ManifestEntry) :
  fs ⊆ fs' -> fs' !! backupPath e = fs !! backupPath e ->
  settled io fs e -> settled io fs' e.
Proof.
  intros Hsub Hb [[c Hc]|[Hn|(content & Hc & Hcopy)]].
  - left. exists c. eapply lookup_weaken; eassumption.
  - right. left. congruence.
  - right. right. exists content. split; [congruence|exact Hcopy].
Qed.

(** After one run over a separated manifest every entry is settled. *)
Lemma restoreLoop_settles (entries : list ManifestEntry) (w : World)
    (restored : list string) (failed : list (string * string)) :
  separated entries ->
  Forall (settled io (files (fst (fst (restoreLoop io entries w restored failed)))))
         entries.
Proof.
  revert w restored failed.
  induction entries as [|e entries IH]; intros w restored failed Hsep; simpl.
  - constructor.
  - assert (Hsep' : separated entries).
    { intros a b Ha Hb. apply Hsep; now right. }
    pose proof (restoreEntry_step w e) as (_ & _ & _ & _ & _ & _ & Hset).
    assert (Hb : backupPath e ∉ originalPath <$> entries).
    { intros Hin. apply list_elem_of_fmap in Hin as (e' & Heq & He').
      apply (Hsep e' e); [now right|left|now symmetry]. }
    destruct (restoreEntry io w e) as [w1 [p|f]]; simpl in *.
    + pose proof (restoreLoop_step entries w1 (restored ++ [p]) failed)
        as (Hs2 & Ho2 & _).
      constructor; [|now apply IH].
      eapply settled_mono; [exact Hs2|now apply Ho2|exact Hset].
    + pose proof (restoreLoop_step entries w1 restored (failed ++ [f]))
        as (Hs2 & Ho2 & _).
      constructor; [|now apply IH].
      eapply settled_mono; [exact Hs2|now apply Ho2|exact Hset].
Qed.

(** A run over settled entries changes nothing; it reports an entry as
    restored when its original exists and as failed otherwise. *)
Lemma restoreLoop_settled (entries : list ManifestEntry) (w : World)
    (restored : list string) (failed : list (string * string)) :
  Forall (settled io (files w)) entries ->
  exists restored' failed',
    restoreLoop io entries w restored failed
    = (w, restored ++ restored', failed ++ failed')
    /\ (forall e, e ∈ entries -> is_Some (files w !! originalPath e) ->
          originalPath e ∈ restored')
    /\ (forall p, p ∈ failed'.*1 -> files w !! p = None)
    /\ (forall p, p ∈ restored' -> is_Some (files w !! p)).
Proof.
  intros Hall. revert restored failed.
  induction Hall as [|e entries He Hall IH]; intros restored failed; simpl.
  - exists [], []. rewrite !app_nil_r. split; [reflexivity|].
    split; [intros e He; inversion He|].
    split; intros p Hp; inversion Hp.
  - destruct (restoreEntry_settled w e He) as (Hw & Hsome & Hnone).
    destruct (restoreEntry io w e) as [w1 [p|f]] eqn:Er; simpl in Hw; subst w1.
    + destruct (IH (restored ++ [p]) failed) as (r' & f' & El & H1 & H2 & H3).
      assert (Hp : p = originalPath e /\ is_Some (files w !! originalPath e)).
      { destruct (files w !! originalPath e) as [c|] eqn:Eo.
        - specialize (Hsome (ex_intro _ c eq_refl)). simpl in Hsome.
          injection Hsome as ->. eauto.
        - destruct (Hnone eq_refl) as [reason Hr]. simpl in Hr. discriminate. }
      destruct Hp as [-> Hex].
      exists (originalPath e :: r'), f'. rewrite El, <- app_assoc.
      split; [reflexivity|]. split; [|split].
      * intros e' He' Hex'. apply elem_of_cons in He' as [->|He'];
          [left|right; now apply H1].
      * exact H2.
      * intros q Hq. apply elem_of_cons in Hq as [->|Hq]; [exact Hex|now apply H3].
    + destruct (IH restored (failed ++ [f])) as (r' & f' & El & H1 & H2 & H3).
      assert (Hf : fst f = originalPath e /\ files w !! originalPath e = None).
      { destruct (files w !! originalPath e) as [c|] eqn:Eo.
        - specialize (Hsome (ex_intro _ c eq_refl)). simpl in Hsome. discriminate.
        - destruct (Hnone eq_refl) as [reason Hr]. simpl in Hr.
          injection Hr as ->. split; reflexivity. }
      destruct Hf as [Hf1 Hf2].
      exists r', (f :: f'). rewrite El, <- app_assoc.
      split; [reflexivity|]. split; [|split].
      * intros e' He' Hex'. apply elem_of_cons in He' as [->|He'].
        -- rewrite Hf2 in Hex'. destruct Hex' as [c Hc]. discriminate.
        -- now apply H1.
      * intros q Hq. simpl in Hq. apply elem_of_cons in Hq as [->|Hq];
          [now rewrite Hf1|now apply H2].
      * exact H3.
Qed.

(** The loop reads [files] only. *)
Lemma restoreLoop_files_only (entries : list ManifestEntry) (w v : World)
    (restored : list string) (failed : list (string * string)) :
  files v = files w ->
  files (fst (fst (restoreLoop io entries v restored failed)))
  = files (fst (fst (restoreLoop io entries w restored failed)))
  /\ snd (fst (restoreLoop io entries v restored failed))
     = snd (fst (restoreLoop io entries w restored failed))
  /\ snd (restoreLoop io entries v restored failed)
     = snd (restoreLoop io entries w restored failed).
Proof.
  revert w v restored failed.
  induction entries as [|e entries IH]; intros w v restored failed Hf; simpl.
  - repeat split; auto.
  - unfold restoreEntry. rewrite Hf.
    destruct (files w !! originalPath e); [now apply IH|].
    destruct (files w !! backupPath e) as [content|]; [|now apply IH].
    destruct (io_copy io _ _ content) as [written|]; [|now apply IH].
    destruct (String.eqb _ _); apply IH; reflexivity.
Qed.

End RestoreFacts.

Section RestoreReports.
Import FileSystem Safety.

Variable io : IO.

Lemma restoreEntry_inl (w : World) (e : ManifestEntry) (p : string) :
  snd (restoreEntry io w e) = inl p ->
  p = originalPath e /\ is_Some (files (fst (restoreEntry io w e)) !! p).
Proof.
  unfold restoreEntry.
  destruct (files w !! originalPath e) as [c|] eqn:Eo.
  - simpl. intros [= <-]. split; [reflexivity|]. rewrite Eo. eauto.
  - destruct (files w !! backupPath e) as [content|]; [|discriminate].
    destruct (io_copy io _ _ content) as [written|]; [|discriminate].
    destruct (String.eqb _ _); [|discriminate].
    simpl. intros [= <-]. split; [reflexivity|]. rewrite lookup_insert_eq. eauto.
Qed.

(** Whatever a run reports as restored is the original path of an entry
    and exists when the run ends. *)
Lemma restoreLoop_restored (entries : list ManifestEntry) (w : World)
    (restored : list string) (failed : list (string * string)) :
  exists new,
    snd (fst (restoreLoop io entries w restored failed)) = restored ++ new
    /\ forall p, p ∈ new ->
         (exists e, e ∈ entries /\ p = originalPath e)
         /\ is_Some (files (fst (fst (restoreLoop io entries w restored failed))) !! p).
Proof.
  revert w restored failed.
  induction entries as [|e entries IH]; intros w restored failed; simpl.
  - exists []. rewrite app_nil_r. split; [reflexivity|]. intros p Hp. inversion Hp.
  - pose proof (restoreEntry_inl w e) as Hinl.
    destruct (restoreEntry io w e) as [w1 [p|f]]; simpl in Hinl.
    + destruct (Hinl p eq_refl) as [-> Hex].
      destruct (IH w1 (restored ++ [originalPath e]) failed) as (new & En & Hn).
      pose proof (restoreLoop_step io entries w1 (restored ++ [originalPath e]) failed)
        as (Hsub & _).
      exists (originalPath e :: new). rewrite En, <- app_assoc.
      split; [reflexivity|]. intros q Hq.
      apply elem_of_cons in Hq as [->|Hq].
      * split; [exists e; split; [left|reflexivity]|].
        destruct Hex as [c Hc]. exists c. eapply lookup_weaken; eassumption.
      * destruct (Hn q Hq) as [(e' & He' & ->) Hex']. split; [|exact Hex'].
        exists e'. split; [now right|reflexivity].
    + destruct (IH w1 restored (failed ++ [f])) as (new & En & Hn).
      exists new. split; [exact En|]. intros q Hq.
      destruct (Hn q Hq) as [(e' & He' & ->) Hex']. split; [|exact Hex'].
      exists e'. split; [now right|reflexivity].
Qed.

End RestoreReports.

Section RestoreClaims.
Import FileSystem Safety FileExample.

(** The shape of a successful call. *)
Lemma restoreFromBackup_found (io : IO) (w : World) (backupId : string)
    (m : Manifest) :
  manifests w !! backupId = Some m ->
  exists w1 restored failed entry,
    restoreLoop io (man_files m) w [] [] = (w1, restored, failed)
    /\ restoreFromBackup io w backupId
       = (Ok (mkRestore backupId restored failed
                        (match failed with [] => true | _ => false end)),
          mkWorld (files w1) (manifests w1) (operationLog w1 ++ [entry])
                  (trashed w1) (deletionLog w1)).
Proof.
  intros Em. unfold restoreFromBackup. rewrite Em.
  destruct (restoreLoop io (man_files m) w [] []) as [[w1 restored] failed].
  eexists w1, restored, failed, _. split; reflexivity.
Qed.

(** C8 (as amended).  For a backup whose manifest has no original path
    that is the backup path of one of its entries, and with file copies
    behaving the same in both calls, [restoreFromBackup] called a second
    time on the same backup identifier leaves the files (and the manifests)
    exactly as the first call left them.  The second call reports as
    restored every manifest entry whose original path exists, without
    copying it again; in particular every path the first call reported as
    restored is reported as restored again and is not among the failures,
    and a failure of the second call only ever names a path that is still
    absent.  When the backup does not exist both calls reject and touch
    nothing. *)
Theorem restoreFromBackup_idempotent (io : IO) (w : World) (backupId : string) :
  (forall m, manifests w !! backupId = Some m -> separated (man_files m)) ->
  let first := restoreFromBackup io w backupId in
  let second := restoreFromBackup io (snd first) backupId in
  files (snd second) = files (snd first)
  /\ manifests (snd second) = manifests (snd first)
  /\ (forall m, manifests w !! backupId = Some m ->
        exists r1 r2,
          fst first = Ok r1 /\ fst second = Ok r2
          /\ (forall e, In e (man_files m) ->
                is_Some (files (snd first) !! originalPath e) ->
                In (originalPath e) (res_restored r2))
          /\ (forall p, In p (res_restored r1) ->
                In p (res_restored r2) /\ ~ In p (map fst (res_failed r2)))
          /\ (forall p, In p (map fst (res_failed r2)) ->
                files (snd first) !! p = None))
  /\ (manifests w !! backupId = None ->
        first = (Throw ("Backup not found: " +:+ backupId), w)
        /\ second = first).
Proof.
  intros Hsep first second.
  destruct (manifests w !! backupId) as [m|] eqn:Em.
  - specialize (Hsep m eq_refl).
    destruct (restoreFromBackup_found io w backupId m Em)
      as (w1 & restored1 & failed1 & entry1 & El1 & Efirst).
    fold first in Efirst.
    pose proof (restoreLoop_step io (man_files m) w [] []) as (_ & _ & Hman & _).
    pose proof (restoreLoop_settles io (man_files m) w [] [] Hsep) as Hset.
    pose proof (restoreLoop_restored io (man_files m) w [] []) as (new & Enew & Hnew).
    rewrite El1 in Hman, Hset, Enew, Hnew. simpl in Hman, Hset, Enew, Hnew.
    subst restored1.
    set (w1' := mkWorld (files w1) (manifests w1) (operationLog w1 ++ [entry1])
                        (trashed w1) (deletionLog w1)) in *.
    assert (Em1 : manifests w1' !! backupId = Some m) by (simpl; now rewrite Hman).
    destruct (restoreFromBackup_found io w1' backupId m Em1)
      as (w2 & restored2 & failed2 & entry2 & El2 & Esecond).
    assert (Esnd : snd first = w1') by now rewrite Efirst.
    unfold second. rewrite Esnd, Esecond. rewrite Efirst. simpl fst. simpl snd.
    destruct (restoreLoop_settled io (man_files m) w1 [] [] Hset)
      as (r2 & f2 & El & H1 & H2 & H3).
    pose proof (restoreLoop_files_only io (man_files m) w1 w1' [] [] eq_refl)
      as (Hf & Hr & Hfl).
    rewrite El, El2 in Hf, Hr, Hfl. simpl in Hf, Hr, Hfl. subst restored2 failed2.
    pose proof (restoreLoop_step io (man_files m) w1' [] []) as (_ & _ & Hman2 & _).
    rewrite El2 in Hman2. simpl in Hman2.
    split; [exact Hf|]. split; [exact Hman2|]. split.
    + intros m' Hm'. injection Hm' as <-.
      eexists _, _. split; [reflexivity|]. split; [reflexivity|]. simpl.
      split; [|split].
      * intros e He Hex. apply list_elem_of_In. apply H1; [|exact Hex].
        now apply list_elem_of_In.
      * intros p Hp. apply list_elem_of_In in Hp.
        destruct (Hnew p Hp) as [(e & He & ->) Hex]. split.
        -- apply list_elem_of_In. now apply H1.
        -- intros Hin. apply list_elem_of_In in Hin.
           assert (Hin' : originalPath e ∈ f2.*1).
           { apply list_elem_of_fmap. apply list_elem_of_In, in_map_iff in Hin.
             destruct Hin as (x & Hx1 & Hx2). exists x. split; [now symmetry|].
             now apply list_elem_of_In. }
           rewrite (H2 _ Hin') in Hex. destruct Hex as [c Hc]. discriminate.
      * intros p Hp. apply H2. apply list_elem_of_fmap.
        apply in_map_iff in Hp. destruct Hp as (x & Hx1 & Hx2).
        exists x. split; [now symmetry|]. now apply list_elem_of_In.
    + intros Hnone. discriminate.
  - assert (Efirst : first = (Throw ("Backup not found: " +:+ backupId), w)).
    { unfold first, restoreFromBackup. now rewrite Em. }
    assert (Esecond : second = first).
    { unfold second. rewrite Efirst. simpl snd. unfold restoreFromBackup.
      now rewrite Em. }
    rewrite Esecond. split; [reflexivity|]. split; [reflexivity|].
    split; [intros m Hm; discriminate|]. intros _. split; [exact Efirst|reflexivity].
Qed.

Lemma restoreFromBackup_idempotent_witness :
  let first := restoreFromBackup healthy afterDeletion "deletion_7" in
  let second := restoreFromBackup healthy (snd first) "deletion_7" in
  files (snd first) !! "a.jpg" = Some "JFIF-sunset"
  /\ files (snd first) !! "b.jpg" = Some "JFIF-harbour"
  /\ files (snd second) = files (snd first).
Proof.
  intros first second.
  split; [vm_compute; reflexivity|]. split; [vm_compute; reflexivity|].
  refine (proj1 (restoreFromBackup_idempotent healthy afterDeletion "deletion_7" _)).
  intros m Hm. vm_compute in Hm. injection Hm as <-.
  intros e e' He He'.
  apply list_elem_of_In in He, He'. simpl in He, He'.
  destruct He as [<-|[<-|[]]]; destruct He' as [<-|[<-|[]]]; discriminate.
Defined.

(** C8 as stated fails.  In [nestedBackup] the second manifest entry backs
    up the backup copy of the first, and [a.jpg] and that copy are both
    missing.  The first call cannot restore [a.jpg] (its backup copy is
    missing) and then restores the backup copy from the copy of the copy;
    the second call finds the backup copy and restores [a.jpg]: the files
    after two calls differ from the files after one. *)
Lemma restoreFromBackup_twice_differs_on_nested_backup :
  let first := restoreFromBackup healthy nestedBackup "deletion_7" in
  let second := restoreFromBackup healthy (snd first) "deletion_7" in
  (exists r1 r2,
      fst first = Ok r1 /\ fst second = Ok r2
      /\ map fst (res_failed r1) = ["a.jpg"]
      /\ res_restored r1 = ["backup/pre-deletion/deletion_7/0_a.jpg"]
      /\ res_restored r2 = ["a.jpg"; "backup/pre-deletion/deletion_7/0_a.jpg"])
  /\ files (snd first) !! "a.jpg" = None
  /\ files (snd second) !! "a.jpg" = Some "JFIF-sunset"
  /\ files (snd second) <> files (snd first).
Proof.
  intros first second.
  assert (H1 : files (snd first) !! "a.jpg" = None) by (vm_compute; reflexivity).
  assert (H2 : files (snd second) !! "a.jpg" = Some "JFIF-sunset")
    by (vm_compute; reflexivity).
  split; [|split; [exact H1|split; [exact H2|]]].
  - eexists _, _. split; [vm_compute; reflexivity|].
    split; [vm_compute; reflexivity|]. repeat split; reflexivity.
  - intros Heq. rewrite Heq, H1 in H2. discriminate.
Qed.

End RestoreClaims.

(* --------------------------------------------------------------------- *)
(** ** Reports and effects of the file operations                         *)
(* --------------------------------------------------------------------- *)

Section VerifyExistFacts.
Import FileSystem Safety.

Lemma verifyFilesExist_from (w : World) (filePaths : list string) (v : Verification) :
  let v' := foldl (fun v filePath =>
                     match files w !! filePath with
                     | Some _ => mkVerification (ver_total v) (S (ver_existing v))
                                                (ver_missing v) (ver_verified v)
                     | None => mkVerification (ver_total v) (ver_existing v)
                                              (ver_missing v ++ [filePath]) false
                     end) v filePaths in
  ver_total v' = ver_total v
  /\ ver_missing v'
     = ver_missing v ++ filter (fun p => files w !! p = None) filePaths
  /\ (ver_existing v' + length (filter (fun p => files w !! p = None) filePaths)
      = ver_existing v + length filePaths)%nat
  /\ ver_verified v'
     = ver_verified v
       && bool_decide (filter (fun p => files w !! p = None) filePaths = []).
Proof.
  revert v. induction filePaths as [|p rest IH]; intros v; simpl.
  - rewrite app_nil_r, andb_true_r. repeat split; lia.
  - destruct (files w !! p) as [c|] eqn:Ep.
    + rewrite filter_cons_False by congruence.
      destruct (IH (mkVerification (ver_total v) (S (ver_existing v))
                      (ver_missing v) (ver_verified v))) as (H1 & H2 & H3 & H4).
      simpl in *. repeat split; [exact H1|exact H2|lia|exact H4].
    + rewrite filter_cons_True by exact Ep.
      destruct (IH (mkVerification (ver_total v) (ver_existing v)
                      (ver_missing v ++ [p]) false)) as (H1 & H2 & H3 & H4).
      simpl in *. repeat split; [exact H1| |lia|].
      * rewrite H2, <- app_assoc. reflexivity.
      * rewrite H4. simpl. now rewrite andb_false_r.
Qed.

(** X1.  [verifyFilesExist] counts every path once: [total] is the number
    of paths given, [missing] lists the absent paths in the order given,
    [existing] counts the others, and [verified] is true exactly when
    nothing is missing, that is when every path exists. *)
Theorem verifyFilesExist_report (w : World) (filePaths : list string) :
  let v := verifyFilesExist w filePaths in
  ver_total v = length filePaths
  /\ ver_missing v = filter (fun p => files w !! p = None) filePaths
  /\ (ver_existing v + length (ver_missing v) = ver_total v)%nat
  /\ (ver_verified v = true <-> ver_missing v = [])
  /\ (ver_verified v = true <-> forall p, p ∈ filePaths -> is_Some (files w !! p)).
Proof.
  intros v.
  destruct (verifyFilesExist_from w filePaths
              (mkVerification (length filePaths) 0 [] true)) as (H1 & H2 & H3 & H4).
  fold (verifyFilesExist w filePaths) in H1, H2, H3, H4. fold v in H1, H2, H3, H4.
  simpl in *.
  assert (Hv : ver_verified v = true <-> ver_missing v = []).
  { rewrite H4, H2. apply bool_decide_eq_true. }
  split; [exact H1|]. split; [exact H2|]. split; [rewrite H2, H1; lia|].
  split; [exact Hv|]. rewrite Hv, H2. split.
  - intros Hnil p Hp. destruct (files w !! p) as [c|] eqn:Ep; [eauto|].
    exfalso. assert (Hin : p ∈ filter (fun p => files w !! p = None) filePaths)
      by (apply list_elem_of_filter; split; assumption).
    rewrite Hnil in Hin. inversion Hin.
  - intros Hall.
    destruct (filter (fun p => files w !! p = None) filePaths) as [|q l] eqn:Ef;
      [reflexivity|].
    assert (Hq : q ∈ filter (fun p => files w !! p = None) filePaths)
      by (rewrite Ef; left).
    apply list_elem_of_filter in Hq as [Hn Hq].
    destruct (Hall q Hq) as [c Hc]. congruence.
Qed.
End VerifyExistFacts.

Section DeleteEffects.
Import FileSystem Deletion.

Variable io : IO.

Lemma deleteOne_effect (filePath : string) (results : DeleteResults) (w : World) :
  let r1 := fst (deleteOne io filePath results w) in
  let w1 := snd (deleteOne io filePath results w) in
  total r1 = total results /\ manifests w1 = manifests w
  /\ (exists newf, failed r1 = failed results ++ newf
                   /\ (files w !! filePath = None ->
                       newf = [(filePath, "File not found")]))
  /\ ((deleted r1 = deleted results ++ [filePath]
       /\ trashed w1 = trashed w ++ [filePath]
       /\ files w1 = delete filePath (files w)
       /\ is_Some (files w !! filePath))
      \/ (deleted r1 = deleted results /\ trashed w1 = trashed w
          /\ files w1 = files w)).
Proof.
  unfold deleteOne.
  destruct (files w !! filePath) as [c|] eqn:Ef.
  - destruct (io_trash io filePath) as [m|].
    + simpl. repeat split; [eexists; split; [reflexivity|discriminate]|].
      right. repeat split.
    + destruct (io_log io filePath) as [m|]; simpl.
      * repeat split; [eexists; split; [reflexivity|discriminate]|].
        left. repeat split. eauto.
      * repeat split; [exists []; split; [now rewrite app_nil_r|discriminate]|].
        left. repeat split. eauto.
  - simpl. repeat split; [eexists; split; [reflexivity|reflexivity]|].
    right. repeat split.
Qed.

(** The loop of [deleteFiles], whatever its outcome: what it has handed to
    the trash, and what is left of the files. *)
Lemma deleteLoop_effect (cb : option (nat -> bool)) (filesToDelete : list string)
    (processed : nat) (results : DeleteResults) (w : World)
    (out : result DeleteResults) (w' : World) :
  deleteLoop io cb filesToDelete processed results w = (out, w') ->
  exists newly,
    trashed w' = trashed w ++ newly
    /\ NoDup newly
    /\ (forall q, files w' !! q
                  = if decide (q ∈ newly) then None else files w !! q)
    /\ (forall p, p ∈ newly -> p ∈ filesToDelete /\ is_Some (files w !! p))
    /\ manifests w' = manifests w
    /\ forall res, out = Ok res ->
         deleted res = deleted results ++ newly
         /\ total res = total results
         /\ exists newf, failed res = failed results ++ newf
              /\ forall p, p ∈ filesToDelete -> files w !! p = None ->
                   (p, "File not found") ∈ newf.
Proof.
  revert processed results w.
  induction filesToDelete as [|p rest IH]; intros processed results w; simpl.
  - intros [= <- <-]. exists []. rewrite app_nil_r.
    split; [reflexivity|]. split; [constructor|]. split; [reflexivity|].
    split; [intros q Hq; inversion Hq|]. split; [reflexivity|].
    intros res [= <-]. rewrite app_nil_r. repeat split.
    exists []. rewrite app_nil_r. split; [reflexivity|]. intros q Hq. inversion Hq.
  - pose proof (deleteOne_effect p results w) as (Ht & Hm & (newf1 & Hf1 & Hnf) & Hcase).
    destruct (deleteOne io p results w) as [r1 w1]. simpl in Ht, Hm, Hf1, Hcase.
    intros Hloop.
    assert (Hrec : (exists m, out = Throw m /\ w' = w1)
                   \/ deleteLoop io cb rest (S processed) r1 w1 = (out, w')).
    { destruct cb as [throws|]; [|now right].
      destruct (throws (S processed)); [|now right].
      left. injection Hloop as <- <-. eauto. }
    destruct Hrec as [(m & -> & ->)|Hrec].
    + destruct Hcase as [(Hd & Htr & Hfs & Hex)|(Hd & Htr & Hfs)].
      * exists [p]. split; [exact Htr|]. split; [apply NoDup_singleton|].
        split.
        { intros q. rewrite Hfs. destruct (decide (q ∈ [p])) as [Hq|Hq].
          - apply list_elem_of_singleton in Hq as ->. apply lookup_delete_eq.
          - rewrite lookup_delete_ne; [reflexivity|]. set_solver. }
        split; [intros q Hq; apply list_elem_of_singleton in Hq as ->;
                split; [left|exact Hex]|].
        split; [exact Hm|]. intros res Hres. discriminate.
      * exists []. rewrite app_nil_r. split; [exact Htr|]. split; [constructor|].
        split; [intros q; now rewrite Hfs|].
        split; [intros q Hq; inversion Hq|].
        split; [exact Hm|]. intros res Hres. discriminate.
    + destruct (IH _ _ _ Hrec) as (newly & Htr' & Hnd & Hfs' & Hin & Hm' & Hres).
      destruct Hcase as [(Hd & Htr & Hfs & Hex)|(Hd & Htr & Hfs)].
      * assert (Hp : p ∉ newly).
        { intros Hp. destruct (Hin p Hp) as [_ [c Hc]].
          rewrite Hfs, lookup_delete_eq in Hc. discriminate. }
        exists (p :: newly). split; [rewrite Htr', Htr, <- app_assoc; reflexivity|].
        split; [now apply NoDup_cons|]. split.
        { intros q. rewrite Hfs', Hfs.
          destruct (decide (q ∈ newly)) as [Hq|Hq].
          - rewrite decide_True by now right. reflexivity.
          - destruct (decide (q = p)) as [->|Hne].
            + rewrite decide_True by left. apply lookup_delete_eq.
            + rewrite decide_False by set_solver. now apply lookup_delete_ne. }
        split.
        { intros q Hq. apply elem_of_cons in Hq as [->|Hq]; [split; [left|exact Hex]|].
          destruct (Hin q Hq) as [Hq1 [c Hc]]. split; [now right|].
          rewrite Hfs in Hc. apply lookup_delete_Some in Hc as [_ Hc]. eauto. }
        split; [congruence|]. intros res Hout.
        destruct (Hres res Hout) as (Hd' & Ht' & newf & Hf' & Hnf').
        split; [rewrite Hd', Hd, <- app_assoc; reflexivity|]. split; [congruence|].
        exists (newf1 ++ newf). split; [rewrite Hf', Hf1, <- app_assoc; reflexivity|].
        intros q Hq Hnone. apply elem_of_cons in Hq as [->|Hq].
        -- destruct Hex as [c Hc]. congruence.
        -- apply elem_of_app. right. apply Hnf'; [exact Hq|].
           rewrite Hfs. rewrite lookup_delete_None. now right.
      * exists newly. split; [rewrite Htr', Htr; reflexivity|].
        split; [exact Hnd|]. split; [intros q; rewrite Hfs', Hfs; reflexivity|].
        split.
        { intros q Hq. destruct (Hin q Hq) as [Hq1 Hq2]. split; [now right|].
          now rewrite <- Hfs. }
        split; [congruence|]. intros res Hout.
        destruct (Hres res Hout) as (Hd' & Ht' & newf & Hf' & Hnf').
        split; [rewrite Hd', Hd; reflexivity|]. split; [congruence|].
        exists (newf1 ++ newf). split; [rewrite Hf', Hf1, <- app_assoc; reflexivity|].
        intros q Hq Hnone. apply elem_of_cons in Hq as [->|Hq].
        -- rewrite (Hnf Hnone). apply elem_of_app. left. left.
        -- apply elem_of_app. right. apply Hnf'; [exact Hq|]. now rewrite Hfs.
Qed.

End DeleteEffects.


Section DeleteReport.
Import FileSystem Deletion FileExample.



End DeleteReport.

Section CopyNames.
Import FileSystem.

Lemma pretty_N_char_no_underscore (x : N) : pretty_N_char x <> "_"%char.
Proof. unfold pretty_N_char. repeat case_match; discriminate. Qed.

Lemma pretty_N_go_lacks_underscore (x : N) (s : string) :
  lacks "_" s -> lacks "_" (pretty_N_go x s).
Proof.
  revert s. induction (N.lt_wf_0 x) as [x _ IH]; intros s Hs.
  assert (x = 0 \/ 0 < x)%N as [->|Hpos] by lia.
  - now rewrite pretty_N_go_0.
  - rewrite pretty_N_go_step by exact Hpos. apply IH.
    + now apply N.div_lt.
    + split; [apply pretty_N_char_no_underscore|exact Hs].
Qed.

Lemma pretty_nat_lacks_underscore (n : nat) : lacks "_" (pretty n).
Proof.
  unfold pretty, pretty_nat, pretty, pretty_N.
  destruct (decide (N.of_nat n = 0%N)).
  - simpl. split; [discriminate|exact I].
  - apply pretty_N_go_lacks_underscore. exact I.
Qed.

(** The first occurrence of a character splits a string unambiguously. *)
Lemma split_at_first (c : Ascii.ascii) (u v x y : string) :
  lacks c u -> lacks c v ->
  u +:+ String c x = v +:+ String c y -> u = v /\ x = y.
Proof.
  revert v. induction u as [|a u IH]; intros [|b v] Hu Hv Heq;
    unfold String.append in Heq; fold String.append in Heq.
  - injection Heq as ->. split; reflexivity.
  - injection Heq as <- _. destruct Hv as [Hb _]. congruence.
  - injection Heq as -> _. destruct Hu as [Ha _]. congruence.
  - injection Heq as -> Heq. destruct Hu as [_ Hu], Hv as [_ Hv].
    destruct (IH v Hu Hv Heq) as [-> ->]. split; reflexivity.
Qed.

Lemma append_inj_r (a x y : string) : a +:+ x = a +:+ y -> x = y.
Proof.
  induction a as [|c a IH]; unfold String.append; fold String.append.
  - trivial.
  - intros [= H]. now apply IH.
Qed.

(** The copy of the [k]-th backed-up file, [`${k}_${fileName}`] under the
    backup directory, determines [k]. *)
Lemma safeName_inj (dir : string) (k k' : nat) (name name' : string) :
  join dir (pretty k +:+ ("_" +:+ name)) = join dir (pretty k' +:+ ("_" +:+ name')) ->
  k = k' /\ name = name'.
Proof.
  unfold join. intros Heq. apply append_inj_r in Heq.
  change ("/" +:+ (pretty k +:+ ("_" +:+ name)))
    with (String "/" (pretty k +:+ ("_" +:+ name))) in Heq.
  change ("/" +:+ (pretty k' +:+ ("_" +:+ name')))
    with (String "/" (pretty k' +:+ ("_" +:+ name'))) in Heq.
  injection Heq as Heq.
  change ("_" +:+ name) with (String "_" name) in Heq.
  change ("_" +:+ name') with (String "_" name') in Heq.
  apply split_at_first in Heq as [Hk Hn]; try apply pretty_nat_lacks_underscore.
  split; [|exact Hn]. now apply (inj pretty).
Qed.

End CopyNames.

Section BackupComplete.
Import FileSystem Safety.

Variable io : IO.
Variable dir : string.
Variable batch : list string.
Hypothesis outside : forall p s, p ∈ batch -> p <> join dir s.

Lemma filter_exists_same (fs fs' : gmap string string) (l : list string) :
  (forall p, p ∈ l -> fs' !! p = fs !! p) ->
  filter (fun p => is_Some (fs' !! p)) l = filter (fun p => is_Some (fs !! p)) l.
Proof.
  induction l as [|p l IH]; intros Hsame; [reflexivity|].
  rewrite !filter_cons, (Hsame p) by left.
  rewrite IH; [reflexivity|]. intros q Hq. apply Hsame. now right.
Qed.

Lemma backupLoop_complete (rest : list string) (copied out : list ManifestEntry)
    (w w' : World) :
  (forall p, p ∈ rest -> p ∈ batch) ->
  backupLoop io dir rest copied w = (Ok out, w') ->
  exists new,
    out = copied ++ new
    /\ originalPath <$> new = filter (fun p => is_Some (files w !! p)) rest
    /\ (forall q, (forall k name, (length copied <= k)%nat ->
                     q <> join dir (pretty k +:+ ("_" +:+ name))) ->
          files w' !! q = files w !! q)
    /\ Forall (fun e =>
         verified e = true
         /\ originalPath e ∈ batch
         /\ (exists k name, (length copied <= k)%nat
               /\ backupPath e = join dir (pretty k +:+ ("_" +:+ name)))
         /\ exists c c', files w !! originalPath e = Some c
              /\ files w' !! backupPath e = Some c'
              /\ io_copy io (originalPath e) (backupPath e) c = Some c'
              /\ entryHash e = io_hash io c
              /\ io_hash io c' = io_hash io c) new.
Proof using outside.
  revert copied w.
  induction rest as [|p rest IH]; intros copied w Hsub; simpl.
  - intros [= <- <-]. exists []. rewrite app_nil_r.
    repeat split. constructor.
  - assert (Hrest : forall q, q ∈ rest -> q ∈ batch)
      by (intros q Hq; apply Hsub; now right).
    assert (Hp : p ∈ batch) by (apply Hsub; left).
    destruct (files w !! p) as [content|] eqn:Ep.
    + set (copyPath := join dir (pretty (length copied) +:+ ("_" +:+ io_basename io p))).
      destruct (io_copy io p copyPath content) as [written|] eqn:Ecopy; [|discriminate].
      set (w1 := withFiles (<[copyPath := written]> (files w)) w).
      assert (Hw1 : forall q, q ∈ batch -> files w1 !! q = files w !! q).
      { intros q Hq. unfold w1. simpl. apply lookup_insert_ne.
        intros Heq. apply (outside q (pretty (length copied)
                                       +:+ ("_" +:+ io_basename io p)) Hq).
        now rewrite <- Heq. }
      unfold calculateFileHash. rewrite (Hw1 p Hp), Ep.
      assert (Hc1 : files w1 !! copyPath = Some written)
        by (unfold w1; simpl; apply lookup_insert_eq).
      rewrite Hc1.
      destruct (String.eqb _ _) eqn:Eh; [|discriminate].
      apply String.eqb_eq in Eh. intros Hloop.
      destruct (IH _ _ Hrest Hloop) as (new & Hout & Horig & Hwrites & Hall).
      rewrite length_app in Hwrites, Hall. simpl in Hwrites, Hall.
      exists (mkEntry p copyPath true (io_hash io content) :: new).
      split; [rewrite Hout, <- app_assoc; reflexivity|]. split.
      { rewrite fmap_cons. simpl. rewrite filter_cons_True by (rewrite Ep; eauto).
        f_equal. rewrite Horig. apply filter_exists_same.
        intros q Hq. apply Hw1. now apply Hrest. }
      split.
      { intros q Hq. rewrite Hwrites.
        - unfold w1. simpl. apply lookup_insert_ne. intros Heq.
          apply (Hq (length copied) (io_basename io p)); [lia|]. now rewrite <- Heq.
        - intros k name Hk. apply Hq. lia. }
      apply Forall_cons. split.
      { simpl. split; [reflexivity|]. split; [exact Hp|]. split.
        - exists (length copied), (io_basename io p). split; [lia|reflexivity].
        - exists content, written. split; [exact Ep|].
          split; [|split; [exact Ecopy|split; [reflexivity|now symmetry]]].
          rewrite Hwrites; [exact Hc1|]. intros k name Hk Heq.
          apply safeName_inj in Heq as [Hk' _]. lia. }
      eapply Forall_impl; [exact Hall|]. simpl.
      intros e (Hv & Ho & (k & name & Hk & Hb) & c & c' & H1 & H2 & H0 & H3 & H4).
      split; [exact Hv|]. split; [exact Ho|]. split.
      * exists k, name. split; [lia|exact Hb].
      * exists c, c'. rewrite <- (Hw1 _ Ho). repeat split; assumption.
    + intros Hloop. destruct (IH _ _ Hrest Hloop) as (new & Hout & Horig & Hwrites & Hall).
      exists new. split; [exact Hout|]. split.
      { rewrite filter_cons_False; [exact Horig|]. rewrite Ep. intros [c Hc]. discriminate. }
      split; [exact Hwrites|exact Hall].
Qed.

End BackupComplete.

Section BackupOutcome.
Import FileSystem Safety.

(** Everything a successful [createPreDeletionBackup] establishes, for a
    batch outside the fresh backup directory. *)
Lemma createPreDeletionBackup_inv (io : IO) (timestamp : Z) (w w' : World)
    (filesToDelete : list string) (backupId : string) :
  (forall p s, p ∈ filesToDelete ->
               p <> join (backupPathOf io (backupIdOf timestamp)) s) ->
  createPreDeletionBackup io timestamp w filesToDelete = (Ok backupId, w') ->
  backupId = backupIdOf timestamp
  /\ exists copied,
       manifests w' = <[backupId := mkManifest backupId "pre-deletion"
                                      (length copied) copied true]> (manifests w)
       /\ originalPath <$> copied
          = filter (fun p => is_Some (files w !! p)) filesToDelete
       /\ Forall (fun e =>
            verified e = true
            /\ originalPath e ∈ filesToDelete
            /\ (exists s, backupPath e
                          = join (backupPathOf io (backupIdOf timestamp)) s)
            /\ exists c c', files w !! originalPath e = Some c
                 /\ files w' !! backupPath e = Some c'
                 /\ io_copy io (originalPath e) (backupPath e) c = Some c'
                 /\ entryHash e = io_hash io c
                 /\ io_hash io c' = io_hash io c) copied
       /\ (forall q, (forall s, q <> join (backupPathOf io (backupIdOf timestamp)) s) ->
             files w' !! q = files w !! q)
       /\ trashed w' = trashed w /\ deletionLog w' = deletionLog w.
Proof.
  intros Hout. unfold createPreDeletionBackup.
  destruct (backupLoop io _ filesToDelete [] w) as [[copied|msg] w1] eqn:El;
    [|discriminate].
  intros [= <- <-]. split; [reflexivity|].
  destruct (backupLoop_complete io _ filesToDelete Hout filesToDelete [] copied w w1
              (fun _ H => H) El) as (new & Hnew & Horig & Hwrites & Hall).
  simpl in Hnew. subst new.
  pose proof (backupLoop_preserves io (backupPathOf io (backupIdOf timestamp))
                filesToDelete [] w) as Hp.
  rewrite El in Hp. destruct Hp as (Htr & Hdl & Hman & _).
  simpl in Htr, Hdl, Hman. exists copied. simpl. split; [now rewrite Hman|]. split; [exact Horig|]. split.
  - eapply Forall_impl; [exact Hall|]. simpl.
    intros e (Hv & Ho & (k & name & _ & Hb) & Hc).
    split; [exact Hv|]. split; [exact Ho|]. split; [eauto|exact Hc].
  - split; [|split; [exact Htr|exact Hdl]]. intros q Hq. apply Hwrites.
    intros k name _. apply Hq.
Qed.

End BackupOutcome.

Section BackupReport.
Import FileSystem Safety FileExample.

(** X3.  A successful [createPreDeletionBackup] of a batch that lies
    outside the fresh backup directory returns the identifier
    [deletion_<timestamp>] and stores under it a manifest that lists, in
    batch order, exactly the paths of the batch that existed (paths that
    do not exist are skipped without error), with [totalFiles] their
    number.  Every entry is marked verified and records the digest of the
    original, and its copy is on disk with that same digest.  No file of
    the batch is changed and nothing is sent to the trash. *)
Theorem createPreDeletionBackup_complete (io : IO) (timestamp : Z) (w w' : World)
    (filesToDelete : list string) (backupId : string) :
  (forall p s, p ∈ filesToDelete ->
               p <> join (backupPathOf io (backupIdOf timestamp)) s) ->
  createPreDeletionBackup io timestamp w filesToDelete = (Ok backupId, w') ->
  backupId = backupIdOf timestamp
  /\ exists m,
       manifests w' !! backupId = Some m
       /\ man_totalFiles m = length (man_files m)
       /\ man_verificationPassed m = true
       /\ originalPath <$> man_files m
          = filter (fun p => is_Some (files w !! p)) filesToDelete
       /\ Forall (fun e =>
            verified e = true
            /\ exists c c', files w !! originalPath e = Some c
                 /\ files w' !! backupPath e = Some c'
                 /\ entryHash e = io_hash io c
                 /\ io_hash io c' = io_hash io c) (man_files m)
       /\ (forall p, p ∈ filesToDelete -> files w' !! p = files w !! p)
       /\ trashed w' = trashed w.
Proof.
  intros Hout Hrun.
  destruct (createPreDeletionBackup_inv io timestamp w w' filesToDelete backupId
              Hout Hrun) as (Hid & copied & Hman & Horig & Hall & Hfs & Htr & _).
  split; [exact Hid|]. eexists. split; [rewrite Hman; apply lookup_insert_eq|].
  simpl. split; [reflexivity|]. split; [reflexivity|]. split; [exact Horig|]. split.
  - eapply Forall_impl; [exact Hall|]. simpl.
    intros e (Hv & _ & _ & c & c' & H1 & H2 & _ & H3 & H4).
    split; [exact Hv|]. exists c, c'. repeat split; assumption.
  - split; [|exact Htr]. intros p Hp. apply Hfs. intros s. now apply Hout.
Qed.

Lemma createPreDeletionBackup_complete_witness :
  exists w' m,
    createPreDeletionBackup healthy 7 threeFiles ["a.jpg"; "x.jpg"; "b.jpg"]
    = (Ok "deletion_7", w')
    /\ manifests w' !! "deletion_7" = Some m
    /\ originalPath <$> man_files m = ["a.jpg"; "b.jpg"].
Proof.
  assert (Hrun : exists w', createPreDeletionBackup healthy 7 threeFiles
                              ["a.jpg"; "x.jpg"; "b.jpg"] = (Ok "deletion_7", w'))
    by (eexists; vm_compute; reflexivity).
  destruct Hrun as [w' Hrun]. exists w'.
  destruct (createPreDeletionBackup_complete healthy 7 threeFiles w'
              ["a.jpg"; "x.jpg"; "b.jpg"] "deletion_7")
    as (_ & m & Hm & _ & _ & Ho & _).
  - intros p s Hp Heq.
    assert (Hb : String.prefix "backup" p = true) by (rewrite Heq; reflexivity).
    repeat (apply elem_of_cons in Hp as [->|Hp]; [discriminate Hb|]).
    inversion Hp.
  - exact Hrun.
  - exists m. split; [exact Hrun|]. split; [exact Hm|]. rewrite Ho. reflexivity.
Defined.

End BackupReport.

Section RestoreIntegrity.
Import FileSystem Safety.

Variable io : IO.
(** [good p c]: the content [c] is acceptable at path [p]. *)
Variable good : string -> string -> Prop.

Lemma restoreLoop_integrity (entries : list ManifestEntry) (w : World)
    (restored : list string) (failed : list (string * string)) :
  (forall e written, e ∈ entries -> io_hash io written = entryHash e ->
                     good (originalPath e) written) ->
  (forall p c, files w !! p = Some c -> good p c \/ p ∈ failed.*1) ->
  let w' := fst (fst (restoreLoop io entries w restored failed)) in
  let restored' := snd (fst (restoreLoop io entries w restored failed)) in
  let failed' := snd (restoreLoop io entries w restored failed) in
  (forall p c, files w' !! p = Some c -> good p c \/ p ∈ failed'.*1)
  /\ (forall p, p ∈ failed.*1 -> p ∈ failed'.*1)
  /\ (forall p, p ∈ restored -> p ∈ restored')
  /\ (forall e, e ∈ entries ->
        originalPath e ∈ restored' \/ originalPath e ∈ failed'.*1)
  /\ (length restored' + length failed'
      = length restored + length failed + length entries)%nat.
Proof.
  revert w restored failed.
  induction entries as [|e entries IH]; intros w restored failed Hhash Hinv; simpl.
  - split; [exact Hinv|]. split; [auto|]. split; [auto|].
    split; [intros e He; inversion He|lia].
  - assert (Hhash' : forall e' written, e' ∈ entries ->
              io_hash io written = entryHash e' -> good (originalPath e') written)
      by (intros e' written He'; apply Hhash; now right).
    unfold restoreEntry.
    destruct (files w !! originalPath e) as [c|] eqn:Eo.
    + destruct (IH w (restored ++ [originalPath e]) failed Hhash' Hinv)
        as (H1 & H2 & H3 & H4 & H5).
      split; [exact H1|]. split; [exact H2|]. split.
      { intros p Hp. apply H3. apply elem_of_app. now left. }
      split.
      { intros e' He'. apply elem_of_cons in He' as [->|He']; [|now apply H4].
        left. apply H3. apply elem_of_app. right. left. }
      rewrite H5, length_app. simpl. lia.
    + assert (Hfail : forall reason,
                let f := (originalPath e, reason) in
                let r := restoreLoop io entries w restored (failed ++ [f]) in
                (forall p c, files (fst (fst r)) !! p = Some c ->
                             good p c \/ p ∈ (snd r).*1)
                /\ (forall p, p ∈ failed.*1 -> p ∈ (snd r).*1)
                /\ (forall p, p ∈ restored -> p ∈ snd (fst r))
                /\ (forall e', e' ∈ e :: entries ->
                      originalPath e' ∈ snd (fst r) \/ originalPath e' ∈ (snd r).*1)
                /\ (length (snd (fst r)) + length (snd r)
                    = length restored + length failed + S (length entries))%nat).
      { intros reason f r.
        destruct (IH w restored (failed ++ [f]) Hhash') as (H1 & H2 & H3 & H4 & H5).
        { intros p c Hc. destruct (Hinv p c Hc) as [Hg|Hf]; [now left|].
          right. rewrite fmap_app. apply elem_of_app. now left. }
        assert (Hmono : forall p, p ∈ (failed ++ [f]).*1 -> p ∈ (snd r).*1)
          by exact H2.
        split; [exact H1|]. split.
        { intros p Hp. apply Hmono. rewrite fmap_app. apply elem_of_app. now left. }
        split; [exact H3|]. split.
        { intros e' He'. apply elem_of_cons in He' as [->|He']; [|now apply H4].
          right. apply Hmono. rewrite fmap_app. apply elem_of_app. right. left. }
        fold r in H5. rewrite H5, length_app. simpl. lia. }
      destruct (files w !! backupPath e) as [content|]; [|apply Hfail].
      destruct (io_copy io _ _ content) as [written|]; [|apply Hfail].
      set (w1 := withFiles (<[originalPath e := written]> (files w)) w).
      destruct (String.eqb _ _) eqn:Eh.
      * apply String.eqb_eq in Eh.
        destruct (IH w1 (restored ++ [originalPath e]) failed Hhash')
          as (H1 & H2 & H3 & H4 & H5).
        { intros p c. unfold w1. simpl.
          destruct (decide (p = originalPath e)) as [->|Hne].
          - rewrite lookup_insert_eq. intros [= <-]. left. apply Hhash; [left|exact Eh].
          - rewrite lookup_insert_ne by congruence. apply Hinv. }
        split; [exact H1|]. split; [exact H2|]. split.
        { intros p Hp. apply H3. apply elem_of_app. now left. }
        split.
        { intros e' He'. apply elem_of_cons in He' as [->|He']; [|now apply H4].
          left. apply H3. apply elem_of_app. right. left. }
        rewrite H5, length_app. simpl. lia.
      * set (f := (originalPath e, "Hash mismatch after restore")).
        destruct (IH w1 restored (failed ++ [f]) Hhash') as (H1 & H2 & H3 & H4 & H5).
        { intros p c. unfold w1. simpl.
          destruct (decide (p = originalPath e)) as [->|Hne].
          - intros _. right. rewrite fmap_app. apply elem_of_app. right. left.
          - rewrite lookup_insert_ne by congruence. intros Hc.
            destruct (Hinv p c Hc) as [Hg|Hf]; [now left|].
            right. rewrite fmap_app. apply elem_of_app. now left. }
        split; [exact H1|]. split.
        { intros p Hp. apply H2. rewrite fmap_app. apply elem_of_app. now left. }
        split; [exact H3|]. split.
        { intros e' He'. apply elem_of_cons in He' as [->|He']; [|now apply H4].
          right. apply H2. rewrite fmap_app. apply elem_of_app. right. left. }
        rewrite H5, length_app. simpl. lia.
Qed.

End RestoreIntegrity.

Section RestoreReport.
Import FileSystem Safety FileExample.

(** X4.  [restoreFromBackup] on an existing backup never throws and
    reports every manifest entry once, in [restored] or in [failed].
    Every path it reports as restored exists afterwards, and [success] is
    true exactly when [failed] is empty.  It never removes or overwrites a
    file that existed before the call: a file found afterwards is either
    untouched, or carries the digest recorded in the manifest entry it was
    restored from, or is reported in [failed].  Manifests and the trash
    are left alone. *)
Theorem restoreFromBackup_report (io : IO) (w : World) (backupId : string)
    (m : Manifest) :
  manifests w !! backupId = Some m ->
  exists r w',
    restoreFromBackup io w backupId = (Ok r, w')
    /\ (length (res_restored r) + length (res_failed r) = length (man_files m))%nat
    /\ (forall e, e ∈ man_files m ->
          originalPath e ∈ res_restored r \/ originalPath e ∈ (res_failed r).*1)
    /\ (forall p, p ∈ res_restored r -> is_Some (files w' !! p))
    /\ (res_success r = true <-> res_failed r = [])
    /\ files w ⊆ files w'
    /\ (forall p c, files w' !! p = Some c ->
          files w !! p = Some c
          \/ (exists e, e ∈ man_files m /\ originalPath e = p
                        /\ io_hash io c = entryHash e)
          \/ p ∈ (res_failed r).*1)
    /\ manifests w' = manifests w /\ trashed w' = trashed w.
Proof.
  intros Em.
  destruct (restoreFromBackup_found io w backupId m Em)
    as (w1 & restored & failed & entry & El & Er).
  eexists _, _. split; [exact Er|]. simpl.
  pose proof (restoreLoop_integrity io
                (fun p c => files w !! p = Some c
                            \/ exists e, e ∈ man_files m /\ originalPath e = p
                                         /\ io_hash io c = entryHash e)
                (man_files m) w [] []) as Hint.
  rewrite El in Hint. simpl in Hint.
  destruct Hint as (Hgood & _ & _ & Hacc & Hlen).
  { intros e written He Hh. right. exists e. repeat split; assumption. }
  { intros p c Hc. left. now left. }
  pose proof (restoreLoop_restored io (man_files m) w [] []) as (new & Hnew & Hex).
  rewrite El in Hnew, Hex. simpl in Hnew, Hex. subst new.
  pose proof (restoreLoop_step io (man_files m) w [] []) as (Hsub & _ & Hman & _ & Htr & _).
  rewrite El in Hsub, Hman, Htr. simpl in Hsub, Hman, Htr.
  split; [exact Hlen|]. split; [exact Hacc|].
  split; [intros p Hp; now apply Hex|].
  split; [destruct failed; simpl; split; congruence|].
  split; [exact Hsub|]. split; [|split; assumption].
  intros p c Hc. destruct (Hgood p c Hc) as [[H|H]|H]; auto.
Qed.

Lemma restoreFromBackup_report_witness :
  exists r w',
    restoreFromBackup healthy afterDeletion "deletion_7" = (Ok r, w')
    /\ res_restored r = ["a.jpg"; "b.jpg"] /\ res_failed r = []
    /\ files w' !! "c.jpg" = Some "JFIF-dune".
Proof.
  destruct (restoreFromBackup_report healthy afterDeletion "deletion_7" _ eq_refl)
    as (r & w' & Er & _ & _ & _ & _ & Hsub & _).
  exists r, w'. split; [exact Er|].
  assert (Hr : res_restored r = ["a.jpg"; "b.jpg"] /\ res_failed r = []).
  { assert (Hc : fst (restoreFromBackup healthy afterDeletion "deletion_7")
                 = Ok (mkRestore "deletion_7" ["a.jpg"; "b.jpg"] [] true))
      by (vm_compute; reflexivity).
    rewrite Er in Hc. simpl in Hc. injection Hc as ->. split; reflexivity. }
  destruct Hr as [Hr Hf]. split; [exact Hr|]. split; [exact Hf|].
  eapply lookup_weaken; [|exact Hsub]. vm_compute. reflexivity.
Defined.

End RestoreReport.

Section RestoreFaithful.
Import FileSystem Safety.

Variable io : IO.
Hypothesis faithful : forall src dst content, io_copy io src dst content = Some content.
(** The contents to be found at the original paths in the end. *)
Variable target : gmap string string.

Lemma restoreLoop_faithful (entries : list ManifestEntry) (w : World)
    (restored : list string) (failed : list (string * string)) :
  (forall e, e ∈ entries ->
     exists c, files w !! backupPath e = Some c
               /\ entryHash e = io_hash io c
               /\ target !! originalPath e = Some c) ->
  (forall e e', e ∈ entries -> e' ∈ entries -> originalPath e <> backupPath e') ->
  (forall e c, e ∈ entries -> files w !! originalPath e = Some c ->
               target !! originalPath e = Some c) ->
  let r := restoreLoop io entries w restored failed in
  snd r = failed
  /\ snd (fst r) = restored ++ (originalPath <$> entries)
  /\ forall e, e ∈ entries ->
       files (fst (fst r)) !! originalPath e = target !! originalPath e.
Proof using faithful.
  revert w restored failed.
  induction entries as [|e entries IH]; intros w restored failed Hcopy Hsep Hagree; simpl.
  - rewrite app_nil_r. repeat split. intros e He. inversion He.
  - destruct (Hcopy e) as (c & Hb & Hh & Ht); [left|].
    assert (Hstep : exists w1,
               restoreEntry io w e = (w1, inl (originalPath e))
               /\ files w ⊆ files w1
               /\ files w1 !! originalPath e = target !! originalPath e
               /\ forall q, q <> originalPath e -> files w1 !! q = files w !! q).
    { unfold restoreEntry.
      destruct (files w !! originalPath e) as [c0|] eqn:Eo.
      - exists w. split; [reflexivity|]. split; [reflexivity|].
        split; [|reflexivity]. rewrite Eo. symmetry. apply (Hagree e); [left|exact Eo].
      - rewrite Hb, faithful, <- Hh, String.eqb_refl.
        eexists. split; [reflexivity|]. simpl.
        split; [now apply insert_subseteq|].
        split; [now rewrite lookup_insert_eq|].
        intros q Hq. now apply lookup_insert_ne. }
    destruct Hstep as (w1 & -> & Hsub & Hnow & Hother).
    destruct (IH w1 (restored ++ [originalPath e]) failed) as (H1 & H2 & H3).
    + intros e' He'. destruct (Hcopy e') as (c' & Hb' & Hh' & Ht'); [now right|].
      exists c'. split; [|split; assumption].
      rewrite Hother; [exact Hb'|]. intros Heq.
      apply (Hsep e e'); [left|now right|now symmetry].
    + intros e1 e2 H1 H2. apply Hsep; now right.
    + intros e' c' He' Hc'.
      destruct (decide (originalPath e' = originalPath e)) as [Heq|Hne].
      * rewrite Heq in *. now rewrite <- Hnow.
      * rewrite Hother in Hc' by exact Hne. apply (Hagree e'); [now right|exact Hc'].
    + split; [exact H1|]. split; [rewrite H2, <- app_assoc; reflexivity|].
      intros e' He'. apply elem_of_cons in He' as [->|He']; [|now apply H3].
      pose proof (restoreLoop_step io entries w1 (restored ++ [originalPath e]) failed)
        as (Hsub' & _).
      destruct (target !! originalPath e) as [t|] eqn:Et; [|congruence].
      eapply lookup_weaken; eassumption.
Qed.

End RestoreFaithful.

Section RoundTrip.
Import FileSystem Safety Deletion FileExample.

Lemma deleteFiles_effect (io : IO) (w w' : World) (filesToDelete : list string)
    (cb : option (nat -> bool)) (out : result DeleteResults) :
  deleteFiles io w filesToDelete cb = (out, w') ->
  exists newly,
    trashed w' = trashed w ++ newly
    /\ NoDup newly
    /\ (forall q, files w' !! q
                  = if decide (q ∈ newly) then None else files w !! q)
    /\ (forall p, p ∈ newly -> p ∈ filesToDelete /\ is_Some (files w !! p))
    /\ manifests w' = manifests w
    /\ forall res, out = Ok res -> deleted res = newly.
Proof.
  unfold deleteFiles. destruct (io_trashLoads io).
  - intros Hloop.
    destruct (deleteLoop_effect io cb filesToDelete 0 _ w _ w' Hloop)
      as (newly & Htr & Hnd & Hfs & Hin & Hm & Hres).
    exists newly. repeat split; try assumption; try (apply Hin; assumption).
    intros res Hout. now destruct (Hres res Hout) as [Hd _].
  - intros [= <- <-]. exists []. rewrite app_nil_r.
    split; [reflexivity|]. split; [constructor|]. split; [reflexivity|].
    split; [intros p Hp; inversion Hp|]. split; [reflexivity|].
    intros res Hres. discriminate.
Qed.

(** X5.  Backup, deletion, restoration.  [createPreDeletionBackup] on a
    batch outside the fresh backup directory, then [deleteFiles] on the
    same batch (whatever its outcome: files trashed, trash failures, a
    throwing progress callback), then [restoreFromBackup] on the returned
    identifier: when [fs.copy] reproduces its source, the restoration
    reports success, reports as restored exactly the paths of the batch
    that existed, and every path outside the backup directory holds what
    it held before the backup. *)
Theorem backup_delete_restore_roundtrip (io : IO) (timestamp : Z)
    (w w1 w2 : World) (filesToDelete : list string) (backupId : string)
    (cb : option (nat -> bool)) (out : result DeleteResults) :
  (forall src dst content, io_copy io src dst content = Some content) ->
  (forall p s, p ∈ filesToDelete ->
               p <> join (backupPathOf io (backupIdOf timestamp)) s) ->
  createPreDeletionBackup io timestamp w filesToDelete = (Ok backupId, w1) ->
  deleteFiles io w1 filesToDelete cb = (out, w2) ->
  exists r w3,
    restoreFromBackup io w2 backupId = (Ok r, w3)
    /\ res_success r = true
    /\ res_restored r = filter (fun p => is_Some (files w !! p)) filesToDelete
    /\ forall q, (forall s, q <> join (backupPathOf io (backupIdOf timestamp)) s) ->
         files w3 !! q = files w !! q.
Proof.
  intros Hfaithful Hout Hbackup Hdelete.
  destruct (createPreDeletionBackup_inv io timestamp w w1 filesToDelete backupId
              Hout Hbackup) as (Hid & copied & Hman & Horig & Hall & Hfs & _).
  destruct (deleteFiles_effect io w1 w2 filesToDelete cb out Hdelete)
    as (newly & _ & _ & Hfs2 & Hin & Hman2 & _).
  rewrite Forall_forall in Hall.
  set (m := mkManifest backupId "pre-deletion" (length copied) copied true) in *.
  assert (Em : manifests w2 !! backupId = Some m)
    by (rewrite Hman2, Hman; apply lookup_insert_eq).
  destruct (restoreFromBackup_found io w2 backupId m Em)
    as (w3 & restored & failed & entry & El & Er).
  assert (Hnotnew : forall s, join (backupPathOf io (backupIdOf timestamp)) s ∉ newly).
  { intros s Hs. destruct (Hin _ Hs) as [Hb _]. now apply (Hout _ s Hb). }
  destruct (restoreLoop_faithful io Hfaithful (files w) copied w2 [] [])
    as (Hfailed & Hrestored & Hfiles).
  { intros e He. destruct (Hall e He) as (_ & Ho & (s & Hs) & c & c' & H1 & H2 & H3 & H4 & _).
    rewrite Hfaithful in H3. injection H3 as <-.
    exists c. split; [|split; assumption].
    rewrite Hfs2, Hs, decide_False by apply Hnotnew. now rewrite <- Hs. }
  { intros e e' He He' Heq.
    destruct (Hall e He) as (_ & Ho & _). destruct (Hall e' He') as (_ & _ & (s & Hs) & _).
    apply (Hout _ s Ho). now rewrite Heq. }
  { intros e c He Hc. destruct (Hall e He) as (_ & Ho & _).
    rewrite Hfs2 in Hc. destruct (decide _); [discriminate|].
    rewrite Hfs in Hc; [exact Hc|]. intros s. now apply Hout. }
  simpl in El. rewrite El in Hfailed, Hrestored, Hfiles.
  simpl in Hfailed, Hrestored, Hfiles. subst failed restored.
  eexists _, _. split; [exact Er|]. simpl.
  split; [reflexivity|]. split; [exact Horig|].
  intros q Hq.
  destruct (decide (q ∈ originalPath <$> copied)) as [Hqo|Hqo].
  - apply list_elem_of_fmap in Hqo as (e & -> & He). now apply Hfiles.
  - pose proof (restoreLoop_step io copied w2 [] []) as (_ & Hother & _).
    rewrite El in Hother. simpl in Hother. rewrite (Hother q Hqo), Hfs2.
    destruct (decide (q ∈ newly)) as [Hn|Hn]; [|now apply Hfs].
    exfalso. apply Hqo. rewrite Horig. destruct (Hin q Hn) as [Hb Hex].
    apply list_elem_of_filter. split; [|exact Hb]. rewrite <- Hfs; [exact Hex|exact Hq].
Qed.

End RoundTrip.

Section RoundTripExample.
Import FileSystem Safety Deletion FileExample.

Lemma backup_delete_restore_roundtrip_witness :
  exists w1 w2 out r w3,
    createPreDeletionBackup healthy 7 threeFiles ["a.jpg"; "b.jpg"]
    = (Ok "deletion_7", w1)
    /\ deleteFiles healthy w1 ["a.jpg"; "b.jpg"] None = (out, w2)
    /\ files w2 !! "a.jpg" = None
    /\ restoreFromBackup healthy w2 "deletion_7" = (Ok r, w3)
    /\ files w3 !! "a.jpg" = Some "JFIF-sunset".
Proof.
  set (w1 := snd (createPreDeletionBackup healthy 7 threeFiles ["a.jpg"; "b.jpg"])).
  set (w2 := snd (deleteFiles healthy w1 ["a.jpg"; "b.jpg"] None)).
  set (out := fst (deleteFiles healthy w1 ["a.jpg"; "b.jpg"] None)).
  assert (Hb : createPreDeletionBackup healthy 7 threeFiles ["a.jpg"; "b.jpg"]
               = (Ok "deletion_7", w1)) by (vm_compute; reflexivity).
  assert (Hd : deleteFiles healthy w1 ["a.jpg"; "b.jpg"] None = (out, w2))
    by apply surjective_pairing.
  destruct (backup_delete_restore_roundtrip healthy 7 threeFiles w1 w2
              ["a.jpg"; "b.jpg"] "deletion_7" None out)
    as (r & w3 & Er & _ & _ & Hfs).
  - intros src dst content. reflexivity.
  - intros p s Hp Heq.
    assert (Hpre : String.prefix "backup" p = true) by (rewrite Heq; reflexivity).
    repeat (apply elem_of_cons in Hp as [->|Hp]; [discriminate Hpre|]).
    inversion Hp.
  - exact Hb.
  - exact Hd.
  - exists w1, w2, out, r, w3. split; [exact Hb|]. split; [exact Hd|].
    split; [vm_compute; reflexivity|]. split; [exact Er|].
    rewrite Hfs; [vm_compute; reflexivity|]. intros s Heq.
    assert (Hpre : String.prefix "backup" "a.jpg" = true) by (rewrite Heq; reflexivity).
    discriminate Hpre.
Defined.

End RoundTripExample.

Section HandlerSafety.
Import FileSystem Safety Deletion FileExample.

(** X6.  The [delete-files] handler sends no file to the trash without a
    verified copy.  For a batch outside the fresh backup directory, and
    whether the handler resolves or rejects, every path it has handed to
    the trash is gone from its place, has an entry marked verified in the
    manifest stored under [deletion_<timestamp>], and the copy named by
    that entry is on disk with the digest the file had before the call.
    When the handler resolves, these paths are its [deleted] list and the
    identifier it returns is that of this manifest. *)
Theorem deleteFilesHandler_trashes_only_backed_up (io : IO) (timestamp : Z)
    (w : World) (filesToDelete : list string) (callbackThrows : nat -> bool) :
  (forall p s, p ∈ filesToDelete ->
               p <> join (backupPathOf io (backupIdOf timestamp)) s) ->
  let run := deleteFilesHandler io timestamp w filesToDelete callbackThrows in
  exists newly,
    trashed (snd run) = trashed w ++ newly
    /\ (forall result backupId, fst run = Ok (result, backupId) ->
          backupId = backupIdOf timestamp /\ deleted result = newly)
    /\ forall p, p ∈ newly ->
         files (snd run) !! p = None
         /\ exists m e c c',
              manifests (snd run) !! backupIdOf timestamp = Some m
              /\ e ∈ man_files m /\ originalPath e = p /\ verified e = true
              /\ files w !! p = Some c /\ entryHash e = io_hash io c
              /\ files (snd run) !! backupPath e = Some c'
              /\ io_hash io c' = io_hash io c.
Proof.
  intros Hout run. unfold deleteFilesHandler in run.
  destruct (createPreDeletionBackup io timestamp w filesToDelete)
    as [[backupId|msg] w1] eqn:Eb.
  - destruct (createPreDeletionBackup_inv io timestamp w w1 filesToDelete backupId
                Hout Eb) as (Hid & copied & Hman & Horig & Hall & Hfs & Htr & _).
    rewrite Forall_forall in Hall.
    destruct (negb _) eqn:Ever.
    + subst run. simpl. exists []. rewrite app_nil_r. split; [exact Htr|].
      split; [discriminate|]. intros p Hp. inversion Hp.
    + destruct (deleteFiles io w1 filesToDelete (Some callbackThrows))
        as [out w2] eqn:Ed.
      destruct (deleteFiles_effect io w1 w2 filesToDelete _ out Ed)
        as (newly & Htr2 & _ & Hfs2 & Hin & Hman2 & Hres).
      assert (Hw2 : snd run = w2) by (subst run; destruct out; reflexivity).
      rewrite Hw2. exists newly. split; [rewrite Htr2, Htr; reflexivity|]. split.
      { intros result id Hrun. subst run. destruct out as [res|m]; [|discriminate].
        simpl in Hrun. injection Hrun as <- <-. split; [exact Hid|].
        now apply Hres. }
      intros p Hp. destruct (Hin p Hp) as [Hb Hex].
      split; [rewrite Hfs2; now rewrite decide_True|].
      assert (Hpo : p ∈ originalPath <$> copied).
      { rewrite Horig. apply list_elem_of_filter. split; [|exact Hb].
        rewrite <- Hfs; [exact Hex|]. intros s. now apply Hout. }
      apply list_elem_of_fmap in Hpo as (e & -> & He).
      destruct (Hall e He) as (Hv & _ & (s & Hs) & c & c' & H1 & H2 & _ & H3 & H4).
      eexists _, e, c, c'. split.
      { rewrite Hman2, Hman, Hid. apply lookup_insert_eq. }
      simpl. split; [exact He|]. split; [reflexivity|]. split; [exact Hv|].
      split; [exact H1|]. split; [exact H3|]. split; [|exact H4].
      rewrite Hfs2, decide_False; [exact H2|].
      intros Hn. rewrite Hs in Hn. destruct (Hin _ Hn) as [Hbb _].
      now apply (Hout _ s Hbb).
  - subst run. simpl. exists []. rewrite app_nil_r. split.
    + unfold createPreDeletionBackup in Eb.
      pose proof (backupLoop_preserves io (backupPathOf io (backupIdOf timestamp))
                    filesToDelete [] w) as Hp.
      destruct (backupLoop io _ filesToDelete [] w) as [[copied|msg'] w1'];
        [discriminate|].
      injection Eb as _ <-. now destruct Hp as (Htr & _).
    + split; [discriminate|]. intros p Hp. inversion Hp.
Qed.

Lemma deleteFilesHandler_trashes_only_backed_up_witness :
  let run := deleteFilesHandler healthy 7 threeFiles ["a.jpg"; "b.jpg"]
                                (fun _ => false) in
  exists newly,
    newly = ["a.jpg"; "b.jpg"]
    /\ forall p, p ∈ newly -> files (snd run) !! p = None.
Proof.
  intros run.
  destruct (deleteFilesHandler_trashes_only_backed_up healthy 7 threeFiles
              ["a.jpg"; "b.jpg"] (fun _ => false))
    as (newly & Htr & _ & Hall).
  - intros p s Hp Heq.
    assert (Hpre : String.prefix "backup" p = true) by (rewrite Heq; reflexivity).
    repeat (apply elem_of_cons in Hp as [->|Hp]; [discriminate Hpre|]).
    inversion Hp.
  - exists newly. split.
    + vm_compute in Htr. now symmetry.
    + intros p Hp. now apply Hall.
Defined.

End HandlerSafety.

(* --------------------------------------------------------------------- *)
(** ** Further properties of the multi-provider detector                  *)
(* --------------------------------------------------------------------- *)

Section BucketFacts.
Context {A : Type}.

Lemma map_push_nonempty (k : string) (x : A) (m : list (string * list A)) :
  Forall (fun e => snd e <> []) m -> Forall (fun e => snd e <> []) (map_push k x m).
Proof.
  induction 1 as [|[k' l] m Hl Hm IH]; simpl.
  - apply Forall_cons. split; [discriminate|apply Forall_nil_2].
  - destruct (String.eqb k' k).
    + apply Forall_cons. split; [|exact Hm]. simpl. intros Hnil.
      apply app_eq_nil in Hnil as [_ Hnil]. discriminate.
    + apply Forall_cons. split; assumption.
Qed.

Lemma fill_nonempty (key : A -> string) (l : list A) (m : list (string * list A)) :
  Forall (fun e => snd e <> []) m -> Forall (fun e => snd e <> []) (fill key m l).
Proof.
  unfold fill. revert m. induction l as [|x l IH]; intros m Hm; simpl; [exact Hm|].
  apply IH. now apply map_push_nonempty.
Qed.

End BucketFacts.

Section HashBuckets.
Import Enterprise.

(** X7.  [groupByHash] partitions the images by their [hash] field: the keys
    of the map are distinct, every bucket is non-empty and holds exactly
    the images carrying its key, in array order, every image sits in the
    bucket of its own hash, and the buckets together are a rearrangement of
    the array (nothing dropped, nothing duplicated). *)
Theorem groupByHash_partitions (st : Store) (images : list Ref) :
  let hashMap := groupByHash st images in
  NoDup hashMap.*1
  /\ concat hashMap.*2 ≡ₚ images
  /\ (forall hash bucket, (hash, bucket) ∈ hashMap ->
        bucket <> []
        /\ bucket = filter (fun r => img_hash (deref st r) = hash) images)
  /\ (forall r, r ∈ images ->
        exists bucket, (img_hash (deref st r), bucket) ∈ hashMap /\ r ∈ bucket).
Proof.
  intros hashMap. unfold hashMap. rewrite groupByHash_groupBy.
  set (key := fun r : nat => img_hash (deref st r)).
  split; [apply (fill_keys_NoDup key); constructor|].
  split; [apply groupBy_partition|]. split.
  - intros hash bucket Hin. split.
    + pose proof (fill_nonempty key images [] (Forall_nil_2 _)) as Hne.
      rewrite Forall_forall in Hne. apply (Hne _ Hin).
    + now apply (groupBy_entry key).
  - intros r Hr. eexists. split.
    + apply (groupBy_has_entry key r). exact Hr.
    + apply list_elem_of_filter. split; [reflexivity|exact Hr].
Qed.

End HashBuckets.

Section HashSimilarityFacts.
Import Similarity.

Lemma countMatches_sym (h1 h2 : string) : countMatches h1 h2 = countMatches h2 h1.
Proof.
  revert h2. induction h1 as [|a h1 IH]; intros [|b h2]; simpl; try reflexivity.
  rewrite IH. destruct (Ascii.eqb_spec a b) as [->|Hne].
  - now rewrite Ascii.eqb_refl.
  - destruct (Ascii.eqb_spec b a) as [->|_]; [congruence|reflexivity].
Qed.

Lemma countMatches_le (h1 h2 : string) :
  (countMatches h1 h2 <= String.length h1)%nat.
Proof.
  revert h2. induction h1 as [|a h1 IH]; intros [|b h2]; simpl; try lia.
  specialize (IH h2). destruct (Ascii.eqb a b); lia.
Qed.

Lemma countMatches_full (h1 h2 : string) :
  String.length h1 = String.length h2 ->
  countMatches h1 h2 = String.length h1 -> h1 = h2.
Proof.
  revert h2. induction h1 as [|a h1 IH]; intros [|b h2]; simpl; try discriminate.
  - reflexivity.
  - intros [= Hlen] Hc. pose proof (countMatches_le h1 h2) as Hle.
    destruct (Ascii.eqb_spec a b) as [->|Hne]; [|lia].
    f_equal. apply IH; [exact Hlen|lia].
Qed.

Lemma js_div_nat_one (m n : nat) :
  (0 < n)%nat -> js_is (js_div_nat m n) 1 <-> m = n.
Proof.
  intros Hn. destruct n as [|n]; [lia|]. simpl. split.
  - intros Hq.
    assert (Hne : ~ (inject_Z (Z.of_nat (S n)) == 0)%Q)
      by (unfold Qeq; simpl; lia).
    assert (Hm : (inject_Z (Z.of_nat m) == inject_Z (Z.of_nat (S n)))%Q).
    { rewrite <- (Qmult_1_l (inject_Z (Z.of_nat (S n)))), <- Hq. field. exact Hne. }
    unfold Qeq in Hm. simpl in Hm. lia.
  - intros ->. apply Qmult_inv_r. unfold Qeq; simpl. lia.
Qed.

Lemma js_div_nat_range (m n : nat) (q : Q) :
  (m <= n)%nat -> js_div_nat m n = Num q -> (0 <= q <= 1)%Q.
Proof.
  intros Hle. destruct n as [|n]; simpl; [discriminate|]. intros [= <-].
  assert (Hpos : (0 < inject_Z (Z.of_nat (S n)))%Q)
    by (unfold Qlt; simpl; lia).
  split.
  - apply Qle_shift_div_l; [exact Hpos|]. rewrite Qmult_0_l.
    unfold Qle; simpl; lia.
  - apply Qle_shift_div_r; [exact Hpos|]. rewrite Qmult_1_l.
    rewrite <- Zle_Qle. lia.
Qed.

(** X8.  [calculateHashSimilarity] is symmetric; hashes of different
    lengths have similarity 0; two empty hashes give NaN (0 / 0); every
    other result is a fraction between 0 and 1; and for a non-empty hash
    the result is 1 exactly when the two hashes are equal. *)
Theorem calculateHashSimilarity_characterised (hash1 hash2 : string) :
  calculateHashSimilarity hash1 hash2 = calculateHashSimilarity hash2 hash1
  /\ (String.length hash1 <> String.length hash2 ->
      calculateHashSimilarity hash1 hash2 = Num 0)
  /\ (hash1 = "" -> hash2 = "" -> calculateHashSimilarity hash1 hash2 = NaN)
  /\ (forall q, calculateHashSimilarity hash1 hash2 = Num q -> (0 <= q <= 1)%Q)
  /\ (hash1 <> "" ->
      js_is (calculateHashSimilarity hash1 hash2) 1 <-> hash1 = hash2).
Proof.
  unfold calculateHashSimilarity.
  destruct (Nat.eqb_spec (String.length hash1) (String.length hash2)) as [Hlen|Hlen];
    simpl.
  - rewrite (proj2 (Nat.eqb_eq _ _) (eq_sym Hlen)). simpl.
    split; [now rewrite countMatches_sym, Hlen|].
    split; [intros Hne; contradiction|].
    split; [intros -> ->; reflexivity|].
    split; [intros q; apply js_div_nat_range, countMatches_le|].
    intros Hne.
    assert (Hpos : (0 < String.length hash1)%nat)
      by (destruct hash1; [congruence|simpl; lia]).
    rewrite js_div_nat_one by exact Hpos. split.
    + now apply countMatches_full.
    + intros <-. apply countMatches_same.
  - rewrite (proj2 (Nat.eqb_neq _ _) (fun H => Hlen (eq_sym H))). simpl.
    split; [reflexivity|]. split; [reflexivity|].
    split; [intros -> ->; contradiction|].
    split; [intros q [= <-]; split; discriminate|].
    intros Hne. split.
    + simpl. intros Hq. discriminate Hq.
    + intros ->. contradiction.
Qed.

End HashSimilarityFacts.

Section FlatImages.
Import Similarity SimilarityExample FlatExample.

Lemma sum_flat (v : nat) (bmp : Bitmap) (acc : Z) :
  Forall (fun p => red p = v) bmp ->
  foldl (fun s p => (s + Z.of_nat (red p))%Z) acc bmp
  = (acc + Z.of_nat v * Z.of_nat (length bmp))%Z.
Proof.
  intros Hflat. revert acc.
  induction Hflat as [|p bmp Hp Hflat IH]; intros acc; simpl; [lia|].
  rewrite IH, Hp. lia.
Qed.

Lemma averageOf_flat (v : nat) (bmp : Bitmap) :
  bmp <> [] -> Forall (fun p => red p = v) bmp ->
  (averageOf bmp == inject_Z (Z.of_nat v))%Q.
Proof.
  intros Hne Hflat. unfold averageOf. rewrite (sum_flat v) by exact Hflat.
  rewrite Z.add_0_l, inject_Z_mult. field.
  destruct bmp; [congruence|]. unfold Qeq; simpl; lia.
Qed.

Lemma hashBits_all_zero (average average' : Q) (bmp bmp' : Bitmap) (acc : string) :
  length bmp = length bmp' ->
  Forall (fun p => (inject_Z (Z.of_nat (red p)) <= average)%Q) bmp ->
  Forall (fun p => (inject_Z (Z.of_nat (red p)) <= average')%Q) bmp' ->
  foldl (fun hash p =>
           hash +:+ (if Qle_bool (inject_Z (Z.of_nat (red p))) average
                     then "0" else "1")) acc bmp
  = foldl (fun hash p =>
             hash +:+ (if Qle_bool (inject_Z (Z.of_nat (red p))) average'
                       then "0" else "1")) acc bmp'.
Proof.
  intros Hlen Hb. revert bmp' acc Hlen.
  induction Hb as [|p bmp Hp Hb IH]; intros [|p' bmp'] acc Hlen Hb';
    try discriminate; [reflexivity|]. simpl.
  apply Forall_cons in Hb' as [Hp' Hb'].
  rewrite (proj2 (Qle_bool_iff _ _) Hp), (proj2 (Qle_bool_iff _ _) Hp').
  apply IH; [now injection Hlen|exact Hb'].
Qed.

Lemma averageHash_flat (v v' : nat) (bmp bmp' : Bitmap) :
  bmp <> [] -> length bmp = length bmp' ->
  Forall (fun p => red p = v) bmp -> Forall (fun p => red p = v') bmp' ->
  averageHash bmp = averageHash bmp'.
Proof.
  intros Hne Hlen Hflat Hflat'.
  assert (Hne' : bmp' <> []) by (destruct bmp, bmp'; simpl in *; congruence).
  unfold averageHash, hashBits. apply hashBits_all_zero; [exact Hlen| |].
  - eapply Forall_impl; [exact Hflat|]. simpl. intros p ->.
    rewrite (averageOf_flat v) by assumption. apply Qle_refl.
  - eapply Forall_impl; [exact Hflat'|]. simpl. intros p ->.
    rewrite (averageOf_flat v') by assumption. apply Qle_refl.
Qed.

(** X9.  The average hash cannot tell single-colour images apart.  Two
    decodable images whose 8 x 8 greyscale reductions are each of one
    shade, whatever the two shades, get the same perceptual hash, so
    [calculatePerceptualHash] rates them 1. *)
Theorem flat_images_hash_alike (J : Jimp) (imagePath1 imagePath2 : string)
    (image1 image2 : Bitmap) (shade1 shade2 : nat) :
  jimp_read J imagePath1 = Some image1 ->
  jimp_read J imagePath2 = Some image2 ->
  jimp_greyscale J (jimp_resize J 8 8 image1) <> [] ->
  length (jimp_greyscale J (jimp_resize J 8 8 image1))
  = length (jimp_greyscale J (jimp_resize J 8 8 image2)) ->
  Forall (fun p => red p = shade1) (jimp_greyscale J (jimp_resize J 8 8 image1)) ->
  Forall (fun p => red p = shade2) (jimp_greyscale J (jimp_resize J 8 8 image2)) ->
  generatePerceptualHash J imagePath1 = generatePerceptualHash J imagePath2
  /\ js_is (calculatePerceptualHash J imagePath1 imagePath2) 1.
Proof.
  intros Hr1 Hr2 Hne Hlen Hf1 Hf2.
  assert (Hh : generatePerceptualHash J imagePath1 = generatePerceptualHash J imagePath2).
  { unfold generatePerceptualHash. rewrite Hr1, Hr2. f_equal.
    now apply (averageHash_flat shade1 shade2). }
  split; [exact Hh|]. unfold calculatePerceptualHash. rewrite <- Hh.
  unfold generatePerceptualHash. rewrite Hr1.
  apply calculateHashSimilarity_same. rewrite length_averageHash.
  destruct (jimp_greyscale J _); [congruence|simpl; lia].
Qed.

Lemma flat_images_hash_alike_witness :
  js_is (calculatePerceptualHash flatJimp "white.png" "black.png") 1.
Proof.
  refine (proj2 (flat_images_hash_alike flatJimp "white.png" "black.png"
                   white black 255 0 eq_refl eq_refl _ eq_refl _ _)).
  - discriminate.
  - vm_compute. repeat constructor.
  - vm_compute. repeat constructor.
Defined.

End FlatImages.

Section HistogramBins.
Import Similarity SimilarityExample.

Lemma bump_lookup (k j : nat) (bins : list nat) :
  (k < length bins)%nat ->
  bump k bins !! j
  = if decide (j = k) then S <$> bins !! j else bins !! j.
Proof.
  intros Hk. unfold bump.
  destruct (lookup_lt_is_Some_2 bins k Hk) as [v Hv]. rewrite Hv.
  destruct (decide (j = k)) as [->|Hne].
  - rewrite list_lookup_insert_eq by exact Hk. now rewrite Hv.
  - now rewrite list_lookup_insert_ne by congruence.
Qed.

Lemma bump_fold (channel : Pixel -> nat) (bmp : list Pixel) (bins : list nat) (k : nat) :
  Forall (fun p => (channel p < length bins)%nat) bmp ->
  (k < length bins)%nat ->
  foldl (fun b p => bump (channel p) b) bins bmp !! k
  = Some (nth k bins O + length (filter (fun p => channel p = k) bmp))%nat.
Proof.
  intros Hok. revert bins Hok.
  induction bmp as [|p bmp IH]; intros bins Hok Hk; cbn [foldl].
  - simpl. rewrite Nat.add_0_r. destruct (lookup_lt_is_Some_2 bins k Hk) as [v Hv].
    now rewrite (nth_lookup_Some _ _ _ _ Hv).
  - apply Forall_cons in Hok as [Hp Hok].
    assert (Hlen : length (bump (channel p) bins) = length bins) by apply length_bump.
    rewrite IH by (rewrite ?Hlen; assumption). f_equal.
    rewrite nth_lookup, bump_lookup by exact Hp.
    destruct (lookup_lt_is_Some_2 bins k Hk) as [v Hv].
    rewrite nth_lookup, Hv. rewrite filter_cons.
    destruct (decide (k = channel p)) as [->|Hne].
    + rewrite decide_True by reflexivity. simpl. lia.
    + rewrite decide_False by congruence. simpl. lia.
Qed.

Lemma histogramOf_channels (bmp : list Pixel) (h : Histogram) :
  let h' := foldl (fun h p =>
                     mkHistogram (bump (red p) (hist_r h))
                                 (bump (green p) (hist_g h))
                                 (bump (blue p) (hist_b h))) h bmp in
  hist_r h' = foldl (fun b p => bump (red p) b) (hist_r h) bmp
  /\ hist_g h' = foldl (fun b p => bump (green p) b) (hist_g h) bmp
  /\ hist_b h' = foldl (fun b p => bump (blue p) b) (hist_b h) bmp.
Proof.
  revert h. induction bmp as [|p bmp IH]; intros h; simpl; [repeat split|].
  apply IH.
Qed.

(** X10.  [generateHistogram] counts every pixel once per channel: each of
    the three arrays has 256 counters, counter [k] of a channel is the
    number of pixels whose byte in that channel is [k], and the counters of
    a channel add up to the number of pixels. *)
Theorem generateHistogram_counts_pixels (J : Jimp) (imagePath : string)
    (image : list Pixel) :
  jimp_read J imagePath = Some image ->
  Forall pixel_ok image ->
  exists histogram,
    generateHistogram J imagePath = Some histogram
    /\ length (hist_r histogram) = 256%nat
    /\ length (hist_g histogram) = 256%nat
    /\ length (hist_b histogram) = 256%nat
    /\ (forall k, (k < 256)%nat ->
          hist_r histogram !! k = Some (length (filter (fun p => red p = k) image))
          /\ hist_g histogram !! k
             = Some (length (filter (fun p => green p = k) image))
          /\ hist_b histogram !! k
             = Some (length (filter (fun p => blue p = k) image)))
    /\ sum_list (hist_r histogram) = length image
    /\ sum_list (hist_g histogram) = length image
    /\ sum_list (hist_b histogram) = length image.
Proof.
  intros Hread Hok. unfold generateHistogram. rewrite Hread.
  exists (histogramOf image). split; [reflexivity|].
  destruct (histogramOf_from image emptyHistogram Hok)
    as (L1 & L2 & L3 & S1 & S2 & S3); try reflexivity.
  fold (histogramOf image) in *.
  split; [exact L1|]. split; [exact L2|]. split; [exact L3|].
  split; [|split; [exact S1|split; [exact S2|exact S3]]].
  intros k Hk.
  destruct (histogramOf_channels image emptyHistogram) as (Hr & Hg & Hb).
  fold (histogramOf image) in Hr, Hg, Hb. rewrite Hr, Hg, Hb.
  change (hist_r emptyHistogram) with (replicate 256 O).
  change (hist_g emptyHistogram) with (replicate 256 O).
  change (hist_b emptyHistogram) with (replicate 256 O).
  assert (Hz : nth k (replicate 256 O) O = O).
  { rewrite nth_lookup, lookup_replicate_2 by exact Hk. reflexivity. }
  assert (Hl : length (replicate 256 O) = 256%nat) by apply length_replicate.
  repeat split.
  - rewrite bump_fold; rewrite ?Hl; [now rewrite Hz| |exact Hk].
    eapply Forall_impl; [exact Hok|]. intros p (H1 & _ & _). exact H1.
  - rewrite bump_fold; rewrite ?Hl; [now rewrite Hz| |exact Hk].
    eapply Forall_impl; [exact Hok|]. intros p (_ & H2 & _). exact H2.
  - rewrite bump_fold; rewrite ?Hl; [now rewrite Hz| |exact Hk].
    eapply Forall_impl; [exact Hok|]. intros p (_ & _ & H3). exact H3.
Qed.

Lemma generateHistogram_counts_pixels_witness :
  exists histogram,
    generateHistogram exampleJimp "a.png" = Some histogram
    /\ hist_r histogram !! 200%nat = Some 1%nat
    /\ sum_list (hist_b histogram) = 2%nat.
Proof.
  destruct (generateHistogram_counts_pixels exampleJimp "a.png" twoPixels eq_refl)
    as (h & Hh & _ & _ & _ & Hbins & _ & _ & Hsum).
  - repeat constructor.
  - exists h. split; [exact Hh|]. split; [|exact Hsum].
    now destruct (Hbins 200%nat ltac:(lia)) as [-> _].
Defined.

End HistogramBins.

Section ConsensusBounds.
Import Consensus Enterprise EnterpriseExample.

(** A weighted average lies between the bounds of what is averaged. *)
Lemma weighted_sum_between (field : Vote -> Q) (votes : list Vote) (lo hi : Q) :
  (forall v, v ∈ votes -> (lo <= field v <= hi)%Q) ->
  (lo * Qsum (map (fun v => weightOf (provider v)) votes)
   <= Qsum (map (fun v => field v * weightOf (provider v)) votes))%Q
  /\ (Qsum (map (fun v => field v * weightOf (provider v)) votes)
      <= hi * Qsum (map (fun v => weightOf (provider v)) votes))%Q.
Proof.
  induction votes as [|v votes IH]; intros Hall; simpl.
  - split; rewrite Qmult_0_r; apply Qle_refl.
  - destruct IH as [IHlo IHhi]; [intros u Hu; apply Hall; now right|].
    destruct (Hall v) as [Hlo Hhi]; [left|].
    pose proof (weightOf_pos (provider v)) as Hw.
    assert (H1 : (lo * weightOf (provider v) <= field v * weightOf (provider v))%Q)
      by (apply Qmult_le_compat_r; [exact Hlo|now apply Qlt_le_weak]).
    assert (H2 : (field v * weightOf (provider v) <= hi * weightOf (provider v))%Q)
      by (apply Qmult_le_compat_r; [exact Hhi|now apply Qlt_le_weak]).
    split.
    + rewrite Qmult_plus_distr_r. now apply Qplus_le_compat.
    + rewrite Qmult_plus_distr_r. now apply Qplus_le_compat.
Qed.

Lemma weightedAverage_between (field : Vote -> Q) (votes : list Vote) (lo hi : Q) :
  votes <> [] ->
  (forall v, v ∈ votes -> (lo <= field v <= hi)%Q) ->
  (lo <= weightedAverage field votes <= hi)%Q.
Proof.
  intros Hne Hall. unfold weightedAverage.
  pose proof (totalWeight_pos votes Hne) as Hpos.
  destruct (weighted_sum_between field votes lo hi Hall) as [Hlo Hhi].
  split.
  - now apply Qle_shift_div_l.
  - now apply Qle_shift_div_r.
Qed.

Lemma providerVote_confidence (api : option (string -> string -> option Q))
    (name : string) (conf : Q) (p1 p2 : string) (v : Vote) :
  v ∈ providerVote api name conf p1 p2 -> confidence v = conf.
Proof.
  unfold providerVote. destruct api as [compare|]; [|intros H; inversion H].
  destruct (compare p1 p2); [|intros H; inversion H].
  intros H. apply list_elem_of_singleton in H. now subst v.
Qed.

Lemma consensus_is_average (P : Providers) (p1 p2 : string) :
  let r := getMultiProviderConsensus P p1 p2 in
  (cons_similarity r == weightedAverage similarity (collectVotes P p1 p2))%Q
  /\ (cons_confidence r == weightedAverage confidence (collectVotes P p1 p2))%Q
  /\ individualResults r = collectVotes P p1 p2
  /\ primaryProvider r = primaryOf (collectVotes P p1 p2).
Proof.
  cbv zeta. unfold getMultiProviderConsensus.
  pose proof (collectVotes_nonempty P p1 p2) as Hne.
  pose proof (accumulate_sums (collectVotes P p1 p2)) as Hacc.
  destruct (collectVotes P p1 p2) as [|v votes] eqn:Hvotes; [congruence|].
  destruct (accumulate (v :: votes)) as [[s c] w].
  destruct Hacc as (Hs & Hc & Hw).
  cbn [individualResults cons_similarity cons_confidence primaryProvider].
  unfold weightedAverage. split; [now rewrite Hs, Hw|].
  split; [now rewrite Hc, Hw|]. split; reflexivity.
Qed.

(** X11.  The consensus confidence always lies between 0.8 and 0.95, the
    confidences of the local vote and of the most trusted provider.  The
    consensus similarity lies between any bounds that hold for the
    similarities of all the votes (so it is within 0 and 1 when they are).
    When no vision provider contributes a vote, the confidence is 0.8, the
    primary provider is ['local'] and the pair does not pass the match
    test, whatever the local methods report. *)
Theorem getMultiProviderConsensus_bounds (P : Providers) (p1 p2 : string) :
  let r := getMultiProviderConsensus P p1 p2 in
  (8 # 10 <= cons_confidence r <= 95 # 100)%Q
  /\ (forall lo hi,
        (forall v, v ∈ individualResults r -> (lo <= similarity v <= hi)%Q) ->
        (lo <= cons_similarity r <= hi)%Q)
  /\ (noProviderSucceeds P p1 p2 ->
      (cons_confidence r == 8 # 10)%Q /\ primaryProvider r = "local"
      /\ isMatch r = false).
Proof.
  intros r. destruct (consensus_is_average P p1 p2) as (Hs & Hc & Hi & Hp).
  fold r in Hs, Hc, Hi, Hp.
  pose proof (collectVotes_nonempty P p1 p2) as Hne.
  assert (Hconf : (8 # 10 <= cons_confidence r <= 95 # 100)%Q).
  { rewrite Hc. apply weightedAverage_between; [exact Hne|].
    intros v Hv. unfold collectVotes in Hv.
    rewrite !elem_of_app in Hv.
    destruct Hv as [Hv|[Hv|[Hv|Hv]]].
    - rewrite (providerVote_confidence _ _ _ _ _ _ Hv). split; discriminate.
    - rewrite (providerVote_confidence _ _ _ _ _ _ Hv). split; discriminate.
    - rewrite (providerVote_confidence _ _ _ _ _ _ Hv). split; discriminate.
    - apply list_elem_of_singleton in Hv. subst v. simpl. split; discriminate. }
  split; [exact Hconf|]. split.
  - intros lo hi Hall. rewrite Hs. apply weightedAverage_between; [exact Hne|].
    rewrite <- Hi. exact Hall.
  - intros (Hg & Haz & Haws).
    assert (Hvotes : collectVotes P p1 p2
                     = [mkVote "local-advanced"
                               (fst (compareWithAdvancedLocal P p1 p2))
                               (snd (compareWithAdvancedLocal P p1 p2))]).
    { unfold collectVotes. now rewrite Hg, Haz, Haws. }
    assert (Hc8 : (cons_confidence r == 8 # 10)%Q).
    { rewrite Hc, Hvotes. unfold weightedAverage. simpl. vm_compute. reflexivity. }
    split; [exact Hc8|]. split; [now rewrite Hp, Hvotes|].
    unfold isMatch. apply andb_false_iff. right.
    destruct (Qle_bool _ _) eqn:Hq; [|reflexivity].
    apply Qle_bool_iff in Hq. rewrite Hc8 in Hq. vm_compute in Hq. now destruct Hq.
Qed.

End ConsensusBounds.

Section NoProvider.
Import Consensus Enterprise EnterpriseExample.

Variable E : Env.
Variable st : Store.
Hypothesis quiet : forall a b, env_callbackThrows E a b = false.
Hypothesis unanswered :
  forall p1 p2, noProviderSucceeds (env_providers E) p1 p2.

Lemma local_vote_never_matches (p1 p2 : string) :
  isMatch (getMultiProviderConsensus (env_providers E) p1 p2) = false.
Proof using unanswered.
  unfold isMatch. apply andb_false_iff. right.
  destruct (consensus_is_average (env_providers E) p1 p2) as (_ & Hc & _).
  destruct (unanswered p1 p2) as (Hg & Haz & Haws).
  destruct (Qle_bool _ _) eqn:Hq; [|reflexivity].
  apply Qle_bool_iff in Hq. rewrite Hc in Hq.
  unfold collectVotes in Hq. rewrite Hg, Haz, Haws in Hq.
  vm_compute in Hq. now destruct Hq.
Qed.

Lemma scanLater_absorbs_nothing (seed : Ref) (later : list (nat * nat))
    (s : gset nat * list nat) :
  scanLater E st seed later s = s.
Proof using quiet unanswered.
  revert s. induction later as [|[j c] later IH]; intros s; simpl; [reflexivity|].
  destruct (decide (j ∈ fst s)); [apply IH|].
  unfold comparePair. rewrite quiet, local_vote_never_matches. apply IH.
Qed.

Lemma seedLoop_adds_nothing (items : list (nat * nat)) (processed : gset nat)
    (groups : list Group) :
  seedLoop E st items processed groups = groups.
Proof using quiet unanswered.
  revert processed groups.
  induction items as [|[i cur] items IH]; intros processed groups; simpl;
    [reflexivity|].
  destruct (decide (i ∈ processed)); [apply IH|].
  rewrite scanLater_absorbs_nothing. simpl. apply IH.
Qed.

End NoProvider.

Section ExactOnly.
Import Consensus Enterprise EnterpriseExample.

Lemma split_inv (m : list (string * list nat)) (acc : list Group * list nat)
    (g : Group) :
  g ∈ fst (foldl splitStep acc m) ->
  g ∈ fst acc
  \/ exists k l, (k, l) ∈ m /\ g = exactGroup l /\ (2 <= length l)%nat.
Proof.
  revert acc. induction m as [|[k l] m IH]; intros [gs us]; simpl; [now left|].
  intros Hg. apply IH in Hg as [Hg|(k' & l' & Hin & Hg & Hl)].
  - unfold splitStep in Hg. simpl in Hg.
    destruct (1 <? length l)%nat eqn:Hlen; simpl in Hg; [|now left].
    apply elem_of_app in Hg as [Hg|Hg]; [now left|].
    apply list_elem_of_singleton in Hg. right. exists k, l.
    split; [left|]. split; [exact Hg|]. apply Nat.ltb_lt in Hlen. lia.
  - right. exists k', l'. split; [now right|]. split; assumption.
Qed.

(** X12.  Without a vision provider the detector reports exact duplicates
    only.  When no provider contributes a vote for any pair, the progress
    callback does not throw and the analysis backup is written,
    [detectDuplicates] returns only groups of type ['exact'], with
    similarity 1 and confidence ['absolute'], whose images all carry the
    same [hash]: the local methods alone never form a group. *)
Theorem detectDuplicates_exact_only_without_providers (E : Env) (st : Store) :
  (forall p1 p2, noProviderSucceeds (env_providers E) p1 p2) ->
  (forall a b, env_callbackThrows E a b = false) ->
  env_analysisBackupOk E = true ->
  exists st' groups,
    detectDuplicates E st = Ok (st', groups)
    /\ forall g, g ∈ groups ->
         grp_type g = "exact" /\ grp_confidence g = "absolute"
         /\ (grp_similarity g == 1)%Q
         /\ exists hash, forall r, r ∈ grp_images g ->
              img_hash (deref st r) = hash.
Proof.
  intros Hnone Hquiet Hbackup. unfold detectDuplicates. rewrite Hbackup.
  pose proof (collectGroups_sizes E st) as Hbig.
  destruct (rankImagesWithML_spec (env_now E) (collectGroups E st) st)
    as (st1 & gs1 & Er & _ & HF & _).
  { eapply Forall_impl; [exact Hbig|]. exact big_nonempty. }
  rewrite Er.
  destruct (verifySafetyBeforeReturn_ok gs1 st1) as [st2 Hv].
  { eapply Forall_impl; [exact (ranked_sizes _ _ HF Hbig)|]. exact big_nonempty. }
  exists st2, (withSafetyVerified <$> gs1). split; [exact Hv|].
  intros g Hg. apply list_elem_of_fmap in Hg as (g1 & -> & Hg1).
  destruct (Forall2_elem_r _ _ _ _ HF Hg1) as (g0 & Hg0 & Hranked).
  destruct (ranked_fields _ _ Hranked) as (Ht & Hs & Hc & Hp). simpl.
  assert (Hexact : exists k l, (k, l) ∈ groupByHash st (seq 0 (length st))
                               /\ g0 = exactGroup l).
  { unfold collectGroups in Hg0. rewrite splitHashGroups_unfold in Hg0.
    pose proof (split_inv (groupByHash st (seq 0 (length st))) ([], []) g0) as Hinv.
    destruct (foldl splitStep _ _) as [dg ui]. simpl in Hinv.
    assert (Hdg : g0 ∈ dg).
    { destruct (1 <? length ui)%nat; [|exact Hg0].
      unfold detectWithEnterpriseAI in Hg0.
      rewrite (seedLoop_adds_nothing E st Hquiet Hnone) in Hg0.
      now rewrite app_nil_r in Hg0. }
    destruct (Hinv Hdg) as [Hnil|(k & l & Hin & -> & _)]; [inversion Hnil|].
    now exists k, l. }
  destruct Hexact as (k & l & Hin & ->).
  rewrite Ht, Hs, Hc. simpl. split; [reflexivity|]. split; [reflexivity|].
  split; [reflexivity|]. exists k. intros r Hr.
  rewrite Hp in Hr. simpl in Hr. rewrite groupByHash_groupBy in Hin.
  apply (groupBy_entry (fun r => img_hash (deref st r))) in Hin. subst l.
  now apply list_elem_of_filter in Hr as [Hr _].
Qed.

Lemma detectDuplicates_exact_only_without_providers_witness :
  exists st' groups,
    detectDuplicates (quiet localOnly) mixedFolder = Ok (st', groups)
    /\ forall g, g ∈ groups -> grp_type g = "exact".
Proof.
  destruct (detectDuplicates_exact_only_without_providers (quiet localOnly) mixedFolder)
    as (st' & groups & Ed & Hall).
  - intros p1 p2. repeat split.
  - reflexivity.
  - reflexivity.
  - exists st', groups. split; [exact Ed|]. intros g Hg. now apply Hall.
Defined.

End ExactOnly.

Section ScoreBounds.
Import Enterprise EnterpriseExample.

Lemma countSeparators_sanity (p : string) : (1 <= pathDepth p)%nat.
Proof. unfold pathDepth. lia. Qed.

Lemma depth_term_bounds (p : string) :
  (1 # 10 <= Qmin (inject_Z (Z.of_nat (pathDepth p)) / 10) 1 <= 1)%Q.
Proof.
  assert (Hd : (1 <= inject_Z (Z.of_nat (pathDepth p)))%Q).
  { change 1%Q with (inject_Z 1). rewrite <- Zle_Qle.
    pose proof (countSeparators_sanity p). lia. }
  revert Hd. generalize (inject_Z (Z.of_nat (pathDepth p))). intros d Hd.
  unfold Qdiv. change (/ 10)%Q with (1 # 10)%Q.
  destruct (Q.min_spec (d * (1 # 10)) 1) as [[H ->]|[H ->]]; split; lra.
Qed.

(** X13.  [calculateQualityScore] is NaN exactly when the format of the
    record, in lower case, is [constructor] or [__proto__], the names of the
    members the score table inherits.  For every other record it is a
    number that never exceeds 1, and for a record with non-negative
    resolution and size it is at least 0.06: the format term contributes at
    least 0.05 and the path-depth term at least 0.01.  (Scores are exact
    rationals.) *)
Theorem calculateQualityScore_bounds (now : Z) (image : Image) :
  (calculateQualityScore now image = NaN
   <-> namesInheritedMember (img_format image) = true)
  /\ (namesInheritedMember (img_format image) = false ->
      exists score,
        calculateQualityScore now image = Num score
        /\ (score <= 1)%Q
        /\ ((0 <= img_resolution image)%Z -> (0 <= img_size image)%Z ->
            (6 # 100 <= score)%Q)).
Proof.
  destruct (formatScore_cases (img_format image))
    as [[Hin Hf]|(Hout & fs & Hf & Hfs & _)].
  - rewrite (calculateQualityScore_nan now image Hf), Hin.
    split; [split; reflexivity|discriminate].
  - rewrite (calculateQualityScore_number now image fs Hf), Hout.
    split; [split; discriminate|]. intros _. eexists. split; [reflexivity|].
    split; [apply Q.le_min_r|].
    intros Hres Hsize. apply Q.min_glb; [|discriminate].
    pose proof (depth_term_bounds (img_path image)) as [Hd _].
    assert (Hr : (0 <= inject_Z (img_resolution image))%Q)
      by (change 0%Q with (inject_Z 0); now rewrite <- Zle_Qle).
    assert (Hs : (0 <= inject_Z (img_size image))%Q)
      by (change 0%Q with (inject_Z 0); now rewrite <- Zle_Qle).
    pose proof (Q.le_max_l 0 (1 - daysSinceModified now image / 365)) as Hm.
    revert Hfs Hd Hr Hs Hm.
    generalize (Qmin (inject_Z (Z.of_nat (pathDepth (img_path image))) / 10) 1).
    generalize (Qmax 0 (1 - daysSinceModified now image / 365)).
    generalize (inject_Z (img_resolution image)).
    generalize (inject_Z (img_size image)).
    intros sz r m d Hfs Hd Hr Hs Hm.
    unfold Qdiv. change (/ 10000000)%Q with (1 # 10000000)%Q.
    change (/ inject_Z (5 * 1024 * 1024))%Q with (1 # 5242880)%Q.
    destruct (Q.min_spec (sz * (1 # 5242880)) 1) as [[H ->]|[H ->]]; lra.
Qed.

Lemma calculateQualityScore_bounds_witness :
  (exists score,
      calculateQualityScore now0 (photo "/pics/a.jpg" "h1" (daysAgo 20))
      = Num score
      /\ (6 # 100 <= score <= 1)%Q)
  /\ calculateQualityScore now0
       (mkImage "/pics/a" "a" 1048576 (daysAgo 20) (Some "Constructor") "h1"
                2000000 None false None)
     = NaN.
Proof.
  split.
  - destruct (calculateQualityScore_bounds now0
                (photo "/pics/a.jpg" "h1" (daysAgo 20)))
      as [_ Hnum].
    destruct (Hnum eq_refl) as (score & Es & Hle & Hge).
    exists score. split; [exact Es|]. split; [|exact Hle].
    apply Hge; vm_compute; discriminate.
  - apply (calculateQualityScore_bounds now0). reflexivity.
Defined.

(** X14.  [calculateQualityScore] is monotone: of two records with the
    same format and the same path depth, one that has at least the
    resolution, at least the byte size and at least the modification time
    of the other never scores lower (scores computed at the same clock
    reading, as exact rationals).  Either both scores are numbers, the
    second at least the first, or the common format names an inherited
    member and both scores are NaN. *)
Theorem calculateQualityScore_monotone (now : Z) (a b : Image) :
  img_format a = img_format b ->
  pathDepth (img_path a) = pathDepth (img_path b) ->
  (img_resolution a <= img_resolution b)%Z ->
  (img_size a <= img_size b)%Z ->
  (img_modified a <= img_modified b)%Z ->
  (exists sa sb,
      calculateQualityScore now a = Num sa
      /\ calculateQualityScore now b = Num sb
      /\ (sa <= sb)%Q)
  \/ (calculateQualityScore now a = NaN /\ calculateQualityScore now b = NaN).
Proof.
  intros Hfmt Hdepth Hres Hsize Hmod.
  destruct (formatScore (img_format a)) as [fs|] eqn:Ef.
  2:{ right. split; apply calculateQualityScore_nan; [exact Ef|].
      now rewrite <- Hfmt. }
  left. eexists _, _.
  split; [exact (calculateQualityScore_number now a fs Ef)|].
  split; [apply (calculateQualityScore_number now b fs); now rewrite <- Hfmt|].
  apply Q.min_le_compat_r.
  unfold daysSinceModified. rewrite Hdepth.
  assert (Hr : (inject_Z (img_resolution a) <= inject_Z (img_resolution b))%Q)
    by now rewrite <- Zle_Qle.
  assert (Hs : (inject_Z (img_size a) <= inject_Z (img_size b))%Q)
    by now rewrite <- Zle_Qle.
  assert (Hm : (inject_Z (now - img_modified b) <= inject_Z (now - img_modified a))%Q)
    by (rewrite <- Zle_Qle; lia).
  revert Hr Hs Hm.
  generalize fs.
  generalize (Qmin (inject_Z (Z.of_nat (pathDepth (img_path b))) / 10) 1).
  generalize (inject_Z (now - img_modified a)) (inject_Z (now - img_modified b)).
  generalize (inject_Z (img_resolution a)) (inject_Z (img_resolution b)).
  generalize (inject_Z (img_size a)) (inject_Z (img_size b)).
  intros sa sb ra rb ta tb d f Hr Hs Hm.
  unfold Qdiv. change (/ 10000000)%Q with (1 # 10000000)%Q.
  change (/ inject_Z (5 * 1024 * 1024))%Q with (1 # 5242880)%Q.
  change (/ inject_Z msPerDay)%Q with (1 # 86400000)%Q.
  change (/ 365)%Q with (1 # 365)%Q.
  assert (H1 : (Qmin (sa * (1 # 5242880)) 1 <= Qmin (sb * (1 # 5242880)) 1)%Q)
    by (apply Q.min_le_compat_r; lra).
  assert (H2 : (Qmax 0 (1 - ta * (1 # 86400000) * (1 # 365))
                <= Qmax 0 (1 - tb * (1 # 86400000) * (1 # 365)))%Q)
    by (apply Q.max_le_compat_l; lra).
  revert H1 H2.
  generalize (Qmin (sa * (1 # 5242880)) 1) (Qmin (sb * (1 # 5242880)) 1).
  generalize (Qmax 0 (1 - ta * (1 # 86400000) * (1 # 365)))
             (Qmax 0 (1 - tb * (1 # 86400000) * (1 # 365))).
  intros. lra.
Qed.

Lemma calculateQualityScore_monotone_witness :
  js_le (calculateQualityScore now0 (photo "/pics/a.jpg" "h1" (daysAgo 20)))
        (calculateQualityScore now0 (photo "/pics/b.jpg" "h2" (daysAgo 10))).
Proof.
  assert (Hres : (2000000 <= 2000000)%Z) by lia.
  assert (Hsize : (1048576 <= 1048576)%Z) by lia.
  assert (Hmod : (daysAgo 20 <= daysAgo 10)%Z) by (vm_compute; discriminate).
  destruct (calculateQualityScore_monotone now0
              (photo "/pics/a.jpg" "h1" (daysAgo 20))
              (photo "/pics/b.jpg" "h2" (daysAgo 10))
              eq_refl eq_refl Hres Hsize Hmod)
    as [(sa & sb & Ea & Eb & Hle)|[Ea _]].
  - rewrite Ea, Eb. exact Hle.
  - vm_compute in Ea. discriminate.
Defined.

End ScoreBounds.

Section SortedByKey.
Context {A : Type} (key : A -> Q) (cmp : A -> A -> Q).

(** The comparator [(a, b) => key(b) - key(a)] sorts by decreasing key. *)
Lemma sort_insert_sorted (x : A) (l : list A) :
  (forall y, y ∈ l -> (cmp x y == key y - key x)%Q) ->
  StronglySorted (fun a b => (key b <= key a)%Q) l ->
  StronglySorted (fun a b => (key b <= key a)%Q) (sort_insert cmp x l).
Proof.
  intros Hcmp Hs. induction Hs as [|y l Hs IH Hy]; simpl.
  - repeat constructor.
  - destruct (Qle_bool (cmp x y) 0) eqn:Hq.
    + apply Qle_bool_iff in Hq. rewrite (Hcmp y) in Hq by left.
      constructor; [now constructor|].
      apply Forall_cons. split; [lra|].
      eapply Forall_impl; [exact Hy|]. simpl. intros z Hz. lra.
    + assert (Hlt : ~ (cmp x y <= 0)%Q)
        by (intros H; apply Qle_bool_iff in H; congruence).
      rewrite (Hcmp y) in Hlt by left.
      constructor.
      * apply IH. intros z Hz. apply Hcmp. now right.
      * apply Forall_forall. intros z Hz.
        rewrite sort_insert_perm in Hz.
        apply elem_of_cons in Hz as [->|Hz].
        -- lra.
        -- rewrite Forall_forall in Hy. now apply Hy.
Qed.

Lemma js_sort_sorted (l : list A) :
  (forall a b, a ∈ l -> b ∈ l -> (cmp a b == key b - key a)%Q) ->
  StronglySorted (fun a b => (key b <= key a)%Q) (js_sort cmp l).
Proof.
  induction l as [|x l IH]; intros Hcmp; simpl; [constructor|].
  apply sort_insert_sorted.
  - intros y Hy. rewrite js_sort_perm in Hy. apply Hcmp; [left|now right].
  - apply IH. intros a b Ha Hb. apply Hcmp; now right.
Qed.

Lemma sorted_on_members (R R' : A -> A -> Prop) (l : list A) :
  (forall a b, a ∈ l -> b ∈ l -> R a b -> R' a b) ->
  StronglySorted R l -> StronglySorted R' l.
Proof.
  intros HR Hs. induction Hs as [|x l Hs IH Hx]; constructor.
  - apply IH. intros a b Ha Hb. apply HR; now right.
  - apply Forall_forall. intros b Hb. rewrite Forall_forall in Hx.
    apply HR; [left|now right|now apply Hx].
Qed.

End SortedByKey.

Section RankingOrder.
Import Enterprise EnterpriseExample.

Lemma score_update_flag (now : Z) (f : Image -> Image) (r x : Ref) (st : Store) :
  (forall i, calculateQualityScore now (f i) = calculateQualityScore now i) ->
  calculateQualityScore now (deref (update f r st) x)
  = calculateQualityScore now (deref st x).
Proof.
  intros Hf. destruct (decide (r = x)) as [->|Hne]; [|now rewrite deref_update_ne].
  destruct (le_lt_dec (length st) x) as [Hge|Hlt].
  - now rewrite deref_update_out.
  - rewrite deref_update_eq by assumption. apply Hf.
Qed.

(** One ranking step on images whose scores are numbers: the group comes
    out ordered by decreasing score. *)
Lemma rankGroup_sorted (now : Z) (st : Store) (g : Group) :
  grp_images g <> [] ->
  Forall (fun r => (r < length st)%nat) (grp_images g) ->
  Forall (fun r => exists score, calculateQualityScore now (deref st r) = Num score)
         (grp_images g) ->
  exists st' first rest,
    rankGroup now st g = Ok (st', withImages (first :: rest) g)
    /\ first :: rest ≡ₚ grp_images g
    /\ StronglySorted
         (fun a b => js_le (calculateQualityScore now (deref st b))
                           (calculateQualityScore now (deref st a)))
         (first :: rest)
    /\ length st' = length st
    /\ (forall x, calculateQualityScore now (deref st' x)
                  = calculateQualityScore now (deref st x))
    /\ (forall x, x ∈ grp_images g ->
          img_qualityScore (deref st' x)
          = Some (calculateQualityScore now (deref st x)))
    /\ img_recommended (deref st' first) = true
    /\ img_recommendationReason (deref st' first) = Some "Highest quality score".
Proof.
  intros Hne Hvalid Hnum.
  destruct (rankGroup_ok now st g Hne) as (first & rest & Es & Er).
  rewrite Forall_forall in Hvalid. rewrite Forall_forall in Hnum.
  set (st1 := scoreImages now (grp_images g) st) in *.
  assert (Hscore : forall x, x ∈ grp_images g ->
            img_qualityScore (deref st1 x)
            = Some (calculateQualityScore now (deref st x))).
  { intros x Hx. apply qualityScore_scoreImages; [now apply Hvalid|now left]. }
  assert (Hperm : first :: rest ≡ₚ grp_images g)
    by (rewrite <- Es; apply js_sort_perm).
  assert (Hfirst : (first < length st1)%nat).
  { unfold st1. rewrite length_scoreImages. apply Hvalid. rewrite <- Hperm. left. }
  eexists _, first, rest. split; [exact Er|]. split; [exact Hperm|]. split.
  { rewrite <- Es.
    apply (sorted_on_members
             (fun a b => (js_value (calculateQualityScore now (deref st b))
                          <= js_value (calculateQualityScore now (deref st a)))%Q)).
    - intros a b Ha Hb Hab. rewrite js_sort_perm in Ha, Hb.
      destruct (Hnum a Ha) as [qa Ea]. destruct (Hnum b Hb) as [qb Eb].
      rewrite Ea, Eb in *. exact Hab.
    - apply (js_sort_sorted
               (fun r => js_value (calculateQualityScore now (deref st r)))).
      intros a b Ha Hb. unfold byQualityDesc.
      rewrite (Hscore a Ha), (Hscore b Hb).
      destruct (Hnum a Ha) as [qa ->]. destruct (Hnum b Hb) as [qb ->].
      reflexivity. }
  split; [rewrite !length_update; apply length_scoreImages|]. split.
  { intros x. rewrite !score_update_flag by reflexivity.
    apply score_deref_scoreImages. }
  split.
  { intros x Hx. rewrite <- (Hscore x Hx).
    destruct (decide (first = x)) as [->|Hn].
    - rewrite deref_update_eq by (now rewrite length_update).
      rewrite deref_update_eq by exact Hfirst. reflexivity.
    - now rewrite !deref_update_ne by exact Hn. }
  split.
  - rewrite deref_update_eq by (now rewrite length_update).
    rewrite deref_update_eq by exact Hfirst. reflexivity.
  - rewrite deref_update_eq by (now rewrite length_update). reflexivity.
Qed.

(** X15.  [rankImagesWithML] orders every group by decreasing quality
    score, for images whose format does not name an inherited member of the
    score table ([constructor], [__proto__]), so that every score is a
    number.  Each group comes out as a rearrangement of its images in which
    no image is followed by one with a higher score, so the first image has
    the highest score of the group, and that first image is marked
    recommended.  (The score of an image is what [calculateQualityScore]
    gives for the record as it was scanned; scores are exact rationals, all
    computed at one clock reading.) *)
Theorem rankImagesWithML_orders_by_score (now : Z) (groups : list Group)
    (st : Store) :
  Forall (fun g => grp_images g <> []
                   /\ Forall (fun r => (r < length st)%nat) (grp_images g)
                   /\ Forall (fun r => namesInheritedMember
                                          (img_format (deref st r)) = false)
                             (grp_images g)) groups ->
  exists st' groups',
    rankImagesWithML now st groups = Ok (st', groups')
    /\ Forall2 (fun g g' =>
         exists first rest,
           g' = withImages (first :: rest) g
           /\ first :: rest ≡ₚ grp_images g
           /\ StronglySorted
                (fun a b => js_le (calculateQualityScore now (deref st b))
                                  (calculateQualityScore now (deref st a)))
                (first :: rest)
           /\ (forall r, r ∈ grp_images g ->
                 js_le (calculateQualityScore now (deref st r))
                       (calculateQualityScore now (deref st first)))
           /\ img_recommended (deref st' first) = true)
       groups groups'.
Proof.
  intros Hall.
  cut (forall st0,
         length st0 = length st ->
         (forall x, calculateQualityScore now (deref st0 x)
                    = calculateQualityScore now (deref st x)) ->
         exists st' groups',
           rankImagesWithML now st0 groups = Ok (st', groups')
           /\ length st' = length st
           /\ (forall x, img_recommended (deref st0 x) = true ->
                         img_recommended (deref st' x) = true)
           /\ Forall2 (fun g g' =>
                exists first rest,
                  g' = withImages (first :: rest) g
                  /\ first :: rest ≡ₚ grp_images g
                  /\ StronglySorted
                       (fun a b => js_le (calculateQualityScore now (deref st b))
                                         (calculateQualityScore now (deref st a)))
                       (first :: rest)
                  /\ (forall r, r ∈ grp_images g ->
                        js_le (calculateQualityScore now (deref st r))
                              (calculateQualityScore now (deref st first)))
                  /\ img_recommended (deref st' first) = true)
              groups groups').
  { intros Hgen. destruct (Hgen st eq_refl (fun _ => eq_refl))
      as (st' & groups' & Er & _ & _ & HF).
    now exists st', groups'. }
  induction Hall as [|g groups (Hne & Hvalid & Hfmt) Hall IH]; intros st0 Hlen Hsc.
  - exists st0, []. simpl. split; [reflexivity|]. split; [exact Hlen|].
    split; [auto|constructor].
  - assert (Hnum : Forall (fun r => exists score,
                             calculateQualityScore now (deref st r) = Num score)
                          (grp_images g)).
    { eapply Forall_impl; [exact Hfmt|]. simpl. intros r Hr.
      now apply calculateQualityScore_is_number. }
    destruct (rankGroup_sorted now st0 g Hne) as
      (st1 & first & rest & Er & Hperm & Hsorted & Hl1 & Hs1 & _ & Hrec & _).
    { now rewrite Hlen. }
    { eapply Forall_impl; [exact Hnum|]. simpl. intros r Hr. now rewrite Hsc. }
    destruct (IH st1) as (st2 & groups' & Er2 & Hl2 & Hkeep & HF).
    { congruence. }
    { intros x. now rewrite Hs1. }
    exists st2, (withImages (first :: rest) g :: groups'). simpl.
    rewrite Er, Er2. split; [reflexivity|]. split; [exact Hl2|]. split.
    { intros x Hx. apply Hkeep.
      destruct (rankGroup_spec now st0 g Hne) as (st1' & f' & r' & Er' & _ & _ & Hflag).
      rewrite Er in Er'. injection Er' as <- _.
      specialize (Hflag x). unfold flag in Hflag. rewrite Hflag.
      destruct (decide _); [reflexivity|exact Hx]. }
    constructor; [|exact HF].
    exists first, rest. split; [reflexivity|]. split; [exact Hperm|].
    assert (Hsorted' : StronglySorted
              (fun a b => js_le (calculateQualityScore now (deref st b))
                                (calculateQualityScore now (deref st a)))
              (first :: rest)).
    { eapply sorted_on_members; [|exact Hsorted].
      intros a b _ _. cbv beta. now rewrite !Hsc. }
    split; [exact Hsorted'|]. split.
    + intros r Hr. rewrite <- Hperm in Hr.
      apply elem_of_cons in Hr as [->|Hr].
      * rewrite Forall_forall in Hnum.
        destruct (Hnum first) as [q ->]; [rewrite <- Hperm; left|].
        apply Qle_refl.
      * apply StronglySorted_inv in Hsorted' as [_ Hf].
        rewrite Forall_forall in Hf. now apply Hf.
    + now apply Hkeep.
Qed.

Lemma rankImagesWithML_orders_by_score_witness :
  exists st' groups',
    rankImagesWithML now0 twoRecentCopies [exactGroup [0; 1]%nat] = Ok (st', groups')
    /\ map grp_images groups' = [[1; 0]%nat].
Proof.
  destruct (rankImagesWithML_orders_by_score now0 [exactGroup [0; 1]%nat]
              twoRecentCopies) as (st' & groups' & Er & _).
  - repeat constructor; simpl; (discriminate || lia).
  - exists st', groups'. split; [exact Er|].
    assert (Ec : map grp_images
                   (match rankImagesWithML now0 twoRecentCopies
                            [exactGroup [0; 1]%nat] with
                    | Ok (_, gs) => gs
                    | Throw _ => []
                    end) = [[1; 0]%nat]) by (vm_compute; reflexivity).
    rewrite Er in Ec. exact Ec.
Defined.

End RankingOrder.

Section SafetyPass.
Import Enterprise EnterpriseExample.

Lemma flag_unrecommend (images : list Ref) (st : Store) (x : Ref) :
  flag (unrecommend images st) x
  = if decide (x ∈ images /\ (x < length st)%nat) then false else flag st x.
Proof.
  unfold unrecommend. revert st.
  induction images as [|r images IH]; intros st; cbn [foldl].
  - destruct (decide _) as [[H _]|_]; [inversion H|reflexivity].
  - rewrite IH, length_update, flag_setRecommended.
    destruct (decide (x ∈ images /\ (x < length st)%nat)) as [[Hin Hlt]|Hn].
    + rewrite decide_True; [reflexivity|]. split; [now right|exact Hlt].
    + destruct (decide (x = r /\ (r < length st)%nat)) as [[-> Hlt]|Hn'].
      * rewrite decide_True; [reflexivity|]. split; [left|exact Hlt].
      * rewrite decide_False; [reflexivity|]. intros [Hin Hlt].
        apply elem_of_cons in Hin as [->|Hin]; [apply Hn'|apply Hn]; now split.
Qed.

Lemma length_unrecommend (images : list Ref) (st : Store) :
  length (unrecommend images st) = length st.
Proof.
  unfold unrecommend. revert st.
  induction images as [|r images IH]; intros st; simpl; [reflexivity|].
  now rewrite IH, length_update.
Qed.

Lemma recommendedCount_zero (st : Store) (images : list Ref) :
  recommendedCount st images = O -> Forall (fun r => flag st r = false) images.
Proof.
  unfold recommendedCount, flag. induction images as [|r images IH]; [constructor|].
  rewrite filter_cons. destruct (decide _) as [Ht|Hf]; [discriminate|].
  intros Hc. constructor; [|now apply IH].
  now destruct (img_recommended (deref st r)).
Qed.

Lemma recommendedCount_pos (st : Store) (images : list Ref) :
  (0 < recommendedCount st images)%nat ->
  exists r, r ∈ images /\ flag st r = true.
Proof.
  unfold recommendedCount, flag. intros Hc.
  destruct (filter _ images) as [|r l] eqn:Ef; [simpl in Hc; lia|].
  assert (Hr : r ∈ filter (fun r => img_recommended (deref st r) = true) images)
    by (rewrite Ef; left).
  apply list_elem_of_filter in Hr as [Hr Hin]. now exists r.
Qed.

Lemma recommendedCount_short (st : Store) (images : list Ref) :
  (recommendedCount st images < length images)%nat ->
  exists r, r ∈ images /\ flag st r = false.
Proof.
  unfold recommendedCount, flag. induction images as [|r images IH]; simpl; [lia|].
  rewrite filter_cons. destruct (decide _) as [Ht|Hf]; simpl.
  - intros Hc. destruct IH as (x & Hx & Hfx); [lia|].
    exists x. split; [now right|exact Hfx].
  - intros _. exists r. split; [left|]. now destruct (img_recommended (deref st r)).
Qed.

(** One iteration of the safety pass on a group of distinct images. *)
Lemma verifyGroup_balance (st : Store) (g : Group) :
  NoDup (grp_images g) -> grp_images g <> [] ->
  Forall (fun r => (r < length st)%nat) (grp_images g) ->
  exists st',
    verifyGroup st g = Ok (st', withSafetyVerified g)
    /\ length st' = length st
    /\ (forall x, x ∉ grp_images g -> flag st' x = flag st x)
    /\ (exists r, r ∈ grp_images g /\ flag st' r = true)
    /\ ((2 <= length (grp_images g))%nat ->
        exists r, r ∈ grp_images g /\ flag st' r = false).
Proof.
  intros Hnd Hne Hvalid. unfold verifyGroup. cbv zeta.
  destruct (grp_images g) as [|first others] eqn:Eg; [congruence|].
  apply NoDup_cons in Hnd as [Hfirst Hnd].
  apply Forall_cons in Hvalid as [Hvf Hvo].
  set (count := recommendedCount st (first :: others)).
  destruct (Nat.eqb_spec count 0) as [Hz|Hnz].
  - assert (Hle : (length (first :: others) <=? count)%nat = false)
      by (apply Nat.leb_gt; rewrite Hz; simpl; lia).
    rewrite Hle. eexists. split; [reflexivity|].
    pose proof (recommendedCount_zero st _ Hz) as Hall.
    apply Forall_cons in Hall as [_ Hall]. rewrite Forall_forall in Hall.
    split; [now rewrite !length_update|]. split.
    { intros x Hx. rewrite flag_update_other by reflexivity.
      rewrite flag_setRecommended, decide_False; [reflexivity|].
      intros [-> _]. apply Hx. left. }
    split.
    { exists first. split; [left|]. rewrite flag_update_other by reflexivity.
      rewrite flag_setRecommended, decide_True; [reflexivity|]. now split. }
    intros Hlen. destruct others as [|r others']; [simpl in Hlen; lia|].
    exists r. split; [right; left|].
    rewrite flag_update_other by reflexivity.
    rewrite flag_setRecommended, decide_False.
    + apply Hall. left.
    + intros [-> _]. apply Hfirst. left.
  - destruct (Nat.leb_spec (length (first :: others)) count) as [Hle|Hgt].
    + eexists. split; [reflexivity|].
      split; [now rewrite length_unrecommend, length_update|]. split.
      { intros x Hx. rewrite flag_unrecommend, decide_False.
        - rewrite flag_setRecommended, decide_False; [reflexivity|].
          intros [-> _]. apply Hx. left.
        - intros [Hin _]. apply Hx. now right. }
      split.
      { exists first. split; [left|]. rewrite flag_unrecommend, decide_False.
        - rewrite flag_setRecommended, decide_True; [reflexivity|]. now split.
        - intros [Hin _]. contradiction. }
      intros Hlen. destruct others as [|r others']; [simpl in Hlen; lia|].
      exists r. split; [right; left|].
      rewrite flag_unrecommend, decide_True; [reflexivity|].
      split; [left|]. rewrite length_update.
      apply Forall_cons in Hvo as [Hr _]. exact Hr.
    + eexists. split; [reflexivity|]. split; [reflexivity|].
      split; [reflexivity|]. split.
      * apply recommendedCount_pos. fold count. lia.
      * intros _. apply recommendedCount_short. exact Hgt.
Qed.

(** X16.  [verifySafetyBeforeReturn] on groups of existing images, no
    image held twice: the pass never throws, marks every group as
    verified and leaves the groups and the flags of all other images as
    they are; afterwards every group has at least one recommended image,
    and every group of two or more images has at least one image that is
    not recommended. *)
Theorem verifySafetyBeforeReturn_some_not_all (st : Store) (groups : list Group) :
  NoDup (members groups) ->
  Forall (fun g => grp_images g <> []
                   /\ Forall (fun r => (r < length st)%nat) (grp_images g)) groups ->
  exists st',
    verifySafetyBeforeReturn st groups = Ok (st', withSafetyVerified <$> groups)
    /\ (forall x, x ∉ members groups ->
          img_recommended (deref st' x) = img_recommended (deref st x))
    /\ forall g, g ∈ groups ->
         (exists r, r ∈ grp_images g /\ img_recommended (deref st' r) = true)
         /\ ((2 <= length (grp_images g))%nat ->
             exists r, r ∈ grp_images g /\ img_recommended (deref st' r) = false).
Proof.
  intros Hnd Hall. revert st Hnd Hall.
  induction groups as [|g groups IH]; intros st Hnd Hall.
  - exists st. split; [reflexivity|]. split; [reflexivity|].
    intros g Hg. inversion Hg.
  - apply Forall_cons in Hall as [[Hne Hvalid] Hall].
    unfold members in Hnd. simpl in Hnd. fold (members groups) in Hnd.
    apply NoDup_app in Hnd as (Hndg & Hdisj & Hndr).
    destruct (verifyGroup_balance st g Hndg Hne Hvalid)
      as (st1 & Ev & Hl1 & Hout1 & Hsome & Hnotall).
    destruct (IH st1 Hndr) as (st2 & Ev2 & Hout2 & Hrest).
    { eapply Forall_impl; [exact Hall|]. simpl. intros g' [H1 H2].
      split; [exact H1|]. now rewrite Hl1. }
    exists st2. simpl. rewrite Ev, Ev2. split; [reflexivity|]. split.
    { intros x Hx. rewrite Hout2.
      - apply Hout1. intros Hin. apply Hx. unfold members. simpl.
        apply elem_of_app. now left.
      - intros Hin. apply Hx. unfold members. simpl. apply elem_of_app. now right. }
    intros g' Hg'. apply elem_of_cons in Hg' as [->|Hg']; [|now apply Hrest].
    split.
    + destruct Hsome as (r & Hr & Hf). exists r. split; [exact Hr|].
      rewrite Hout2; [exact Hf|]. now apply Hdisj.
    + intros Hlen. destruct (Hnotall Hlen) as (r & Hr & Hf).
      exists r. split; [exact Hr|]. rewrite Hout2; [exact Hf|]. now apply Hdisj.
Qed.

Lemma verifySafetyBeforeReturn_some_not_all_witness :
  exists st',
    verifySafetyBeforeReturn threeCopiesOneFlagged [exactGroup [0; 1; 2]%nat]
    = Ok (st', [withSafetyVerified (exactGroup [0; 1; 2]%nat)])
    /\ exists r, r ∈ [0; 1; 2]%nat /\ img_recommended (deref st' r) = true.
Proof.
  destruct (verifySafetyBeforeReturn_some_not_all threeCopiesOneFlagged
              [exactGroup [0; 1; 2]%nat]) as (st' & Ev & _ & Hg).
  - unfold members. simpl. repeat constructor; set_solver.
  - repeat constructor; simpl; (discriminate || lia).
  - exists st'. split; [exact Ev|].
    destruct (Hg (exactGroup [0; 1; 2]%nat)) as [Hsome _]; [left|exact Hsome].
Defined.

End SafetyPass.

Section DetectReturns.
Import Consensus Enterprise EnterpriseFields EnterpriseExample.

Lemma scannedFields_update (f : Image -> Image) (r x : Ref) (st : Store) :
  (forall i, scannedFields (f i) = scannedFields i) ->
  scannedFields (deref (update f r st) x) = scannedFields (deref st x).
Proof.
  intros Hf. destruct (decide (r = x)) as [->|Hne]; [|now rewrite deref_update_ne].
  destruct (le_lt_dec (length st) x) as [Hge|Hlt].
  - now rewrite deref_update_out.
  - rewrite deref_update_eq by assumption. apply Hf.
Qed.

Lemma scannedFields_scoreImages (now : Z) (images : list Ref) (st : Store) (x : Ref) :
  scannedFields (deref (scoreImages now images st) x) = scannedFields (deref st x).
Proof.
  unfold scoreImages. revert st.
  induction images as [|r images IH]; intros st; simpl; [reflexivity|].
  rewrite IH. now apply scannedFields_update.
Qed.

Lemma scannedFields_unrecommend (images : list Ref) (st : Store) (x : Ref) :
  scannedFields (deref (unrecommend images st) x) = scannedFields (deref st x).
Proof.
  unfold unrecommend. revert st.
  induction images as [|r images IH]; intros st; simpl; [reflexivity|].
  rewrite IH. now apply scannedFields_update.
Qed.

Lemma rankImagesWithML_fields (now : Z) (groups groups' : list Group)
    (st st' : Store) :
  rankImagesWithML now st groups = Ok (st', groups') ->
  forall x, scannedFields (deref st' x) = scannedFields (deref st x).
Proof.
  revert st st' groups'.
  induction groups as [|g groups IH]; intros st st' groups'; simpl.
  - intros [= <- _] x. reflexivity.
  - destruct (rankGroup now st g) as [[st1 g1]|m] eqn:Er; [|discriminate].
    destruct (rankImagesWithML now st1 groups) as [[st2 gs]|m] eqn:Er2;
      [|discriminate].
    intros [= <- _] x. rewrite (IH _ _ _ Er2).
    unfold rankGroup in Er. cbv zeta in Er.
    destruct (js_sort _ _) as [|first rest]; [discriminate|].
    injection Er as <- _.
    rewrite !scannedFields_update by reflexivity.
    apply scannedFields_scoreImages.
Qed.

Lemma verifySafetyBeforeReturn_fields (groups groups' : list Group)
    (st st' : Store) :
  verifySafetyBeforeReturn st groups = Ok (st', groups') ->
  forall x, scannedFields (deref st' x) = scannedFields (deref st x).
Proof.
  revert st st' groups'.
  induction groups as [|g groups IH]; intros st st' groups'; simpl.
  - intros [= <- _] x. reflexivity.
  - destruct (verifyGroup st g) as [[st1 g1]|m] eqn:Ev; [|discriminate].
    destruct (verifySafetyBeforeReturn st1 groups) as [[st2 gs]|m] eqn:Ev2;
      [|discriminate].
    intros [= <- _] x. rewrite (IH _ _ _ Ev2).
    unfold verifyGroup in Ev. cbv zeta in Ev.
    destruct (grp_images g) as [|first others].
    + destruct (_ <=? _)%nat; [discriminate|]. now injection Ev as <- _.
    + destruct (_ =? _)%nat; destruct (_ <=? _)%nat; injection Ev as <- _;
        rewrite ?scannedFields_unrecommend;
        rewrite ?scannedFields_update by reflexivity; reflexivity.
Qed.

Lemma seedLoop_group_types (E : Env) (st : Store) (items : list (nat * nat))
    (processed : gset nat) (groups : list Group) :
  Forall (fun g => grp_type g = "exact" \/ grp_type g = "ai-detected") groups ->
  Forall (fun g => grp_type g = "exact" \/ grp_type g = "ai-detected")
         (seedLoop E st items processed groups).
Proof.
  revert processed groups.
  induction items as [|[i cur] items IH]; intros processed groups Hg; simpl;
    [exact Hg|].
  destruct (decide (i ∈ processed)); [now apply IH|].
  apply IH. destruct (1 <? length _)%nat; [|exact Hg].
  apply Forall_app. split; [exact Hg|].
  apply Forall_cons. split; [now right|apply Forall_nil_2].
Qed.

Lemma collectGroups_types (E : Env) (st : Store) :
  Forall (fun g => grp_type g = "exact" \/ grp_type g = "ai-detected")
         (collectGroups E st).
Proof.
  unfold collectGroups. rewrite splitHashGroups_unfold.
  assert (Hs : forall m acc,
             Forall (fun g => grp_type g = "exact" \/ grp_type g = "ai-detected")
                    (fst acc) ->
             Forall (fun g => grp_type g = "exact" \/ grp_type g = "ai-detected")
                    (fst (foldl splitStep acc m))).
  { induction m as [|[k l] m IH]; intros [gs us] Hg; simpl; [exact Hg|].
    apply IH. unfold splitStep. simpl.
    destruct (1 <? length l)%nat; simpl; [|exact Hg].
    apply Forall_app. split; [exact Hg|].
    apply Forall_cons. split; [now left|apply Forall_nil_2]. }
  specialize (Hs (groupByHash st (seq 0 (length st))) ([], []) (Forall_nil_2 _)).
  destruct (foldl splitStep _ _) as [dg ui]. simpl in Hs.
  destruct (1 <? length ui)%nat; [|exact Hs].
  apply Forall_app. split; [exact Hs|].
  apply seedLoop_group_types. apply Forall_nil_2.
Qed.

(** X17.  [detectDuplicates] rejects when the analysis backup cannot be
    written and at no other point: once the backup is written it returns,
    whatever the providers answer and whether or not the progress callback
    throws.  Every group returned has at least two images, is marked
    [safetyVerified] and is of type ['exact'] or ['ai-detected'].  The run
    assigns only [qualityScore], [recommended] and [recommendationReason]:
    path, name, size, modification time, format, hash and resolution of
    every image record are left as scanned. *)
Theorem detectDuplicates_returns (E : Env) (st : Store) :
  (env_analysisBackupOk E = false -> exists m, detectDuplicates E st = Throw m)
  /\ (env_analysisBackupOk E = true ->
      exists st' groups,
        detectDuplicates E st = Ok (st', groups)
        /\ length st' = length st
        /\ (forall x, scannedFields (deref st' x) = scannedFields (deref st x))
        /\ forall g, g ∈ groups ->
             (2 <= length (grp_images g))%nat
             /\ grp_safetyVerified g = true
             /\ (grp_type g = "exact" \/ grp_type g = "ai-detected")).
Proof.
  unfold detectDuplicates. split; intros Hb; rewrite Hb; [eauto|].
  pose proof (collectGroups_sizes E st) as Hbig.
  destruct (rankImagesWithML_spec (env_now E) (collectGroups E st) st)
    as (st1 & gs1 & Er & Hl1 & HF & _).
  { eapply Forall_impl; [exact Hbig|]. exact big_nonempty. }
  rewrite Er.
  pose proof (ranked_sizes _ _ HF Hbig) as Hbig1.
  destruct (verifySafetyBeforeReturn_ok gs1 st1) as [st2 Hv].
  { eapply Forall_impl; [exact Hbig1|]. exact big_nonempty. }
  exists st2, (withSafetyVerified <$> gs1). split; [exact Hv|].
  assert (Hl2 : length st2 = length st1).
  { clear -Hv. revert st1 st2 Hv.
    generalize (withSafetyVerified <$> gs1). intros out.
    revert out. induction gs1 as [|g gs IH]; intros out st1 st2; simpl.
    - now intros [= <- _].
    - destruct (verifyGroup st1 g) as [[st1' g1]|m] eqn:Ev; [|discriminate].
      destruct (verifySafetyBeforeReturn st1' gs) as [[st2' gs']|m] eqn:Ev2;
        [|discriminate].
      intros [= <- _]. rewrite (IH _ _ _ Ev2).
      unfold verifyGroup in Ev. cbv zeta in Ev.
      destruct (grp_images g) as [|first others].
      + destruct (_ <=? _)%nat; [discriminate|]. now injection Ev as <- _.
      + destruct (_ =? _)%nat; destruct (_ <=? _)%nat; injection Ev as <- _;
          rewrite ?length_unrecommend, ?length_update; reflexivity. }
  split; [congruence|]. split.
  { intros x. rewrite (verifySafetyBeforeReturn_fields _ _ _ _ Hv).
    apply (rankImagesWithML_fields _ _ _ _ _ Er). }
  intros g Hg. apply list_elem_of_fmap in Hg as (g1 & -> & Hg1).
  rewrite Forall_forall in Hbig1. split; [apply (Hbig1 g1 Hg1)|].
  split; [reflexivity|]. simpl.
  destruct (Forall2_elem_r _ _ _ _ HF Hg1) as (g0 & Hg0 & Hranked).
  destruct (ranked_fields _ _ Hranked) as (Ht & _). rewrite Ht.
  pose proof (collectGroups_types E st) as Hty. rewrite Forall_forall in Hty.
  now apply Hty.
Qed.

End DetectReturns.

(* --------------------------------------------------------------------- *)
(** ** Feature comparison and key points                                  *)
(* --------------------------------------------------------------------- *)

Section JaccardFacts.
Import Features.

Lemma nat_ratio_range (m n : nat) :
  (m <= n)%nat -> (0 < n)%nat ->
  (0 <= inject_Z (Z.of_nat m) / inject_Z (Z.of_nat n) <= 1)%Q.
Proof.
  intros Hle Hn.
  assert (Hpos : (0 < inject_Z (Z.of_nat n))%Q)
    by (change 0%Q with (inject_Z 0); rewrite <- Zlt_Qlt; lia).
  split.
  - apply Qle_shift_div_l; [exact Hpos|]. rewrite Qmult_0_l.
    change 0%Q with (inject_Z 0). rewrite <- Zle_Qle. lia.
  - apply Qle_shift_div_r; [exact Hpos|]. rewrite Qmult_1_l.
    rewrite <- Zle_Qle. lia.
Qed.

Lemma nat_ratio_one (m n : nat) :
  (0 < n)%nat ->
  (inject_Z (Z.of_nat m) / inject_Z (Z.of_nat n) == 1)%Q <-> m = n.
Proof.
  intros Hn.
  assert (Hne : ~ (inject_Z (Z.of_nat n) == 0)%Q)
    by (unfold Qeq; simpl; lia).
  split.
  - intros Hq.
    assert (Hm : (inject_Z (Z.of_nat m) == inject_Z (Z.of_nat n))%Q).
    { rewrite <- (Qmult_1_l (inject_Z (Z.of_nat n))), <- Hq. field. exact Hne. }
    unfold Qeq in Hm. simpl in Hm. lia.
  - intros ->. now apply Qmult_inv_r.
Qed.

Lemma nat_ratio_zero (m n : nat) :
  (0 < n)%nat ->
  (inject_Z (Z.of_nat m) / inject_Z (Z.of_nat n) == 0)%Q <-> m = O.
Proof.
  intros Hn.
  assert (Hne : ~ (inject_Z (Z.of_nat n) == 0)%Q)
    by (unfold Qeq; simpl; lia).
  split.
  - intros Hq.
    assert (Hm : (inject_Z (Z.of_nat m) == 0)%Q).
    { rewrite <- (Qmult_0_l (inject_Z (Z.of_nat n))), <- Hq. field. exact Hne. }
    unfold Qeq in Hm. simpl in Hm. lia.
  - intros ->. unfold Qdiv. now rewrite Qmult_0_l.
Qed.

Lemma length_zero_nil {A : Type} (l : list A) : (length l =? 0)%nat = true <-> l = [].
Proof. rewrite Nat.eqb_eq. apply length_zero_iff_nil. Qed.

(** The sets the comparison works on. *)
Lemma intersection_is_meet (array1 array2 : list string) :
  filter (fun x => x ∈ (list_to_set array2 : gset string))
         (list_to_set array1 : gset string)
  = (list_to_set array1 ∩ list_to_set array2 : gset string).
Proof. apply set_eq. intros x. rewrite elem_of_filter. set_solver. Qed.

Lemma calculateArraySimilarity_facts (array1 array2 : list string) :
  calculateArraySimilarity array1 array2 = calculateArraySimilarity array2 array1
  /\ (0 <= calculateArraySimilarity array1 array2 <= 1)%Q
  /\ ((calculateArraySimilarity array1 array2 == 1)%Q
      <-> forall x, x ∈ array1 <-> x ∈ array2)
  /\ ((calculateArraySimilarity array1 array2 == 0)%Q
      <-> (array1 <> [] \/ array2 <> [])
          /\ forall x, x ∈ array1 -> x ∉ array2).
Proof.
  unfold calculateArraySimilarity. rewrite !intersection_is_meet.
  destruct array1 as [|a1 l1], array2 as [|a2 l2]; simpl.
  - split; [reflexivity|]. split; [split; discriminate|]. split.
    + split; [intros _ x; reflexivity|reflexivity].
    + split; [discriminate|]. intros [[H|H] _]; congruence.
  - split; [reflexivity|]. split; [split; discriminate|]. split.
    + split; [discriminate|]. intros H. exfalso.
      assert (Ha : a2 ∈ a2 :: l2) by left. apply H in Ha. inversion Ha.
    + split; [|reflexivity]. intros _. split; [now right|].
      intros x Hx. inversion Hx.
  - split; [reflexivity|]. split; [split; discriminate|]. split.
    + split; [discriminate|]. intros H. exfalso.
      assert (Ha : a1 ∈ a1 :: l1) by left. apply H in Ha. inversion Ha.
    + split; [|reflexivity]. intros _. split; [now left|].
      intros x _ Hx. inversion Hx.
  - set (set1 := ({[a1]} ∪ list_to_set l1 : gset string)).
    set (set2 := ({[a2]} ∪ list_to_set l2 : gset string)).
    assert (H1 : forall x, x ∈ set1 <-> x ∈ a1 :: l1)
      by (intros x; unfold set1; rewrite elem_of_cons; set_solver).
    assert (H2 : forall x, x ∈ set2 <-> x ∈ a2 :: l2)
      by (intros x; unfold set2; rewrite elem_of_cons; set_solver).
    assert (Hsub : set1 ∩ set2 ⊆ set1 ∪ set2) by set_solver.
    assert (Hpos : (0 < size (set1 ∪ set2))%nat).
    { destruct (size (set1 ∪ set2)) eqn:Es; [|lia].
      apply size_empty_inv in Es. exfalso.
      assert (Ha : a1 ∈ set1 ∪ set2) by (apply elem_of_union; left; apply H1; left).
      rewrite Es in Ha. set_solver. }
    split; [now rewrite (comm_L (∩) set2 set1), (comm_L (∪) set2 set1)|].
    split; [apply nat_ratio_range; [now apply subseteq_size|exact Hpos]|].
    split.
    + rewrite nat_ratio_one by exact Hpos. split.
      * intros Hsize x. rewrite <- H1, <- H2.
        assert (Heq : set1 ∩ set2 = set1 ∪ set2)
          by (apply set_subseteq_size_eq; [exact Hsub|lia]).
        split; intros Hx.
        -- assert (Hu : x ∈ set1 ∪ set2) by set_solver.
           rewrite <- Heq in Hu. set_solver.
        -- assert (Hu : x ∈ set1 ∪ set2) by set_solver.
           rewrite <- Heq in Hu. set_solver.
      * intros Hsame. f_equal. apply set_eq. intros x.
        rewrite elem_of_intersection, elem_of_union, !H1, !H2.
        specialize (Hsame x). tauto.
    + rewrite nat_ratio_zero by exact Hpos. rewrite size_empty_iff. split.
      * intros Hempty. split; [now left|]. intros x Hx1 Hx2.
        assert (Hx : x ∈ set1 ∩ set2)
          by (apply elem_of_intersection; split; [now apply H1|now apply H2]).
        rewrite Hempty in Hx. set_solver.
      * intros [_ Hdisj] x. split; [|set_solver].
        intros Hx. apply elem_of_intersection in Hx as [Hx1 Hx2].
        exfalso. apply (Hdisj x); [now apply H1|now apply H2].
Qed.

Lemma list_to_set_same (l l' : list string) :
  (forall x, x ∈ l <-> x ∈ l') ->
  (list_to_set l : gset string) = list_to_set l'
  /\ (length l =? 0)%nat = (length l' =? 0)%nat.
Proof.
  intros Hsame. split.
  - apply set_eq. intros x. rewrite !elem_of_list_to_set. apply Hsame.
  - destruct l as [|a l], l' as [|a' l']; simpl; try reflexivity.
    + assert (Ha : a' ∈ a' :: l') by left. apply Hsame in Ha. inversion Ha.
    + assert (Ha : a ∈ a :: l) by left. apply Hsame in Ha. inversion Ha.
Qed.

(** X18.  [calculateArraySimilarity] is the Jaccard index of the two
    arrays seen as sets.  It depends only on which names occur, not on
    their order or repetition; it is symmetric and lies between 0 and 1; it
    is 1 exactly when the two arrays hold the same names (two empty arrays
    included), and 0 exactly when they share no name and are not both
    empty. *)
Theorem calculateArraySimilarity_jaccard (array1 array2 : list string) :
  (forall array1' array2',
     (forall x, x ∈ array1 <-> x ∈ array1') ->
     (forall x, x ∈ array2 <-> x ∈ array2') ->
     calculateArraySimilarity array1 array2
     = calculateArraySimilarity array1' array2')
  /\ calculateArraySimilarity array1 array2 = calculateArraySimilarity array2 array1
  /\ (0 <= calculateArraySimilarity array1 array2 <= 1)%Q
  /\ ((calculateArraySimilarity array1 array2 == 1)%Q
      <-> forall x, x ∈ array1 <-> x ∈ array2)
  /\ ((calculateArraySimilarity array1 array2 == 0)%Q
      <-> (array1 <> [] \/ array2 <> [])
          /\ forall x, x ∈ array1 -> x ∉ array2).
Proof.
  split; [|apply calculateArraySimilarity_facts].
  intros array1' array2' Hs1 Hs2. unfold calculateArraySimilarity.
  destruct (list_to_set_same _ _ Hs1) as [-> ->].
  destruct (list_to_set_same _ _ Hs2) as [-> ->].
  reflexivity.
Qed.

End JaccardFacts.

Section FeatureSimilarityFacts.
Import Features.

Lemma calculateArraySimilarity_self (array : list string) :
  (calculateArraySimilarity array array == 1)%Q.
Proof. now apply calculateArraySimilarity_facts. Qed.

Lemma calculateArraySimilarity_range (array1 array2 : list string) :
  (0 <= calculateArraySimilarity array1 array2 <= 1)%Q.
Proof. apply calculateArraySimilarity_facts. Qed.

Lemma calculateArraySimilarity_comm (array1 array2 : list string) :
  calculateArraySimilarity array1 array2 = calculateArraySimilarity array2 array1.
Proof. apply calculateArraySimilarity_facts. Qed.

Lemma compareNames_comm (names1 names2 : option (list string)) :
  compareNames names1 names2 = compareNames names2 names1.
Proof.
  destruct names1, names2; simpl; try reflexivity.
  now rewrite calculateArraySimilarity_comm.
Qed.

(** Division by the number of comparisons made, 1 to 3. *)
Ltac average_counts :=
  unfold Qdiv;
  try change (/ inject_Z (Z.of_nat 3))%Q with (1 # 3)%Q;
  try change (/ inject_Z (Z.of_nat 2))%Q with (1 # 2)%Q;
  try change (/ inject_Z (Z.of_nat 1))%Q with 1%Q.

(** A guarded comparison adds a similarity between 0 and 1 when it counts,
    and nothing when it does not. *)
Lemma compareNames_cases (names1 names2 : option (list string)) :
  (exists s, compareNames names1 names2 = (s, 1%nat) /\ (0 <= s <= 1)%Q
             /\ names1 <> None /\ names2 <> None)
  \/ (compareNames names1 names2 = (0%Q, O) /\ (names1 = None \/ names2 = None)).
Proof.
  destruct names1 as [a1|], names2 as [a2|]; simpl; auto.
  left. eexists. split; [reflexivity|].
  split; [apply calculateArraySimilarity_range|]. split; discriminate.
Qed.

Lemma compareNames_self (names : option (list string)) :
  (exists s, compareNames names names = (s, 1%nat) /\ (s == 1)%Q /\ names <> None)
  \/ (compareNames names names = (0%Q, O) /\ names = None).
Proof.
  destruct names as [a|]; simpl; auto.
  left. eexists. split; [reflexivity|].
  split; [apply calculateArraySimilarity_self|discriminate].
Qed.

(** X19.  [calculateAWSFeatureSimilarity] averages the Jaccard indices of the
    label names and of the detected texts over the comparisons both sides
    allow.  It is symmetric and lies between 0 and 1; it is 0 when neither
    the labels nor the texts are present on both sides; and a feature record
    with labels or text is rated 1 against itself. *)
Theorem calculateAWSFeatureSimilarity_properties (features1 features2 : AwsFeatures) :
  calculateAWSFeatureSimilarity features1 features2
  = calculateAWSFeatureSimilarity features2 features1
  /\ (0 <= calculateAWSFeatureSimilarity features1 features2 <= 1)%Q
  /\ ((aws_labels features1 = None \/ aws_labels features2 = None) ->
      (aws_text features1 = None \/ aws_text features2 = None) ->
      calculateAWSFeatureSimilarity features1 features2 = 0%Q)
  /\ ((aws_labels features1 <> None \/ aws_text features1 <> None) ->
      (calculateAWSFeatureSimilarity features1 features1 == 1)%Q).
Proof.
  unfold calculateAWSFeatureSimilarity. split; [|split; [|split]].
  - now rewrite (compareNames_comm (aws_labels features1)),
                (compareNames_comm (aws_text features1)).
  - destruct (compareNames_cases (aws_labels features1) (aws_labels features2))
      as [(s1 & -> & H1 & _)|[-> _]];
    destruct (compareNames_cases (aws_text features1) (aws_text features2))
      as [(s2 & -> & H2 & _)|[-> _]];
    unfold averageOver; simpl; average_counts; lra.
  - intros Hl Ht.
    destruct (compareNames_cases (aws_labels features1) (aws_labels features2))
      as [(s1 & _ & _ & Hn1 & Hn2)|[-> _]]; [destruct Hl; contradiction|].
    destruct (compareNames_cases (aws_text features1) (aws_text features2))
      as [(s2 & _ & _ & Hn1 & Hn2)|[-> _]]; [destruct Ht; contradiction|].
    reflexivity.
  - intros Hsome.
    destruct (compareNames_self (aws_labels features1))
      as [(s1 & -> & H1 & _)|[-> Hl]];
    destruct (compareNames_self (aws_text features1))
      as [(s2 & -> & H2 & _)|[-> Ht]];
    unfold averageOver; simpl; average_counts; try lra.
    destruct Hsome; contradiction.
Qed.

Lemma calculateDominantColorSimilarity_comm (color1 color2 : AzureColor) :
  calculateDominantColorSimilarity color1 color2
  = calculateDominantColorSimilarity color2 color1.
Proof.
  unfold calculateDominantColorSimilarity. cbv zeta.
  rewrite (orb_comm (negb (truthy (dominantOf color2)))).
  destruct (_ || _); [reflexivity|].
  destruct (decide (dominantOf color1 = dominantOf color2)) as [He|Hne].
  - rewrite !bool_decide_eq_true_2; [reflexivity| |]; congruence.
  - rewrite !bool_decide_eq_false_2; [reflexivity| |]; congruence.
Qed.

Lemma compareColor_cases (color1 color2 : option AzureColor) :
  (exists s, compareColor color1 color2 = (s, 1%nat) /\ (0 <= s <= 1)%Q
             /\ color1 <> None /\ color2 <> None)
  \/ (compareColor color1 color2 = (0%Q, O) /\ (color1 = None \/ color2 = None)).
Proof.
  destruct color1 as [c1|], color2 as [c2|]; simpl; auto.
  left. eexists. split; [reflexivity|]. split; [|split; discriminate].
  unfold calculateDominantColorSimilarity. cbv zeta.
  destruct (_ || _); [split; discriminate|].
  destruct (bool_decide _); split; discriminate.
Qed.

Lemma compareColor_self (color : option AzureColor) :
  match color with
  | None => compareColor color color = (0%Q, O)
  | Some c =>
      compareColor color color
      = (if truthy (dominantOf c) then 1%Q else 0%Q, 1%nat)
  end.
Proof.
  destruct color as [c|]; simpl; [|reflexivity].
  unfold calculateDominantColorSimilarity. cbv zeta.
  destruct (truthy (dominantOf c)); simpl; [|reflexivity].
  now rewrite bool_decide_eq_true_2.
Qed.

(** X20.  [calculateAzureFeatureSimilarity] is symmetric, lies between 0 and
    1, and is 0 when none of objects, tags and colour is present on both
    sides.  Against itself an analysis is rated 1 when something is
    comparable and its colour summary, if present, names a dominant colour;
    an analysis whose colour summary names no dominant colour is rated
    below 1 against itself. *)
Theorem calculateAzureFeatureSimilarity_properties (analysis1 analysis2 : AzureAnalysis) :
  calculateAzureFeatureSimilarity analysis1 analysis2
  = calculateAzureFeatureSimilarity analysis2 analysis1
  /\ (0 <= calculateAzureFeatureSimilarity analysis1 analysis2 <= 1)%Q
  /\ ((az_objects analysis1 = None \/ az_objects analysis2 = None) ->
      (az_tags analysis1 = None \/ az_tags analysis2 = None) ->
      (az_color analysis1 = None \/ az_color analysis2 = None) ->
      calculateAzureFeatureSimilarity analysis1 analysis2 = 0%Q)
  /\ match az_color analysis1 with
     | None =>
         az_objects analysis1 <> None \/ az_tags analysis1 <> None ->
         (calculateAzureFeatureSimilarity analysis1 analysis1 == 1)%Q
     | Some color =>
         if truthy (dominantOf color)
         then (calculateAzureFeatureSimilarity analysis1 analysis1 == 1)%Q
         else (calculateAzureFeatureSimilarity analysis1 analysis1 < 1)%Q
     end.
Proof.
  unfold calculateAzureFeatureSimilarity. split; [|split; [|split]].
  - rewrite (compareNames_comm (az_objects analysis1)),
            (compareNames_comm (az_tags analysis1)).
    destruct (az_color analysis1) as [c1|], (az_color analysis2) as [c2|];
      simpl; try reflexivity.
    now rewrite calculateDominantColorSimilarity_comm.
  - destruct (compareNames_cases (az_objects analysis1) (az_objects analysis2))
      as [(s1 & -> & H1 & _)|[-> _]];
    destruct (compareNames_cases (az_tags analysis1) (az_tags analysis2))
      as [(s2 & -> & H2 & _)|[-> _]];
    destruct (compareColor_cases (az_color analysis1) (az_color analysis2))
      as [(s3 & -> & H3 & _)|[-> _]];
    unfold averageOver; simpl; average_counts; lra.
  - intros Ho Ht Hc.
    destruct (compareNames_cases (az_objects analysis1) (az_objects analysis2))
      as [(s1 & _ & _ & Hn1 & Hn2)|[-> _]]; [destruct Ho; contradiction|].
    destruct (compareNames_cases (az_tags analysis1) (az_tags analysis2))
      as [(s2 & _ & _ & Hn1 & Hn2)|[-> _]]; [destruct Ht; contradiction|].
    destruct (compareColor_cases (az_color analysis1) (az_color analysis2))
      as [(s3 & _ & _ & Hn1 & Hn2)|[-> _]]; [destruct Hc; contradiction|].
    reflexivity.
  - pose proof (compareColor_self (az_color analysis1)) as Hc.
    destruct (az_color analysis1) as [c|].
    + rewrite Hc.
      destruct (compareNames_self (az_objects analysis1))
        as [(s1 & -> & H1 & _)|[-> _]];
      destruct (compareNames_self (az_tags analysis1))
        as [(s2 & -> & H2 & _)|[-> _]];
      destruct (truthy (dominantOf c));
      unfold averageOver; simpl; average_counts; lra.
    + rewrite Hc. intros Hsome.
      destruct (compareNames_self (az_objects analysis1))
        as [(s1 & -> & H1 & _)|[-> Ho]];
      destruct (compareNames_self (az_tags analysis1))
        as [(s2 & -> & H2 & _)|[-> Ht]];
      unfold averageOver; simpl; average_counts; try lra.
      destruct Hsome; contradiction.
Qed.

End FeatureSimilarityFacts.

Section SortedPrefix.
Context {A : Type} (R : A -> A -> Prop).

Lemma take_sorted (n : nat) (l : list A) :
  StronglySorted R l -> StronglySorted R (take n l).
Proof.
  intros Hs. revert n. induction Hs as [|x l Hs IH Hx]; intros [|n]; simpl;
    try constructor.
  - apply IH.
  - now apply Forall_take.
Qed.

Lemma sorted_weaken (R' : A -> A -> Prop) (l : list A) :
  (forall a b, R a b -> R' a b) -> StronglySorted R l -> StronglySorted R' l.
Proof.
  intros HR Hs. induction Hs as [|x l Hs IH Hx]; constructor; [exact IH|].
  eapply Forall_impl; [exact Hx|]. intros b. apply HR.
Qed.

(** What a sorted list keeps in front precedes what it leaves behind. *)
Lemma take_sorted_top (n : nat) (l : list A) (a b : A) :
  StronglySorted R l -> a ∈ take n l -> b ∈ drop n l -> R a b.
Proof.
  intros Hs. revert n. induction Hs as [|x l Hs IH Hx]; intros [|n]; simpl;
    intros Ha Hb; try solve [inversion Ha].
  apply elem_of_cons in Ha as [->|Ha].
  - rewrite Forall_forall in Hx. apply Hx.
    apply list_elem_of_lookup_1 in Hb as [i Hi].
    rewrite lookup_drop in Hi.
    exact (list_elem_of_lookup_2 l (n + i) b Hi).
  - now apply (IH n).
Qed.

End SortedPrefix.

Section KeyPointFacts.
Import Similarity SimilarityExample FlatExample Features.

Lemma scanPositions_spec (x y : nat) :
  (x, y) ∈ scanPositions
  <-> (1 <= x <= 254)%nat /\ (1 <= y <= 254)%nat.
Proof.
  unfold scanPositions. rewrite list_elem_of_bind. split.
  - intros (y' & Hx & Hy). apply list_elem_of_bind in Hx as (x' & Hx & Hx').
    apply list_elem_of_singleton in Hx. injection Hx as -> ->.
    apply elem_of_seq in Hy, Hx'. lia.
  - intros [Hx Hy]. exists y. split; [|apply elem_of_seq; lia].
    apply list_elem_of_bind. exists x. split; [now left|apply elem_of_seq; lia].
Qed.

Lemma scan_pushes (grey : list Pixel) (kp : KeyPoint) :
  kp ∈ scanPositions ≫= keyPointAt grey <-> isEdge grey kp.
Proof.
  unfold isEdge. rewrite list_elem_of_bind. split.
  - intros ([x y] & Hkp & Hxy). apply scanPositions_spec in Hxy.
    unfold keyPointAt in Hkp. simpl in Hkp.
    destruct (edgeStrength grey x y) as [s|] eqn:Es; [|inversion Hkp].
    destruct (50 <? s)%Z eqn:Hs; [|inversion Hkp].
    apply list_elem_of_singleton in Hkp. subst kp. simpl.
    apply Z.ltb_lt in Hs. tauto.
  - intros (Hx & Hy & Es & Hs). exists (kp_x kp, kp_y kp).
    split; [|now apply scanPositions_spec].
    unfold keyPointAt. simpl. rewrite Es.
    apply Z.ltb_lt in Hs. rewrite Hs. destruct kp. now left.
Qed.

Lemma byStrengthDesc_sorted (l : list KeyPoint) :
  StronglySorted (fun a b => (kp_strength b <= kp_strength a)%Z)
                 (js_sort byStrengthDesc l).
Proof.
  pose proof (js_sort_sorted (fun kp => inject_Z (kp_strength kp))
                byStrengthDesc l) as Hs.
  eapply sorted_weaken; [|apply Hs].
  - intros a b Hab. simpl in Hab. now rewrite <- Zle_Qle in Hab.
  - intros a b _ _. unfold byStrengthDesc, Z.sub.
    now rewrite inject_Z_plus, inject_Z_opp.
Qed.

(** X21.  For a readable image [extractKeyPoints] returns at most 100 key
    points, strongest first.  Each is an inner cell of the 256 x 256
    greyscale image whose edge strength exceeds 50, recorded with that
    strength, and every such cell left out is no stronger than any key point
    returned; when fewer than 100 key points are returned, no such cell is
    left out. *)
Theorem extractKeyPoints_strongest_edges (J : Jimp) (imagePath : string)
    (image : Bitmap) :
  jimp_read J imagePath = Some image ->
  let grey := jimp_greyscale J (jimp_resize J 256 256 image) in
  exists keypoints,
    extractKeyPoints J imagePath = Some keypoints
    /\ (length keypoints <= 100)%nat
    /\ StronglySorted (fun a b => (kp_strength b <= kp_strength a)%Z) keypoints
    /\ (forall kp, kp ∈ keypoints -> isEdge grey kp)
    /\ (forall kp, isEdge grey kp -> kp ∉ keypoints ->
        forall kept, kept ∈ keypoints -> (kp_strength kp <= kp_strength kept)%Z)
    /\ ((length keypoints < 100)%nat ->
        forall kp, isEdge grey kp -> kp ∈ keypoints).
Proof.
  intros Hread grey. unfold extractKeyPoints. rewrite Hread. cbv zeta.
  fold grey. set (pushed := scanPositions ≫= keyPointAt grey).
  pose proof (byStrengthDesc_sorted pushed) as Hsorted.
  eexists. split; [reflexivity|]. split; [|split; [|split; [|split]]].
  - rewrite length_take. lia.
  - now apply take_sorted.
  - intros kp Hkp. apply scan_pushes. fold pushed.
    rewrite <- (js_sort_perm byStrengthDesc pushed).
    apply list_elem_of_lookup_1 in Hkp as [i Hi].
    apply lookup_take_Some in Hi as [Hi _].
    exact (list_elem_of_lookup_2 _ i kp Hi).
  - intros kp Hedge Hout kept Hkept.
    apply scan_pushes in Hedge. fold pushed in Hedge.
    rewrite <- (js_sort_perm byStrengthDesc pushed) in Hedge.
    rewrite <- (take_drop 100 (js_sort byStrengthDesc pushed)) in Hedge.
    apply elem_of_app in Hedge as [Hin|Hleft]; [contradiction|].
    exact (take_sorted_top _ 100 _ kept kp Hsorted Hkept Hleft).
  - intros Hfew kp Hedge.
    apply scan_pushes in Hedge. fold pushed in Hedge.
    rewrite <- (js_sort_perm byStrengthDesc pushed) in Hedge.
    rewrite length_take in Hfew.
    rewrite take_ge by lia. exact Hedge.
Qed.

(** The two-pixel example image becomes a dark upper and a bright lower
    half (grey 20 over grey 116): the cells of row 127 are edges of
    strength 96, so key points are returned. *)
Lemma extractKeyPoints_strongest_edges_witness :
  let grey := jimp_greyscale exampleJimp (jimp_resize exampleJimp 256 256 twoPixels) in
  isEdge grey (mkKeyPoint 1 127 96)
  /\ exists keypoints,
       extractKeyPoints exampleJimp "a.png" = Some keypoints
       /\ keypoints <> []
       /\ (length keypoints <= 100)%nat
       /\ StronglySorted (fun a b => (kp_strength b <= kp_strength a)%Z) keypoints
       /\ (forall kp, kp ∈ keypoints -> isEdge grey kp)
       /\ (forall kp, isEdge grey kp -> kp ∉ keypoints ->
           forall kept, kept ∈ keypoints ->
             (kp_strength kp <= kp_strength kept)%Z).
Proof.
  intros grey.
  assert (Hedge : isEdge grey (mkKeyPoint 1 127 96)).
  { unfold isEdge. simpl kp_x. simpl kp_y. simpl kp_strength.
    split; [lia|]. split; [lia|]. split; [lazy; reflexivity|lia]. }
  split; [exact Hedge|].
  destruct (extractKeyPoints_strongest_edges exampleJimp "a.png" twoPixels)
    as (keypoints & Hret & Hlen & Hsorted & Hedges & Htop & Hall);
    [reflexivity|].
  exists keypoints. split; [exact Hret|]. split.
  - intros Hnil. rewrite Hnil in Hall.
    assert (Hin : mkKeyPoint 1 127 96 ∈ @nil KeyPoint)
      by (apply Hall; [simpl; lia|exact Hedge]).
    inversion Hin.
  - split; [exact Hlen|]. split; [exact Hsorted|]. split; assumption.
Defined.

Lemma hasMatch_self (sqrt : Q -> Q) (keypoints : list KeyPoint) (kp : KeyPoint) :
  (sqrt 0 < 10)%Q -> kp ∈ keypoints -> hasMatch sqrt keypoints kp = true.
Proof.
  intros Hsqrt Hkp. unfold hasMatch. apply existsb_exists. exists kp.
  split; [now apply list_elem_of_In|].
  unfold near. cbv zeta. rewrite !Z.sub_diag. change (sq 0 + sq 0)%Z with 0%Z.
  apply negb_true_iff. apply not_true_is_false. intros Hle.
  apply Qle_bool_iff in Hle. change (inject_Z 0) with 0%Q in Hle. lra.
Qed.

Lemma compareKeyPoints_self (sqrt : Q -> Q) (keypoints : list KeyPoint) :
  (sqrt 0 < 10)%Q -> keypoints <> [] ->
  (compareKeyPoints sqrt keypoints keypoints == 1)%Q.
Proof.
  intros Hsqrt Hne. unfold compareKeyPoints.
  destruct keypoints as [|kp l]; [contradiction|].
  change ((length (kp :: l) =? 0)%nat) with false. cbv zeta.
  rewrite orb_false_l, Nat.max_id.
  assert (Hall : List.filter (hasMatch sqrt (kp :: l)) (kp :: l) = kp :: l).
  { apply forallb_filter_id. apply forallb_forall. intros x Hx.
    apply hasMatch_self; [exact Hsqrt|now apply list_elem_of_In]. }
  rewrite Hall. apply nat_ratio_one; [simpl; lia|reflexivity].
Qed.

(** X22.  [compareKeyPoints] lies between 0 and 1 and is 0 when either list
    is empty.  When the square root of 0 is below the threshold 10, a
    non-empty list is rated 1 against itself, so [calculateFeatureMatching]
    rates an image 1 against itself when it has key points, and 0 when it
    has none or cannot be read. *)
Theorem compareKeyPoints_properties (sqrt : Q -> Q)
    (keypoints1 keypoints2 : list KeyPoint) (J : Jimp) (imagePath : string) :
  (sqrt 0 < 10)%Q ->
  (0 <= compareKeyPoints sqrt keypoints1 keypoints2 <= 1)%Q
  /\ (keypoints1 = [] \/ keypoints2 = [] ->
      compareKeyPoints sqrt keypoints1 keypoints2 = 0%Q)
  /\ (keypoints1 <> [] -> (compareKeyPoints sqrt keypoints1 keypoints1 == 1)%Q)
  /\ match extractKeyPoints J imagePath with
     | Some (_ :: _) => (calculateFeatureMatching sqrt J imagePath imagePath == 1)%Q
     | _ => calculateFeatureMatching sqrt J imagePath imagePath = 0%Q
     end.
Proof.
  intros Hsqrt. split; [|split; [|split]].
  - unfold compareKeyPoints.
    destruct keypoints1 as [|kp1 l1]; [split; discriminate|].
    destruct keypoints2 as [|kp2 l2]; [split; discriminate|].
    change ((length (kp1 :: l1) =? 0)%nat) with false.
    change ((length (kp2 :: l2) =? 0)%nat) with false. cbv zeta.
    rewrite orb_false_l. apply nat_ratio_range; [|simpl; lia].
    etransitivity; [apply List.filter_length_le|]. apply Nat.le_max_l.
  - unfold compareKeyPoints. intros [-> | ->]; [reflexivity|].
    now rewrite orb_true_r.
  - now apply compareKeyPoints_self.
  - unfold calculateFeatureMatching.
    destruct (extractKeyPoints J imagePath) as [[|kp l]|]; try reflexivity.
    now apply compareKeyPoints_self.
Qed.

Lemma compareKeyPoints_properties_witness :
  (compareKeyPoints floorSqrt [mkKeyPoint 3 4 60] [mkKeyPoint 3 4 60] == 1)%Q
  /\ calculateFeatureMatching floorSqrt flatJimp "missing.png" "missing.png" = 0%Q.
Proof.
  destruct (compareKeyPoints_properties floorSqrt [mkKeyPoint 3 4 60] []
              flatJimp "missing.png") as (_ & _ & Hself & Hfile);
    [reflexivity|].
  split; [apply Hself; discriminate|exact Hfile].
Defined.

End KeyPointFacts.

(* --------------------------------------------------------------------- *)
(** ** Reports of the local-only detector                                 *)
(* --------------------------------------------------------------------- *)

Section SortedByOrder.
Context {A : Type} (cmp : A -> A -> Q) (R : A -> A -> Prop).
Hypothesis cmp_first : forall a b, (cmp a b <= 0)%Q -> R a b.
Hypothesis cmp_second : forall a b, ~ (cmp a b <= 0)%Q -> R b a.
Hypothesis R_trans : forall a b c, R a b -> R b c -> R a c.

Lemma sort_insert_ordered (x : A) (l : list A) :
  StronglySorted R l -> StronglySorted R (sort_insert cmp x l).
Proof using cmp_first cmp_second R_trans.
  intros Hs. induction Hs as [|y l Hs IH Hy]; simpl.
  - repeat constructor.
  - destruct (Qle_bool (cmp x y) 0) eqn:Hq.
    + apply Qle_bool_iff, cmp_first in Hq.
      constructor; [now constructor|].
      apply Forall_cons. split; [exact Hq|].
      eapply Forall_impl; [exact Hy|]. intros z Hz. now apply (R_trans x y z).
    + assert (Hyx : R y x).
      { apply cmp_second. intros H. apply Qle_bool_iff in H. congruence. }
      constructor; [exact IH|].
      apply Forall_forall. intros z Hz. rewrite sort_insert_perm in Hz.
      apply elem_of_cons in Hz as [->|Hz]; [exact Hyx|].
      rewrite Forall_forall in Hy. now apply Hy.
Qed.

Lemma js_sort_ordered (l : list A) : StronglySorted R (js_sort cmp l).
Proof using cmp_first cmp_second R_trans.
  induction l as [|x l IH]; simpl; [constructor|].
  now apply sort_insert_ordered.
Qed.

End SortedByOrder.

Section SortHead.
Context {A : Type} (cmp : A -> A -> Q).

(** The first element after sorting: the new element, unless the first of
    the sorted rest must precede it. *)
Lemma js_sort_head (x : A) (l : list A) :
  head (js_sort cmp (x :: l))
  = Some match head (js_sort cmp l) with
         | Some y => if Qle_bool (cmp x y) 0 then x else y
         | None => x
         end.
Proof.
  simpl. destruct (js_sort cmp l) as [|y rest]; simpl; [reflexivity|].
  now destruct (Qle_bool (cmp x y) 0).
Qed.

End SortHead.

Section RankingFacts.
Import Simplified SimplifiedReport.

Lemma bySizeThenDate_spec (a b : Image) :
  (bySizeThenDate a b <= 0)%Q <-> atLeastAsGood a b.
Proof.
  unfold bySizeThenDate, atLeastAsGood. cbv zeta.
  destruct (Z.eqb_spec (orZeroZ (img_fileSize b) - orZeroZ (img_fileSize a)) 0)
    as [He|Hne]; cbn [negb];
    change 0%Q with (inject_Z 0); rewrite <- Zle_Qle; lia.
Qed.

Lemma atLeastAsGood_trans (a b c : Image) :
  atLeastAsGood a b -> atLeastAsGood b c -> atLeastAsGood a c.
Proof. unfold atLeastAsGood. lia. Qed.

Lemma atLeastAsGood_total (a b : Image) :
  ~ atLeastAsGood a b -> atLeastAsGood b a.
Proof. unfold atLeastAsGood. lia. Qed.

Lemma ranking_sorted (l : list Image) :
  StronglySorted atLeastAsGood (js_sort bySizeThenDate l).
Proof.
  apply js_sort_ordered.
  - intros a b. apply bySizeThenDate_spec.
  - intros a b Hn. apply atLeastAsGood_total. now rewrite <- bySizeThenDate_spec.
  - apply atLeastAsGood_trans.
Qed.

(** One step of the [reduce] of [selectBestImage] keeps the image the
    comparator puts first. *)
Lemma better_spec (best current : Image) :
  better best current
  = if Qle_bool (bySizeThenDate best current) 0 then best else current.
Proof.
  unfold better. cbv zeta.
  destruct (Qle_bool (bySizeThenDate best current) 0) eqn:Hq.
  - apply Qle_bool_iff, bySizeThenDate_spec in Hq. unfold atLeastAsGood in Hq.
    repeat match goal with
           | |- context [(?x <? ?y)%Z] => destruct (Z.ltb_spec x y)
           end; try reflexivity; lia.
  - assert (Hn : ~ atLeastAsGood best current).
    { rewrite <- bySizeThenDate_spec, <- Qle_bool_iff. congruence. }
    unfold atLeastAsGood in Hn.
    repeat match goal with
           | |- context [(?x <? ?y)%Z] => destruct (Z.ltb_spec x y)
           end; try reflexivity; lia.
Qed.

Lemma better_cases (a b : Image) :
  (better a b = a /\ atLeastAsGood a b)
  \/ (better a b = b /\ ~ atLeastAsGood a b).
Proof.
  rewrite better_spec. destruct (Qle_bool _ 0) eqn:Hq.
  - left. split; [reflexivity|]. now apply bySizeThenDate_spec, Qle_bool_iff.
  - right. split; [reflexivity|].
    rewrite <- bySizeThenDate_spec, <- Qle_bool_iff. congruence.
Qed.

Lemma better_assoc (a b c : Image) :
  better (better a b) c = better a (better b c).
Proof.
  destruct (better_cases a b) as [[Eab Hab]|[Eab Hab]];
  destruct (better_cases b c) as [[Ebc Hbc]|[Ebc Hbc]];
  rewrite Eab, Ebc; try congruence.
  - destruct (better_cases a c) as [[Eac Hac]|[Eac Hac]]; rewrite Eac.
    + now rewrite Eab.
    + exfalso. apply Hac. eapply atLeastAsGood_trans; eassumption.
  - destruct (better_cases a c) as [[Eac Hac]|[Eac Hac]]; rewrite Eac.
    + exfalso. apply Hab. eapply atLeastAsGood_trans; [exact Hac|].
      now apply atLeastAsGood_total.
    + reflexivity.
Qed.

Lemma reduce_better (a b : Image) (l : list Image) :
  foldl better (better a b) l = better a (foldl better b l).
Proof.
  revert a b. induction l as [|c l IH]; intros a b; simpl; [reflexivity|].
  now rewrite better_assoc, IH.
Qed.

Lemma selectBestImage_head (l : list Image) :
  selectBestImage l = head (js_sort bySizeThenDate l).
Proof.
  destruct l as [|x l]; [reflexivity|]. unfold selectBestImage.
  revert x. induction l as [|y l IH]; intros x; [reflexivity|].
  rewrite js_sort_head, <- IH. cbn [foldl].
  rewrite reduce_better. f_equal. apply better_spec.
Qed.

End RankingFacts.

Section AbsorbedAny.
Context {B : Type}.

Lemma absorbed_split_any (U absorbed : list (nat * B)) :
  absorbed `sublist_of` U ->
  absorbed.*2
    ++ (filter (fun x => fst x ∉ (list_to_set absorbed.*1 : gset nat)) U).*2
  ⊆+ U.*2.
Proof.
  induction 1 as [|x ab U Hs IH|x ab U Hs IH].
  - reflexivity.
  - rewrite filter_cons_False by (simpl; set_solver).
    simpl. apply submseteq_skip. etransitivity; [|exact IH].
    apply submseteq_skips_l, sublist_submseteq, fmap_sublist, filter_weaken.
    intros y. simpl. set_solver.
  - rewrite filter_cons. destruct (decide _).
    + simpl. rewrite <- Permutation_middle. now apply submseteq_skip.
    + simpl. now apply submseteq_cons.
Qed.

End AbsorbedAny.

Section SimilarGroups.
Import Simplified SimplifiedReport.

Variable E : Env.

Lemma report_members_app (gs1 gs2 : list Group) :
  reportedImages (gs1 ++ gs2) = reportedImages gs1 ++ reportedImages gs2.
Proof. unfold reportedImages. now rewrite fmap_app, concat_app. Qed.

(** The images one seed absorbs: a sub-sequence of the images after it, none
    processed before, each matching the seed; their positions are what
    [processed] gains. *)
Lemma similar_scanLater (currentHash : string) (later : list (nat * Image))
    (s : gset nat * list Image) :
  exists absorbed : list (nat * Image),
    absorbed `sublist_of` later
    /\ Forall (fun x => fst x ∉ fst s) absorbed
    /\ Forall (fun x => matchesSeed E currentHash (snd x)) absorbed
    /\ snd (scanLater E currentHash later s) = snd s ++ absorbed.*2
    /\ fst (scanLater E currentHash later s) = list_to_set absorbed.*1 ∪ fst s.
Proof.
  revert s. induction later as [|[j image] later IH]; intros s; simpl.
  - exists []. split; [constructor|]. split; [constructor|].
    split; [constructor|]. split; [now rewrite app_nil_r|set_solver].
  - assert (Hskip : exists absorbed : list (nat * Image),
               absorbed `sublist_of` (j, image) :: later
               /\ Forall (fun x => fst x ∉ fst s) absorbed
               /\ Forall (fun x => matchesSeed E currentHash (snd x)) absorbed
               /\ snd (scanLater E currentHash later s) = snd s ++ absorbed.*2
               /\ fst (scanLater E currentHash later s)
                  = list_to_set absorbed.*1 ∪ fst s).
    { destruct (IH s) as (ab & Hsub & Hall & Hm & Hsnd & Hfst).
      exists ab. split; [now constructor|]. auto. }
    destruct (decide (j ∈ fst s)) as [Hj|Hj]; [exact Hskip|].
    destruct (env_perceptualHash E (img_path image)) as [compareHash|] eqn:Eh;
      [|exact Hskip].
    destruct (js_ge _ _) eqn:Hge; [|exact Hskip].
    destruct (IH ({[j]} ∪ fst s, snd s ++ [image]))
      as (ab & Hsub & Hall & Hm & Hsnd & Hfst).
    exists ((j, image) :: ab). simpl in *.
    split; [now constructor|]. split; [|split; [|split]].
    + apply Forall_cons. split; [exact Hj|].
      eapply Forall_impl; [exact Hall|]. simpl. set_solver.
    + apply Forall_cons. split; [|exact Hm]. now exists compareHash.
    + rewrite Hsnd, <- app_assoc. reflexivity.
    + rewrite Hfst. set_solver.
Qed.

(** The images held by the groups, plus the images still unprocessed, never
    exceed the array the scan started from. *)
Lemma similar_seedLoop_members (L : list Image) (items : list (nat * Image))
    (processed : gset nat) (groups : list Group) :
  reportedImages groups ++ (filter (fun x => fst x ∉ processed) items).*2 ⊆+ L ->
  reportedImages (seedLoop E items processed groups) ⊆+ L.
Proof.
  revert processed groups.
  induction items as [|[i cur] items IH]; intros processed groups Hinv; simpl.
  - now rewrite filter_nil, app_nil_r in Hinv.
  - destruct (decide (i ∈ processed)) as [Hi|Hi].
    + apply IH. rewrite filter_cons_False in Hinv by (simpl; tauto). exact Hinv.
    + rewrite filter_cons_True in Hinv by exact Hi. simpl in Hinv.
      destruct (env_perceptualHash E (img_path cur)) as [currentHash|].
      * destruct (similar_scanLater currentHash items ({[i]} ∪ processed, [cur]))
          as (ab & Hsub & Hall & _ & Hsnd & Hfst).
        simpl in Hall, Hsnd, Hfst. rewrite Hsnd, Hfst.
        assert (K : ab.*2
                    ++ (filter (fun x => fst x ∉ list_to_set ab.*1 ∪ ({[i]} ∪ processed))
                               items).*2
                    ⊆+ (filter (fun x => fst x ∉ processed) items).*2).
        { set (U := filter (fun x : nat * Image => fst x ∉ {[i]} ∪ processed) items).
          assert (HU : filter (fun x : nat * Image =>
                                 fst x ∉ list_to_set ab.*1 ∪ ({[i]} ∪ processed)) items
                       = filter (fun x : nat * Image =>
                                   fst x ∉ (list_to_set ab.*1 : gset nat)) U).
          { unfold U. rewrite list_filter_filter. apply list_filter_iff.
            intros x. set_solver. }
          rewrite HU. etransitivity.
          - apply absorbed_split_any. now apply sublist_filter_all.
          - apply sublist_submseteq, fmap_sublist, filter_weaken.
            intros x. set_solver. }
        apply IH. etransitivity; [|exact Hinv].
        destruct (1 <? length _)%nat.
        -- rewrite report_members_app. unfold reportedImages at 2. simpl.
           rewrite app_nil_r, <- app_assoc. apply submseteq_skips_l.
           simpl. apply submseteq_skip. exact K.
        -- apply submseteq_skips_l, submseteq_cons.
           etransitivity; [|exact K]. apply submseteq_inserts_l. reflexivity.
      * apply IH. etransitivity; [|exact Hinv].
        apply submseteq_skips_l, submseteq_cons.
        apply sublist_submseteq, fmap_sublist, filter_weaken.
        intros x. set_solver.
Qed.

Lemma detectPerceptualSimilarity_members (images : list Image) :
  reportedImages (detectPerceptualSimilarity E images) ⊆+ images.
Proof.
  unfold detectPerceptualSimilarity. apply similar_seedLoop_members.
  unfold reportedImages. simpl. rewrite filter_all.
  - rewrite snd_zip; [reflexivity|]. now rewrite length_seq.
  - apply Forall_forall. intros x _. set_solver.
Qed.

Lemma similar_seedLoop_seeded (items : list (nat * Image)) (processed : gset nat)
    (groups : list Group) :
  Forall (matchedGroup E) groups ->
  Forall (matchedGroup E) (seedLoop E items processed groups).
Proof.
  revert processed groups.
  induction items as [|[i cur] items IH]; intros processed groups Hg; simpl.
  - exact Hg.
  - destruct (decide (i ∈ processed)); [now apply IH|].
    destruct (env_perceptualHash E (img_path cur)) as [currentHash|] eqn:Eh;
      [|now apply IH].
    destruct (similar_scanLater currentHash items ({[i]} ∪ processed, [cur]))
      as (ab & _ & _ & Hm & Hsnd & _).
    simpl in Hsnd. apply IH. rewrite Hsnd.
    destruct (1 <? length _)%nat eqn:Hlen; [|exact Hg].
    apply Forall_app. split; [exact Hg|].
    apply Forall_cons. split; [|apply Forall_nil_2].
    split; [reflexivity|]. exists cur, currentHash, ab.*2.
    split; [reflexivity|]. split; [|split; [exact Eh|]].
    + intros Hnil. rewrite Hnil in Hlen. discriminate.
    + apply Forall_fmap. exact Hm.
Qed.

Lemma detectPerceptualSimilarity_seeded (images : list Image) :
  Forall (matchedGroup E) (detectPerceptualSimilarity E images).
Proof. apply similar_seedLoop_seeded. constructor. Qed.

End SimilarGroups.

Section SplitFacts.
Import Simplified SimplifiedReport.

(** Every group the split produces is the exact group of a map entry with
    two or more images. *)
Lemma splitS_inv_len (m : list (string * list Image)) (acc : list Group * list Image)
    (g : Group) :
  g ∈ fst (foldl splitStep acc m) ->
  g ∈ fst acc
  \/ exists k l, (k, l) ∈ m /\ (2 <= length l)%nat /\ g = exactGroup l.
Proof.
  revert acc. induction m as [|[k l] m IH]; intros [gs us] Hg; simpl in *;
    [now left|].
  apply IH in Hg as [Hg|(k' & l' & Hin & Hlen & ->)].
  - unfold splitStep in Hg. simpl in Hg.
    destruct (1 <? length l)%nat eqn:Hlen; simpl in Hg; [|now left].
    apply elem_of_app in Hg as [Hg|Hg]; [now left|].
    apply list_elem_of_singleton in Hg. right. exists k, l.
    apply Nat.ltb_lt in Hlen. split; [left|]. split; [lia|exact Hg].
  - right. exists k', l'. split; [now right|]. split; [exact Hlen|reflexivity].
Qed.

(** Every image the split sets aside comes from a map entry with at most
    one image. *)
Lemma splitS_unique (m : list (string * list Image)) (acc : list Group * list Image)
    (x : Image) :
  x ∈ snd (foldl splitStep acc m) ->
  x ∈ snd acc \/ exists k l, (k, l) ∈ m /\ (length l <= 1)%nat /\ x ∈ l.
Proof.
  revert acc. induction m as [|[k l] m IH]; intros [gs us] Hx; simpl in *;
    [now left|].
  apply IH in Hx as [Hx|(k' & l' & Hin & Hlen & Hx)].
  - unfold splitStep in Hx. simpl in Hx.
    destruct (1 <? length l)%nat eqn:Hlen; simpl in Hx; [now left|].
    apply elem_of_app in Hx as [Hx|Hx]; [now left|].
    right. exists k, l. apply Nat.ltb_ge in Hlen.
    split; [left|]. split; [exact Hlen|].
    destruct l as [|y l]; [inversion Hx|]. simpl in Hx.
    rewrite take_0 in Hx. apply list_elem_of_singleton in Hx. subst. left.
  - right. exists k', l'. split; [now right|]. split; assumption.
Qed.

(** The split loses and repeats nothing. *)
Lemma splitS_balance (m : list (string * list Image))
    (acc : list Group * list Image) :
  Forall (fun e => snd e <> []) m ->
  reportedImages (fst (foldl splitStep acc m)) ++ snd (foldl splitStep acc m)
  ≡ₚ (reportedImages (fst acc) ++ snd acc) ++ concat m.*2.
Proof.
  revert acc. induction m as [|[k l] m IH]; intros [gs us] Hm; simpl.
  - now rewrite app_nil_r.
  - apply Forall_cons in Hm as [Hl Hm]. simpl in Hl. rewrite IH by exact Hm.
    unfold splitStep. simpl. destruct (1 <? length l)%nat eqn:Hlen; simpl.
    + rewrite report_members_app. unfold reportedImages at 2. simpl.
      rewrite app_nil_r, <- !app_assoc. apply Permutation_app_head.
      apply Permutation_app_swap_app.
    + assert (Hone : take 1 l = l).
      { destruct l as [|x [|y l]]; [contradiction|reflexivity|discriminate]. }
      rewrite Hone, <- !app_assoc. reflexivity.
Qed.

End SplitFacts.

Section ReportFacts.
Import Simplified SimplifiedReport.

Variable E : Env.

Lemma buckets_nonempty (images : list Image) :
  Forall (fun e => snd e <> []) (groupByHash E images).
Proof.
  rewrite groupByHash_groupBy_stamped. apply fill_nonempty. constructor.
Qed.

(** A group before ranking is the exact group of a map entry with two or
    more images, or a seeded group of images that each fill a map entry
    alone. *)
Lemma collectGroups_inv (images : list Image) (g : Group) :
  g ∈ collectGroups E images ->
  (exists k l, (k, l) ∈ groupByHash E images /\ (2 <= length l)%nat
               /\ g = exactGroup l)
  \/ (matchedGroup E g
      /\ forall x, x ∈ grp_images g -> exists k, (k, [x]) ∈ groupByHash E images).
Proof.
  intros Hg. unfold collectGroups in Hg.
  change (splitHashGroups (groupByHash E images))
    with (foldl splitStep ([], []) (groupByHash E images)) in Hg.
  pose proof (splitS_inv_len (groupByHash E images) ([], []) g) as Hinv.
  pose proof (fun x => splitS_unique (groupByHash E images) ([], []) x) as Huniq.
  destruct (foldl splitStep _ _) as [dg ui]. simpl in Hinv, Huniq.
  assert (Hdg : g ∈ dg ->
                exists k l, (k, l) ∈ groupByHash E images /\ (2 <= length l)%nat
                            /\ g = exactGroup l).
  { intros Hin. destruct (Hinv Hin) as [Hnil|Hex]; [inversion Hnil|exact Hex]. }
  destruct (1 <? length ui)%nat; [|left; now apply Hdg].
  apply elem_of_app in Hg as [Hg|Hg]; [left; now apply Hdg|]. right. split.
  - pose proof (detectPerceptualSimilarity_seeded E ui) as Hs.
    rewrite Forall_forall in Hs. now apply Hs.
  - intros x Hx.
    assert (Hui : x ∈ ui).
    { eapply elem_of_submseteq; [|apply (detectPerceptualSimilarity_members E ui)].
      unfold reportedImages. apply list_elem_of_In, in_concat. exists (grp_images g).
      split; apply list_elem_of_In; [|exact Hx].
      apply list_elem_of_fmap. now exists g. }
    destruct (Huniq x Hui) as [Hnil|(k & l & Hin & Hlen & Hxl)]; [inversion Hnil|].
    exists k. destruct l as [|y [|z l]]; [inversion Hxl| |simpl in Hlen; lia].
    apply list_elem_of_singleton in Hxl. now subst.
Qed.

Lemma collected_images_stamped (images : list Image) :
  reportedImages (collectGroups E images) ⊆+ stamped E images.
Proof.
  unfold collectGroups.
  change (splitHashGroups (groupByHash E images))
    with (foldl splitStep ([], []) (groupByHash E images)).
  pose proof (splitS_balance (groupByHash E images) ([], [])
                (buckets_nonempty images)) as Hbal.
  destruct (foldl splitStep _ _) as [dg ui]. simpl in Hbal.
  rewrite groupByHash_groupBy_stamped, groupBy_partition in Hbal.
  rewrite <- Hbal. destruct (1 <? length ui)%nat.
  - rewrite report_members_app. apply submseteq_skips_l.
    apply detectPerceptualSimilarity_members.
  - apply submseteq_inserts_r. reflexivity.
Qed.

Lemma rankGroup_images (g : Group) : grp_images (rankGroup g) ≡ₚ grp_images g.
Proof. apply js_sort_perm. Qed.

Lemma reportedImages_ranked (groups : list Group) :
  reportedImages (rankImagesByQuality groups) ≡ₚ reportedImages groups.
Proof.
  unfold reportedImages, rankImagesByQuality.
  induction groups as [|g groups IH]; simpl; [reflexivity|].
  now rewrite IH, (js_sort_perm bySizeThenDate (grp_images g)).
Qed.

(** The group a ranked group came from. *)
Lemma detectDuplicates_inv (images : list Image) (g : Group) :
  g ∈ detectDuplicates E images ->
  exists g0, g0 ∈ collectGroups E images /\ g = rankGroup g0.
Proof.
  unfold detectDuplicates, rankImagesByQuality. intros Hg.
  apply list_elem_of_fmap in Hg as (g0 & -> & Hg0). now exists g0.
Qed.

(** The shape ranking gives a group of two or more images. *)
Lemma rankGroup_shape (g : Group) :
  (2 <= length (grp_images g))%nat ->
  exists keep candidates,
    grp_images (rankGroup g) = keep :: candidates
    /\ candidates <> []
    /\ grp_recommendedToKeep (rankGroup g) = Some keep
    /\ grp_candidatesForDeletion (rankGroup g) = Some candidates
    /\ Forall (atLeastAsGood keep) candidates.
Proof.
  intros Hlen. unfold rankGroup. cbv zeta. simpl.
  pose proof (js_sort_length bySizeThenDate (grp_images g)) as Hl.
  pose proof (ranking_sorted (grp_images g)) as Hs.
  destruct (js_sort bySizeThenDate (grp_images g)) as [|keep [|c cs]];
    simpl in Hl; try lia.
  exists keep, (c :: cs). split; [reflexivity|]. split; [discriminate|].
  split; [reflexivity|]. split; [reflexivity|].
  now apply StronglySorted_inv in Hs as [_ Hall].
Qed.

Lemma stamped_paths (images : list Image) :
  img_path <$> stamped E images `sublist_of` img_path <$> images.
Proof.
  unfold stamped. induction images as [|image images IH]; simpl; [constructor|].
  destruct (env_file E (img_path image)); simpl; now constructor.
Qed.

Lemma in_group_stamped (images : list Image) (g : Group) (x : Image) :
  g ∈ detectDuplicates E images -> x ∈ grp_images g -> x ∈ stamped E images.
Proof.
  intros Hg Hx.
  eapply elem_of_submseteq; [|apply collected_images_stamped].
  rewrite <- reportedImages_ranked. unfold reportedImages.
  apply list_elem_of_In, in_concat. exists (grp_images g).
  split; apply list_elem_of_In; [|exact Hx].
  apply list_elem_of_fmap. now exists g.
Qed.

End ReportFacts.

Section ReportTheorems.
Import Simplified SimplifiedExample SimplifiedReport LookalikeExample.

(** X23.  Every group the local-only [detectDuplicates] returns has type
    ['exact'] or ['similar'] and holds two or more images, each a stamped
    copy of a scanned image whose file could be read.  The images are
    sorted larger first and, among equally large ones, newer first;
    [recommendedToKeep] is the first image, [candidatesForDeletion] are all
    the others, and the recommended image is at least as good as every
    candidate. *)
Theorem simplified_detectDuplicates_ranked (E : Env) (images : list Image)
    (g : Group) :
  g ∈ detectDuplicates E images ->
  (grp_type g = "exact" \/ grp_type g = "similar")
  /\ StronglySorted atLeastAsGood (grp_images g)
  /\ Forall (fun x => x ∈ stamped E images) (grp_images g)
  /\ exists keep candidates,
       grp_images g = keep :: candidates
       /\ candidates <> []
       /\ grp_recommendedToKeep g = Some keep
       /\ grp_candidatesForDeletion g = Some candidates
       /\ Forall (atLeastAsGood keep) candidates.
Proof.
  intros Hg. pose proof (fun x => in_group_stamped E images g x Hg) as Hst.
  apply detectDuplicates_inv in Hg as (g0 & Hg0 & ->).
  split; [|split; [|split]].
  - destruct (collectGroups_inv E images g0 Hg0)
      as [(k & l & _ & _ & ->)|[[Ht _] _]]; [now left|now right].
  - apply ranking_sorted.
  - apply Forall_forall. exact Hst.
  - apply rankGroup_shape.
    destruct (collectGroups_inv E images g0 Hg0)
      as [(k & l & _ & Hlen & ->)|[(_ & seed & h & rest & Ei & Hrest & _) _]].
    + exact Hlen.
    + rewrite Ei. destruct rest; [contradiction|simpl; lia].
Qed.

Lemma simplified_detectDuplicates_ranked_witness :
  exists g keep candidates,
    g ∈ detectDuplicates exampleEnv exampleScan
    /\ grp_images g = keep :: candidates
    /\ grp_recommendedToKeep g = Some keep
    /\ Forall (atLeastAsGood keep) candidates.
Proof.
  destruct (detectDuplicates exampleEnv exampleScan) as [|g gs] eqn:Ed;
    [vm_compute in Ed; discriminate|].
  assert (Hg : g ∈ detectDuplicates exampleEnv exampleScan)
    by (rewrite Ed; left).
  destruct (simplified_detectDuplicates_ranked exampleEnv exampleScan g Hg)
    as (_ & _ & _ & keep & candidates & Ei & _ & Ek & _ & Hbest).
  exists g, keep, candidates. rewrite <- Ed. auto.
Defined.

(** X24.  The local-only detector reports no image twice: the images of all
    returned groups together are stamped copies of the scan, each used at
    most as often as it occurs there.  When the scanned paths are distinct,
    no path occurs twice among the images of the returned groups, within a
    group or across groups. *)
Theorem simplified_groups_disjoint (E : Env) (images : list Image) :
  reportedImages (detectDuplicates E images) ⊆+ stamped E images
  /\ (NoDup (img_path <$> images) ->
      NoDup (img_path <$> reportedImages (detectDuplicates E images))).
Proof.
  assert (Hsub : reportedImages (detectDuplicates E images) ⊆+ stamped E images).
  { unfold detectDuplicates. rewrite reportedImages_ranked.
    apply collected_images_stamped. }
  split; [exact Hsub|]. intros Hnd.
  apply (fmap_submseteq img_path) in Hsub.
  apply submseteq_sublist_l in Hsub as (paths & Hsl & Hperm).
  eapply sublist_NoDup; [|exact Hsl]. rewrite Hperm.
  eapply sublist_NoDup; [exact Hnd|apply stamped_paths].
Qed.

Lemma simplified_groups_disjoint_witness :
  NoDup (img_path <$> reportedImages (detectDuplicates lookalikeEnv lookalikeScan)).
Proof.
  apply (simplified_groups_disjoint lookalikeEnv lookalikeScan).
  repeat (apply NoDup_cons; split; [vm_compute; set_solver|]).
  apply NoDup_nil_2.
Defined.

(** X25.  [selectBestImage] and the ranking agree: the image the [reduce]
    of [selectBestImage] picks is the one [rankImagesByQuality] sorts to the
    front, so ranking a ['similar'] group never changes its recommendation.
    The image picked belongs to the array and is at least as good as every
    image of it: none is larger, and none equally large is newer. *)
Theorem selectBestImage_is_ranking_head (images : list Image) :
  selectBestImage images = head (js_sort bySizeThenDate images)
  /\ grp_recommendedToKeep (rankGroup (similarGroup images))
     = grp_recommendedToKeep (similarGroup images)
  /\ (images <> [] -> exists best, selectBestImage images = Some best)
  /\ (forall best, selectBestImage images = Some best ->
      best ∈ images /\ Forall (atLeastAsGood best) images).
Proof.
  pose proof (selectBestImage_head images) as Hhead.
  split; [exact Hhead|]. split; [|split].
  - simpl. now rewrite Hhead.
  - destruct images as [|x l]; [contradiction|]. intros _. now eexists.
  - intros best Hbest. rewrite Hhead in Hbest.
    pose proof (ranking_sorted images) as Hs.
    pose proof (js_sort_perm bySizeThenDate images) as Hp.
    destruct (js_sort bySizeThenDate images) as [|b rest]; [discriminate|].
    injection Hbest as ->. rewrite <- Hp. split; [left|].
    apply StronglySorted_inv in Hs as [_ Hall].
    apply Forall_cons. split; [|exact Hall].
    right. split; [reflexivity|lia].
Qed.

Lemma selectBestImage_is_ranking_head_witness :
  exists best,
    selectBestImage (stamped exampleEnv exampleScan) = Some best
    /\ Forall (atLeastAsGood best) (stamped exampleEnv exampleScan).
Proof.
  destruct (selectBestImage_is_ranking_head (stamped exampleEnv exampleScan))
    as (_ & _ & Hsome & Hbest).
  destruct Hsome as [best Eb]; [vm_compute; discriminate|].
  exists best. split; [exact Eb|]. now apply Hbest.
Defined.

(** X26.  A ['similar'] group holds a seed with a perceptual hash and, apart
    from it, only images whose perceptual hash matches the seed's at the
    similarity threshold or above (the other images need not match one
    another).  Every image of the group is the only readable scanned file
    with its size-digest key: files with equal content never end up in a
    ['similar'] group. *)
Theorem similar_groups_match_their_seed (E : Env) (images : list Image)
    (g : Group) :
  g ∈ detectDuplicates E images -> grp_type g = "similar" ->
  (exists seed currentHash rest,
     grp_images g ≡ₚ seed :: rest /\ rest <> []
     /\ env_perceptualHash E (img_path seed) = Some currentHash
     /\ Forall (matchesSeed E currentHash) rest)
  /\ Forall (fun x => filter (fun y => img_hash y = img_hash x) (stamped E images)
                     = [x])
            (grp_images g).
Proof.
  intros Hg Ht. apply detectDuplicates_inv in Hg as (g0 & Hg0 & ->).
  destruct (collectGroups_inv E images g0 Hg0)
    as [(k & l & _ & _ & ->)|[(_ & seed & h & rest & Ei & Hrest & Eh & Hm) Halone]];
    [discriminate|].
  split.
  - exists seed, h, rest. rewrite rankGroup_images, Ei. auto.
  - apply Forall_forall. intros x Hx. rewrite rankGroup_images in Hx.
    destruct (Halone x Hx) as [k Hk].
    rewrite groupByHash_groupBy_stamped in Hk.
    apply groupBy_entry in Hk.
    assert (Hkey : img_hash x = k).
    { assert (Hin : x ∈ filter (fun y => img_hash y = k) (stamped E images))
        by (rewrite <- Hk; left).
      now apply list_elem_of_filter in Hin as [Hin _]. }
    now rewrite Hkey.
Qed.

Lemma similar_groups_match_their_seed_witness :
  exists g seed currentHash rest,
    g ∈ detectDuplicates lookalikeEnv lookalikeScan
    /\ grp_images g ≡ₚ seed :: rest
    /\ Forall (matchesSeed lookalikeEnv currentHash) rest.
Proof.
  destruct (detectDuplicates lookalikeEnv lookalikeScan) as [|g gs] eqn:Ed;
    [vm_compute in Ed; discriminate|].
  assert (Hg : g ∈ detectDuplicates lookalikeEnv lookalikeScan)
    by (rewrite Ed; left).
  destruct (similar_groups_match_their_seed lookalikeEnv lookalikeScan g Hg)
    as [(seed & h & rest & Hp & _ & _ & Hm) _].
  - vm_compute in Ed. now injection Ed as <- _.
  - exists g, seed, h, rest. rewrite <- Ed. auto.
Defined.

(** X27.  An ['exact'] group holds every readable scanned file with the
    group's size-digest key and nothing else.  All its images have the same
    byte size, so the ranking orders them by modification time and
    [recommendedToKeep], the first image, is a most recently modified
    copy. *)
Theorem exact_groups_keep_newest_copy (E : Env) (images : list Image)
    (g : Group) :
  g ∈ detectDuplicates E images -> grp_type g = "exact" ->
  exists keep,
    grp_recommendedToKeep g = Some keep
    /\ grp_images g
       ≡ₚ filter (fun y => img_hash y = img_hash keep) (stamped E images)
    /\ Forall (fun x =>
                 img_fileSize x = img_fileSize keep
                 /\ (orZeroZ (img_lastModified x)
                     <= orZeroZ (img_lastModified keep))%Z)
              (grp_images g).
Proof.
  intros Hg Ht. pose proof (fun x => in_group_stamped E images g x Hg) as Hst.
  apply detectDuplicates_inv in Hg as (g0 & Hg0 & ->).
  destruct (collectGroups_inv E images g0 Hg0)
    as [(k & l & Hk & Hlen & ->)|[[Ht' _] _]];
    [|simpl in Ht; congruence].
  destruct (rankGroup_shape (exactGroup l) Hlen)
    as (keep & candidates & Ei & _ & Ek & _ & Hbest).
  rewrite groupByHash_groupBy_stamped in Hk. apply groupBy_entry in Hk.
  assert (Hkey : forall x, x ∈ grp_images (rankGroup (exactGroup l)) ->
                           img_hash x = k).
  { intros x Hx. rewrite rankGroup_images in Hx. simpl in Hx.
    rewrite Hk in Hx. now apply list_elem_of_filter in Hx as [Hx _]. }
  assert (Hsize : forall x, x ∈ grp_images (rankGroup (exactGroup l)) ->
                            img_fileSize x = img_fileSize keep).
  { intros x Hx.
    assert (Hkeep : keep ∈ grp_images (rankGroup (exactGroup l)))
      by (rewrite Ei; left).
    pose proof (Hkey x Hx) as Kx. pose proof (Hkey keep Hkeep) as Kk.
    apply Hst, stamped_inv in Hx as (ix & fx & _ & _ & ->).
    apply Hst, stamped_inv in Hkeep as (ik & fk & _ & _ & ->).
    simpl in *. rewrite <- Kk in Kx.
    apply combinedHash_inj in Kx as [Hn _]. now rewrite Hn. }
  exists keep. split; [exact Ek|]. split.
  - rewrite rankGroup_images. simpl. rewrite Hk.
    rewrite (Hkey keep) by (rewrite Ei; left). reflexivity.
  - apply Forall_forall. intros x Hx. split; [now apply Hsize|].
    rewrite Ei in Hx. apply elem_of_cons in Hx as [->|Hx]; [lia|].
    rewrite Forall_forall in Hbest. specialize (Hbest x Hx).
    assert (Hs : img_fileSize x = img_fileSize keep)
      by (apply Hsize; rewrite Ei; now right).
    unfold atLeastAsGood in Hbest. rewrite Hs in Hbest. lia.
Qed.

Lemma exact_groups_keep_newest_copy_witness :
  exists g keep,
    g ∈ detectDuplicates exampleEnv exampleScan
    /\ grp_recommendedToKeep g = Some keep
    /\ img_path keep = "/copy/b.jpg".
Proof.
  destruct (detectDuplicates exampleEnv exampleScan) as [|g gs] eqn:Ed;
    [vm_compute in Ed; discriminate|].
  assert (Hg : g ∈ detectDuplicates exampleEnv exampleScan)
    by (rewrite Ed; left).
  destruct (exact_groups_keep_newest_copy exampleEnv exampleScan g Hg)
    as (keep & Ek & _ & _).
  - vm_compute in Ed. now injection Ed as <- _.
  - exists g, keep. rewrite <- Ed. split; [exact Hg|]. split; [exact Ek|].
    vm_compute in Ed. injection Ed as <- _. simpl in Ek. now injection Ek as <-.
Defined.

End ReportTheorems.

(* --------------------------------------------------------------------- *)
(** ** Safety checks after detection                                      *)
(* --------------------------------------------------------------------- *)

Section SafetyChecksFacts.
Import FileSystem Consensus Enterprise EnterpriseExample SafetyChecks SafetyChecksExample.

Lemma flags_split (st : Store) (images : list Ref) :
  (recommendedCount st images
   + length (filter (fun r => img_recommended (deref st r) = false) images)
   = length images)%nat.
Proof.
  unfold recommendedCount. induction images as [|r images IH]; [reflexivity|].
  rewrite !filter_cons.
  destruct (img_recommended (deref st r)).
  - rewrite decide_True, decide_False by congruence. simpl. lia.
  - rewrite decide_False, decide_True by congruence. simpl. lia.
Qed.

Lemma recommendedCount_some (st : Store) (images : list Ref) :
  (1 <=? recommendedCount st images)%nat = true
  <-> exists r, r ∈ images /\ flag st r = true.
Proof.
  rewrite Nat.leb_le. split.
  - intros Hc. apply recommendedCount_pos. lia.
  - intros (r & Hr & Hf). unfold recommendedCount.
    assert (Hin : r ∈ filter (fun r => img_recommended (deref st r) = true) images)
      by (apply list_elem_of_filter; split; [exact Hf|exact Hr]).
    destruct (filter _ images); [inversion Hin|simpl; lia].
Qed.

(** The two checks of a group have the same verdict. *)
Lemma groupChecks_passed (st : Store) (g : Group) :
  chk_passed <$> groupChecks st g
  = [ (1 <=? recommendedCount st (grp_images g))%nat;
      (1 <=? recommendedCount st (grp_images g))%nat ].
Proof.
  unfold groupChecks. cbv zeta. cbn [fmap list_fmap chk_passed].
  fold (recommendedCount st (grp_images g)).
  pose proof (flags_split st (grp_images g)) as Hs.
  f_equal. f_equal.
  destruct (Nat.leb_spec 1 (recommendedCount st (grp_images g)));
    [apply Nat.ltb_lt|apply Nat.ltb_ge]; lia.
Qed.

Lemma groupPart_passed (st : Store) (groups : list Group) :
  forallb chk_passed (groups ≫= groupChecks st)
  = forallb (fun g => (1 <=? recommendedCount st (grp_images g))%nat) groups.
Proof.
  induction groups as [|g groups IH]; [reflexivity|].
  change ((g :: groups) ≫= groupChecks st)
    with (groupChecks st g ++ (groups ≫= groupChecks st)).
  rewrite forallb_app, IH.
  pose proof (groupChecks_passed st g) as Hg.
  destruct (groupChecks st g) as [|c1 [|c2 [|c3 l]]]; try discriminate.
  cbn [fmap list_fmap] in Hg. injection Hg as H1 H2.
  cbn [forallb]. rewrite H1, H2. now rewrite andb_true_r, andb_diag.
Qed.

Lemma groupPart_length (st : Store) (groups : list Group) :
  length (groups ≫= groupChecks st) = (2 * length groups)%nat.
Proof.
  induction groups as [|g groups IH]; [reflexivity|].
  change ((g :: groups) ≫= groupChecks st)
    with (groupChecks st g ++ (groups ≫= groupChecks st)).
  rewrite length_app, IH. simpl. lia.
Qed.

Lemma allFiles_spec (st : Store) (groups : list Group) (p : string) :
  p ∈ allFiles st groups
  <-> exists g r, g ∈ groups /\ r ∈ grp_images g /\ p = img_path (deref st r).
Proof.
  unfold allFiles. rewrite list_elem_of_bind. split.
  - intros (g & Hp & Hg). apply list_elem_of_fmap in Hp as (r & -> & Hr).
    now exists g, r.
  - intros (g & r & Hg & Hr & ->). exists g. split; [|exact Hg].
    apply list_elem_of_fmap. now exists r.
Qed.

Lemma verifyFilesExist_verified (w : World) (filePaths : list string) :
  Safety.ver_verified (Safety.verifyFilesExist w filePaths) = true
  <-> forall p, p ∈ filePaths -> is_Some (files w !! p).
Proof.
  unfold Safety.verifyFilesExist.
  destruct (verifyFilesExist_from w filePaths
              (Safety.mkVerification (length filePaths) 0 [] true))
    as (_ & _ & _ & Hv).
  rewrite Hv. simpl. rewrite bool_decide_eq_true. split.
  - intros Hnone p Hp. destruct (files w !! p) eqn:Ep; [now eexists|].
    assert (Hin : p ∈ filter (fun p => files w !! p = None) filePaths)
      by (apply list_elem_of_filter; now split).
    rewrite Hnone in Hin. inversion Hin.
  - intros Hall. destruct (filter _ filePaths) as [|p l] eqn:Ef; [reflexivity|].
    assert (Hin : p ∈ filter (fun p => files w !! p = None) filePaths)
      by (rewrite Ef; left).
    apply list_elem_of_filter in Hin as [Hn Hp].
    destruct (Hall p Hp) as [c Hc]. congruence.
Qed.

Lemma checks_passed (w : World) (st : Store) (groups : list Group) (c : Check) :
  forallb chk_passed ((groups ≫= groupChecks st) ++ [c])
  = forallb (fun g => (1 <=? recommendedCount st (grp_images g))%nat) groups
    && chk_passed c.
Proof.
  rewrite forallb_app, groupPart_passed. cbn [forallb].
  now rewrite andb_true_r.
Qed.

Lemma none_failed (checks : list Check) :
  forallb chk_passed checks = true ->
  filter (fun c => chk_passed c = false) checks = [].
Proof.
  induction checks as [|c checks IH]; [reflexivity|]. cbn [forallb].
  intros Hall. apply andb_true_iff in Hall as [Hc Hall].
  rewrite filter_cons_False by congruence. now apply IH.
Qed.

(** The safety pass on groups of existing images, no image held twice. *)
Lemma safety_pass_recommends (st : Store) (groups : list Group) :
  NoDup (members groups) ->
  Forall (fun g => grp_images g <> []
                   /\ Forall (fun r => (r < length st)%nat) (grp_images g)) groups ->
  exists st',
    verifySafetyBeforeReturn st groups = Ok (st', withSafetyVerified <$> groups)
    /\ (forall x, x ∉ members groups -> flag st' x = flag st x)
    /\ forall g, g ∈ groups -> exists r, r ∈ grp_images g /\ flag st' r = true.
Proof.
  intros Hnd Hall. revert st Hnd Hall.
  induction groups as [|g groups IH]; intros st Hnd Hall.
  - exists st. split; [reflexivity|]. split; [reflexivity|].
    intros g Hg. inversion Hg.
  - apply Forall_cons in Hall as [[Hne Hvalid] Hall].
    unfold members in Hnd. simpl in Hnd. fold (members groups) in Hnd.
    apply NoDup_app in Hnd as (Hndg & Hdisj & Hndr).
    destruct (verifyGroup_balance st g Hndg Hne Hvalid)
      as (st1 & Ev & Hl1 & Hout1 & Hsome & _).
    destruct (IH st1 Hndr) as (st2 & Ev2 & Hout2 & Hrest).
    { eapply Forall_impl; [exact Hall|]. simpl. intros g' [H1 H2].
      split; [exact H1|]. now rewrite Hl1. }
    exists st2. simpl. rewrite Ev, Ev2. split; [reflexivity|]. split.
    { intros x Hx. rewrite Hout2.
      - apply Hout1. intros Hin. apply Hx. unfold members. simpl.
        apply elem_of_app. now left.
      - intros Hin. apply Hx. unfold members. simpl. apply elem_of_app. now right. }
    intros g' Hg'. apply elem_of_cons in Hg' as [->|Hg']; [|now apply Hrest].
    destruct Hsome as (r & Hr & Hf). exists r. split; [exact Hr|].
    rewrite Hout2; [exact Hf|]. now apply Hdisj.
Qed.

(** With a progress callback that does not throw, every group
    [detectDuplicates] returns has a recommended image. *)
Lemma detectDuplicates_recommends (E : Env) (st : Store) :
  (forall a b, env_callbackThrows E a b = false) ->
  env_analysisBackupOk E = true ->
  exists st' groups,
    detectDuplicates E st = Ok (st', groups)
    /\ forall g, g ∈ groups -> exists r, r ∈ grp_images g /\ flag st' r = true.
Proof.
  intros Hquiet Hbackup. unfold detectDuplicates. rewrite Hbackup.
  pose proof (collectGroups_sizes E st) as Hbig.
  pose proof (collectGroups_members E st Hquiet) as Hmem.
  destruct (rankImagesWithML_spec (env_now E) (collectGroups E st) st)
    as (st1 & gs1 & Er & Hlen & HF & _).
  { eapply Forall_impl; [exact Hbig|]. exact big_nonempty. }
  rewrite Er.
  assert (Hmem1 : members gs1 ⊆+ seq 0 (length st))
    by now rewrite (ranked_members _ _ HF).
  pose proof (ranked_sizes _ _ HF Hbig) as Hbig1.
  destruct (safety_pass_recommends st1 gs1) as (st2 & Ev & _ & Hrec).
  - eapply submseteq_NoDup; [exact Hmem1|]. apply NoDup_seq.
  - apply Forall_forall. intros g Hg. split.
    + rewrite Forall_forall in Hbig1. now apply big_nonempty, Hbig1.
    + apply Forall_forall. intros r Hr. rewrite Hlen.
      assert (Hin : r ∈ seq 0 (length st)).
      { eapply elem_of_submseteq; [|exact Hmem1].
        eapply member_of_group; eassumption. }
      apply elem_of_seq in Hin. lia.
  - exists st2, (withSafetyVerified <$> gs1). split; [exact Ev|].
    intros g Hg. apply list_elem_of_fmap in Hg as (g1 & -> & Hg1).
    exact (Hrec g1 Hg1).
Qed.

(** X28.  [performSafetyChecks] pushes two checks per group and one for the
    files, and records them in [safetyChecks] whether or not it throws.  The
    two checks of a group always have the same verdict: both pass exactly
    when the group has a recommended image, so [not-deleting-all] never
    fails on its own.  The call returns exactly when every group has a
    recommended image and the file of every image in a group exists. *)
Theorem performSafetyChecks_verdict (w : World) (st : Store)
    (groups : list Group) (safetyChecks : list SafetyRecord) :
  let outcome := performSafetyChecks w st groups safetyChecks in
  (forall g, exists b,
      chk_passed <$> groupChecks st g = [b; b]
      /\ (b = true
          <-> exists r, r ∈ grp_images g /\ img_recommended (deref st r) = true))
  /\ (exists checks,
        snd outcome
        = safetyChecks
          ++ [mkSafetyRecord "duplicate-deletion" (is_ok (fst outcome)) checks]
        /\ length checks = (2 * length groups + 1)%nat
        /\ (is_ok (fst outcome) = true -> fst outcome = Ok checks))
  /\ (is_ok (fst outcome) = true
      <-> (forall g, g ∈ groups ->
             exists r, r ∈ grp_images g /\ img_recommended (deref st r) = true)
          /\ (forall g r, g ∈ groups -> r ∈ grp_images g ->
                is_Some (files w !! img_path (deref st r)))).
Proof.
  intros outcome. split; [|split].
  - intros g. exists (1 <=? recommendedCount st (grp_images g))%nat.
    split; [apply groupChecks_passed|apply recommendedCount_some].
  - unfold outcome, performSafetyChecks. cbv zeta.
    destruct (forallb chk_passed _) eqn:Hall; cbn [negb fst snd is_ok];
      eexists; (split; [reflexivity|]);
      rewrite length_app, groupPart_length; simpl; (split; [lia|]);
      [reflexivity|discriminate].
  - assert (Hok : is_ok (fst outcome)
                  = forallb (fun g => (1 <=? recommendedCount st (grp_images g))%nat)
                            groups
                    && Safety.ver_verified
                         (Safety.verifyFilesExist w (allFiles st groups))).
    { unfold outcome, performSafetyChecks. cbv zeta.
      rewrite (checks_passed w). cbn [chk_passed].
      now destruct (_ && _). }
    rewrite Hok, andb_true_iff, forallb_forall, verifyFilesExist_verified.
    split; intros [Hrec Hfiles]; split.
    + intros g Hg. apply recommendedCount_some, Hrec. now apply list_elem_of_In.
    + intros g r Hg Hr. apply Hfiles, allFiles_spec. now exists g, r.
    + intros g Hg. apply recommendedCount_some, Hrec. now apply list_elem_of_In.
    + intros p Hp. apply allFiles_spec in Hp as (g & r & Hg & Hr & ->).
      now apply (Hfiles g r).
Qed.

(** X29.  With a progress callback that does not throw and the analysis
    backup written, the [detect-duplicates] handler can fail in one way
    only: it returns the groups of [detectDuplicates] when the file of
    every image in a group exists, and otherwise throws
    ['Safety checks failed: files-exist'], the checks on the groups never
    being among the failed ones.  Either way one record is added to
    [safetyChecks]. *)
Theorem detectDuplicatesHandler_fails_only_on_missing_files (E : Env) (w : World)
    (st : Store) (safetyChecks : list SafetyRecord) :
  (forall a b, env_callbackThrows E a b = false) ->
  env_analysisBackupOk E = true ->
  exists st' groups,
    detectDuplicates E st = Ok (st', groups)
    /\ ((forall p, p ∈ allFiles st' groups -> is_Some (files w !! p)) ->
        fst (detectDuplicatesHandler E w st safetyChecks) = Ok (st', groups))
    /\ ((exists p, p ∈ allFiles st' groups /\ files w !! p = None) ->
        fst (detectDuplicatesHandler E w st safetyChecks)
        = Throw "Safety checks failed: files-exist")
    /\ length (snd (detectDuplicatesHandler E w st safetyChecks))
       = S (length safetyChecks).
Proof.
  intros Hquiet Hbackup.
  destruct (detectDuplicates_recommends E st Hquiet Hbackup)
    as (st' & groups & Ed & Hrec).
  exists st', groups. split; [exact Ed|].
  assert (Hgroups : forallb (fun g => (1 <=? recommendedCount st' (grp_images g))%nat)
                            groups = true).
  { apply forallb_forall. intros g Hg.
    apply recommendedCount_some, Hrec. now apply list_elem_of_In. }
  unfold detectDuplicatesHandler. rewrite Ed.
  unfold performSafetyChecks. cbv zeta.
  rewrite (checks_passed w), Hgroups. cbn [chk_passed andb].
  destruct (Safety.ver_verified (Safety.verifyFilesExist w (allFiles st' groups)))
    eqn:Hv; cbn [negb fst snd].
  - split; [reflexivity|]. split.
    + intros (p & Hp & Hnone).
      destruct (proj1 (verifyFilesExist_verified _ _) Hv p Hp) as [c Hc].
      congruence.
    + rewrite length_app. simpl. lia.
  - split; [|split].
    + intros Hall. apply (proj2 (verifyFilesExist_verified _ _)) in Hall.
      congruence.
    + intros _. rewrite filter_app, none_failed
        by (now rewrite groupPart_passed).
      rewrite filter_cons_True by reflexivity. reflexivity.
    + rewrite length_app. simpl. lia.
Qed.

Lemma detectDuplicatesHandler_fails_only_on_missing_files_witness :
  is_ok (fst (detectDuplicatesHandler (quiet twoProviders) picsOnDisk mixedFolder []))
  = true
  /\ fst (detectDuplicatesHandler (quiet twoProviders) picsWithoutB mixedFolder [])
     = Throw "Safety checks failed: files-exist".
Proof.
  split.
  - destruct (detectDuplicatesHandler_fails_only_on_missing_files
                (quiet twoProviders) picsOnDisk mixedFolder [])
      as (st' & groups & Ed & Hok & _); [reflexivity|reflexivity|].
    rewrite Hok; [reflexivity|].
    vm_compute in Ed. injection Ed as <- <-.
    intros p Hp. apply list_elem_of_In in Hp. vm_compute in Hp.
    destruct Hp as [<-|[<-|[<-|[<-|[]]]]]; vm_compute; eexists; reflexivity.
  - destruct (detectDuplicatesHandler_fails_only_on_missing_files
                (quiet twoProviders) picsWithoutB mixedFolder [])
      as (st' & groups & Ed & _ & Hfail & _); [reflexivity|reflexivity|].
    apply Hfail. exists "/pics/b.jpg".
    vm_compute in Ed. injection Ed as <- <-.
    split; [apply list_elem_of_In; vm_compute; tauto|vm_compute; reflexivity].
Defined.

Lemma bulkDelete_from (st : Store) (groups : list Group) (keepRecommended : bool)
    (acc : list string) :
  foldl (fun filesToDelete g =>
           if keepRecommended then
             let imagesToDelete := drop 1 (grp_images g) in
             filesToDelete ++ ((fun r => img_path (deref st r)) <$> imagesToDelete)
           else
             let imagesToDelete := drop 1 (grp_images g) in
             filesToDelete ++ ((fun r => img_path (deref st r)) <$> imagesToDelete))
        acc groups
  = acc ++ (groups ≫= fun g =>
              (fun r => img_path (deref st r)) <$> deletionCandidates g).
Proof.
  revert acc. induction groups as [|g groups IH]; intros acc; simpl.
  - now rewrite app_nil_r.
  - rewrite IH. unfold deletionCandidates.
    destruct keepRecommended; cbv zeta; now rewrite <- app_assoc.
Qed.

(** The candidates of groups in which only the first image is
    recommended are the images not recommended. *)
Lemma candidates_are_unrecommended (st : Store) (groups : list Group) :
  Forall (fun g => exists first rest,
              grp_images g = first :: rest
              /\ flag st first = true
              /\ Forall (fun x => flag st x = false) rest) groups ->
  groups ≫= deletionCandidates
  = filter (fun r => img_recommended (deref st r) = false) (members groups)
  /\ (length (groups ≫= deletionCandidates) + length groups
      = length (members groups))%nat.
Proof.
  induction 1 as [|g groups (first & rest & Eg & Hf & Hr) Hall [IH1 IH2]];
    [split; reflexivity|].
  change ((g :: groups) ≫= deletionCandidates)
    with (deletionCandidates g ++ (groups ≫= deletionCandidates)).
  change (members (g :: groups)) with (grp_images g ++ members groups).
  unfold deletionCandidates at 1 3. rewrite Eg. simpl drop. rewrite drop_0.
  split.
  - rewrite filter_app, <- IH1. f_equal.
    unfold flag in Hf. rewrite filter_cons_False by congruence.
    symmetry. now apply filter_all.
  - rewrite !length_app. simpl. lia.
Qed.

(** X30.  [bulkDelete] ignores [keepRecommended]: it lists the paths of all
    images but the first of each group, whatever their flags.  Applied to
    what [detectDuplicates] returns for images that arrive without a
    [recommended] flag (progress callback not throwing, analysis backup
    written), the list is exactly the paths of the images of the groups
    that are not recommended, one image fewer than each group holds. *)
Theorem bulkDelete_lists_the_unrecommended (E : Env) (st : Store)
    (keepRecommended : bool) :
  Forall (fun i => img_recommended i = false) st ->
  (forall a b, env_callbackThrows E a b = false) ->
  env_analysisBackupOk E = true ->
  exists st' groups,
    detectDuplicates E st = Ok (st', groups)
    /\ bulkDelete st' groups keepRecommended
       = (fun r => img_path (deref st' r))
           <$> filter (fun r => img_recommended (deref st' r) = false)
                      (members groups)
    /\ (length (bulkDelete st' groups keepRecommended) + length groups
        = length (members groups))%nat
    /\ forall st0 groups0, bulkDelete st0 groups0 true = bulkDelete st0 groups0 false.
Proof.
  intros Hflags Hquiet Hbackup. unfold detectDuplicates. rewrite Hbackup.
  pose proof (collectGroups_sizes E st) as Hbig.
  pose proof (collectGroups_members E st Hquiet) as Hmem.
  destruct (rankImagesWithML_spec (env_now E) (collectGroups E st) st)
    as (st1 & gs1 & Er & _).
  { eapply Forall_impl; [exact Hbig|]. exact big_nonempty. }
  rewrite Er.
  pose proof (one_recommended_after_ranking (env_now E) st st1 _ gs1
                Hflags Hmem Hbig Er) as Hone.
  exists st1, (withSafetyVerified <$> gs1). split.
  { apply verifySafetyBeforeReturn_keeps. apply Forall_forall. intros g Hg.
    destruct (Hone g Hg) as (Hb & _ & first & rest & Eg & Hf & Hr).
    split; [exact Hb|]. rewrite Eg. now apply recommendedCount_one. }
  assert (Hshape : Forall (fun g => exists first rest,
                             grp_images g = first :: rest
                             /\ flag st1 first = true
                             /\ Forall (fun x => flag st1 x = false) rest)
                          (withSafetyVerified <$> gs1)).
  { apply Forall_forall. intros g Hg.
    apply list_elem_of_fmap in Hg as (g1 & -> & Hg1).
    destruct (Hone g1 Hg1) as (_ & _ & first & rest & Eg & Hf & Hr).
    now exists first, rest. }
  destruct (candidates_are_unrecommended st1 _ Hshape) as [Hc Hl].
  assert (Hbind : forall k,
             bulkDelete st1 (withSafetyVerified <$> gs1) k
             = (fun r => img_path (deref st1 r))
                 <$> ((withSafetyVerified <$> gs1) ≫= deletionCandidates)).
  { intros k. unfold bulkDelete. rewrite bulkDelete_from. simpl.
    generalize (withSafetyVerified <$> gs1). intros gs.
    induction gs as [|g gs IH]; [reflexivity|].
    change ((g :: gs) ≫= deletionCandidates)
      with (deletionCandidates g ++ (gs ≫= deletionCandidates)).
    rewrite fmap_app, <- IH. reflexivity. }
  split; [now rewrite Hbind, Hc|]. split.
  - rewrite Hbind, length_fmap. exact Hl.
  - intros st0 groups0. reflexivity.
Qed.

Lemma bulkDelete_lists_the_unrecommended_witness :
  exists st' groups,
    detectDuplicates (quiet twoProviders) mixedFolder = Ok (st', groups)
    /\ bulkDelete st' groups true
       = (fun r => img_path (deref st' r))
           <$> filter (fun r => img_recommended (deref st' r) = false)
                      (members groups).
Proof.
  destruct (bulkDelete_lists_the_unrecommended (quiet twoProviders) mixedFolder true)
    as (st' & groups & Ed & Hb & _).
  - repeat constructor.
  - intros a b. reflexivity.
  - reflexivity.
  - exists st', groups. split; [exact Ed|exact Hb].
Defined.

End SafetyChecksFacts.
